(** * Maze search with a spreading fire: a shallow embedding of
      [Algorithm.py] and [MapGenerator.py], and the properties of their
      specification.

    Python values are modelled as follows.
    - Integers are [Z]; a position [(x, y)] is a pair of integers.
    - A list is a [list]; indexing follows Python (a negative index counts
      from the end, an index out of range raises [IndexError]).
    - A dict is a [gmap], a set is a [gset].
    - A call either returns, raises, or (for the [while] loops, which are
      modelled with fuel) runs out of fuel; the last case is shown not to
      happen. *)

From Stdlib Require Import ZArith QArith.QArith_base QArith.Qround List Ascii String Lia Lqa.
From Stdlib Require Import Reals Qreals Lra.
From stdpp Require Import base option list gmap.

Local Open Scope Z_scope.
(** ** Outcomes of a Python call *)

Inductive exn : Set := IndexError | KeyError.

Inductive outcome (A : Type) : Type :=
| Ret (a : A)
| Raise (e : exn)
| OutOfFuel.
Arguments Ret {A} a.
Arguments Raise {A} e.
Arguments OutOfFuel {A}.

#[global] Instance outcome_ret : MRet outcome := @Ret.
#[global] Instance outcome_bind : MBind outcome := λ A B f m,
  match m with
  | Ret a => f a
  | Raise e => Raise e
  | OutOfFuel => OutOfFuel
  end.

(** A [for] loop whose body may raise. *)
Fixpoint foldM {A S : Type} (f : S → A → outcome S) (l : list A) (s : S)
  : outcome S :=
  match l with
  | [] => Ret s
  | a :: l' => s' ← f s a; foldM f l' s'
  end.

(** ** Python lists *)

(** [l[i]] *)
Definition getitem {A : Type} (l : list A) (i : Z) : outcome A :=
  let j := if i <? 0 then i + Z.of_nat (length l) else i in
  if j <? 0 then Raise IndexError
  else match l !! Z.to_nat j with
       | Some a => Ret a
       | None => Raise IndexError
       end.

(** [l[i] = v] *)
Definition setitem {A : Type} (l : list A) (i : Z) (v : A) : outcome (list A) :=
  let j := if i <? 0 then i + Z.of_nat (length l) else i in
  if j <? 0 then Raise IndexError
  else if j <? Z.of_nat (length l) then Ret (<[Z.to_nat j := v]> l)
  else Raise IndexError.

(** [m[y][x]] *)
Definition get2 {A : Type} (m : list (list A)) (x y : Z) : outcome A :=
  row ← getitem m y; getitem row x.

(** [m[y][x] = v] : the row object is updated in place; the rows of every
    matrix built below are distinct objects (list comprehensions), so the
    update touches one row only. *)
Definition set2 {A : Type} (m : list (list A)) (x y : Z) (v : A)
  : outcome (list (list A)) :=
  row ← getitem m y; row' ← setitem row x v; setitem m y row'.

(** ** Grids, positions, fire times *)

Abbreviation pos := (Z * Z)%type.
Abbreviation grid := (list (list ascii)).

(** A fire time is an integer or [INF = float("inf")]. *)
Inductive ftime : Set := Fin (t : Z) | INF.

Abbreviation fire_map := (list (list ftime)).

(** [a > b] *)
Definition ftime_gt (a b : ftime) : bool :=
  match a, b with
  | Fin x, Fin y => y <? x
  | Fin _, INF => false
  | INF, Fin _ => true
  | INF, INF => false
  end.

(** [a <= b] *)
Definition ftime_le (a b : ftime) : bool :=
  match a, b with
  | Fin x, Fin y => x <=? y
  | Fin _, INF => true
  | INF, Fin _ => false
  | INF, INF => true
  end.

(** [t + 1] *)
Definition ftime_succ (t : ftime) : ftime :=
  match t with
  | Fin x => Fin (x + 1)
  | INF => INF
  end.

Definition is_wall (c : ascii) : bool := Ascii.eqb c "#".
Definition is_fire (c : ascii) : bool := Ascii.eqb c "F".

(** [[(0, 1), (0, -1), (1, 0), (-1, 0)]] *)
Definition directions : list (Z * Z) := [(0, 1); (0, -1); (1, 0); (-1, 0)].

(** [0 <= x < cols and 0 <= y < rows] *)
Definition in_bounds (rows cols x y : Z) : bool :=
  (0 <=? x) && (x <? cols) && (0 <=? y) && (y <? rows).

(** [len(grid)] and [len(grid[0])] *)
Definition grid_dims (g : grid) : outcome (Z * Z) :=
  row0 ← getitem g 0;
  Ret (Z.of_nat (length g), Z.of_nat (length row0)).

(** ** [compute_fire_time] *)

Module FireTime.

(** State of the propagation: the matrix and the deque. *)
Abbreviation state := (fire_map * list pos)%type.

(** Body of the seeding loops: [if grid[y][x] == 'F': ...]. *)
Definition seed_cell (g : grid) (y : Z) (st : state) (x : Z) : outcome state :=
  let '(ft, q) := st in
  c ← get2 g x y;
  if is_fire c then
    ft' ← set2 ft x y (Fin 0);
    Ret (ft', q ++ [(x, y)])
  else Ret st.

Definition seed_row (g : grid) (cols : Z) (st : state) (y : Z) : outcome state :=
  foldM (seed_cell g y) (seqZ 0 cols) st.

Definition seed (g : grid) (rows cols : Z) (st : state) : outcome state :=
  foldM (seed_row g cols) (seqZ 0 rows) st.

(** Body of the loop over the four directions, for the cell [(x, y)]
    popped with time [t]. *)
Definition spread (g : grid) (rows cols x y : Z) (t : ftime)
    (st : state) (d : Z * Z) : outcome state :=
  let '(ft, q) := st in
  let nx := x + d.1 in
  let ny := y + d.2 in
  if negb (in_bounds rows cols nx ny) then Ret st
  else
    c ← get2 g nx ny;
    if is_wall c then Ret st
    else
      v ← get2 ft nx ny;
      if ftime_gt v (ftime_succ t) then
        ft' ← set2 ft nx ny (ftime_succ t);
        Ret (ft', q ++ [(nx, ny)])
      else Ret st.

(** One iteration of [while q]. *)
Definition step (g : grid) (rows cols : Z) (ft : fire_map) (p : pos)
    (q : list pos) : outcome state :=
  t ← get2 ft p.1 p.2;
  foldM (spread g rows cols p.1 p.2 t) directions (ft, q).

Fixpoint loop (fuel : nat) (g : grid) (rows cols : Z) (st : state)
  : outcome fire_map :=
  match st with
  | (ft, []) => Ret ft
  | (ft, p :: q) =>
      match fuel with
      | O => OutOfFuel
      | S fuel' =>
          st' ← step g rows cols ft p q;
          loop fuel' g rows cols st'
      end
  end.

(** Enough iterations for any grid of [n] cells (see [loop_terminates]). *)
Definition fuel_for (n : nat) : nat := S (n * (n + 2)).

Definition compute_fire_time (g : grid) : outcome fire_map :=
  '(rows, cols) ← grid_dims g;
  let ft0 := replicate (Z.to_nat rows) (replicate (Z.to_nat cols) INF) in
  st ← seed g rows cols (ft0, []);
  loop (fuel_for (Z.to_nat (rows * cols))) g rows cols st.

End FireTime.

(** ** Specification vocabulary *)

(** The entry of a matrix at a position, when the position is inside. *)
Definition at2 {A : Type} (m : list (list A)) (p : pos) : option A :=
  if decide (0 ≤ p.1 ∧ 0 ≤ p.2)
  then m !! Z.to_nat p.2 ≫= λ row, row !! Z.to_nat p.1
  else None.

(** [m] has [R] rows of [C] entries each. *)
Definition shape {A : Type} (R C : nat) (m : list (list A)) : Prop :=
  length m = R ∧ Forall (λ row, length row = C) m.

(** A grid as the specification has it: at least one row, all rows of the
    length of the first. *)
Definition rectangular (g : grid) : Prop :=
  g ≠ [] ∧ shape (length g) (length (hd [] g)) g.

(** In the grid and not a wall. *)
Definition passable (g : grid) (p : pos) : Prop :=
  ∃ c, at2 g p = Some c ∧ is_wall c = false.

(** 4-adjacency. *)
Definition adjacent (p q : pos) : Prop :=
  ∃ d, d ∈ directions ∧ q = (p.1 + d.1, p.2 + d.2).

(** [fire_reaches g n p]: there is a walk of [n] steps from some ['F'] cell
    to [p], each step to a 4-adjacent cell of the grid that is not a wall. *)
Inductive fire_reaches (g : grid) : nat → pos → Prop :=
| fire_source p :
    at2 g p = Some "F"%char → fire_reaches g 0 p
| fire_spread n p q :
    fire_reaches g n p → adjacent p q → passable g q →
    fire_reaches g (S n) q.

(** [d] is the length of a shortest such walk to [p]. *)
Definition fire_distance (g : grid) (p : pos) (d : nat) : Prop :=
  fire_reaches g d p ∧ ∀ n, fire_reaches g n p → (d ≤ n)%nat.

(** Sum of a measure over the entries of a matrix. *)
Definition sum2 {A : Type} (f : A → nat) (m : list (list A)) : nat :=
  sum_list_with (λ row, sum_list_with f row) m.

(** ** Invariants of the fire propagation *)

Module FireInv.

(** Termination measure: an entry weighs its time, [INF] weighs more than
    any time a matrix of [N] entries can hold. *)
Definition weight (N : nat) (t : ftime) : nat :=
  match t with
  | Fin v => Z.to_nat v
  | INF => S N
  end.

Definition finite (t : ftime) : nat :=
  match t with
  | Fin _ => 1
  | INF => 0
  end.

Definition potential (N : nat) (ft : fire_map) (q : list pos) : nat :=
  sum2 (weight N) ft + length q.

(** The neighbour of [p] in direction [d] has been served by [p]. *)
Definition served (g : grid) (ft : fire_map) (p : pos) (v : Z) (d : Z * Z)
  : Prop :=
  passable g (p.1 + d.1, p.2 + d.2) →
  ∃ v', at2 ft (p.1 + d.1, p.2 + d.2) = Some (Fin v') ∧ v' ≤ v + 1.

Record inv (g : grid) (R C : nat) (ft : fire_map) (q : list pos) : Prop := {
  inv_shape : shape R C ft;
  inv_sound : ∀ p v, at2 ft p = Some (Fin v) →
                     0 ≤ v ∧ fire_reaches g (Z.to_nat v) p;
  inv_source : ∀ p, at2 g p = Some "F"%char → at2 ft p = Some (Fin 0);
  inv_closed : ∀ p v, at2 ft p = Some (Fin v) → p ∉ q →
                      ∀ d, d ∈ directions → served g ft p v d;
  inv_queue : ∀ p, p ∈ q → ∃ v, at2 ft p = Some (Fin v);
  inv_bound : ∀ p v, at2 ft p = Some (Fin v) →
                     (Z.to_nat v < sum2 finite ft)%nat
}.

(** Cells seeded so far, in the row-major order of the two [for] loops. *)
Definition processed (y0 x0 : Z) (p : pos) : Prop :=
  p.2 < y0 ∨ (p.2 = y0 ∧ p.1 < x0).

Record seeded (g : grid) (R C : nat) (y0 x0 : Z) (ft : fire_map)
    (q : list pos) : Prop := {
  seeded_shape : shape R C ft;
  seeded_fin : ∀ p, processed y0 x0 p → at2 g p = Some "F"%char →
                    at2 ft p = Some (Fin 0);
  seeded_inf : ∀ p v, at2 ft p = Some (Fin v) →
                      v = 0 ∧ processed y0 x0 p ∧ at2 g p = Some "F"%char;
  seeded_queue : ∀ p, p ∈ q ↔ processed y0 x0 p ∧ at2 g p = Some "F"%char;
  seeded_potential : (potential (R * C) ft q ≤ R * C * S (R * C))%nat
}.

(** What the finished matrix satisfies. *)
Record final (g : grid) (ft : fire_map) : Prop := {
  final_shape : shape (length g) (length (hd [] g)) ft;
  final_sound : ∀ p v, at2 ft p = Some (Fin v) →
                       0 ≤ v ∧ fire_reaches g (Z.to_nat v) p;
  final_complete : ∀ n p, fire_reaches g n p →
                          ∃ v, at2 ft p = Some (Fin v) ∧ v ≤ Z.of_nat n;
  final_closed : ∀ p q v, at2 ft p = Some (Fin v) → adjacent p q →
                          passable g q →
                          ∃ v', at2 ft q = Some (Fin v') ∧ v' ≤ v + 1
}.

End FireInv.

(** ** Numbers used as priorities *)

(** A Python number: an [int], or a [float] given by its (rational) value. *)
Inductive num : Set := Int (z : Z) | Float (q : Q).

(** The two binary64 operations the searches use, on their values:
    [math.hypot(a, b)] of two integers and [a + q] of an integer and a
    float.  They are left abstract; no property below depends on them
    except where an accuracy assumption is stated.  [math.hypot] raises
    [OverflowError] on an integer beyond the binary64 range; [hypot]
    stands for it where it returns, as on the differences of coordinates
    of positions of a grid. *)
Class Float64 : Type := {
  hypot : Z → Z → Q;
  float_add : Z → Q → Q
}.

Definition num_val (n : num) : Q :=
  match n with
  | Int z => inject_Z z
  | Float q => q
  end.

(** [a + b] for an [int] [a]. *)
Definition int_add `{Float64} (a : Z) (b : num) : num :=
  match b with
  | Int z => Int (a + z)
  | Float q => Float (float_add a q)
  end.

(** ** [heapq] *)

(** A heap entry [(f, (x, y))]. *)
Abbreviation entry := (num * pos)%type.

(** [(x1, y1) < (x2, y2)] *)
Definition pos_ltb (p q : pos) : bool :=
  if decide (p.1 = q.1) then p.2 <? q.2 else p.1 <? q.1.

(** [(f1, p1) < (f2, p2)]: tuples compare lexicographically, numbers by
    value. *)
Definition entry_ltb (a b : entry) : bool :=
  match Qcompare (num_val a.1) (num_val b.1) with
  | Lt => true
  | Eq => pos_ltb a.2 b.2
  | Gt => false
  end.

(** The heap is modelled by the multiset of its entries, kept as a list:
    [heappop] returns a least entry.  Entries that compare equal carry the
    same position, which is all the searches read from them. *)
Definition heappush (h : list entry) (e : entry) : list entry := e :: h.

Fixpoint pop_min (e : entry) (h : list entry) : entry * list entry :=
  match h with
  | [] => (e, [])
  | e' :: h' =>
      let '(m, r) := pop_min e' h' in
      if entry_ltb m e then (m, e :: r) else (e, e' :: h')
  end.

(** ** The [Algorithm] class *)

Record Algorithm : Set := { expanded_nodes : Z }.

(** [Algorithm()] *)
Definition Algorithm_init : Algorithm := {| expanded_nodes := 0 |}.

(** [Algorithm.heuristic] *)
Definition heuristic `{Float64} (node end_ : pos) (mode : string) : num :=
  let '(x1, y1) := node in
  let '(x2, y2) := end_ in
  if String.eqb mode "manhattan" then Int (Z.abs (x1 - x2) + Z.abs (y1 - y2))
  else if String.eqb mode "euclidean" then Float (hypot (x1 - x2) (y1 - y2))
  else if String.eqb mode "zero" then Int 0
  else Int (Z.abs (x1 - x2) + Z.abs (y1 - y2)).

(** Local variables of a search. *)
Record sstate : Type := {
  open_heap : list entry;
  g_cost : gmap pos Z;
  previous : gmap pos (option pos);
  visited : gset pos
}.

(** [t < g_cost.get(neighbor, INF)] *)
Definition below (t : Z) (o : option Z) : bool :=
  match o with
  | Some c => t <? c
  | None => true
  end.

(** The update of a neighbour whose cost improves. *)
Definition improve `{Float64} (end_ : pos) (mode : string) (st : sstate)
    (current neighbor : pos) (new_g : Z) : sstate :=
  {| g_cost := <[neighbor := new_g]> (g_cost st);
     previous := <[neighbor := Some current]> (previous st);
     open_heap := heappush (open_heap st)
                    (int_add new_g (heuristic neighbor end_ mode), neighbor);
     visited := visited st |}.

Definition set_heap (st : sstate) (h : list entry) : sstate :=
  {| open_heap := h; g_cost := g_cost st; previous := previous st;
     visited := visited st |}.

Definition add_visited (st : sstate) (p : pos) : sstate :=
  {| open_heap := open_heap st; g_cost := g_cost st; previous := previous st;
     visited := visited st ∪ {[p]} |}.

(** The state before the [while] loop. *)
Definition initial_state `{Float64} (start end_ : pos) (mode : string) : sstate :=
  {| open_heap := heappush [] (heuristic start end_ mode, start);
     g_cost := {[start := 0]};
     previous := {[start := None]};
     visited := ∅ |}.

(** Iterations that suffice for a grid of [rows * cols] cells. *)
Definition search_fuel (rows cols : Z) : nat :=
  S (S (4 * S (Z.to_nat (rows * cols)))).

(** Path reconstruction: [while cur is not None: ...]. *)
Fixpoint reconstruct (fuel : nat) (prev : gmap pos (option pos))
    (cur : option pos) (path : list pos) : outcome (list pos) :=
  match cur with
  | None => Ret path
  | Some c =>
      match fuel with
      | O => OutOfFuel
      | S fuel' =>
          match prev !! c with
          | Some cur' => reconstruct fuel' prev cur' (path ++ [c])
          | None => Raise KeyError
          end
      end
  end.

(** The code after the [while] loop. *)
Definition finish (st : sstate) (end_ : pos) : outcome (list pos) :=
  match previous st !! end_ with
  | None => Ret []
  | Some _ =>
      path ← reconstruct (S (size (previous st))) (previous st) (Some end_) [];
      Ret (rev path)
  end.

(** One iteration of [while open_heap] either goes on to the next one
    ([continue], or the end of the body), or leaves the loop ([break], or an
    exception). *)
Inductive flow : Type :=
| Continue (self : Algorithm) (st : sstate)
| Stop (r : outcome sstate) (self : Algorithm).

(** [while open_heap: body] *)
Fixpoint while_open (body : Algorithm → sstate → entry → list entry → flow)
    (fuel : nat) (self : Algorithm) (st : sstate)
  : outcome sstate * Algorithm :=
  match open_heap st with
  | [] => (Ret st, self)
  | e :: h =>
      match fuel with
      | O => (OutOfFuel, self)
      | S fuel' =>
          match body self st e h with
          | Continue self' st' => while_open body fuel' self' st'
          | Stop r self' => (r, self')
          end
      end
  end.

(** ** [Algorithm.a_star_no_fire] *)

Module Plain.
Section Plain.
Context `{Float64}.
Variables (g : grid) (rows cols : Z) (end_ : pos) (mode : string).

(** Body of the loop over the four directions. *)
Definition relax (current : pos) (current_g : Z) (st : sstate) (d : Z * Z)
  : outcome sstate :=
  let nx := current.1 + d.1 in
  let ny := current.2 + d.2 in
  if negb (in_bounds rows cols nx ny) then Ret st
  else
    cell ← get2 g nx ny;
    if is_wall cell then Ret st
    else
      let neighbor := (nx, ny) in
      let tentative_g := current_g + 1 in
      if below tentative_g (g_cost st !! neighbor)
      then Ret (improve end_ mode st current neighbor tentative_g)
      else Ret st.

(** Body of the [while] loop; [e :: h] is the heap, not empty. *)
Definition body (self : Algorithm) (st : sstate) (e : entry) (h : list entry)
  : flow :=
  let '((_, current), h') := pop_min e h in
  let st := set_heap st h' in
  if decide (current ∈ visited st) then Continue self st
  else
    let st := add_visited st current in
    if decide (current = end_) then Stop (Ret st) self
    else
      let self := {| expanded_nodes := expanded_nodes self + 1 |} in
      match g_cost st !! current with
      | None => Stop (Raise KeyError) self
      | Some current_g =>
          match foldM (relax current current_g) directions st with
          | Ret st => Continue self st
          | r => Stop r self
          end
      end.

End Plain.
End Plain.

Definition a_star_no_fire `{Float64} (self : Algorithm) (g : grid)
    (start end_ : pos) (mode : string) : outcome (list pos) * Algorithm :=
  match grid_dims g with
  | Ret (rows, cols) =>
      let st := initial_state start end_ mode in
      let self := {| expanded_nodes := 0 |} in
      let '(r, self) := while_open (Plain.body g rows cols end_ mode)
                          (search_fuel rows cols) self st in
      (st ← r; finish st end_, self)
  | Raise e => (Raise e, self)
  | OutOfFuel => (OutOfFuel, self)
  end.

(** ** [Algorithm.a_star_with_fire] *)

Module Fire.
Section Fire.
Context `{Float64}.
Variables (g : grid) (rows cols : Z) (end_ : pos) (fire_time : fire_map)
  (mode : string).

(** Body of the loop over the four directions. *)
Definition relax (current : pos) (t : Z) (st : sstate) (d : Z * Z)
  : outcome sstate :=
  let nx := current.1 + d.1 in
  let ny := current.2 + d.2 in
  if negb (in_bounds rows cols nx ny) then Ret st
  else
    cell ← get2 g nx ny;
    if is_wall cell then Ret st
    else
      let new_t := t + 1 in
      fv ← get2 fire_time nx ny;
      if ftime_le fv (Fin new_t) then Ret st
      else
        let neighbor := (nx, ny) in
        if below new_t (g_cost st !! neighbor)
        then Ret (improve end_ mode st current neighbor new_t)
        else Ret st.

(** Body of the [while] loop; [e :: h] is the heap, not empty. *)
Definition body (self : Algorithm) (st : sstate) (e : entry) (h : list entry)
  : flow :=
  let '((_, current), h') := pop_min e h in
  let st := set_heap st h' in
  if decide (current ∈ visited st) then Continue self st
  else
    let st := add_visited st current in
    match g_cost st !! current with
    | None => Stop (Raise KeyError) self
    | Some t =>
        match get2 fire_time current.1 current.2 with
        | Ret fv =>
            if ftime_le fv (Fin t) then Continue self st
            else if decide (current = end_) then Stop (Ret st) self
            else
              let self := {| expanded_nodes := expanded_nodes self + 1 |} in
              match foldM (relax current t) directions st with
              | Ret st => Continue self st
              | r => Stop r self
              end
        | Raise e => Stop (Raise e) self
        | OutOfFuel => Stop OutOfFuel self
        end
    end.

End Fire.
End Fire.

Definition a_star_with_fire `{Float64} (self : Algorithm) (g : grid)
    (start end_ : pos) (fire_time : fire_map) (mode : string)
  : outcome (list pos) * Algorithm :=
  match grid_dims g with
  | Ret (rows, cols) =>
      match get2 fire_time start.1 start.2 with
      | Ret fv =>
          if ftime_le fv (Fin 0) then (Ret [], self)
          else
            let st := initial_state start end_ mode in
            let self := {| expanded_nodes := 0 |} in
            let '(r, self) := while_open
                                (Fire.body g rows cols end_ fire_time mode)
                                (search_fuel rows cols) self st in
            (st ← r; finish st end_, self)
      | Raise e => (Raise e, self)
      | OutOfFuel => (OutOfFuel, self)
      end
  | Raise e => (Raise e, self)
  | OutOfFuel => (OutOfFuel, self)
  end.

(** ** Specification vocabulary of the searches *)

(** [walk g s n p]: [p] is reached from [s] by [n] steps, each to a
    4-adjacent cell of the grid that is not a wall. *)
Inductive walk (g : grid) (s : pos) : nat → pos → Prop :=
| walk_here : walk g s 0 s
| walk_step n p q :
    walk g s n p → adjacent p q → passable g q → walk g s (S n) q.

(** [d] is the distance from [s] to [t] in the wall-only graph. *)
Definition shortest (g : grid) (s t : pos) (d : nat) : Prop :=
  walk g s d t ∧ ∀ n, walk g s n t → (d ≤ n)%nat.

(** [route g s l t]: [l] lists the cells of such a walk, from [s] to [t]
    inclusive. *)
Inductive route (g : grid) (s : pos) : list pos → pos → Prop :=
| route_start : route g s [s] s
| route_step l p q :
    route g s l p → adjacent p q → passable g q → route g s (l ++ [q]) q.

Definition manhattan (p q : pos) : Z := Z.abs (p.1 - q.1) + Z.abs (p.2 - q.2).

(** The priority pushed for a position reached with cost [c]. *)
Definition key `{Float64} (end_ : pos) (mode : string) (c : Z) (n : pos) : num :=
  int_add c (heuristic n end_ mode).

(** The cell is safe at time [t]: [fire_time[y][x] > t]. *)
Definition fire_safe (fire_time : fire_map) (p : pos) (t : Z) : Prop :=
  ∃ v, get2 fire_time p.1 p.2 = Ret v ∧ ftime_gt v (Fin t) = true.

(** ** Invariants of the searches *)

Module SearchInv.

(** The positions of a [rows] x [cols] grid. *)
Definition cells (rows cols : Z) : list pos :=
  (λ i, (i `mod` cols, i `div` cols)) <$> seqZ 0 (rows * cols).

(** Every position a search can hold. *)
Definition universe (rows cols : Z) (start : pos) : gset pos :=
  {[start]} ∪ list_to_set (cells rows cols).

(** Termination measure of [while open_heap]. *)
Definition measure (rows cols : Z) (start : pos) (st : sstate) : nat :=
  4 * size (universe rows cols start ∖ visited st) + length (open_heap st).

Section Inv.
Context `{Float64}.
Variables (g : grid) (rows cols : Z) (start end_ : pos) (mode : string).

(** Invariant of both searches; [P n c] is what a search checks before
    it records cost [c] for [n]. *)
Record J (P : pos → Z → Prop) (st : sstate) : Prop := {
  J_start_g : g_cost st !! start = Some 0;
  J_start_prev : previous st !! start = Some None;
  J_dom : dom (previous st) = dom (g_cost st);
  J_prev : ∀ n gn, g_cost st !! n = Some gn → n ≠ start →
             ∃ c gc, previous st !! n = Some (Some c) ∧
                     g_cost st !! c = Some gc ∧ gc + 1 ≤ gn ∧
                     adjacent c n ∧ passable g n;
  J_cost : ∀ n gn, g_cost st !! n = Some gn →
             0 ≤ gn < Z.of_nat (size (g_cost st)) ∧ P n gn;
  J_known : ∀ n, is_Some (g_cost st !! n) → n ∈ universe rows cols start;
  J_heap : ∀ e, e ∈ open_heap st →
             is_Some (g_cost st !! e.2) ∧ e.2 ∈ universe rows cols start;
  J_visited : ∀ n, n ∈ visited st →
             is_Some (g_cost st !! n) ∧ n ∈ universe rows cols start
}.

(** What [finish] returns in a state that satisfies the invariant. *)
Definition finished (P : pos → Z → Prop) (st : sstate) (path : list pos)
  : Prop :=
  (g_cost st !! end_ = None ∧ path = []) ∨
  (∃ ge, g_cost st !! end_ = Some ge ∧
         route g start path end_ ∧
         Z.of_nat (length path) ≤ ge + 1 ∧
         ∀ i x, path !! i = Some x →
                ∃ gx, g_cost st !! x = Some gx ∧ Z.of_nat i ≤ gx ∧ P x gx).

(** A recorded cost is the length of a walk from the start. *)
Definition walked (n : pos) (c : Z) : Prop := walk g start (Z.to_nat c) n.

(** What the optimality argument needs from the priorities: among the
    positions and costs a search on this grid can hold, a position that
    can still be reached with a cost below [c'] comes out of the heap
    before any entry pushed with cost [c']. *)
Definition key_consistent : Prop :=
  ∀ c m c' n,
    m ∈ universe rows cols start → n ∈ universe rows cols start →
    0 ≤ c → c' ≤ rows * cols + 1 → c + manhattan m n < c' →
    Qlt (num_val (key end_ mode c m)) (num_val (key end_ mode c' n)).

(** The neighbour of [p] in direction [d] has been offered cost
    [gp + 1]. *)
Definition relaxed (st : sstate) (p : pos) (gp : Z) (d : Z * Z) : Prop :=
  passable g (p.1 + d.1, p.2 + d.2) →
  ∃ gq, g_cost st !! (p.1 + d.1, p.2 + d.2) = Some gq ∧ gq ≤ gp + 1.

(** Invariant of the hazard-blind search behind its optimality;
    [pending] is the position being expanded, if any. *)
Record K (pending : option pos) (st : sstate) : Prop := {
  K_lower : ∀ n gn k, n ∈ visited st → g_cost st !! n = Some gn →
              walk g start k n → gn ≤ Z.of_nat k;
  K_closed : ∀ p gp, p ∈ visited st → Some p ≠ pending →
              g_cost st !! p = Some gp →
              ∀ d, d ∈ directions → relaxed st p gp d;
  K_fresh : ∀ n gn, g_cost st !! n = Some gn → n ∉ visited st →
              n ≠ start → (key end_ mode gn n, n) ∈ open_heap st;
  K_keys : ∀ k n, (k, n) ∈ open_heap st → n ≠ start →
              ∃ c gn, g_cost st !! n = Some gn ∧ gn ≤ c ∧
                      c ≤ Z.of_nat (size (g_cost st)) ∧
                      k = key end_ mode c n;
  K_first : start ∉ visited st → st = initial_state start end_ mode
}.

(** What the loop of the hazard-blind search leaves behind. *)
Definition reaches_end (st : sstate) : Prop :=
  ∀ k, walk g start k end_ →
       ∃ ge, g_cost st !! end_ = Some ge ∧ ge ≤ Z.of_nat k.

End Inv.

End SearchInv.

(** Accuracy of the binary64 operations on a grid of [rows] x [cols]
    cells: for every cost [c] and offsets [dx], [dy] to the end that a
    search on such a grid can meet, the priority computed is within one
    half of [c + sqrt (dx^2 + dy^2)].  Binary64 arithmetic is far more
    accurate than that on any grid that fits in memory. *)
Definition float_accurate `{Float64} (rows cols : Z) : Prop :=
  ∀ c dx dy : Z,
    0 ≤ c ≤ rows * cols + 1 → Z.abs dx < cols → Z.abs dy < rows →
    (Rabs (Q2R (float_add c (hypot dx dy))
           - (IZR c + sqrt (IZR (dx * dx + dy * dy)))) < 1 / 2)%R.

(** The heuristic kinds for which the search is shown optimal. *)
Definition supported_mode `{Float64} (g : grid) (mode : string) : Prop :=
  mode = "manhattan"%string ∨ mode = "zero"%string ∨
  (mode = "euclidean"%string ∧
   float_accurate (Z.of_nat (length g)) (Z.of_nat (length (hd [] g)))).

(** A stand-in for the binary64 operations, to run the searches on
    examples: the square root rounded down to a half-integer, and exact
    addition. *)
Definition Float64_half : Float64 := {|
  hypot a b := Qmake (Z.sqrt (4 * (a * a + b * b))) 2;
  float_add a q := Qplus (inject_Z a) q
|}.

(** ** Example inputs *)

Definition row_of_string (s : string) : list ascii := list_ascii_of_string s.

(** The 3 x 3 grid of the specification's scenarios 1 and 2. *)
Definition scenario_grid : grid :=
  map row_of_string [".F."; "..."; "D.S"]%string.

Definition scenario_fire : fire_map :=
  [[Fin 1; Fin 0; Fin 1]; [Fin 2; Fin 1; Fin 2]; [Fin 3; Fin 2; Fin 3]].

(** Scenario 3: the fire starts on the start cell. *)
Definition burning_grid : grid :=
  map row_of_string ["..."; "..."; "F.S"]%string.

Definition burning_fire : fire_map :=
  [[Fin 2; Fin 3; Fin 4]; [Fin 1; Fin 2; Fin 3]; [Fin 0; Fin 1; Fin 2]].

(** Scenario 4: the open 5 x 5 grid. *)
Definition open_grid : grid := replicate 5 (replicate 5 "."%char).

(** A grid whose start cell is a wall. *)
Definition walled_start_grid : grid := map row_of_string ["#."]%string.

Definition never_fire : fire_map := [[INF; INF]].

(** ** [MapGenerator] *)

(** A maze: 0 is a free cell, 1 is a wall. *)
Abbreviation maze := (list (list Z)).

Module MapGenerator.
Section Generator.

(** The random source: [rnd k] is the [k]-th number drawn.  Nothing is
    assumed about it. *)
Variable rnd : nat → nat.

(** [self.width], [self.height] *)
Variables (width height : Z).

(** [random.choice(l)], as the [k]-th draw. *)
Definition choice {A : Type} (k : nat) (l : list A) : outcome A :=
  match l !! (rnd k `mod` length l)%nat with
  | Some a => Ret a
  | None => Raise IndexError
  end.

(** [[(0, -2), (0, 2), (-2, 0), (2, 0)]] *)
Definition carve_directions : list (Z * Z) := [(0, -2); (0, 2); (-2, 0); (2, 0)].

(** [0 < nx < self.width - 1 and 0 < ny < self.height - 1] *)
Definition interior (x y : Z) : bool :=
  (0 <? x) && (x <? width - 1) && (0 <? y) && (y <? height - 1).

(** Body of the loop over the directions: the neighbours two cells away
    that are inside and still walls, with the offset of the wall between. *)
Definition candidate (m : maze) (x y : Z) (neighbors : list (Z * Z * Z * Z))
    (d : Z * Z) : outcome (list (Z * Z * Z * Z)) :=
  let nx := x + d.1 in
  let ny := y + d.2 in
  if interior nx ny then
    v ← get2 m nx ny;
    if v =? 1 then Ret (neighbors ++ [(nx, ny, d.1 `div` 2, d.2 `div` 2)])
    else Ret neighbors
  else Ret neighbors.

(** State of the carving: the grid, the stack (its top first) and the
    number of draws made. *)
Abbreviation cstate := (maze * list pos * nat)%type.

(** One iteration of [while stack], the top of the stack being [(x, y)]. *)
Definition carve_step (m : maze) (x y : Z) (rest : list pos) (k : nat)
  : outcome cstate :=
  neighbors ← foldM (candidate m x y) carve_directions [];
  match neighbors with
  | [] => Ret (m, rest, k)
  | _ =>
      '(nx, ny, wx, wy) ← choice k neighbors;
      m ← set2 m (x + wx) (y + wy) 0;
      m ← set2 m nx ny 0;
      Ret (m, (nx, ny) :: (x, y) :: rest, S k)
  end.

Fixpoint carve_loop (fuel : nat) (st : cstate) : outcome (maze * nat) :=
  match st with
  | (m, [], k) => Ret (m, k)
  | (m, (x, y) :: rest, k) =>
      match fuel with
      | O => OutOfFuel
      | S fuel' =>
          st' ← carve_step m x y rest k;
          carve_loop fuel' st'
      end
  end.

(** Iterations that suffice (see [carve_loop_spec]). *)
Definition carve_fuel : nat := S (2 * Z.to_nat (width * height)).

(** Lines 40 to 74 of [generate]: the carving and the two forced
    openings. *)
Definition carve : outcome (maze * nat) :=
  let m := replicate (Z.to_nat height) (replicate (Z.to_nat width) 1) in
  m ← set2 m 1 1 0;
  '(m, k) ← carve_loop carve_fuel (m, [(1, 1)], O);
  m ← set2 m 1 1 0;
  m ← set2 m (width - 2) (height - 2) 0;
  Ret (m, k).

(** [1 if v == 0 else 0] *)
Definition is_free (v : Z) : Z := if v =? 0 then 1 else 0.

(** Body of the scan of [add_loops], for the cell [(x, y)]. *)
Definition scan_cell (m : maze) (y : Z) (walls : list pos) (x : Z)
  : outcome (list pos) :=
  v ← get2 m x y;
  if v =? 1 then
    up ← get2 m x (y - 1);
    down ← get2 m x (y + 1);
    left ← get2 m (x - 1) y;
    right ← get2 m (x + 1) y;
    let neighbors := is_free up + is_free down + is_free left + is_free right in
    if 2 <=? neighbors then Ret (walls ++ [(x, y)]) else Ret walls
  else Ret walls.

Definition scan_row (m : maze) (walls : list pos) (y : Z) : outcome (list pos) :=
  foldM (scan_cell m y) (seqZ 1 (width - 2)) walls.

Definition scan (m : maze) : outcome (list pos) :=
  foldM (scan_row m) (seqZ 1 (height - 2)) [].

(** [walls.remove(p)] *)
Fixpoint list_remove (p : pos) (walls : list pos) : list pos :=
  match walls with
  | [] => []
  | q :: walls' => if decide (q = p) then walls' else q :: list_remove p walls'
  end.

(** [for _ in range(n): ...] of [add_loops]. *)
Fixpoint remove_walls (n : nat) (m : maze) (walls : list pos) (k : nat)
  : outcome (maze * nat) :=
  match n with
  | O => Ret (m, k)
  | S n' =>
      match walls with
      | [] => Ret (m, k)
      | _ =>
          '(wx, wy) ← choice k walls;
          m ← set2 m wx wy 0;
          remove_walls n' m (list_remove (wx, wy) walls) (S k)
      end
  end.

(** [int(len(walls) * percentage)], with the product taken exactly.  For
    the fraction 0.1 that [generate] passes this is the value of the
    code: the binary64 product [n * 0.1] truncates to [n // 10]. *)
Definition num_to_remove (walls : list pos) (percentage : Q) : nat :=
  Z.to_nat (Qfloor (Qmult (inject_Z (Z.of_nat (length walls))) percentage)).

(** [add_loops(percentage)] *)
Definition add_loops (percentage : Q) (m : maze) (k : nat)
  : outcome (maze * nat) :=
  walls ← scan m;
  remove_walls (num_to_remove walls percentage) m walls k.

(** [generate()]: the carving, then [self.add_loops(0.1)]. *)
Definition generate : outcome maze :=
  '(m, k) ← carve;
  '(m, _) ← add_loops (1 # 10) m k;
  Ret m.

End Generator.
End MapGenerator.

Definition no_random : nat → nat := λ _, O.

(** ** Specification vocabulary of the generator *)

(** 1 when the cell is in the maze and free, 0 otherwise. *)
Definition free_at (m : maze) (p : pos) : nat :=
  match at2 m p with
  | Some 0 => 1
  | _ => 0
  end.

(** The positions of the maze. *)
Definition positions (m : maze) : list pos :=
  SearchInv.cells (Z.of_nat (length m)) (Z.of_nat (length (hd [] m))).

(** The number of free cells. *)
Definition free_count (m : maze) : nat :=
  sum2 (λ v, if v =? 0 then 1%nat else 0%nat) m.

(** The number of open connections: pairs of 4-adjacent free cells, each
    counted once, from its left or upper cell. *)
Definition edge_count (m : maze) : nat :=
  sum_list_with
    (λ p, (free_at m p
           * (free_at m (p.1 + 1, p.2)%Z + free_at m (p.1, p.2 + 1)%Z))%nat)
    (positions m).

(** [linked m s p]: [p] is reached from [s] through 4-adjacent free cells. *)
Inductive linked (m : maze) (s : pos) : pos → Prop :=
| linked_here : at2 m s = Some 0 → linked m s s
| linked_step p q :
    linked m s p → adjacent p q → at2 m q = Some 0 → linked m s q.

(** The free cells form a spanning tree: all linked to one of them, with
    one connection less than there are cells. *)
Definition perfect (m : maze) : Prop :=
  (∀ p, at2 m p = Some 0 → linked m (1, 1) p) ∧
  (edge_count m + 1 = free_count m)%nat.

(** The cell is on the outer border of a [width] x [height] maze. *)
Definition on_border (width height : Z) (p : pos) : Prop :=
  0 ≤ p.1 < width ∧ 0 ≤ p.2 < height ∧
  (p.1 = 0 ∨ p.1 = width - 1 ∨ p.2 = 0 ∨ p.2 = height - 1).

(** ** Invariants of the generator *)

Module GenInv.
Section Inv.
Variables (width height : Z).

Local Abbreviation interior := (MapGenerator.interior width height).

(** The candidates of a carving step from [(x, y)]. *)
Definition is_candidate (m : maze) (x y : Z) (c : Z * Z * Z * Z) (d : Z * Z)
  : Prop :=
  c = (x + d.1, y + d.2, d.1 `div` 2, d.2 `div` 2) ∧
  interior (x + d.1) (y + d.2) = true ∧
  at2 m (x + d.1, y + d.2) = Some 1.

(** [m'] is [m] with the cell [p], which held [a], set to 0. *)
Record opens (m : maze) (p : pos) (a : Z) (m' : maze) : Prop := {
  opens_old : at2 m p = Some a;
  opens_new : ∀ q, at2 m' q = if decide (q = p) then Some 0 else at2 m q;
  opens_shape : shape (Z.to_nat height) (Z.to_nat width) m';
  opens_sum : ∀ f : Z → nat, (sum2 f m' + f a = sum2 f m + f 0%Z)%nat
}.

(** Invariant of the carving for all dimensions. *)
Record G (m : maze) (stack : list pos) : Prop := {
  G_shape : shape (Z.to_nat height) (Z.to_nat width) m;
  G_values : ∀ p v, at2 m p = Some v → v = 0 ∨ v = 1;
  G_free : ∀ p, at2 m p = Some 0 → interior p.1 p.2 = true;
  G_stack : ∀ p, p ∈ stack → interior p.1 p.2 = true
}.

(** Termination measure of the carving. *)
Definition carve_measure (m : maze) (stack : list pos) : nat :=
  2 * sum2 Z.to_nat m + length stack.

(** Invariant of the carving behind the perfect maze: the free cells
    are cells of the odd lattice and passages between two free cells of
    the lattice. *)
Record T (m : maze) (stack : list pos) : Prop := {
  T_parity : ∀ p, at2 m p = Some 0 → p.1 `mod` 2 = 1 ∨ p.2 `mod` 2 = 1;
  T_passage_x : ∀ p, at2 m p = Some 0 → p.1 `mod` 2 = 0 →
                  at2 m (p.1 - 1, p.2) = Some 0 ∧ at2 m (p.1 + 1, p.2) = Some 0;
  T_passage_y : ∀ p, at2 m p = Some 0 → p.2 `mod` 2 = 0 →
                  at2 m (p.1, p.2 - 1) = Some 0 ∧ at2 m (p.1, p.2 + 1) = Some 0;
  T_stack : ∀ p, p ∈ stack →
              at2 m p = Some 0 ∧ p.1 `mod` 2 = 1 ∧ p.2 `mod` 2 = 1;
  T_closed : ∀ p, at2 m p = Some 0 → p.1 `mod` 2 = 1 → p.2 `mod` 2 = 1 →
               p ∉ stack →
               ∀ d, d ∈ MapGenerator.carve_directions →
                    interior (p.1 + d.1) (p.2 + d.2) = true →
                    at2 m (p.1 + d.1, p.2 + d.2) = Some 0;
  T_root : at2 m (1, 1) = Some 0;
  T_perfect : perfect m
}.

(** The number of free cells among the four neighbours of [p]. *)
Definition free_around (m : maze) (p : pos) : nat :=
  free_at m (p.1 + 1, p.2) + free_at m (p.1, p.2 + 1)
  + free_at m (p.1 - 1, p.2) + free_at m (p.1, p.2 - 1).

End Inv.
End GenInv.

(** The generator on a 4 x 4 maze, where no random choice is made. *)
Definition maze_4x4 : maze :=
  [[1; 1; 1; 1]; [1; 0; 1; 1]; [1; 1; 0; 1]; [1; 1; 1; 1]].

(** The generator on a 9 x 9 maze with the draws 2, 9, 16, ...: the maze
    after the carving, where [add_loops] lists 17 walls, and the maze
    returned, where it has opened the wall (4, 3). *)
Definition draws_9x9 : nat → nat := λ k, (7 * k + 2)%nat.

Definition carved_9x9 : maze :=
  [[1; 1; 1; 1; 1; 1; 1; 1; 1]; [1; 0; 1; 0; 0; 0; 0; 0; 1];
   [1; 0; 1; 1; 1; 1; 1; 0; 1]; [1; 0; 0; 0; 1; 0; 0; 0; 1];
   [1; 1; 1; 0; 1; 0; 1; 0; 1]; [1; 0; 1; 0; 0; 0; 1; 0; 1];
   [1; 0; 1; 1; 1; 1; 1; 0; 1]; [1; 0; 0; 0; 0; 0; 0; 0; 1];
   [1; 1; 1; 1; 1; 1; 1; 1; 1]].

Definition maze_9x9 : maze :=
  [[1; 1; 1; 1; 1; 1; 1; 1; 1]; [1; 0; 1; 0; 0; 0; 0; 0; 1];
   [1; 0; 1; 1; 1; 1; 1; 0; 1]; [1; 0; 0; 0; 0; 0; 0; 0; 1];
   [1; 1; 1; 0; 1; 0; 1; 0; 1]; [1; 0; 1; 0; 0; 0; 1; 0; 1];
   [1; 0; 1; 1; 1; 1; 1; 0; 1]; [1; 0; 0; 0; 0; 0; 0; 0; 1];
   [1; 1; 1; 1; 1; 1; 1; 1; 1]].

(** ** Further vocabulary of the searches *)

(** [safe_walk g ft s n p]: a walk of [n] steps from [s] to [p] in the
    wall-only graph whose [i]-th cell is safe at time [i]. *)
Inductive safe_walk (g : grid) (ft : fire_map) (s : pos) : nat → pos → Prop :=
| safe_here : fire_safe ft s 0 → safe_walk g ft s 0 s
| safe_step n p q :
    safe_walk g ft s n p → adjacent p q → passable g q →
    fire_safe ft q (Z.of_nat (S n)) → safe_walk g ft s (S n) q.

(** The fire never reaches any cell of the matrix. *)
Definition fireless (ft : fire_map) : Prop :=
  ∀ p v, at2 ft p = Some v → v = INF.

(** Invariants of the hazard-aware search behind its optimality. *)
Module FireOpt.
Section Inv.
Context `{Float64}.
Variables (g : grid) (ft : fire_map) (start end_ : pos) (mode : string).

(** A recorded cost is the length of a safe walk from the start. *)
Definition walked (n : pos) (c : Z) : Prop :=
  safe_walk g ft start (Z.to_nat c) n.

(** The neighbour of [p] in direction [d] has been offered cost [gp + 1],
    if it is safe then. *)
Definition relaxed (st : sstate) (p : pos) (gp : Z) (d : Z * Z) : Prop :=
  passable g (p.1 + d.1, p.2 + d.2) →
  fire_safe ft (p.1 + d.1, p.2 + d.2) (gp + 1) →
  ∃ gq, g_cost st !! (p.1 + d.1, p.2 + d.2) = Some gq ∧ gq ≤ gp + 1.

(** [pending] is the position being expanded, if any. *)
Record K (pending : option pos) (st : sstate) : Prop := {
  K_lower : ∀ n gn k, n ∈ visited st → g_cost st !! n = Some gn →
              safe_walk g ft start k n → gn ≤ Z.of_nat k;
  K_closed : ∀ p gp, p ∈ visited st → Some p ≠ pending →
              g_cost st !! p = Some gp →
              ∀ d, d ∈ directions → relaxed st p gp d;
  K_fresh : ∀ n gn, g_cost st !! n = Some gn → n ∉ visited st →
              n ≠ start → (key end_ mode gn n, n) ∈ open_heap st;
  K_keys : ∀ k n, (k, n) ∈ open_heap st → n ≠ start →
              ∃ c gn, g_cost st !! n = Some gn ∧ gn ≤ c ∧
                      c ≤ Z.of_nat (size (g_cost st)) ∧
                      k = key end_ mode c n;
  K_first : start ∉ visited st → st = initial_state start end_ mode
}.

(** What the loop leaves behind. *)
Definition reaches_end (st : sstate) : Prop :=
  ∀ k, safe_walk g ft start k end_ →
       ∃ ge, g_cost st !! end_ = Some ge ∧ ge ≤ Z.of_nat k.

End Inv.
End FireOpt.

(** The counter of expanded positions, inside the loop of a search: the end
    has not been popped, every visited position has been counted, and every
    predecessor recorded is a visited position other than the end. *)
Record counting (end_ : pos) (self : Algorithm) (st : sstate) : Prop := {
  counting_end : end_ ∉ visited st;
  counting_nodes : expanded_nodes self = Z.of_nat (size (visited st));
  counting_prev : ∀ n c, previous st !! n = Some (Some c) →
                         c ∈ visited st ∧ c ≠ end_
}.

(** The same when the loop is left. *)
Record counted (end_ : pos) (self : Algorithm) (st : sstate) : Prop := {
  counted_nodes : expanded_nodes self = Z.of_nat (size (visited st ∖ {[end_]}));
  counted_prev : ∀ n c, previous st !! n = Some (Some c) →
                        c ∈ visited st ∧ c ≠ end_
}.

(** ** Further vocabulary of the generator *)

(** What [add_loops] may do to a cell besides leaving it as it is: open a
    wall inside the border that had at least two free neighbours in the
    maze [m] it started from. *)
Definition loop_opened (width height : Z) (m m' : maze) (p : pos) : Prop :=
  at2 m p = Some 1 ∧ at2 m' p = Some 0 ∧
  MapGenerator.interior width height p.1 p.2 = true ∧
  (2 ≤ GenInv.free_around m p)%nat.

(** Every free cell is reached from the entrance. *)
Definition connected (m : maze) : Prop :=
  ∀ p, at2 m p = Some 0 → linked m (1, 1) p.

(** ** [Main.py]: how [LabyrinthApp] builds and prepares its grids

    Only the methods that compute on grids are modelled; the attributes of
    the window they read ([self.grid], [self.rows], [self.cols],
    [self.fire_mode], [self.fire_time]) are arguments.  A method that
    updates a grid in place returns the updated grid. *)

Module Main.

(** An element of [self.tests]. *)
Record test : Type := {
  test_grid : grid;
  test_rows : Z;
  test_cols : Z;
  test_start : pos;
  test_end : pos
}.

(** *** [add_random_fire_to_grid] *)

(** [o is not None and p == o] *)
Definition is_given (o : option pos) (p : pos) : bool :=
  match o with
  | Some q => bool_decide (p = q)
  | None => false
  end.

(** Body of the scan for the cell [(x, y)]. *)
Definition candidate_cell (g : grid) (start end_ : option pos) (y : Z)
    (candidates : list pos) (x : Z) : outcome (list pos) :=
  c ← get2 g x y;
  if Ascii.eqb c "." then
    if is_given start (x, y) then Ret candidates
    else if is_given end_ (x, y) then Ret candidates
    else Ret (candidates ++ [(x, y)])
  else Ret candidates.

Definition candidate_row (g : grid) (start end_ : option pos) (cols : Z)
    (candidates : list pos) (y : Z) : outcome (list pos) :=
  foldM (candidate_cell g start end_ y) (seqZ 0 cols) candidates.

Definition fire_candidates (g : grid) (rows cols : Z) (start end_ : option pos)
  : outcome (list pos) :=
  foldM (candidate_row g start end_ cols) (seqZ 0 rows) [].

(** [x, y = candidates[i]; grid[y][x] = 'F'] *)
Definition place_fire (candidates : list pos) (g : grid) (i : Z)
  : outcome grid :=
  '(x, y) ← getitem candidates i;
  set2 g x y "F"%char.

(** [shuffle l] is the list [random.shuffle] leaves in place of [l]. *)
Definition add_random_fire_to_grid (shuffle : list pos → list pos)
    (g : grid) (rows cols count : Z) (start end_ : option pos)
  : outcome grid :=
  candidates ← fire_candidates g rows cols start end_;
  let candidates := shuffle candidates in
  foldM (place_fire candidates)
    (seqZ 0 (Z.min count (Z.of_nat (length candidates)))) g.

(** *** [build_random_tests] *)

(** ['#' if v == 1 else '.'] *)
Definition char_of (v : Z) : ascii := if v =? 1 then "#"%char else "."%char.

Definition convert_cell (numeric_grid : maze) (y : Z) (row_chars : list ascii)
    (x : Z) : outcome (list ascii) :=
  v ← get2 numeric_grid x y;
  Ret (row_chars ++ [char_of v]).

Definition convert_row (numeric_grid : maze) (cols : Z) (g : grid) (y : Z)
  : outcome grid :=
  row_chars ← foldM (convert_cell numeric_grid y) (seqZ 0 cols) [];
  Ret (g ++ [row_chars]).

(** The conversion of the maze of 0 and 1 to characters. *)
Definition convert (numeric_grid : maze) (rows cols : Z) : outcome grid :=
  foldM (convert_row numeric_grid cols) (seqZ 0 rows) [].

(** Body of the loop of [build_random_tests]: [rnd] gives the draws of
    the generator, [fire_count] is the value of [random.randint(1, 3)]. *)
Definition random_test (rnd : nat → nat) (shuffle : list pos → list pos)
    (fire_count : Z) (rows cols : Z) : outcome test :=
  numeric_grid ← MapGenerator.generate rnd cols rows;
  g ← convert numeric_grid rows cols;
  let start := (1, 1) in
  let end_ := (cols - 2, rows - 2) in
  g ← set2 g start.1 start.2 "D"%char;
  g ← set2 g end_.1 end_.2 "S"%char;
  g ← add_random_fire_to_grid shuffle g rows cols fire_count
        (Some start) (Some end_);
  Ret {| test_grid := g; test_rows := rows; test_cols := cols;
         test_start := start; test_end := end_ |}.

(** [build_random_tests(num_tests)], returning [self.tests]; the random
    values of the [i]-th iteration are [rnd i], [shuffle i] and
    [randint i]. *)
Definition build_random_tests (rnd : nat → nat → nat)
    (shuffle : nat → list pos → list pos) (randint : nat → Z)
    (num_tests : Z) : outcome (list test) :=
  let rows := 31 in
  let cols := 51 in
  foldM (λ tests i,
           t ← random_test (rnd i) (shuffle i) (randint i) rows cols;
           Ret (tests ++ [t]))
        (seq 0 (Z.to_nat num_tests)) [].

(** *** [prepare_grid_and_fire] *)

(** [if base[y][x] == 'F': base[y][x] = c] *)
Definition replace_cell (c : ascii) (y : Z) (base : grid) (x : Z)
  : outcome grid :=
  v ← get2 base x y;
  if is_fire v then set2 base x y c else Ret base.

Definition replace_row (c : ascii) (cols : Z) (base : grid) (y : Z)
  : outcome grid :=
  foldM (replace_cell c y) (seqZ 0 cols) base.

(** The two loops that turn the ['F'] cells into [c]. *)
Definition replace_fire (c : ascii) (rows cols : Z) (base : grid)
  : outcome grid :=
  foldM (replace_row c cols) (seqZ 0 rows) base.

(** [prepare_grid_and_fire()], with [self.grid], [self.rows],
    [self.cols] and [self.fire_mode] as arguments; [base] is a copy, so
    [self.grid] stays as it is. *)
Definition prepare_grid_and_fire (g : grid) (rows cols : Z)
    (fire_mode : string) : outcome (option grid * option fire_map) :=
  match g with
  | [] => Ret (None, None)
  | _ =>
      if String.eqb fire_mode "dynamic" then
        fire_time ← FireTime.compute_fire_time g;
        Ret (Some g, Some fire_time)
      else if String.eqb fire_mode "static" then
        base ← replace_fire "#" rows cols g;
        Ret (Some base, None)
      else
        base ← replace_fire "." rows cols g;
        Ret (Some base, None)
  end.

(** [prepare_grid_and_fire_for_plain()] *)
Definition prepare_grid_and_fire_for_plain (g : grid) (rows cols : Z)
    (fire_time : option fire_map) : outcome (grid * option fire_map) :=
  base ← replace_fire "." rows cols g;
  Ret (base, fire_time).

End Main.

(** ** Vocabulary for the grids of the application *)

(** The number of cells of a grid that hold the character [c]. *)
Definition count_char (c : ascii) (g : grid) : nat :=
  sum2 (λ v, if Ascii.eqb v c then 1%nat else 0%nat) g.

(** The cell is one [add_random_fire_to_grid] may set on fire. *)
Definition fire_spot (g : grid) (start end_ : option pos) (p : pos) : Prop :=
  at2 g p = Some "."%char ∧ Some p ≠ start ∧ Some p ≠ end_.

(** A test as [build_random_tests] makes it. *)
Record random_test_ok (t : Main.test) : Prop := {
  ok_rows : Main.test_rows t = 31;
  ok_cols : Main.test_cols t = 51;
  ok_start : Main.test_start t = (1, 1);
  ok_end : Main.test_end t = (49, 29);
  ok_shape : shape 31 51 (Main.test_grid t);
  ok_start_cell : at2 (Main.test_grid t) (1, 1) = Some "D"%char;
  ok_end_cell : at2 (Main.test_grid t) (49, 29) = Some "S"%char;
  ok_border : ∀ p, on_border 51 31 p → at2 (Main.test_grid t) p = Some "#"%char;
  ok_fires : (1 ≤ count_char "F" (Main.test_grid t) ≤ 3)%nat;
  ok_exits : (count_char "D" (Main.test_grid t) = 1
              ∧ count_char "S" (Main.test_grid t) = 1)%nat;
  ok_solvable : ∃ k, walk (Main.test_grid t) (1, 1) k (49, 29)
}.

(** ** Tactics *)

(** [lia] with division and remainder by constants. *)
Ltac mod_lia := Z.to_euclidean_division_equations; lia.

(** [H] speaks of the same cell, up to arithmetic on its coordinates. *)
Ltac same_cell H :=
  match type of H with
  | at2 ?m ?p = _ =>
      match goal with
      | |- at2 m ?q = _ => replace q with p by (f_equal; lia); exact H
      end
  end.

(** * Proofs *)

(** ** Loops that do not raise *)

Lemma foldM_seqZ_inv {St : Type} (I : Z → St → Prop) (f : St → Z → outcome St) :
  ∀ (n : nat) (m : Z) (s : St),
    (∀ i s, m ≤ i < m + Z.of_nat n → I i s → ∃ s', f s i = Ret s' ∧ I (i + 1) s') →
    I m s →
    ∃ s', foldM f (seqZ m (Z.of_nat n)) s = Ret s' ∧ I (m + Z.of_nat n) s'.
Proof.
  induction n as [|n IH]; intros m s Hf Hs.
  - exists s. simpl. rewrite Z.add_0_r. done.
  - rewrite seqZ_cons by lia. simpl.
    destruct (Hf m s) as (s1 & -> & Hs1); [lia | done |].
    simpl. replace (Z.pred (Z.of_nat (S n))) with (Z.of_nat n) by lia.
    destruct (IH (Z.succ m) s1) as (s2 & -> & Hs2).
    + intros i s0 Hi. apply Hf. lia.
    + by replace (Z.succ m) with (m + 1) by lia.
    + exists s2. split; [done |].
      by replace (m + Z.of_nat (S n)) with (Z.succ m + Z.of_nat n) by lia.
Qed.

Lemma foldM_list_inv {A St : Type} (I : list A → St → Prop) (P : A → Prop)
    (f : St → A → outcome St) :
  (∀ pre a s, P a → I pre s → ∃ s', f s a = Ret s' ∧ I (pre ++ [a]) s') →
  ∀ (l pre : list A) (s : St),
    Forall P l →
    I pre s →
    ∃ s', foldM f l s = Ret s' ∧ I (pre ++ l) s'.
Proof.
  intros Hf. induction l as [|a l IH]; intros pre s Hl Hs.
  - exists s. by rewrite app_nil_r.
  - apply Forall_cons in Hl as [Ha Hl].
    simpl. destruct (Hf pre a s Ha Hs) as (s1 & -> & Hs1). simpl.
    destruct (IH (pre ++ [a]) s1 Hl Hs1) as (s2 & -> & Hs2).
    exists s2. by rewrite <- app_assoc in Hs2.
Qed.

(** ** Matrices *)

Section Matrix.
Context {A : Type}.
Implicit Types (m : list (list A)) (p : pos).

Lemma at2_inside R C m p :
  shape R C m →
  is_Some (at2 m p) ↔ 0 ≤ p.1 < Z.of_nat C ∧ 0 ≤ p.2 < Z.of_nat R.
Proof.
  intros [HR HC]. unfold at2. rewrite Forall_forall in HC.
  case_decide as Hp.
  - destruct (m !! Z.to_nat p.2) as [row|] eqn:Hrow; simpl.
    + assert (length row = C) as Hlen.
      { apply HC. by eapply list_elem_of_lookup_2. }
      apply lookup_lt_Some in Hrow.
      rewrite lookup_lt_is_Some. lia.
    + apply lookup_ge_None in Hrow. split; [by intros [? ?] | lia].
  - split; [by intros [? ?] | lia].
Qed.

Lemma getitem_lookup {B : Type} (l : list B) (i : Z) :
  0 ≤ i →
  getitem l i = match l !! Z.to_nat i with
                | Some a => Ret a
                | None => Raise IndexError
                end.
Proof.
  intros Hi. unfold getitem.
  destruct (Z.ltb_spec i 0); [lia |].
  destruct (Z.ltb_spec i 0); [lia | done].
Qed.

Lemma get2_at2 m x y :
  0 ≤ x → 0 ≤ y →
  get2 m x y = match at2 m (x, y) with
               | Some a => Ret a
               | None => Raise IndexError
               end.
Proof.
  intros Hx Hy. unfold get2, at2. rewrite decide_True by done.
  rewrite getitem_lookup by done. cbn [fst snd].
  destruct (m !! Z.to_nat y) as [row|]; [| done].
  cbn. by rewrite getitem_lookup.
Qed.

Lemma sum_list_with_insert {B : Type} (f : B → nat) (l : list B) i a b :
  l !! i = Some a →
  (sum_list_with f (<[i:=b]> l) + f a = sum_list_with f l + f b)%nat.
Proof.
  revert i. induction l as [|c l IH]; intros [|i] Hi; simplify_eq/=.
  - lia.
  - specialize (IH i Hi). lia.
Qed.

Lemma sum_list_with_le {B : Type} (f : B → nat) (l : list B) k :
  (∀ b, b ∈ l → (f b ≤ k)%nat) → (sum_list_with f l ≤ length l * k)%nat.
Proof.
  induction l as [|c l IH]; intros Hk; simpl; [lia |].
  assert (f c ≤ k)%nat by (apply Hk; left).
  assert (sum_list_with f l ≤ length l * k)%nat by (apply IH; intros; apply Hk; by right).
  lia.
Qed.

Lemma sum2_replicate R C (f : A → nat) (a : A) :
  sum2 f (replicate R (replicate C a)) = (R * C * f a)%nat.
Proof.
  assert (∀ {B : Type} (h : B → nat) n b,
            sum_list_with h (replicate n b) = (n * h b)%nat) as Hrep.
  { intros B h n b. induction n as [|n IH]; simpl; [done | rewrite IH; lia]. }
  unfold sum2. rewrite Hrep, Hrep. lia.
Qed.

Lemma sum2_le R C (f : A → nat) m k :
  shape R C m → (∀ a, (f a ≤ k)%nat) → (sum2 f m ≤ R * C * k)%nat.
Proof.
  intros [HR HC] Hk. unfold sum2. rewrite Forall_forall in HC.
  etrans.
  - apply (sum_list_with_le _ _ (C * k)%nat). intros row Hrow.
    rewrite <- (HC row) by done.
    apply sum_list_with_le. auto.
  - rewrite HR. lia.
Qed.

Lemma sum2_pos (f : A → nat) m p a :
  at2 m p = Some a → (f a ≤ sum2 f m)%nat.
Proof.
  unfold at2. case_decide; [| done].
  destruct (m !! Z.to_nat p.2) as [row|] eqn:Hrow; simpl; [| done].
  intros Ha. unfold sum2.
  etrans; [| apply (sum_list_with_in row); by eapply list_elem_of_lookup_2].
  apply (sum_list_with_in a). by eapply list_elem_of_lookup_2.
Qed.

Lemma set2_spec R C m x y v a :
  shape R C m →
  at2 m (x, y) = Some a →
  ∃ m', set2 m x y v = Ret m' ∧ shape R C m' ∧
    (∀ q, at2 m' q = if decide (q = (x, y)) then Some v else at2 m q) ∧
    (∀ f, sum2 f m' + f a = sum2 f m + f v)%nat.
Proof.
  intros [HR HC] Ha. unfold at2 in Ha. simpl in Ha.
  case_decide as Hxy; [| done]. destruct Hxy as [Hx Hy].
  destruct (m !! Z.to_nat y) as [row|] eqn:Hrow; simpl in Ha; [| done].
  pose proof (lookup_lt_Some _ _ _ Hrow) as Hylt.
  pose proof (lookup_lt_Some _ _ _ Ha) as Hxlt.
  exists (<[Z.to_nat y := <[Z.to_nat x := v]> row]> m).
  split; [| split; [| split]].
  - unfold set2. rewrite getitem_lookup, Hrow by done. simpl.
    unfold setitem.
    destruct (Z.ltb_spec x 0); [lia |].
    destruct (Z.ltb_spec x 0); [lia |].
    destruct (Z.ltb_spec x (Z.of_nat (length row))); [| lia]. simpl.
    destruct (Z.ltb_spec y 0); [lia |].
    destruct (Z.ltb_spec y 0); [lia |].
    destruct (Z.ltb_spec y (Z.of_nat (length m))); [done | lia].
  - split; [by rewrite length_insert |].
    apply Forall_insert; [done |]. rewrite length_insert.
    rewrite Forall_forall in HC. apply HC.
    by eapply list_elem_of_lookup_2.
  - intros [qx qy]. unfold at2. simpl.
    case_decide as Hq.
    + destruct (decide (Z.to_nat qy = Z.to_nat y)) as [Heqy | Hney].
      * rewrite Heqy, list_lookup_insert_eq by done. simpl.
        destruct (decide (Z.to_nat qx = Z.to_nat x)) as [Heqx | Hnex].
        -- rewrite Heqx, list_lookup_insert_eq by done.
           rewrite decide_True; [done |]. f_equal; lia.
        -- rewrite list_lookup_insert_ne by done.
           rewrite decide_False; [| intros [= ? ?]; lia].
           by rewrite Hrow.
      * rewrite list_lookup_insert_ne by done.
        rewrite decide_False; [done |]. intros [= ? ?]; lia.
    + rewrite decide_False; [done |]. intros [= ? ?]; lia.
  - intros f. unfold sum2.
    pose proof (sum_list_with_insert (λ row, sum_list_with f row) m
                  (Z.to_nat y) row (<[Z.to_nat x := v]> row) Hrow) as H1.
    pose proof (sum_list_with_insert f row (Z.to_nat x) a v Ha) as H2.
    simpl in H1. lia.
Qed.

End Matrix.

(** ** The fire propagation *)

Section FireProofs.
Import FireTime FireInv.
Variable g : grid.
Variables R C : nat.
Hypothesis g_shape : shape R C g.

Lemma grid_get2 x y :
  in_bounds (Z.of_nat R) (Z.of_nat C) x y = true →
  ∃ c, get2 g x y = Ret c ∧ at2 g (x, y) = Some c.
Proof.
  unfold in_bounds. intros H.
  assert (0 ≤ x < Z.of_nat C ∧ 0 ≤ y < Z.of_nat R) as Hin by lia.
  destruct (proj2 (at2_inside R C g (x, y) g_shape) Hin) as [c Hc].
  exists c. rewrite get2_at2 by lia. by rewrite Hc.
Qed.

Lemma processed_next_row y p :
  0 ≤ p.1 < Z.of_nat C →
  processed y (Z.of_nat C) p ↔ processed (y + 1) 0 p.
Proof. unfold processed. lia. Qed.

Lemma seeded_next_row y ft q :
  seeded g R C y (Z.of_nat C) ft q → seeded g R C (y + 1) 0 ft q.
Proof.
  intros [Hsh Hfin Hinf Hq Hpot].
  assert (∀ p c, at2 g p = Some c →
                 (processed y (Z.of_nat C) p ↔ processed (y + 1) 0 p)) as Hp.
  { intros p c Hc. apply processed_next_row.
    apply (at2_inside R C g p g_shape). by exists c. }
  split; [done | | | | done].
  - intros p Hpr HF. apply Hfin; [| done]. by eapply Hp.
  - intros p v Hv. destruct (Hinf p v Hv) as (-> & Hpr & HF).
    split; [done |]. split; [| done]. by eapply Hp.
  - intros p. rewrite Hq. split; intros [Hpr HF]; (split; [| done]); by eapply Hp.
Qed.

Lemma seed_cell_spec x y ft q :
  0 ≤ x < Z.of_nat C → 0 ≤ y < Z.of_nat R →
  seeded g R C y x ft q →
  ∃ ft' q', seed_cell g y (ft, q) x = Ret (ft', q') ∧
            seeded g R C y (x + 1) ft' q'.
Proof.
  intros Hx Hy [Hsh Hfin Hinf Hq Hpot].
  destruct (grid_get2 x y) as (c & Hget & Hc); [unfold in_bounds; lia |].
  unfold seed_cell. rewrite Hget. cbn.
  assert (∀ p, processed y (x + 1) p ↔ processed y x p ∨ p = (x, y)) as Hnext.
  { intros [px py]. unfold processed; simpl. split.
    - intros ?. destruct (decide (px = x ∧ py = y)) as [[-> ->] |]; [by right | left; lia].
    - intros [? | [= -> ->]]; lia. }
  destruct (is_fire c) eqn:Hfire.
  - apply Ascii.eqb_eq in Hfire as ->.
    destruct (proj2 (at2_inside R C ft (x, y) Hsh)) as [a Ha]; [simpl; lia |].
    assert (a = INF) as ->.
    { destruct a as [v|]; [| done].
      destruct (Hinf _ _ Ha) as (_ & Hpr & _). unfold processed in Hpr; simpl in Hpr; lia. }
    destruct (set2_spec R C ft x y (Fin 0) INF Hsh Ha) as (ft' & -> & Hsh' & Hat & Hsum).
    cbn. exists ft', (q ++ [(x, y)]). split; [done |].
    split; [done | | | |].
    + intros p Hpr HF. rewrite Hat. case_decide; [done |].
      apply Hfin; [| done]. apply Hnext in Hpr as [? | ?]; done.
    + intros p v. rewrite Hat. case_decide as Hp.
      * intros [= <-]. subst p. rewrite Hnext. auto.
      * intros Hv. destruct (Hinf p v Hv) as (? & ? & ?). rewrite Hnext. auto.
    + intros p. rewrite elem_of_app, list_elem_of_singleton, Hq, Hnext.
      split; [intros [[? ?] | ->]; auto | intros [[? | ->] ?]; auto].
    + unfold potential in *. rewrite length_app. simpl.
      specialize (Hsum (weight (R * C))). simpl in Hsum. lia.
  - exists ft, q. split; [done |].
    assert (at2 g (x, y) ≠ Some "F"%char) as HnF.
    { rewrite Hc. intros [= ->]. done. }
    split; [done | | | | done].
    + intros p Hpr HF. apply Hfin; [| done].
      apply Hnext in Hpr as [? | ->]; done.
    + intros p v Hv. destruct (Hinf p v Hv) as (? & ? & ?). rewrite Hnext. auto.
    + intros p. rewrite Hq, Hnext.
      split; [intros [? ?]; auto | intros [[? | ->] ?]; auto]. done.
Qed.

Lemma seed_row_spec y ft q :
  0 ≤ y < Z.of_nat R →
  seeded g R C y 0 ft q →
  ∃ ft' q', seed_row g (Z.of_nat C) (ft, q) y = Ret (ft', q') ∧
            seeded g R C (y + 1) 0 ft' q'.
Proof.
  intros Hy Hs. unfold seed_row.
  destruct (foldM_seqZ_inv (λ x st, seeded g R C y x st.1 st.2)
              (seed_cell g y) C 0 (ft, q)) as ([ft' q'] & Hfold & Hs').
  - intros x [ft1 q1] Hx Hs1.
    destruct (seed_cell_spec x y ft1 q1) as (ft2 & q2 & ? & ?); [lia | done | done |].
    by exists (ft2, q2).
  - done.
  - exists ft', q'. split; [done |]. by apply seeded_next_row.
Qed.

Lemma seed_spec ft q :
  seeded g R C 0 0 ft q →
  ∃ ft' q', seed g (Z.of_nat R) (Z.of_nat C) (ft, q) = Ret (ft', q') ∧
            seeded g R C (Z.of_nat R) 0 ft' q'.
Proof.
  intros Hs. unfold seed.
  destruct (foldM_seqZ_inv (λ y st, seeded g R C y 0 st.1 st.2)
              (seed_row g (Z.of_nat C)) R 0 (ft, q)) as ([ft' q'] & Hfold & Hs').
  - intros y [ft1 q1] Hy Hs1.
    destruct (seed_row_spec y ft1 q1) as (ft2 & q2 & ? & ?); [lia | done |].
    by exists (ft2, q2).
  - done.
  - by exists ft', q'.
Qed.

Lemma at2_replicate {A : Type} (a b : A) p :
  at2 (replicate R (replicate C a)) p = Some b → b = a.
Proof.
  unfold at2. case_decide; [| done].
  destruct (replicate R (replicate C a) !! Z.to_nat p.2) as [row|] eqn:Hrow; [| done].
  apply lookup_replicate in Hrow as [-> _]. simpl.
  intros Hb. by apply lookup_replicate in Hb as [-> _].
Qed.

Lemma shape_replicate {A : Type} (a : A) :
  shape R C (replicate R (replicate C a)).
Proof.
  split; [by rewrite length_replicate |].
  apply Forall_replicate. by rewrite length_replicate.
Qed.

Lemma seeded_init : seeded g R C 0 0 (replicate R (replicate C INF)) [].
Proof.
  split.
  - apply shape_replicate.
  - intros p Hpr HF.
    assert (is_Some (at2 g p)) as Hin by by eexists.
    apply (at2_inside R C g p g_shape) in Hin.
    unfold processed in Hpr. lia.
  - intros p v Hv. by apply at2_replicate in Hv.
  - intros p. split; [by intros ?%elem_of_nil |].
    intros [Hpr HF].
    assert (is_Some (at2 g p)) as Hin by by eexists.
    apply (at2_inside R C g p g_shape) in Hin.
    unfold processed in Hpr. lia.
  - unfold potential. rewrite sum2_replicate. simpl. lia.
Qed.

Lemma seeded_inv ft q :
  seeded g R C (Z.of_nat R) 0 ft q → inv g R C ft q.
Proof.
  intros [Hsh Hfin Hinf Hq Hpot].
  assert (∀ p c, at2 g p = Some c → processed (Z.of_nat R) 0 p) as Hall.
  { intros p c Hc. assert (is_Some (at2 g p)) as Hin by by eexists.
    apply (at2_inside R C g p g_shape) in Hin. unfold processed. lia. }
  split.
  - done.
  - intros p v Hv. destruct (Hinf p v Hv) as (-> & _ & HF).
    split; [done |]. by apply fire_source.
  - intros p HF. apply Hfin; [| done]. by eapply Hall.
  - intros p v Hv Hnq. destruct (Hinf p v Hv) as (_ & Hpr & HF).
    destruct Hnq. by apply Hq.
  - intros p [Hpr HF]%Hq. exists 0. by apply Hfin.
  - intros p v Hv. destruct (Hinf p v Hv) as (-> & _ & _).
    pose proof (sum2_pos finite ft p (Fin 0) Hv). simpl in *. lia.
Qed.

Lemma finite_count_le ft : shape R C ft → (sum2 finite ft ≤ R * C)%nat.
Proof.
  intros Hsh. pose proof (sum2_le R C finite ft 1 Hsh) as Hle.
  rewrite Nat.mul_1_r in Hle. apply Hle. intros [|]; simpl; lia.
Qed.

Lemma direction_moves (p : pos) d :
  d ∈ directions → (p.1 + d.1, p.2 + d.2) ≠ p.
Proof.
  unfold directions. rewrite !elem_of_cons. destruct p as [x y].
  intros [-> | [-> | [-> | [-> | []%elem_of_nil]]]]; simpl; intros [= ? ?]; lia.
Qed.

Lemma spread_spec ft q p tv pre d :
  d ∈ directions →
  inv g R C ft (p :: q) →
  at2 ft p = Some (Fin tv) →
  (∀ d', d' ∈ pre → served g ft p tv d') →
  ∃ ft' q',
    spread g (Z.of_nat R) (Z.of_nat C) p.1 p.2 (Fin tv) (ft, q) d = Ret (ft', q') ∧
    inv g R C ft' (p :: q') ∧
    at2 ft' p = Some (Fin tv) ∧
    (∀ d', d' ∈ pre ++ [d] → served g ft' p tv d') ∧
    (potential (R * C) ft' q' ≤ potential (R * C) ft q)%nat.
Proof.
  intros Hd [Hsh Hsound Hsrc Hclosed Hqueue Hbound] Hp Hpre.
  pose proof (direction_moves p d Hd) as Hne.
  destruct (Hsound p tv Hp) as [Htv Hreach].
  unfold spread. unfold served in *.
  remember (p.1 + d.1, p.2 + d.2) as n eqn:Hndef.
  assert (p.1 + d.1 = n.1) as -> by by subst.
  assert (p.2 + d.2 = n.2) as -> by by subst.
  assert (∀ d', d' ∈ pre ++ [d] → d' ∈ pre ∨ d' = d) as Hsplit.
  { intros d'. rewrite elem_of_app, list_elem_of_singleton. tauto. }
  destruct (in_bounds (Z.of_nat R) (Z.of_nat C) n.1 n.2) eqn:Hin; cbn [negb].
  2:{ exists ft, q. split; [done |]. split; [done |]. split; [done |].
      split; [| done].
      intros d' [? | ->]%Hsplit; [by apply Hpre |].
      rewrite <- Hndef. intros (c & Hc & _). exfalso.
      assert (is_Some (at2 g n)) as Hn by by eexists.
      apply (at2_inside R C g n g_shape) in Hn.
      unfold in_bounds in Hin. lia. }
  destruct (grid_get2 n.1 n.2 Hin) as (c & Hget & Hc). rewrite Hget. cbn.
  rewrite <- surjective_pairing in Hc.
  destruct (is_wall c) eqn:Hwall.
  { exists ft, q. split; [done |]. split; [done |]. split; [done |].
    split; [| done].
    intros d' [? | ->]%Hsplit; [by apply Hpre |].
    rewrite <- Hndef. intros (c' & Hc' & Hw). congruence. }
  assert (passable g n) as Hpass by by exists c.
  assert (0 ≤ n.1 < Z.of_nat C ∧ 0 ≤ n.2 < Z.of_nat R) as Hn
    by (unfold in_bounds in Hin; lia).
  destruct (proj2 (at2_inside R C ft n Hsh) Hn) as [v Hv].
  rewrite get2_at2 by lia.
  rewrite <- surjective_pairing, Hv. cbn.
  destruct (ftime_gt v (Fin (tv + 1))) eqn:Hgt.
  2:{ exists ft, q. split; [done |]. split; [done |]. split; [done |].
      split; [| done].
      intros d' [? | ->]%Hsplit; [by apply Hpre |].
      rewrite <- Hndef. intros _. destruct v as [v0|]; [| done].
      exists v0. split; [done |]. simpl in Hgt. lia. }
  destruct (set2_spec R C ft n.1 n.2 (Fin (tv + 1)) v Hsh) as (ft' & -> & Hsh' & Hat & Hsum).
  { by rewrite <- surjective_pairing. }
  rewrite <- surjective_pairing in Hat.
  cbn. exists ft', (q ++ [n]). split; [done |].
  pose proof (Hbound p tv Hp) as Hbp.
  pose proof (finite_count_le ft Hsh) as Hcount.
  pose proof (Hsum finite) as Hfin. pose proof (Hsum (weight (R * C))) as Hw.
  assert (∀ x w, at2 ft' x = Some (Fin w) → x ≠ n → at2 ft x = Some (Fin w)) as Hold.
  { intros x w. rewrite Hat. by case_decide. }
  assert (∀ x w, at2 ft x = Some (Fin w) →
                 ∃ w', at2 ft' x = Some (Fin w') ∧ w' ≤ w ∧ (x = n → w' ≤ tv + 1)) as Hnew.
  { intros x w Hx. rewrite Hat. case_decide as Hxn.
    - subst x. exists (tv + 1). rewrite Hv in Hx. injection Hx as ->.
      simpl in Hgt. split; [done |]. lia.
    - exists w. split; [done |]. split; [lia | done]. }
  split; [| split; [| split]].
  - split.
    + done.
    + intros x w Hx. destruct (decide (x = n)) as [-> | Hxn].
      * rewrite Hat, decide_True in Hx by done. injection Hx as <-.
        split; [lia |]. replace (Z.to_nat (tv + 1)) with (S (Z.to_nat tv)) by lia.
        apply fire_spread with p; [done | by exists d | done].
      * apply Hsound. by apply Hold.
    + intros x HF. rewrite Hat. case_decide as Hxn; [| by apply Hsrc].
      subst x. rewrite (Hsrc n HF) in Hv. injection Hv as <-.
      simpl in Hgt. lia.
    + intros x w Hx Hnq d' Hd'.
      assert (x ≠ n ∧ x ∉ p :: q) as [Hxn Hxq].
      { rewrite !elem_of_cons, elem_of_app, list_elem_of_singleton in Hnq.
        rewrite elem_of_cons. tauto. }
      intros Hpass'.
      destruct (Hclosed x w (Hold x w Hx Hxn) Hxq d' Hd' Hpass') as (v' & Hv' & Hle).
      destruct (Hnew _ _ Hv') as (w' & Hw' & Hle' & _).
      exists w'. split; [done | lia].
    + intros x Hx.
      assert (x = n ∨ x ∈ p :: q) as [-> | Hxq].
      { rewrite !elem_of_cons, elem_of_app, list_elem_of_singleton in Hx.
        rewrite elem_of_cons. tauto. }
      * exists (tv + 1). by rewrite Hat, decide_True.
      * destruct (Hqueue x Hxq) as [w Hw0].
        destruct (Hnew _ _ Hw0) as (w' & Hw' & _). by exists w'.
    + intros x w Hx. destruct (decide (x = n)) as [-> | Hxn].
      * rewrite Hat, decide_True in Hx by done. injection Hx as <-.
        destruct v as [v0|]; simpl in *.
        -- pose proof (Hbound n v0 Hv). lia.
        -- lia.
      * pose proof (Hbound x w (Hold x w Hx Hxn)).
        destruct v; simpl in *; lia.
  - rewrite Hat. by rewrite decide_False.
  - intros d' [Hd' | ->]%Hsplit.
    + intros Hpass'. destruct (Hpre d' Hd' Hpass') as (v' & Hv' & Hle).
      destruct (Hnew _ _ Hv') as (w' & Hw' & Hle' & _).
      exists w'. split; [done | lia].
    + rewrite <- Hndef. intros _. exists (tv + 1). rewrite Hat, decide_True by done.
      split; [done | lia].
  - unfold potential. rewrite length_app. simpl.
    destruct v as [v0|]; simpl in *; lia.
Qed.

Lemma step_spec ft p q :
  inv g R C ft (p :: q) →
  ∃ ft' q',
    step g (Z.of_nat R) (Z.of_nat C) ft p q = Ret (ft', q') ∧
    inv g R C ft' q' ∧
    (potential (R * C) ft' q' ≤ potential (R * C) ft q)%nat.
Proof.
  intros Hinv.
  destruct (inv_queue _ _ _ _ _ Hinv p) as [tv Hp]; [by left |].
  assert (0 ≤ p.1 ∧ 0 ≤ p.2) as [Hx Hy].
  { assert (is_Some (at2 ft p)) as Hin by by eexists.
    apply (at2_inside R C ft p (inv_shape _ _ _ _ _ Hinv)) in Hin. lia. }
  unfold step. rewrite get2_at2 by done. rewrite <- surjective_pairing, Hp. cbn.
  destruct (foldM_list_inv
              (λ pre st, inv g R C st.1 (p :: st.2) ∧
                         at2 st.1 p = Some (Fin tv) ∧
                         (∀ d', d' ∈ pre → served g st.1 p tv d') ∧
                         (potential (R * C) st.1 st.2 ≤ potential (R * C) ft q)%nat)
              (λ d, d ∈ directions)
              (spread g (Z.of_nat R) (Z.of_nat C) p.1 p.2 (Fin tv)))
    with (l := directions) (pre := @nil (Z * Z)) (s := (ft, q))
    as ([ft' q'] & Hfold & Hinv' & Hp' & Hserved & Hpot).
  - intros pre d [ft1 q1] Hd (Hinv1 & Hp1 & Hpre1 & Hpot1). cbn [fst snd] in *.
    destruct (spread_spec ft1 q1 p tv pre d Hd Hinv1 Hp1 Hpre1)
      as (ft2 & q2 & ? & ? & ? & ? & ?).
    exists (ft2, q2). cbn [fst snd]. do 4 (split; [done |]). lia.
  - by apply Forall_forall.
  - cbn [fst snd]. do 2 (split; [done |]). split; [| done]. by intros d' ?%elem_of_nil.
  - cbn [fst snd app] in *. exists ft', q'. split; [done |]. split; [| done].
    destruct Hinv' as [Hsh Hsound Hsrc Hclosed Hqueue Hbound].
    split; try done.
    + intros x w Hx' Hxq d' Hd'. destruct (decide (x = p)) as [-> | Hxp].
      * rewrite Hp' in Hx'. injection Hx' as <-. by apply Hserved.
      * apply Hclosed; [done | | done]. rewrite elem_of_cons. tauto.
    + intros x Hxq. apply Hqueue. by right.
Qed.

Lemma loop_spec fuel : ∀ ft q,
  inv g R C ft q →
  (potential (R * C) ft q < fuel)%nat →
  ∃ ft', loop fuel g (Z.of_nat R) (Z.of_nat C) (ft, q) = Ret ft' ∧
         inv g R C ft' [].
Proof.
  induction fuel as [|fuel IH]; intros ft q Hinv Hpot; [lia |].
  destruct q as [|p q].
  - exists ft. by destruct fuel.
  - simpl. destruct (step_spec ft p q Hinv) as (ft1 & q1 & -> & Hinv1 & Hpot1).
    cbn. apply IH; [done |]. unfold potential in *. simpl in *. lia.
Qed.

Lemma inv_final ft :
  R = length g → C = length (hd [] g) →
  inv g R C ft [] → final g ft.
Proof.
  intros -> -> [Hsh Hsound Hsrc Hclosed Hqueue Hbound].
  assert (∀ p q v, at2 ft p = Some (Fin v) → adjacent p q → passable g q →
                   ∃ v', at2 ft q = Some (Fin v') ∧ v' ≤ v + 1) as Hcl.
  { intros p q v Hv (d & Hd & ->) Hpass.
    by apply (Hclosed p v Hv (not_elem_of_nil p) d Hd). }
  split; [done | done | | done].
  induction 1 as [p HF | n p q Hreach (v & Hv & Hle) Hadj Hpass].
  - exists 0. split; [by apply Hsrc | lia].
  - destruct (Hcl p q v Hv Hadj Hpass) as (v' & Hv' & Hle').
    exists v'. split; [done | lia].
Qed.

End FireProofs.

Lemma rectangular_dims g :
  rectangular g →
  grid_dims g = Ret (Z.of_nat (length g), Z.of_nat (length (hd [] g))).
Proof.
  intros [Hne _]. destruct g as [|row0 g]; [done |]. done.
Qed.

Lemma compute_fire_time_final g :
  rectangular g →
  ∃ ft, FireTime.compute_fire_time g = Ret ft ∧ FireInv.final g ft.
Proof.
  intros Hrect. pose proof Hrect as [Hne Hsh].
  unfold FireTime.compute_fire_time. rewrite rectangular_dims by done. cbn.
  rewrite !Nat2Z.id.
  set (R := length g) in *. set (C := length (hd [] g)) in *.
  destruct (seed_spec g R C Hsh _ _ (seeded_init g R C Hsh)) as (ft1 & q1 & -> & Hseed).
  cbn.
  pose proof (FireInv.seeded_potential _ _ _ _ _ _ _ Hseed) as Hpot.
  apply (seeded_inv g R C Hsh) in Hseed.
  destruct (loop_spec g R C Hsh
              (FireTime.fuel_for (Z.to_nat (Z.of_nat R * Z.of_nat C))) ft1 q1 Hseed)
    as (ft & Hloop & Hinv).
  - unfold FireTime.fuel_for. replace (Z.to_nat (Z.of_nat R * Z.of_nat C)) with (R * C)%nat by lia.
    lia.
  - exists ft. split; [done |]. by apply (inv_final g R C Hsh).
Qed.

(** ** The order of heap entries *)

Lemma Qcompare_cases (a b : Q) :
  (Qcompare a b = Lt ∧ Qlt a b) ∨ (Qcompare a b = Eq ∧ Qeq a b)
  ∨ (Qcompare a b = Gt ∧ Qlt b a).
Proof.
  destruct (Qcompare a b) eqn:Hc.
  - right; left. split; [done |]. by apply Qeq_alt.
  - left. split; [done |]. by apply Qlt_alt.
  - right; right. split; [done |]. by apply Qgt_alt.
Qed.

Lemma entry_ltb_cotrans (a b c : entry) :
  entry_ltb a b = true → entry_ltb a c = true ∨ entry_ltb c b = true.
Proof.
  unfold entry_ltb, pos_ltb.
  destruct (Qcompare_cases (num_val a.1) (num_val b.1)) as [[-> ?] | [[-> ?] | [-> ?]]];
    destruct (Qcompare_cases (num_val a.1) (num_val c.1)) as [[-> ?] | [[-> ?] | [-> ?]]];
    destruct (Qcompare_cases (num_val c.1) (num_val b.1)) as [[-> ?] | [[-> ?] | [-> ?]]];
    try (intros _; by auto); try done; try (exfalso; Lqa.lra).
  repeat case_decide; lia.
Qed.

Lemma entry_ltb_asym (a b : entry) :
  entry_ltb a b = true → entry_ltb b a = false.
Proof.
  unfold entry_ltb, pos_ltb.
  destruct (Qcompare_cases (num_val a.1) (num_val b.1)) as [[-> ?] | [[-> ?] | [-> ?]]];
    destruct (Qcompare_cases (num_val b.1) (num_val a.1)) as [[-> ?] | [[-> ?] | [-> ?]]];
    try done; try (exfalso; Lqa.lra).
  repeat case_decide; lia.
Qed.

Lemma entry_ltb_of_Qlt (a b : entry) :
  Qlt (num_val a.1) (num_val b.1) → entry_ltb a b = true.
Proof.
  intros Hlt. unfold entry_ltb.
  by apply Qlt_alt in Hlt as ->.
Qed.

Lemma pop_min_spec (h : list entry) : ∀ e m r,
  pop_min e h = (m, r) →
  m :: r ≡ₚ e :: h ∧ ∀ x, x ∈ e :: h → entry_ltb x m = false.
Proof.
  induction h as [|e' h IH]; intros e m r; simpl.
  - intros [= <- <-]. split; [done |].
    intros x ->%list_elem_of_singleton.
    destruct (entry_ltb e e) eqn:Hee; [| done].
    by rewrite (entry_ltb_asym _ _ Hee) in Hee.
  - destruct (pop_min e' h) as [m' r'] eqn:Hpop.
    destruct (IH e' m' r' Hpop) as [Hperm Hmin].
    destruct (entry_ltb m' e) eqn:Hlt; intros [= <- <-].
    + split.
      * rewrite <- Hperm. apply Permutation_swap.
      * intros x [-> | Hx]%elem_of_cons; [by apply entry_ltb_asym | by apply Hmin].
    + split; [done |].
      intros x [-> | Hx]%elem_of_cons.
      * destruct (entry_ltb e e) eqn:Hee; [| done].
        by rewrite (entry_ltb_asym _ _ Hee) in Hee.
      * destruct (entry_ltb x e) eqn:Hxe; [| done].
        destruct (entry_ltb_cotrans _ _ m' Hxe) as [Hxm | Hme]; [| congruence].
        by rewrite (Hmin x Hx) in Hxm.
Qed.

(** ** Loops *)

Lemma foldM_list_post {A St : Type} (I : list A → St → Prop) (P : A → Prop)
    (E : exn → Prop) (f : St → A → outcome St) :
  (∀ pre a s, P a → I pre s →
     match f s a with
     | Ret s' => I (pre ++ [a]) s'
     | Raise e => E e
     | OutOfFuel => False
     end) →
  ∀ (l pre : list A) (s : St),
    Forall P l →
    I pre s →
    match foldM f l s with
    | Ret s' => I (pre ++ l) s'
    | Raise e => E e
    | OutOfFuel => False
    end.
Proof.
  intros Hf. induction l as [|a l IH]; intros pre s Hl Hs.
  - simpl. by rewrite app_nil_r.
  - apply Forall_cons in Hl as [Ha Hl]. simpl.
    specialize (Hf pre a s Ha Hs).
    destruct (f s a) as [s1 | e |]; simpl; [| done | done].
    specialize (IH (pre ++ [a]) s1 Hl Hf).
    by rewrite <- app_assoc in IH.
Qed.

Lemma while_open_spec (body : Algorithm → sstate → entry → list entry → flow)
    (I : sstate → Prop) (Post : outcome sstate → Prop) (mu : sstate → nat) :
  (∀ self st e h, I st → open_heap st = e :: h →
     match body self st e h with
     | Continue _ st' => I st' ∧ (mu st' < mu st)%nat
     | Stop r _ => Post r
     end) →
  (∀ st, I st → open_heap st = [] → Post (Ret st)) →
  ∀ fuel self st, I st → (mu st < fuel)%nat →
    Post (while_open body fuel self st).1.
Proof.
  intros Hbody Hexit. induction fuel as [|fuel IH]; intros self st HI Hmu; [lia |].
  simpl. destruct (open_heap st) as [|e h] eqn:Hheap.
  - by apply Hexit.
  - specialize (Hbody self st e h HI Hheap).
    destruct (body self st e h) as [self' st' | r self']; [| done].
    destruct Hbody as [HI' Hlt]. apply IH; [done | lia].
Qed.

(** ** The universe and the termination measure *)

Section Universe.
Import SearchInv.
Variables (rows cols : Z) (start : pos).

Lemma in_bounds_cells x y :
  in_bounds rows cols x y = true → (x, y) ∈ cells rows cols.
Proof.
  unfold in_bounds. intros Hin.
  assert (0 ≤ x < cols ∧ 0 ≤ y < rows) as [Hx Hy] by lia.
  unfold cells. apply list_elem_of_fmap. exists (x + y * cols). split.
  - f_equal.
    + rewrite Z.mod_add by lia. by rewrite Z.mod_small.
    + rewrite Z.div_add by lia. rewrite Z.div_small by lia. lia.
  - apply elem_of_seqZ. nia.
Qed.

Lemma in_bounds_universe x y :
  in_bounds rows cols x y = true → (x, y) ∈ universe rows cols start.
Proof.
  intros Hin. unfold universe.
  apply elem_of_union_r, elem_of_list_to_set. by apply in_bounds_cells.
Qed.

Lemma start_universe : start ∈ universe rows cols start.
Proof. unfold universe. set_solver. Qed.

Lemma cells_inside (p : pos) :
  0 ≤ rows → 0 ≤ cols →
  p ∈ cells rows cols → 0 ≤ p.1 < cols ∧ 0 ≤ p.2 < rows.
Proof.
  intros HR HC.
  unfold cells. intros (i & -> & Hi%elem_of_seqZ)%list_elem_of_fmap. simpl.
  assert (0 < cols) as Hpos by nia.
  pose proof (Z.mod_pos_bound i cols Hpos).
  split; [done |]. split; [apply Z.div_pos; lia |].
  apply Z.div_lt_upper_bound; lia.
Qed.

Lemma universe_inside (p : pos) :
  0 ≤ rows → 0 ≤ cols →
  p ∈ universe rows cols start →
  p = start ∨ (0 ≤ p.1 < cols ∧ 0 ≤ p.2 < rows).
Proof.
  intros HR HC. unfold universe.
  intros [->%elem_of_singleton | Hp%elem_of_list_to_set]%elem_of_union;
    [by left | right]. by apply cells_inside.
Qed.

Lemma size_union_le (X Y : gset pos) : (size (X ∪ Y) ≤ size X + size Y)%nat.
Proof.
  rewrite size_union_alt.
  assert (size (Y ∖ X) ≤ size Y)%nat by (apply subseteq_size; set_solver).
  lia.
Qed.

Lemma size_list_to_set_le (l : list pos) :
  (size (list_to_set l : gset pos) ≤ length l)%nat.
Proof.
  induction l as [|x l IH].
  - change (list_to_set [] : gset pos) with (∅ : gset pos). by rewrite size_empty.
  - change (list_to_set (x :: l) : gset pos) with ({[x]} ∪ list_to_set l : gset pos).
    etrans; [apply size_union_le |]. rewrite size_singleton. simpl. lia.
Qed.

Lemma size_universe :
  (size (universe rows cols start) ≤ S (Z.to_nat (rows * cols)))%nat.
Proof.
  unfold universe. etrans; [apply size_union_le |].
  rewrite size_singleton.
  pose proof (size_list_to_set_le (cells rows cols)) as Hle.
  unfold cells in Hle at 2. rewrite length_fmap, length_seqZ in Hle. lia.
Qed.

(** No more costs are recorded than there are positions. *)
Lemma size_known (costs : gmap pos Z) :
  0 ≤ rows * cols →
  (∀ n, is_Some (costs !! n) → n ∈ universe rows cols start) →
  Z.of_nat (size costs) ≤ rows * cols + 1.
Proof.
  intros Hpos Hknown. pose proof size_universe as Hle.
  assert (size (dom costs) ≤ size (universe rows cols start))%nat as Hsub.
  { apply subseteq_size. intros n Hn%elem_of_dom. by apply Hknown. }
  rewrite size_dom in Hsub. lia.
Qed.

Lemma measure_initial `{Float64} end_ mode :
  (measure rows cols start (initial_state start end_ mode)
   < search_fuel rows cols)%nat.
Proof.
  unfold measure, search_fuel, initial_state; simpl.
  pose proof size_universe.
  assert (size (universe rows cols start ∖ ∅) ≤ size (universe rows cols start))%nat
    by (apply subseteq_size; set_solver).
  lia.
Qed.

Lemma measure_visit st c :
  c ∈ universe rows cols start → c ∉ visited st →
  (4 + measure rows cols start (add_visited st c)
   ≤ measure rows cols start st)%nat.
Proof.
  intros Hc Hnv. unfold measure, add_visited; simpl.
  assert (size (universe rows cols start ∖ (visited st ∪ {[c]}))
          < size (universe rows cols start ∖ visited st))%nat.
  { apply subset_size. set_solver. }
  lia.
Qed.

End Universe.

(** ** The invariant shared by both searches *)

Section Shared.
Import SearchInv.
Context `{Float64}.
Variables (g : grid) (rows cols : Z) (start end_ : pos) (mode : string).
Variable P : pos → Z → Prop.

Local Abbreviation J := (J g rows cols start P).
Local Abbreviation measure := (measure rows cols start).

Lemma J_initial : P start 0 → J (initial_state start end_ mode).
Proof.
  intros HP. unfold initial_state, heappush. split; simpl.
  - apply lookup_singleton_eq.
  - apply lookup_singleton_eq.
  - by rewrite !dom_singleton_L.
  - intros n gn [-> ->]%lookup_singleton_Some. done.
  - intros n gn [<- <-]%lookup_singleton_Some.
    rewrite map_size_singleton. split; [lia | done].
  - intros n [gn [<- _]%lookup_singleton_Some]. apply start_universe.
  - intros e ->%list_elem_of_singleton. simpl. split.
    + exists 0. apply lookup_singleton_eq.
    + apply start_universe.
  - intros n []%elem_of_empty.
Qed.

Lemma J_set_heap st h :
  J st → (∀ e, e ∈ h → e ∈ open_heap st) → J (set_heap st h).
Proof.
  intros [? ? ? ? ? ? Hheap ?] Hsub. split; simpl; try done.
  intros e He. by apply Hheap, Hsub.
Qed.

Lemma J_add_visited st c :
  J st → is_Some (g_cost st !! c) → c ∈ universe rows cols start →
  J (add_visited st c).
Proof.
  intros [? ? ? ? ? ? ? Hvis] Hc HU. split; simpl; try done.
  intros n [Hn | ->%elem_of_singleton]%elem_of_union; [by apply Hvis | done].
Qed.

Lemma J_improve st current gc neighbor :
  J st →
  g_cost st !! current = Some gc →
  below (gc + 1) (g_cost st !! neighbor) = true →
  adjacent current neighbor →
  passable g neighbor →
  in_bounds rows cols neighbor.1 neighbor.2 = true →
  P neighbor (gc + 1) →
  J (improve end_ mode st current neighbor (gc + 1)) ∧
  neighbor ≠ start ∧ neighbor ≠ current.
Proof.
  intros [Hsg Hsp Hdom Hprev Hcost Hknown Hheap Hvis] Hcur Hbelow Hadj Hpass Hin HP.
  destruct (Hcost _ _ Hcur) as [[Hgc0 Hgcs] _].
  assert (neighbor ≠ start) as Hns.
  { intros ->. rewrite Hsg in Hbelow. simpl in Hbelow. lia. }
  assert (neighbor ≠ current) as Hnc.
  { intros ->. rewrite Hcur in Hbelow. simpl in Hbelow. lia. }
  assert (size (g_cost st) ≤ size (<[neighbor := (gc + 1)%Z]> (g_cost st)))%nat as Hsize.
  { rewrite map_size_insert. destruct (g_cost st !! neighbor); simpl; lia. }
  split; [| done]. unfold improve, heappush. split; simpl.
  - by rewrite lookup_insert_ne.
  - by rewrite lookup_insert_ne.
  - by rewrite !dom_insert_L, Hdom.
  - intros n gn Hn Hnstart.
    destruct (decide (n = neighbor)) as [-> | Hne].
    + rewrite lookup_insert_eq in Hn. injection Hn as <-.
      exists current, gc. rewrite lookup_insert_eq, lookup_insert_ne by done.
      split; [done |]. split; [done |]. split; [lia | done].
    + rewrite lookup_insert_ne in Hn by done.
      destruct (Hprev n gn Hn Hnstart) as (c & gc' & Hpc & Hgc' & Hle & Hadj' & Hpass').
      rewrite lookup_insert_ne by done.
      destruct (decide (c = neighbor)) as [-> | Hcn].
      * exists neighbor, (gc + 1). rewrite lookup_insert_eq.
        rewrite Hgc' in Hbelow. simpl in Hbelow.
        split; [done |]. split; [done |]. split; [lia | done].
      * exists c, gc'. rewrite lookup_insert_ne by done. done.
  - intros n gn Hn.
    destruct (decide (n = neighbor)) as [-> | Hne].
    + rewrite lookup_insert_eq in Hn. injection Hn as <-.
      split; [| done]. rewrite map_size_insert.
      destruct (g_cost st !! neighbor) as [go|] eqn:Hgo; simpl in *.
      * destruct (Hcost _ _ Hgo) as [[_ ?] _]. lia.
      * lia.
    + rewrite lookup_insert_ne in Hn by done.
      destruct (Hcost _ _ Hn) as [[? ?] ?]. split; [lia | done].
  - intros n Hn. destruct (decide (n = neighbor)) as [-> | Hne].
    + rewrite (surjective_pairing neighbor). by apply in_bounds_universe.
    + rewrite lookup_insert_ne in Hn by done. by apply Hknown.
  - intros e [-> | He]%elem_of_cons; simpl.
    + rewrite lookup_insert_eq. split; [by eexists |].
      rewrite (surjective_pairing neighbor). by apply in_bounds_universe.
    + destruct (Hheap e He) as [[ge Hge] HU]. split; [| done].
      destruct (decide (e.2 = neighbor)) as [-> | Hne].
      * rewrite lookup_insert_eq. by eexists.
      * rewrite lookup_insert_ne by done. by eexists.
  - intros n Hn. destruct (Hvis n Hn) as [[gn Hgn] HU]. split; [| done].
    destruct (decide (n = neighbor)) as [-> | Hne].
    + rewrite lookup_insert_eq. by eexists.
    + rewrite lookup_insert_ne by done. by eexists.
Qed.

Lemma reconstruct_None (fuel : nat) (prev : gmap pos (option pos))
    (path : list pos) :
  reconstruct fuel prev None path = Ret path.
Proof. by destruct fuel. Qed.

(** The chain of predecessors of a recorded position is a route from the
    start, no longer than the recorded cost, along which every position
    has a recorded cost at least its index. *)
Lemma J_reconstruct st : J st → ∀ (b : nat) n gn acc fuel,
  g_cost st !! n = Some gn → gn ≤ Z.of_nat b → (b < fuel)%nat →
  ∃ l, reconstruct fuel (previous st) (Some n) acc = Ret (acc ++ rev l) ∧
       route g start l n ∧
       Z.of_nat (length l) ≤ gn + 1 ∧
       ∀ i x, l !! i = Some x →
              ∃ gx, g_cost st !! x = Some gx ∧ Z.of_nat i ≤ gx ∧ P x gx.
Proof.
  intros [Hsg Hsp Hdom Hprev Hcost Hknown Hheap Hvis].
  induction b as [|b IH]; intros n gn acc fuel Hn Hle Hfuel.
  - destruct (Hcost _ _ Hn) as [[Hgn0 _] HP].
    assert (gn = 0) as -> by lia.
    destruct (decide (n = start)) as [-> | Hns].
    + exists [start]. destruct fuel as [|fuel]; [lia |]. simpl.
      rewrite Hsp, reconstruct_None.
      split; [done |]. split; [constructor |]. split; [simpl; lia |].
      intros [|i] x; simpl; [| done]. intros [= <-]. exists 0. split; [done |].
      split; [lia | done].
    + destruct (Hprev _ _ Hn Hns) as (c & gc & _ & Hgc & ? & _).
      destruct (Hcost _ _ Hgc) as [[? _] _]. lia.
  - destruct (Hcost _ _ Hn) as [[Hgn0 _] HP].
    destruct (decide (n = start)) as [-> | Hns].
    + exists [start]. destruct fuel as [|fuel]; [lia |]. simpl.
      rewrite Hsp, reconstruct_None.
      rewrite Hsg in Hn. injection Hn as <-.
      split; [done |]. split; [constructor |]. split; [simpl; lia |].
      intros [|i] x; simpl; [| done]. intros [= <-]. exists 0. split; [done |].
      split; [lia | done].
    + destruct (Hprev _ _ Hn Hns) as (c & gc & Hpc & Hgc & Hlec & Hadj & Hpass).
      destruct fuel as [|fuel]; [lia |]. simpl. rewrite Hpc.
      destruct (IH c gc (acc ++ [n]) fuel Hgc) as (l & -> & Hroute & Hlen & Hidx);
        [lia | lia |].
      exists (l ++ [n]). split; [| split; [| split]].
      * by rewrite rev_app_distr, <- app_assoc.
      * by apply route_step with c.
      * rewrite length_app. simpl. lia.
      * intros i x Hx. apply lookup_app_Some in Hx as [Hx | [Hi Hx]].
        -- by apply Hidx.
        -- apply list_lookup_singleton_Some in Hx as [Hi' <-].
           exists gn. split; [done |]. split; [lia | done].
Qed.

Local Abbreviation finished := (finished g start end_ P).

Lemma J_finish st :
  J st → ∃ path, finish st end_ = Ret path ∧ finished st path.
Proof.
  intros HJ. unfold finish.
  pose proof (J_dom _ _ _ _ _ _ HJ) as Hdom.
  destruct (previous st !! end_) as [o|] eqn:Hprev.
  - assert (is_Some (g_cost st !! end_)) as [ge Hge].
    { apply elem_of_dom. rewrite <- Hdom. apply elem_of_dom. by eexists. }
    destruct (J_cost _ _ _ _ _ _ HJ _ _ Hge) as [[Hge0 Hges] _].
    destruct (J_reconstruct st HJ (Z.to_nat ge) end_ ge [] (S (size (previous st))) Hge)
      as (l & -> & Hroute & Hlen & Hidx).
    + lia.
    + rewrite <- (size_dom (previous st)), Hdom, size_dom. lia.
    + simpl. rewrite rev_involutive. exists l. split; [done |].
      right. by exists ge.
  - exists []. split; [done |]. left. split; [| done].
    apply not_elem_of_dom. rewrite <- Hdom. by apply not_elem_of_dom.
Qed.

End Shared.

(** ** Small facts on the Python operations *)

Lemma getitem_fuel {A : Type} (l : list A) (i : Z) : getitem l i ≠ OutOfFuel.
Proof.
  unfold getitem. destruct (_ <? 0); [done |].
  by destruct (l !! _).
Qed.

Lemma get2_fuel {A : Type} (m : list (list A)) (x y : Z) : get2 m x y ≠ OutOfFuel.
Proof.
  unfold get2. pose proof (getitem_fuel m y).
  destruct (getitem m y) as [row | e |]; simpl; [| done | done].
  apply getitem_fuel.
Qed.

Lemma get2_passable (g : grid) rows cols x y c :
  in_bounds rows cols x y = true →
  get2 g x y = Ret c → is_wall c = false → passable g (x, y).
Proof.
  unfold in_bounds. intros Hin Hget Hwall.
  rewrite get2_at2 in Hget by lia.
  destruct (at2 g (x, y)) as [c'|] eqn:Hc; [| done].
  injection Hget as ->. by exists c.
Qed.

Lemma ftime_le_gt (a b : ftime) : ftime_le a b = negb (ftime_gt a b).
Proof. destruct a, b; simpl; try done. lia. Qed.

Lemma fire_safe_mono ft p t t' : fire_safe ft p t → t' ≤ t → fire_safe ft p t'.
Proof.
  intros (v & Hv & Hgt) Hle. exists v. split; [done |].
  destruct v; simpl in *; [lia | done].
Qed.

Lemma pop_min_length e h m r : pop_min e h = (m, r) → length r = length h.
Proof.
  intros Hpop. apply pop_min_spec in Hpop as [Hperm _].
  apply Permutation_length in Hperm. simpl in Hperm. lia.
Qed.

Lemma pop_min_elem e h m r x :
  pop_min e h = (m, r) → x ∈ m :: r ↔ x ∈ e :: h.
Proof.
  intros Hpop. apply pop_min_spec in Hpop as [Hperm _]. by rewrite Hperm.
Qed.

(** ** The hazard-aware search *)

Section FireSearch.
Import SearchInv.
Context `{Float64}.
Variables (g : grid) (rows cols : Z) (start end_ : pos).
Variables (fire_time : fire_map) (mode : string).

Local Abbreviation J := (J g rows cols start (fire_safe fire_time)).
Local Abbreviation measure := (measure rows cols start).

Lemma fire_relax_spec st current t d :
  d ∈ directions → J st → g_cost st !! current = Some t →
  match Fire.relax g rows cols end_ fire_time mode current t st d with
  | Ret st' => J st' ∧ g_cost st' !! current = Some t ∧
               visited st' = visited st ∧
               (length (open_heap st') ≤ S (length (open_heap st)))%nat
  | Raise _ => True
  | OutOfFuel => False
  end.
Proof.
  intros Hd HJ Hcur. unfold Fire.relax.
  remember (current.1 + d.1) as nx eqn:Hnx.
  remember (current.2 + d.2) as ny eqn:Hny.
  destruct (in_bounds rows cols nx ny) eqn:Hin; simpl; [| by auto].
  pose proof (get2_fuel g nx ny) as Hfg.
  destruct (get2 g nx ny) as [c | e |] eqn:Hget; simpl; [| done | done].
  destruct (is_wall c) eqn:Hwall; [by auto |].
  pose proof (get2_fuel fire_time nx ny) as Hff.
  destruct (get2 fire_time nx ny) as [fv | e |] eqn:Hfire; simpl; [| done | done].
  destruct (ftime_le fv (Fin (t + 1))) eqn:Hle; [by auto |].
  destruct (below (t + 1) (g_cost st !! (nx, ny))) eqn:Hbelow; [| by auto].
  destruct (J_improve g rows cols start end_ mode _ st current t (nx, ny) HJ Hcur Hbelow)
    as (HJ' & Hns & Hnc).
  - exists d. by subst.
  - by eapply get2_passable.
  - done.
  - exists fv. split; [done |]. rewrite ftime_le_gt in Hle.
    by destruct (ftime_gt fv (Fin (t + 1))).
  - split; [done |]. simpl. rewrite lookup_insert_ne by done. auto.
Qed.

Lemma fire_body_spec self st e h :
  J st → open_heap st = e :: h →
  match Fire.body g rows cols end_ fire_time mode self st e h with
  | Continue _ st' => J st' ∧ (measure st' < measure st)%nat
  | Stop (Ret st') _ => J st'
  | Stop (Raise _) _ => True
  | Stop OutOfFuel _ => False
  end.
Proof.
  intros HJ Hheap. unfold Fire.body.
  destruct (pop_min e h) as [[k current] h'] eqn:Hpop.
  pose proof (pop_min_length _ _ _ _ Hpop) as Hlen.
  assert ((k, current) ∈ open_heap st) as Hcur.
  { rewrite Hheap. apply (pop_min_elem _ _ _ _ _ Hpop). by left. }
  destruct (J_heap _ _ _ _ _ _ HJ _ Hcur) as [[t Ht] HU]. simpl in Ht, HU.
  assert (J (set_heap st h')) as HJ1.
  { apply J_set_heap; [done |]. intros x Hx. rewrite Hheap.
    apply (pop_min_elem _ _ _ _ _ Hpop). by right. }
  assert (measure (set_heap st h') < measure st)%nat as Hm1.
  { unfold measure. simpl. rewrite Hheap. simpl. lia. }
  case_decide as Hvis; [done |]. simpl in Hvis.
  pose proof (measure_visit rows cols start (set_heap st h') current HU Hvis) as Hm2.
  assert (J (add_visited (set_heap st h') current)) as HJ2.
  { apply J_add_visited; [done | by eexists | done]. }
  cbn [add_visited set_heap g_cost]. rewrite Ht.
  pose proof (get2_fuel fire_time current.1 current.2) as Hff.
  destruct (get2 fire_time current.1 current.2) as [fv | e' |]; [| done | done].
  destruct (ftime_le fv (Fin t)); [split; [done | lia] |].
  case_decide; [done |].
  pose proof (foldM_list_post
    (λ pre s, J s ∧ g_cost s !! current = Some t ∧
              visited s = visited st ∪ {[current]} ∧
              (length (open_heap s) ≤ length h' + length pre)%nat)
    (λ d, d ∈ directions) (λ _, True)
    (Fire.relax g rows cols end_ fire_time mode current t)) as Hfold.
  specialize (Hfold) with (l := directions) (pre := [])
    (s := add_visited (set_heap st h') current).
  destruct (foldM _ directions _) as [st3 | e' |].
  - destruct Hfold as (HJ3 & _ & Hvis3 & Hlen3).
    + intros pre d s Hd (HJs & Hs & Hviss & Hlens).
      pose proof (fire_relax_spec s current t d Hd HJs Hs) as Hrel.
      destruct (Fire.relax _ _ _ _ _ _ _ _ _ _) as [s' | |]; [| done | done].
      destruct Hrel as (? & ? & Hv' & Hl'). rewrite length_app. simpl.
      split; [done |]. split; [done |]. split; [congruence | lia].
    + by apply Forall_forall.
    + simpl. split; [done |]. split; [done |]. split; [done | lia].
    + split; [done |]. unfold measure in *. simpl in *. rewrite Hvis3. lia.
  - done.
  - apply Hfold.
    + intros pre d s Hd (HJs & Hs & Hviss & Hlens).
      pose proof (fire_relax_spec s current t d Hd HJs Hs) as Hrel.
      destruct (Fire.relax _ _ _ _ _ _ _ _ _ _) as [s' | |]; [| done | done].
      destruct Hrel as (? & ? & Hv' & Hl'). rewrite length_app. simpl.
      split; [done |]. split; [done |]. split; [congruence | lia].
    + by apply Forall_forall.
    + simpl. split; [done |]. split; [done |]. split; [done | lia].
Qed.

End FireSearch.

Lemma grid_dims_fuel (g : grid) : grid_dims g ≠ OutOfFuel.
Proof.
  unfold grid_dims. pose proof (getitem_fuel g 0).
  by destruct (getitem g 0).
Qed.

(** Outcome of the hazard-aware search on any input: it never runs out of
    fuel, and a path it returns is empty or a route from the start to the
    end whose [i]-th cell is safe at time [i]. *)
Lemma fire_search_spec `{Float64} self g start end_ fire_time mode :
  match (a_star_with_fire self g start end_ fire_time mode).1 with
  | Ret path =>
      path = [] ∨
      (route g start path end_ ∧
       ∀ i x, path !! i = Some x → fire_safe fire_time x (Z.of_nat i))
  | Raise _ => True
  | OutOfFuel => False
  end.
Proof.
  unfold a_star_with_fire.
  pose proof (grid_dims_fuel g) as Hfd.
  destruct (grid_dims g) as [[rows cols] | e |]; [| done | done].
  pose proof (get2_fuel fire_time start.1 start.2) as Hff.
  destruct (get2 fire_time start.1 start.2) as [fv | e |] eqn:Hfv; [| done | done].
  destruct (ftime_le fv (Fin 0)) eqn:Hle; [by left |].
  pose proof (while_open_spec
    (Fire.body g rows cols end_ fire_time mode)
    (SearchInv.J g rows cols start (fire_safe fire_time))
    (λ r, match r with
          | Ret st => SearchInv.J g rows cols start (fire_safe fire_time) st
          | Raise _ => True
          | OutOfFuel => False
          end)
    (SearchInv.measure rows cols start)) as Hloop.
  specialize (λ Hb He, Hloop Hb He (search_fuel rows cols)
    {| expanded_nodes := 0 |} (initial_state start end_ mode)) as Hloop.
  destruct (while_open _ _ _ _) as [r self'].
  simpl in Hloop. simpl.
  assert (match r with
          | Ret st => SearchInv.J g rows cols start (fire_safe fire_time) st
          | Raise _ => True
          | OutOfFuel => False
          end) as Hr.
  { apply Hloop.
    - intros self0 st e h HJ Hheap.
      pose proof (fire_body_spec g rows cols start end_ fire_time mode self0 st e h HJ Hheap) as Hb.
      destruct (Fire.body _ _ _ _ _ _ _ _ _ _) as [? ? | [? | ? |] ?]; done.
    - done.
    - apply J_initial. exists fv. split; [done |].
      rewrite ftime_le_gt in Hle. by destruct (ftime_gt fv (Fin 0)).
    - apply measure_initial. }
  destruct r as [st | e |]; simpl; [| done | done].
  destruct (J_finish g rows cols start end_ _ st Hr) as (path & -> & Hfin).
  destruct Hfin as [[_ ->] | (ge & Hge & Hroute & Hlen & Hidx)]; [by left |].
  right. split; [done |].
  intros i x Hx. destruct (Hidx i x Hx) as (gx & _ & Hle' & Hsafe).
  by eapply fire_safe_mono.
Qed.

(** ** The hazard-blind search *)

Section PlainSearch.
Import SearchInv.
Context `{Float64}.
Variables (g : grid) (rows cols : Z) (start end_ : pos) (mode : string).

Local Abbreviation walked := (walked g start).
Local Abbreviation J := (J g rows cols start walked).
Local Abbreviation measure := (measure rows cols start).

Lemma plain_relax_spec st current gc d :
  d ∈ directions → J st → g_cost st !! current = Some gc →
  match Plain.relax g rows cols end_ mode current gc st d with
  | Ret st' => J st' ∧ g_cost st' !! current = Some gc ∧
               visited st' = visited st ∧
               (length (open_heap st') ≤ S (length (open_heap st)))%nat
  | Raise _ => True
  | OutOfFuel => False
  end.
Proof.
  intros Hd HJ Hcur. unfold Plain.relax.
  remember (current.1 + d.1) as nx eqn:Hnx.
  remember (current.2 + d.2) as ny eqn:Hny.
  destruct (in_bounds rows cols nx ny) eqn:Hin; simpl; [| by auto].
  pose proof (get2_fuel g nx ny) as Hfg.
  destruct (get2 g nx ny) as [c | e |] eqn:Hget; simpl; [| done | done].
  destruct (is_wall c) eqn:Hwall; [by auto |].
  destruct (below (gc + 1) (g_cost st !! (nx, ny))) eqn:Hbelow; [| by auto].
  assert (adjacent current (nx, ny)) as Hadj by (exists d; by subst).
  assert (passable g (nx, ny)) as Hpass by by eapply get2_passable.
  destruct (J_cost _ _ _ _ _ _ HJ _ _ Hcur) as [[Hgc0 _] Hwalk].
  destruct (J_improve g rows cols start end_ mode _ st current gc (nx, ny) HJ Hcur Hbelow)
    as (HJ' & Hns & Hnc); [done | done | done | |].
  - unfold walked in *. replace (Z.to_nat (gc + 1)) with (S (Z.to_nat gc)) by lia.
    by eapply walk_step.
  - split; [done |]. simpl. rewrite lookup_insert_ne by done. auto.
Qed.

Lemma plain_body_spec self st e h :
  J st → open_heap st = e :: h →
  match Plain.body g rows cols end_ mode self st e h with
  | Continue _ st' => J st' ∧ (measure st' < measure st)%nat
  | Stop (Ret st') _ => J st'
  | Stop (Raise _) _ => True
  | Stop OutOfFuel _ => False
  end.
Proof.
  intros HJ Hheap. unfold Plain.body.
  destruct (pop_min e h) as [[k current] h'] eqn:Hpop.
  pose proof (pop_min_length _ _ _ _ Hpop) as Hlen.
  assert ((k, current) ∈ open_heap st) as Hcur.
  { rewrite Hheap. apply (pop_min_elem _ _ _ _ _ Hpop). by left. }
  destruct (J_heap _ _ _ _ _ _ HJ _ Hcur) as [[t Ht] HU]. simpl in Ht, HU.
  assert (J (set_heap st h')) as HJ1.
  { apply J_set_heap; [done |]. intros x Hx. rewrite Hheap.
    apply (pop_min_elem _ _ _ _ _ Hpop). by right. }
  assert (measure (set_heap st h') < measure st)%nat as Hm1.
  { unfold measure. simpl. rewrite Hheap. simpl. lia. }
  case_decide as Hvis; [done |]. simpl in Hvis.
  pose proof (measure_visit rows cols start (set_heap st h') current HU Hvis) as Hm2.
  assert (J (add_visited (set_heap st h') current)) as HJ2.
  { apply J_add_visited; [done | by eexists | done]. }
  case_decide; [done |].
  cbn [add_visited set_heap g_cost]. rewrite Ht.
  pose proof (foldM_list_post
    (λ pre s, J s ∧ g_cost s !! current = Some t ∧
              visited s = visited st ∪ {[current]} ∧
              (length (open_heap s) ≤ length h' + length pre)%nat)
    (λ d, d ∈ directions) (λ _, True)
    (Plain.relax g rows cols end_ mode current t)) as Hfold.
  specialize (λ Hf, Hfold Hf directions []
    (add_visited (set_heap st h') current)) as Hfold.
  assert (∀ pre d s, d ∈ directions →
            J s ∧ g_cost s !! current = Some t ∧
            visited s = visited st ∪ {[current]} ∧
            (length (open_heap s) ≤ length h' + length pre)%nat →
            match Plain.relax g rows cols end_ mode current t s d with
            | Ret s' => J s' ∧ g_cost s' !! current = Some t ∧
                        visited s' = visited st ∪ {[current]} ∧
                        (length (open_heap s') ≤ length h' + length (pre ++ [d]))%nat
            | Raise _ => True
            | OutOfFuel => False
            end) as Hstep.
  { intros pre d s Hd (HJs & Hs & Hviss & Hlens).
    pose proof (plain_relax_spec s current t d Hd HJs Hs) as Hrel.
    destruct (Plain.relax _ _ _ _ _ _ _ _ _) as [s' | |]; [| done | done].
    destruct Hrel as (? & ? & Hv' & Hl'). rewrite length_app. simpl.
    split; [done |]. split; [done |]. split; [congruence | lia]. }
  specialize (Hfold Hstep).
  destruct (foldM _ directions _) as [st3 | e' |].
  - destruct Hfold as (HJ3 & _ & Hvis3 & Hlen3).
    + by apply Forall_forall.
    + simpl. split; [done |]. split; [done |]. split; [done | lia].
    + split; [done |]. unfold measure in *. simpl in *. rewrite Hvis3. lia.
  - done.
  - apply Hfold.
    + by apply Forall_forall.
    + simpl. split; [done |]. split; [done |]. split; [done | lia].
Qed.

End PlainSearch.

Lemma walk_route (g : grid) (s : pos) l t :
  route g s l t → walk g s (length l - 1) t ∧ l ≠ [].
Proof.
  induction 1 as [| l p q Hroute [IH Hne] Hadj Hpass].
  - split; [constructor | done].
  - split; [| by destruct l].
    rewrite length_app. simpl.
    replace (length l + 1 - 1)%nat with (S (length l - 1)).
    + by eapply walk_step.
    + destruct l; [done | simpl; lia].
Qed.

(** Outcome of the hazard-blind search on any input: it never runs out of
    fuel, and a path it returns is empty or a route from the start to the
    end. *)
Lemma plain_search_spec `{Float64} self g start end_ mode :
  match (a_star_no_fire self g start end_ mode).1 with
  | Ret path => path = [] ∨ route g start path end_
  | Raise _ => True
  | OutOfFuel => False
  end.
Proof.
  unfold a_star_no_fire.
  pose proof (grid_dims_fuel g) as Hfd.
  destruct (grid_dims g) as [[rows cols] | e |]; [| done | done].
  pose proof (while_open_spec
    (Plain.body g rows cols end_ mode)
    (SearchInv.J g rows cols start (SearchInv.walked g start))
    (λ r, match r with
          | Ret st => SearchInv.J g rows cols start (SearchInv.walked g start) st
          | Raise _ => True
          | OutOfFuel => False
          end)
    (SearchInv.measure rows cols start)) as Hloop.
  specialize (λ Hb He, Hloop Hb He (search_fuel rows cols)
    {| expanded_nodes := 0 |} (initial_state start end_ mode)) as Hloop.
  destruct (while_open _ _ _ _) as [r self'].
  simpl in Hloop. simpl.
  assert (match r with
          | Ret st => SearchInv.J g rows cols start (SearchInv.walked g start) st
          | Raise _ => True
          | OutOfFuel => False
          end) as Hr.
  { apply Hloop.
    - intros self0 st e h HJ Hheap.
      pose proof (plain_body_spec g rows cols start end_ mode self0 st e h HJ Hheap) as Hb.
      destruct (Plain.body _ _ _ _ _ _ _ _ _) as [? ? | [? | ? |] ?]; done.
    - done.
    - apply J_initial. constructor.
    - apply measure_initial. }
  destruct r as [st | e |]; simpl; [| done | done].
  destruct (J_finish g rows cols start end_ _ st Hr) as (path & -> & Hfin).
  destruct Hfin as [[_ ->] | (ge & Hge & Hroute & Hlen & Hidx)]; [by left | by right].
Qed.

(** ** Optimality of the hazard-blind search *)

Lemma manhattan_self (p : pos) : manhattan p p = 0.
Proof. unfold manhattan. lia. Qed.

Lemma manhattan_adjacent (m p q : pos) :
  adjacent p q → manhattan m q ≤ manhattan m p + 1.
Proof.
  intros (d & Hd & ->). unfold manhattan, directions in *. simpl.
  rewrite !elem_of_cons in Hd.
  destruct Hd as [-> | [-> | [-> | [-> | []%elem_of_nil]]]]; simpl; lia.
Qed.

Section PlainOptimal.
Import SearchInv.
Context `{Float64}.
Variables (g : grid) (R C : nat) (start end_ : pos) (mode : string).
Hypothesis g_shape : shape R C g.
Local Abbreviation rows := (Z.of_nat R).
Local Abbreviation cols := (Z.of_nat C).

Hypothesis consistent : key_consistent rows cols start end_ mode.

Local Abbreviation J := (J g rows cols start (walked g start)).
Local Abbreviation K := (K g start end_ mode).

(** Every walk from the start either ends in a visited position whose
    cost is at most its length, or passes an unvisited recorded position
    early enough. *)
Lemma frontier st :
  J st → K None st → start ∈ visited st →
  ∀ k p, walk g start k p →
    (p ∈ visited st ∧ ∃ gp, g_cost st !! p = Some gp ∧ gp ≤ Z.of_nat k) ∨
    (∃ m gm, m ∉ visited st ∧ g_cost st !! m = Some gm ∧
             gm + manhattan m p ≤ Z.of_nat k).
Proof.
  intros HJ HK Hstart. induction 1 as [| k p q Hwalk IH Hadj Hpass].
  - left. split; [done |]. exists 0. split; [| lia].
    by destruct HJ.
  - destruct IH as [(Hp & gp & Hgp & Hle) | (m & gm & Hm & Hgm & Hle)].
    + destruct Hadj as (d & Hd & ->).
      destruct (K_closed _ _ _ _ _ _ HK p gp Hp) with (d := d)
        as (gq & Hgq & Hleq); [done | done | done | done |].
      destruct (decide ((p.1 + d.1, p.2 + d.2) ∈ visited st)) as [Hq | Hq].
      * left. split; [done |]. exists gq. split; [done | lia].
      * right. exists (p.1 + d.1, p.2 + d.2), gq.
        rewrite manhattan_self. split; [done |]. split; [done | lia].
    + right. exists m, gm. split; [done |]. split; [done |].
      pose proof (manhattan_adjacent m p q Hadj). lia.
Qed.

(** The position popped, when new, has its final cost. *)
Lemma popped_optimal st e h k n h' :
  J st → K None st → open_heap st = e :: h →
  pop_min e h = ((k, n), h') → n ∉ visited st →
  ∀ gn len, g_cost st !! n = Some gn → walk g start len n → gn ≤ Z.of_nat len.
Proof.
  intros HJ HK Hheap Hpop Hn gn len Hgn Hwalk.
  destruct (decide (start ∈ visited st)) as [Hstart | Hstart].
  - destruct (frontier st HJ HK Hstart len n Hwalk)
      as [(Hn' & _) | (m & gm & Hm & Hgm & Hle)]; [done |].
    assert (n ≠ start) as Hns by (intros ->; done).
    assert (m ≠ start) as Hms by (intros ->; done).
    pose proof (K_fresh _ _ _ _ _ _ HK m gm Hgm Hm Hms) as Hentry.
    assert ((k, n) ∈ open_heap st) as Hkn.
    { rewrite Hheap. apply (pop_min_elem _ _ _ _ _ Hpop). by left. }
    destruct (K_keys _ _ _ _ _ _ HK k n Hkn Hns)
      as (c & gn' & Hgn' & Hlec & Hcb & ->).
    rewrite Hgn in Hgn'. injection Hgn' as <-.
    destruct (Z_le_gt_dec gn (Z.of_nat len)) as [? | Hgt]; [done |].
    exfalso.
    destruct (J_cost _ _ _ _ _ _ HJ _ _ Hgm) as [[Hgm0 _] _].
    pose proof (J_known _ _ _ _ _ _ HJ) as Hknown.
    pose proof (size_known rows cols start (g_cost st) ltac:(nia) Hknown) as Hsize.
    assert (Qlt (num_val (key end_ mode gm m)) (num_val (key end_ mode c n))) as Hlt.
    { apply consistent; [apply Hknown; by eexists | apply Hknown; by eexists | lia ..]. }
    apply (entry_ltb_of_Qlt (key end_ mode gm m, m) (key end_ mode c n, n)) in Hlt.
    apply pop_min_spec in Hpop as [_ Hmin].
    rewrite Hheap in Hentry. rewrite (Hmin _ Hentry) in Hlt. done.
  - pose proof (K_first _ _ _ _ _ _ HK Hstart) as Hinit.
    assert ((k, n) ∈ open_heap st) as Hkn.
    { rewrite Hheap. apply (pop_min_elem _ _ _ _ _ Hpop). by left. }
    rewrite Hinit in Hkn, Hgn. unfold initial_state, heappush in *. simpl in *.
    apply list_elem_of_singleton in Hkn. injection Hkn as -> ->.
    rewrite lookup_singleton_eq in Hgn. injection Hgn as <-. lia.
Qed.

Lemma K_pop_visited st e h k n h' :
  K None st → open_heap st = e :: h →
  pop_min e h = ((k, n), h') → n ∈ visited st →
  K None (set_heap st h').
Proof.
  intros [Hlow Hcl Hfresh Hkeys Hfirst] Hheap Hpop Hn.
  split; simpl; try done.
  - intros n' gn' Hgn' Hn' Hns.
    pose proof (Hfresh n' gn' Hgn' Hn' Hns) as Hentry.
    rewrite Hheap in Hentry. apply (pop_min_elem _ _ _ _ _ Hpop) in Hentry.
    apply elem_of_cons in Hentry as [[= _ ->] | ?]; done.
  - intros k' n' Hk'. apply Hkeys. rewrite Hheap.
    apply (pop_min_elem _ _ _ _ _ Hpop). by right.
  - intros Hstart. rewrite (Hfirst Hstart) in Hn. simpl in Hn.
    by apply elem_of_empty in Hn.
Qed.

Lemma K_pop_new st e h k n h' :
  J st → K None st → open_heap st = e :: h →
  pop_min e h = ((k, n), h') → n ∉ visited st →
  K (Some n) (add_visited (set_heap st h') n).
Proof.
  intros HJ HK Hheap Hpop Hn.
  pose proof (popped_optimal st e h k n h' HJ HK Hheap Hpop Hn) as Hopt.
  destruct HK as [Hlow Hcl Hfresh Hkeys Hfirst].
  assert ((k, n) ∈ open_heap st) as Hkn.
  { rewrite Hheap. apply (pop_min_elem _ _ _ _ _ Hpop). by left. }
  split; simpl.
  - intros n' gn' len [Hn' | ->%elem_of_singleton]%elem_of_union; [by apply Hlow | by apply Hopt].
  - intros p gp [Hp | ->%elem_of_singleton]%elem_of_union Hpend; [| done].
    by apply Hcl.
  - intros n' gn' Hgn' Hn' Hns.
    apply not_elem_of_union in Hn' as [Hn' Hne%not_elem_of_singleton].
    pose proof (Hfresh n' gn' Hgn' Hn' Hns) as Hentry.
    rewrite Hheap in Hentry. apply (pop_min_elem _ _ _ _ _ Hpop) in Hentry.
    apply elem_of_cons in Hentry as [[= _ ->] | ?]; done.
  - intros k' n' Hk'. apply Hkeys. rewrite Hheap.
    apply (pop_min_elem _ _ _ _ _ Hpop). by right.
  - intros Hstart. apply not_elem_of_union in Hstart as [Hstart Hne%not_elem_of_singleton].
    rewrite (Hfirst Hstart) in Hkn. unfold initial_state, heappush in Hkn. simpl in Hkn.
    apply list_elem_of_singleton in Hkn. by injection Hkn as _ ->.
Qed.

Lemma plain_relax_K st current gc d pre :
  d ∈ directions → J st → K (Some current) st →
  current ∈ visited st → start ∈ visited st →
  g_cost st !! current = Some gc →
  (∀ d', d' ∈ pre → relaxed g st current gc d') →
  ∃ st', Plain.relax g rows cols end_ mode current gc st d = Ret st' ∧
         K (Some current) st' ∧
         (∀ d', d' ∈ pre ++ [d] → relaxed g st' current gc d').
Proof.
  intros Hd HJ HK Hcv Hsv Hcur Hpre. unfold Plain.relax, relaxed in *.
  remember (current.1 + d.1, current.2 + d.2) as n eqn:Hndef.
  assert (current.1 + d.1 = n.1) as -> by by subst.
  assert (current.2 + d.2 = n.2) as -> by by subst.
  assert (∀ d', d' ∈ pre ++ [d] → d' ∈ pre ∨ d' = d) as Hsplit.
  { intros d'. rewrite elem_of_app, list_elem_of_singleton. tauto. }
  destruct (in_bounds rows cols n.1 n.2) eqn:Hin; cbn [negb].
  2:{ exists st. split; [done |]. split; [done |].
      intros d' [? | ->]%Hsplit; [by apply Hpre |].
      rewrite <- Hndef. intros (c & Hc & _). exfalso.
      assert (is_Some (at2 g n)) as Hn by by eexists.
      apply (at2_inside R C g n g_shape) in Hn.
      unfold in_bounds in Hin. lia. }
  destruct (grid_get2 g R C g_shape n.1 n.2 Hin) as (c & Hget & Hc).
  rewrite Hget. cbn. rewrite <- surjective_pairing in Hc.
  destruct (is_wall c) eqn:Hwall.
  { exists st. split; [done |]. split; [done |].
    intros d' [? | ->]%Hsplit; [by apply Hpre |].
    rewrite <- Hndef. intros (c' & Hc' & Hw). congruence. }
  destruct (below (gc + 1) (g_cost st !! n)) eqn:Hbelow.
  2:{ exists st. split; [done |]. split; [done |].
      intros d' [? | ->]%Hsplit; [by apply Hpre |].
      rewrite <- Hndef. intros _.
      destruct (g_cost st !! n) as [go|]; [| done].
      exists go. split; [done |]. simpl in Hbelow. lia. }
  assert (adjacent current n) as Hadj by (exists d; by subst).
  assert (passable g n) as Hpass by by exists c.
  destruct (J_cost _ _ _ _ _ _ HJ _ _ Hcur) as [[Hgc0 Hgcs] Hwalk].
  assert (size (g_cost st) ≤ size (<[n := (gc + 1)%Z]> (g_cost st)))%nat as Hgrow.
  { rewrite map_size_insert. destruct (g_cost st !! n); simpl; lia. }
  assert (walk g start (S (Z.to_nat gc)) n) as Hwalkn by by eapply walk_step.
  destruct (J_improve g rows cols start end_ mode _ st current gc n HJ Hcur Hbelow)
    as (HJ' & Hns & Hnc); [done | done | done | |].
  { unfold walked. by replace (Z.to_nat (gc + 1)) with (S (Z.to_nat gc)) by lia. }
  destruct HK as [Hlow Hcl Hfresh Hkeys Hfirst].
  assert (n ∉ visited st) as Hnv.
  { intros Hnv. destruct (J_visited _ _ _ _ _ _ HJ n Hnv) as [[go Hgo] _].
    pose proof (Hlow n go _ Hnv Hgo Hwalkn). rewrite Hgo in Hbelow. simpl in Hbelow. lia. }
  assert (∀ x gx, g_cost st !! x = Some gx →
            ∃ gx', <[n := gc + 1]> (g_cost st) !! x = Some gx' ∧ gx' ≤ gx) as Hdec.
  { intros x gx Hx. destruct (decide (x = n)) as [-> | Hxn].
    - exists (gc + 1). rewrite lookup_insert_eq. split; [done |].
      rewrite Hx in Hbelow. simpl in Hbelow. lia.
    - exists gx. rewrite lookup_insert_ne by done. split; [done | lia]. }
  eexists. split; [done |]. unfold improve, heappush. split; [split; simpl |].
  - intros n' gn' len Hn' Hgn'. apply Hlow; [done |].
    rewrite lookup_insert_ne in Hgn'; [done |]. by intros ->.
  - intros p gp Hp Hpend Hgp d' Hd' Hpass'.
    rewrite lookup_insert_ne in Hgp by (by intros ->).
    destruct (Hcl p gp Hp Hpend Hgp d' Hd' Hpass') as (gq & Hgq & Hle).
    destruct (Hdec _ _ Hgq) as (gq' & Hgq' & Hle').
    exists gq'. split; [done | lia].
  - intros n' gn' Hgn' Hn' Hns'.
    destruct (decide (n' = n)) as [-> | Hne].
    + rewrite lookup_insert_eq in Hgn'. injection Hgn' as <-. by left.
    + rewrite lookup_insert_ne in Hgn' by done. right. by apply Hfresh.
  - intros k' n' [[= -> ->] | Hk']%elem_of_cons Hns'.
    + exists (gc + 1), (gc + 1). rewrite lookup_insert_eq.
      split; [done |]. split; [lia |]. split; [lia | done].
    + destruct (Hkeys k' n' Hk' Hns') as (c' & gn' & Hgn' & Hle & Hcb & ->).
      destruct (Hdec _ _ Hgn') as (gx' & Hgx' & Hle').
      exists c', gx'. split; [done |]. split; [lia |]. split; [lia | done].
  - done.
  - simpl. intros d' [Hd' | ->]%Hsplit.
    + intros Hpass'. destruct (Hpre d' Hd' Hpass') as (gq & Hgq & Hle).
      destruct (Hdec _ _ Hgq) as (gq' & Hgq' & Hle').
      exists gq'. split; [done | lia].
    + rewrite <- Hndef. intros _. exists (gc + 1).
      rewrite lookup_insert_eq. split; [done | lia].
Qed.

Lemma plain_body_K self st e h :
  J st → K None st → open_heap st = e :: h →
  match Plain.body g rows cols end_ mode self st e h with
  | Continue _ st' => K None st'
  | Stop (Ret st') _ => reaches_end g start end_ st'
  | Stop _ _ => False
  end.
Proof.
  intros HJ HK Hheap. unfold Plain.body.
  destruct (pop_min e h) as [[k current] h'] eqn:Hpop.
  assert ((k, current) ∈ open_heap st) as Hcur.
  { rewrite Hheap. apply (pop_min_elem _ _ _ _ _ Hpop). by left. }
  destruct (J_heap _ _ _ _ _ _ HJ _ Hcur) as [[t Ht] HU]. simpl in Ht, HU.
  case_decide as Hvis; [by eapply K_pop_visited |]. simpl in Hvis.
  pose proof (K_pop_new st e h k current h' HJ HK Hheap Hpop Hvis) as HK2.
  assert (J (add_visited (set_heap st h') current)) as HJ2.
  { apply J_add_visited; [| by eexists | done].
    apply J_set_heap; [done |]. intros x Hx. rewrite Hheap.
    apply (pop_min_elem _ _ _ _ _ Hpop). by right. }
  case_decide as Hend.
  { subst current. intros len Hwalk. exists t. split; [done |].
    apply (K_lower _ _ _ _ _ _ HK2 end_ t len); [| done | done].
    simpl. set_solver. }
  cbn [add_visited set_heap g_cost]. rewrite Ht.
  assert (start ∈ visited st ∪ {[current]}) as Hsv.
  { destruct (decide (start ∈ visited st)) as [? | Hns]; [set_solver |].
    pose proof (K_first _ _ _ _ _ _ HK Hns) as Hinit. rewrite Hinit in Hcur.
    unfold initial_state, heappush in Hcur. simpl in Hcur.
    apply list_elem_of_singleton in Hcur. injection Hcur as _ ->. set_solver. }
  pose proof (foldM_list_post
    (λ pre s, J s ∧ K (Some current) s ∧ g_cost s !! current = Some t ∧
              visited s = visited st ∪ {[current]} ∧
              (∀ d', d' ∈ pre → relaxed g s current t d'))
    (λ d, d ∈ directions) (λ _, False)
    (Plain.relax g rows cols end_ mode current t)) as Hfold.
  specialize (λ Hf, Hfold Hf directions []
    (add_visited (set_heap st h') current)) as Hfold.
  assert (match foldM (Plain.relax g rows cols end_ mode current t) directions
                  (add_visited (set_heap st h') current) with
          | Ret s' => J s' ∧ K (Some current) s' ∧ g_cost s' !! current = Some t ∧
                      visited s' = visited st ∪ {[current]} ∧
                      (∀ d', d' ∈ [] ++ directions → relaxed g s' current t d')
          | Raise _ => False
          | OutOfFuel => False
          end) as Hres.
  { apply Hfold.
    - intros pre d s Hd (HJs & HKs & Hs & Hviss & Hpre).
      destruct (plain_relax_K s current t d pre Hd HJs HKs) as (s' & Hrel & HKs' & Hpre');
        [rewrite Hviss; set_solver | by rewrite Hviss | done | done |].
      pose proof (plain_relax_spec g rows cols start end_ mode s current t d Hd HJs Hs) as HJrel.
      rewrite Hrel in HJrel |- *. destruct HJrel as (? & ? & Hv' & _).
      split; [done |]. split; [done |]. split; [done |]. split; [congruence | done].
    - by apply Forall_forall.
    - split; [done |]. split; [done |]. split; [done |]. split; [done |].
      by intros d' ?%elem_of_nil. }
  destruct (foldM _ directions _) as [st3 | e' |]; [| done | done].
  destruct Hres as (HJ3 & [Hlow Hcl Hfresh Hkeys Hfirst] & Ht3 & Hvis3 & Hall).
  split; try done.
  intros p gp Hp _ Hgp d Hd. destruct (decide (p = current)) as [-> | Hne].
  - rewrite Ht3 in Hgp. injection Hgp as <-. by apply Hall.
  - apply Hcl; [done | | done | done]. by intros [= ->].
Qed.

Lemma K_initial : K None (initial_state start end_ mode).
Proof.
  split; simpl; try done.
  - intros n gn [<- _]%lookup_singleton_Some. done.
  - intros k n [= -> ->]%list_elem_of_singleton. done.
Qed.

Lemma K_exit st :
  J st → K None st → open_heap st = [] → reaches_end g start end_ st.
Proof.
  intros HJ HK Hheap len Hwalk.
  assert (start ∈ visited st) as Hstart.
  { destruct (decide (start ∈ visited st)) as [? | Hns]; [done |].
    pose proof (K_first _ _ _ _ _ _ HK Hns) as Hinit. by rewrite Hinit in Hheap. }
  destruct (frontier st HJ HK Hstart len end_ Hwalk)
    as [(_ & ge & Hge & Hle) | (m & gm & Hm & Hgm & _)]; [by exists ge |].
  assert (m ≠ start) as Hms by (intros ->; done).
  pose proof (K_fresh _ _ _ _ _ _ HK m gm Hgm Hm Hms) as Hentry.
  rewrite Hheap in Hentry. by apply elem_of_nil in Hentry.
Qed.

(** The loop of the hazard-blind search, on a rectangular grid with
    consistent priorities: it returns, in a state where the end, if
    reachable, has its distance as cost. *)
Lemma plain_loop_optimal self :
  match (while_open (Plain.body g rows cols end_ mode)
           (search_fuel rows cols) self (initial_state start end_ mode)).1 with
  | Ret st => J st ∧ reaches_end g start end_ st
  | _ => False
  end.
Proof.
  apply (while_open_spec (Plain.body g rows cols end_ mode)
           (λ st, J st ∧ K None st)
           (λ r, match r with
                 | Ret st => J st ∧ reaches_end g start end_ st
                 | _ => False
                 end)
           (measure rows cols start)).
  - intros self0 st e h [HJ HK] Hheap.
    pose proof (plain_body_spec g rows cols start end_ mode self0 st e h HJ Hheap) as HbJ.
    pose proof (plain_body_K self0 st e h HJ HK Hheap) as HbK.
    destruct (Plain.body _ _ _ _ _ _ _ _ _) as [? ? | [? | ? |] ?]; [| done ..].
    destruct HbJ. done.
  - intros st [HJ HK] Hheap. split; [done |]. by apply K_exit.
  - split; [| apply K_initial]. apply J_initial. constructor.
  - apply measure_initial.
Qed.

End PlainOptimal.

(** On a rectangular grid, with consistent priorities, the hazard-blind
    search returns a route of least length to the end when there is one,
    and the empty list when there is none. *)
Lemma plain_search_optimal `{Float64} self g start end_ mode :
  rectangular g →
  SearchInv.key_consistent (Z.of_nat (length g)) (Z.of_nat (length (hd [] g)))
    start end_ mode →
  ∃ path self',
    a_star_no_fire self g start end_ mode = (Ret path, self') ∧
    ((∃ k, walk g start k end_) →
       route g start path end_ ∧ shortest g start end_ (length path - 1)) ∧
    ((∀ k, ¬ walk g start k end_) → path = []).
Proof.
  intros Hrect Hcons. pose proof Hrect as [_ Hshape].
  unfold a_star_no_fire. rewrite rectangular_dims by done.
  pose proof (plain_loop_optimal g (length g) (length (hd [] g)) start end_ mode
                Hshape Hcons {| expanded_nodes := 0 |}) as Hloop.
  destruct (while_open _ _ _ _) as [r self'].
  simpl in Hloop. destruct r as [st | |]; [| done | done].
  destruct Hloop as [HJ Hreach].
  destruct (J_finish g _ _ start end_ _ st HJ) as (path & Hfin & Hfinished).
  exists path, self'. simpl. rewrite Hfin. split; [done |].
  destruct Hfinished as [[Hnone ->] | (ge & Hge & Hroute & Hlen & _)].
  - split; [| done]. intros [k Hwalk].
    destruct (Hreach k Hwalk) as (ge & Hge & _). congruence.
  - pose proof (walk_route g start path end_ Hroute) as [Hwalk Hne].
    split.
    + intros _. split; [done |]. split; [done |].
      intros n Hn. destruct (Hreach n Hn) as (ge' & Hge' & Hle).
      rewrite Hge in Hge'. injection Hge' as <-. lia.
    + intros Hno. by destruct (Hno _ Hwalk).
Qed.

(** ** Consistency of the three heuristics *)

Lemma manhattan_triangle (m n e : pos) :
  manhattan m e ≤ manhattan m n + manhattan n e.
Proof. unfold manhattan. lia. Qed.

Lemma key_consistent_manhattan `{Float64} rows cols start end_ :
  SearchInv.key_consistent rows cols start end_ "manhattan".
Proof.
  intros c [mx my] c' [nx ny] _ _ Hc _ Hlt. destruct end_ as [ex ey].
  unfold key, heuristic, manhattan in *. simpl in *.
  rewrite <- Zlt_Qlt. lia.
Qed.

Lemma key_consistent_zero `{Float64} rows cols start end_ :
  SearchInv.key_consistent rows cols start end_ "zero".
Proof.
  intros c [mx my] c' [nx ny] _ _ Hc _ Hlt. destruct end_ as [ex ey].
  unfold key, heuristic, manhattan in *. simpl in *.
  rewrite <- Zlt_Qlt. lia.
Qed.

Lemma sqrt_sum_squares_le (a b : R) :
  (sqrt (a * a + b * b) <= Rabs a + Rabs b)%R.
Proof.
  assert (0 <= Rabs a)%R by apply Rabs_pos.
  assert (0 <= Rabs b)%R by apply Rabs_pos.
  rewrite <- (sqrt_square (Rabs a + Rabs b)) by lra.
  apply sqrt_le_1_alt.
  assert (a * a = Rabs a * Rabs a)%R as ->.
  { unfold Rabs. destruct (Rcase_abs a); lra. }
  assert (b * b = Rabs b * Rabs b)%R as ->.
  { unfold Rabs. destruct (Rcase_abs b); lra. }
  nra.
Qed.

Lemma euclid_triangle (mx my nx ny ex ey : Z) :
  (sqrt (IZR ((mx - ex) * (mx - ex) + (my - ey) * (my - ey)))
   <= IZR (Z.abs (mx - nx) + Z.abs (my - ny))
      + sqrt (IZR ((nx - ex) * (nx - ex) + (ny - ey) * (ny - ey))))%R.
Proof.
  pose proof (triangle (IZR mx) (IZR my) (IZR ex) (IZR ey) (IZR nx) (IZR ny)) as Htri.
  pose proof (sqrt_sum_squares_le (IZR mx - IZR nx) (IZR my - IZR ny)) as Hle.
  unfold dist_euc, Rsqr in Htri.
  rewrite !plus_IZR, !mult_IZR, !minus_IZR, !abs_IZR, !minus_IZR.
  lra.
Qed.

Lemma key_consistent_euclidean `{Float64} rows cols start end_ :
  in_bounds rows cols start.1 start.2 = true →
  in_bounds rows cols end_.1 end_.2 = true →
  float_accurate rows cols → SearchInv.key_consistent rows cols start end_ "euclidean".
Proof.
  unfold in_bounds. intros Hstart Hend Hacc c m c' n Hm Hn Hc Hc' Hlt.
  apply universe_inside in Hm, Hn; [| lia ..].
  assert (0 ≤ m.1 < cols ∧ 0 ≤ m.2 < rows) as Hmin
    by (destruct Hm as [-> | ?]; lia).
  assert (0 ≤ n.1 < cols ∧ 0 ≤ n.2 < rows) as Hnin
    by (destruct Hn as [-> | ?]; lia).
  destruct m as [mx my], n as [nx ny], start as [sx sy], end_ as [ex ey].
  unfold key, heuristic, manhattan in *. simpl in *.
  apply Rlt_Qlt.
  assert (0 ≤ rows * cols) as Hrc by nia.
  pose proof (Hacc c (mx - ex) (my - ey)) as H1.
  pose proof (Hacc c' (nx - ex) (ny - ey)) as H2.
  pose proof (euclid_triangle mx my nx ny ex ey) as Htri.
  assert (IZR c + IZR (Z.abs (mx - nx) + Z.abs (my - ny)) + 1 <= IZR c')%R as Hcc.
  { rewrite <- plus_IZR. rewrite <- (plus_IZR _ 1). apply IZR_le. lia. }
  specialize (H1 ltac:(lia) ltac:(lia) ltac:(lia)).
  specialize (H2 ltac:(lia) ltac:(lia) ltac:(lia)).
  apply Rabs_def2 in H1 as [H1 _]. apply Rabs_def2 in H2 as [_ H2].
  lra.
Qed.

Lemma passable_in_bounds (g : grid) (p : pos) :
  rectangular g → passable g p →
  in_bounds (Z.of_nat (length g)) (Z.of_nat (length (hd [] g))) p.1 p.2 = true.
Proof.
  intros [_ Hshape] (c & Hc & _).
  assert (is_Some (at2 g p)) as Hin by by eexists.
  apply (at2_inside _ _ g p Hshape) in Hin. unfold in_bounds. lia.
Qed.

Lemma supported_mode_consistent `{Float64} g start end_ mode :
  rectangular g → passable g start → passable g end_ →
  supported_mode g mode →
  SearchInv.key_consistent (Z.of_nat (length g)) (Z.of_nat (length (hd [] g)))
    start end_ mode.
Proof.
  intros Hrect Hstart Hend [-> | [-> | [-> Hacc]]].
  - apply key_consistent_manhattan.
  - apply key_consistent_zero.
  - apply key_consistent_euclidean; [by apply passable_in_bounds .. | done].
Qed.

(** The stand-in operations are accurate. *)
Lemma Float64_half_accurate rows cols : @float_accurate Float64_half rows cols.
Proof.
  intros c dx dy _ _ _. unfold float_add, hypot, Float64_half.
  set (s := dx * dx + dy * dy). set (r := Z.sqrt (4 * s)).
  assert (0 ≤ s) as Hs by (unfold s; nia).
  assert (r * r ≤ 4 * s < (r + 1) * (r + 1)) as [Hlo Hhi].
  { pose proof (Z.sqrt_spec (4 * s)) as Hspec. fold r in Hspec.
    simpl in Hspec. lia. }
  assert (0 ≤ r) as Hr by apply Z.sqrt_nonneg.
  apply IZR_le in Hs, Hlo, Hr. apply IZR_lt in Hhi.
  rewrite !mult_IZR in Hlo, Hhi. rewrite !plus_IZR in Hhi.
  rewrite Q2R_plus. unfold Q2R at 1 2. simpl.
  set (rs := sqrt (IZR s)).
  assert (0 <= rs)%R as Hrs by apply sqrt_pos.
  assert (rs * rs = IZR s)%R as Hsq by (by apply sqrt_sqrt).
  rewrite <- Hsq in Hlo, Hhi.
  assert (IZR r <= 2 * rs)%R.
  { destruct (Rle_lt_dec (IZR r) (2 * rs)) as [? | Hgt]; [done |]. exfalso.
    assert (2 * rs * (2 * rs) <= IZR r * IZR r)%R by (apply Rmult_le_compat; lra).
    assert (2 * rs * (2 * rs) < IZR r * IZR r)%R by (apply Rmult_le_0_lt_compat; lra).
    lra. }
  assert (2 * rs < IZR r + 1)%R.
  { destruct (Rlt_le_dec (2 * rs) (IZR r + 1)) as [? | Hge]; [done |]. exfalso.
    assert ((IZR r + 1) * (IZR r + 1) <= 2 * rs * (2 * rs))%R
      by (apply Rmult_le_compat; lra).
    lra. }
  apply Rabs_def1; lra.
Qed.

(** ** The maze generator *)

Lemma bind_Ret {A B : Type} (f : A → outcome B) (a : A) : (Ret a ≫= f) = f a.
Proof. done. Qed.

Section GeneratorProofs.
Import MapGenerator GenInv.
Variable rnd : nat → nat.
Variables (width height : Z).
Hypothesis width_min : 3 ≤ width.
Hypothesis height_min : 3 ≤ height.

Local Abbreviation W := (Z.to_nat width).
Local Abbreviation H := (Z.to_nat height).
Local Abbreviation interior := (interior width height).
Local Abbreviation opens := (opens width height).
Local Abbreviation G := (G width height).

Lemma interior_spec x y :
  interior x y = true ↔ 0 < x < width - 1 ∧ 0 < y < height - 1.
Proof. unfold MapGenerator.interior. rewrite !andb_true_iff, !Z.ltb_lt. lia. Qed.

Lemma interior_inside (m : maze) x y :
  shape H W m → interior x y = true → is_Some (at2 m (x, y)).
Proof.
  intros Hsh Hin. apply (at2_inside H W m (x, y) Hsh).
  unfold MapGenerator.interior in Hin. simpl. lia.
Qed.

Lemma choice_spec {A : Type} (k : nat) (l : list A) :
  l ≠ [] → ∃ a, choice rnd k l = Ret a ∧ a ∈ l.
Proof.
  intros Hl. unfold choice.
  assert (rnd k `mod` length l < length l)%nat as Hlt.
  { apply Nat.mod_upper_bound. by destruct l. }
  apply lookup_lt_is_Some in Hlt as [a Ha]. rewrite Ha.
  exists a. split; [done |]. by eapply list_elem_of_lookup_2.
Qed.

Lemma set2_opens (m : maze) (p : pos) (a : Z) :
  shape H W m → at2 m p = Some a →
  ∃ m', set2 m p.1 p.2 0 = Ret m' ∧ opens m p a m'.
Proof.
  intros Hsh Ha. destruct p as [x y].
  destruct (set2_spec H W m x y 0 a Hsh Ha) as (m' & Hset & Hsh' & Hat & Hsum).
  exists m'. split; [done |]. by split.
Qed.

Lemma set2_same (m : maze) (p : pos) (a : Z) :
  at2 m p = Some a → set2 m p.1 p.2 a = Ret m.
Proof.
  unfold at2. case_decide as Hp; [| done]. destruct Hp as [Hx Hy].
  destruct (m !! Z.to_nat p.2) as [row|] eqn:Hrow; simpl; [| done].
  intros Ha. unfold set2. rewrite getitem_lookup, Hrow by done. simpl.
  unfold setitem.
  pose proof (lookup_lt_Some _ _ _ Hrow). pose proof (lookup_lt_Some _ _ _ Ha).
  destruct (Z.ltb_spec p.1 0); [lia |].
  destruct (Z.ltb_spec p.1 0); [lia |].
  destruct (Z.ltb_spec p.1 (Z.of_nat (length row))); [| lia]. simpl.
  destruct (Z.ltb_spec p.2 0); [lia |].
  destruct (Z.ltb_spec p.2 0); [lia |].
  destruct (Z.ltb_spec p.2 (Z.of_nat (length m))); [| lia].
  by rewrite (list_insert_id row), (list_insert_id m).
Qed.

Local Abbreviation is_candidate := (is_candidate width height).

Lemma candidates_spec (m : maze) x y :
  shape H W m →
  ∃ nbrs, foldM (candidate width height m x y) carve_directions [] = Ret nbrs ∧
          ∀ c, c ∈ nbrs ↔ ∃ d, d ∈ carve_directions ∧ is_candidate m x y c d.
Proof.
  intros Hsh.
  destruct (foldM_list_inv
    (λ pre nbrs, ∀ c, c ∈ nbrs ↔ ∃ d, d ∈ pre ∧ is_candidate m x y c d)
    (λ _, True) (candidate width height m x y)) with
    (l := carve_directions) (pre := @nil (Z * Z)) (s := @nil (Z * Z * Z * Z))
    as (nbrs & Hfold & Hnbrs).
  - intros pre d nbrs _ Hpre. unfold candidate. cbv zeta.
    assert (∀ c, (∃ d', d' ∈ pre ++ [d] ∧ is_candidate m x y c d') ↔
                 (∃ d', d' ∈ pre ∧ is_candidate m x y c d') ∨ is_candidate m x y c d)
      as Hsplit.
    { intros c. split.
      - intros (d' & [? | ->%list_elem_of_singleton]%elem_of_app & ?); eauto.
      - intros [(d' & ? & ?) | ?]; [exists d' | exists d];
          (split; [| done]); rewrite elem_of_app, list_elem_of_singleton; auto. }
    destruct (interior (x + d.1) (y + d.2)) eqn:Hin.
    + destruct (interior_inside m _ _ Hsh Hin) as [v Hv].
      unfold MapGenerator.interior in Hin.
      assert (0 ≤ x + d.1 ∧ 0 ≤ y + d.2) as [? ?] by lia.
      rewrite get2_at2 by done. rewrite Hv. cbn.
      destruct (Z.eqb_spec v 1) as [-> | Hne].
      * eexists. split; [done |]. intros c.
        rewrite Hsplit, elem_of_app, list_elem_of_singleton, Hpre.
        unfold is_candidate, MapGenerator.interior. split.
        -- intros [? | ->]; [by left | right]. split; [done |]. split; [lia | done].
        -- intros [? | [-> _]]; [by left | by right].
      * exists nbrs. split; [done |]. intros c. rewrite Hsplit, Hpre.
        split; [by left |]. intros [? | (_ & _ & Hv')]; [done | congruence].
    + exists nbrs. split; [done |]. intros c. rewrite Hsplit, Hpre.
      split; [by left |]. intros [? | (_ & Hin' & _)]; [done | congruence].
  - by apply Forall_forall.
  - intros c. split; [by intros ?%elem_of_nil |].
    by intros (d & ?%elem_of_nil & _).
  - by exists nbrs.
Qed.

Lemma between_interior x y d :
  d ∈ carve_directions → interior x y = true →
  interior (x + d.1) (y + d.2) = true →
  interior (x + d.1 `div` 2) (y + d.2 `div` 2) = true ∧
  (x + d.1 `div` 2, y + d.2 `div` 2) ≠ (x + d.1, y + d.2) ∧
  (x + d.1 `div` 2, y + d.2 `div` 2) ≠ (x, y).
Proof.
  unfold carve_directions. rewrite !elem_of_cons, !interior_spec.
  intros [-> | [-> | [-> | [-> | []%elem_of_nil]]]] Hc Hn; simpl in *;
    change (0 `div` 2) with 0; change (2 `div` 2) with 1;
    change ((-2) `div` 2) with (-1);
    (split; [lia | split; intros [=]; lia]).
Qed.

(** What one iteration of the carving does. *)
Lemma carve_step_cases (m : maze) x y rest k :
  shape H W m → interior x y = true →
  ∃ st', carve_step rnd width height m x y rest k = Ret st' ∧
    ((st' = (m, rest, k) ∧
      ∀ d, d ∈ carve_directions → interior (x + d.1) (y + d.2) = true →
           at2 m (x + d.1, y + d.2) ≠ Some 1) ∨
     (∃ d a m1 m2,
        d ∈ carve_directions ∧
        interior (x + d.1) (y + d.2) = true ∧
        at2 m (x + d.1, y + d.2) = Some 1 ∧
        opens m (x + d.1 `div` 2, y + d.2 `div` 2) a m1 ∧
        opens m1 (x + d.1, y + d.2) 1 m2 ∧
        st' = (m2, (x + d.1, y + d.2) :: (x, y) :: rest, S k))).
Proof.
  intros Hsh Hxy. unfold carve_step.
  destruct (candidates_spec m x y Hsh) as (nbrs & -> & Hnbrs). cbn.
  destruct nbrs as [|c0 nbrs].
  - eexists. split; [done |]. left. split; [done |].
    intros d Hd Hin Hv.
    assert ((x + d.1, y + d.2, d.1 `div` 2, d.2 `div` 2) ∈ @nil (Z * Z * Z * Z)) as Hc
      by (apply Hnbrs; by exists d).
    by apply elem_of_nil in Hc.
  - destruct (choice_spec k (c0 :: nbrs)) as (c & -> & Hc); [done |].
    apply Hnbrs in Hc as (d & Hd & -> & Hin & Hv). cbn.
    destruct (between_interior x y d Hd Hxy Hin) as (Hw & Hwn & Hwc).
    destruct (interior_inside m _ _ Hsh Hw) as [a Ha].
    destruct (set2_opens m _ a Hsh Ha) as (m1 & Hset1 & Hopen1).
    simpl in Hset1. rewrite Hset1. cbn.
    assert (at2 m1 (x + d.1, y + d.2) = Some 1) as Hv1.
    { rewrite (opens_new _ _ _ _ _ _ Hopen1). by rewrite decide_False. }
    destruct (set2_opens m1 _ 1 (opens_shape _ _ _ _ _ _ Hopen1) Hv1)
      as (m2 & Hset2 & Hopen2).
    simpl in Hset2. rewrite Hset2. cbn.
    eexists. split; [done |]. right. exists d, a, m1, m2. done.
Qed.

Lemma G_opens (m : maze) stack p a m' :
  G m stack → interior p.1 p.2 = true → opens m p a m' → G m' stack.
Proof.
  intros [Hsh Hval Hfree Hstack] Hp [Hold Hnew Hsh' Hsum].
  split; [done | | | done].
  - intros q v. rewrite Hnew. case_decide; [intros [= <-]; by left | apply Hval].
  - intros q. rewrite Hnew. case_decide as Hq; [by subst | apply Hfree].
Qed.

Lemma G_step (m : maze) x y rest k st' :
  G m ((x, y) :: rest) →
  carve_step rnd width height m x y rest k = Ret st' →
  G st'.1.1 st'.1.2 ∧
  (carve_measure st'.1.1 st'.1.2 < carve_measure m ((x, y) :: rest))%nat.
Proof.
  intros HG Hstep.
  pose proof (G_shape _ _ _ _ HG) as Hsh.
  assert (interior x y = true) as Hxy by (apply (G_stack _ _ _ _ HG (x, y)); by left).
  destruct (carve_step_cases m x y rest k Hsh Hxy) as (st & Hst & Hcases).
  rewrite Hstep in Hst. injection Hst as <-.
  destruct Hcases as [[-> _] | (d & a & m1 & m2 & Hd & Hin & Hv & Ho1 & Ho2 & ->)]; simpl.
  - split; [| unfold carve_measure; simpl; lia].
    destruct HG as [? ? ? Hstack]. split; try done.
    intros p Hp. apply Hstack. by right.
  - destruct (between_interior x y d Hd Hxy Hin) as (Hw & _ & _).
    split.
    + assert (G m2 ((x, y) :: rest)) as [? ? ? Hstack].
      { eapply G_opens; [| | exact Ho2]; [| done].
        eapply G_opens; [exact HG | | exact Ho1]. done. }
      split; try done.
      intros p [-> | Hp]%elem_of_cons; [done | by apply Hstack].
    + unfold carve_measure. simpl.
      pose proof (opens_sum _ _ _ _ _ _ Ho1 Z.to_nat) as H1.
      pose proof (opens_sum _ _ _ _ _ _ Ho2 Z.to_nat) as H2.
      simpl in H1, H2. lia.
Qed.

(** The carving loop returns, and keeps any invariant that its steps
    keep. *)
Lemma carve_loop_spec (I : maze → list pos → Prop) :
  (∀ m stack, I m stack → G m stack) →
  (∀ m x y rest k st', I m ((x, y) :: rest) →
     carve_step rnd width height m x y rest k = Ret st' → I st'.1.1 st'.1.2) →
  ∀ fuel m stack k, I m stack → (carve_measure m stack < fuel)%nat →
    ∃ m' k', carve_loop rnd width height fuel (m, stack, k) = Ret (m', k') ∧ I m' [].
Proof.
  intros HIG Hstep. induction fuel as [|fuel IH]; intros m stack k HI Hlt; [lia |].
  destruct stack as [|[x y] rest]; [by exists m, k |].
  simpl.
  pose proof (HIG _ _ HI) as HG.
  assert (interior x y = true) as Hxy by (apply (G_stack _ _ _ _ HG (x, y)); by left).
  destruct (carve_step_cases m x y rest k (G_shape _ _ _ _ HG) Hxy) as (st & Hst & _).
  rewrite Hst. cbn.
  destruct (G_step m x y rest k st HG Hst) as [_ Hm].
  pose proof (Hstep m x y rest k st HI Hst) as HI'.
  destruct st as [[m' stack'] k']. simpl in *.
  apply IH; [done | lia].
Qed.

Lemma at2_replicate_in {A : Type} (a : A) (p : pos) :
  0 ≤ p.1 < width → 0 ≤ p.2 < height →
  at2 (replicate H (replicate W a)) p = Some a.
Proof.
  intros Hx Hy.
  destruct (proj2 (at2_inside H W _ p (shape_replicate H W a))) as [b Hb]; [lia |].
  by rewrite (at2_replicate H W a b p Hb) in Hb.
Qed.

Lemma G_start (m : maze) :
  opens (replicate H (replicate W 1)) (1, 1) 1 m → G m [(1, 1)].
Proof.
  intros Ho.
  assert (interior 1 1 = true) as Hint by (apply interior_spec; lia).
  split.
  - apply (opens_shape _ _ _ _ _ _ Ho).
  - intros q v. rewrite (opens_new _ _ _ _ _ _ Ho).
    case_decide; [intros [= <-]; by left |].
    intros ->%at2_replicate. by right.
  - intros q. rewrite (opens_new _ _ _ _ _ _ Ho).
    case_decide as Hq; [by subst |]. by intros ?%at2_replicate.
  - by intros q ->%list_elem_of_singleton.
Qed.

(** The state before the carving loop. *)
Lemma carve_start :
  ∃ m, set2 (replicate H (replicate W 1)) 1 1 0 = Ret m ∧
       opens (replicate H (replicate W 1)) (1, 1) 1 m ∧
       (carve_measure m [(1%Z, 1%Z)] < carve_fuel width height)%nat.
Proof.
  assert (at2 (replicate H (replicate W 1)) (1, 1) = Some 1) as H11
    by (apply at2_replicate_in; simpl; lia).
  destruct (set2_opens _ (1, 1) 1 (shape_replicate H W 1) H11) as (m & Hset & Ho).
  exists m. split; [done |]. split; [done |].
  unfold carve_measure, carve_fuel. simpl.
  pose proof (opens_sum _ _ _ _ _ _ Ho Z.to_nat) as Hs. simpl in Hs.
  rewrite sum2_replicate in Hs. simpl in Hs.
  replace (Z.to_nat (width * height)) with (W * H)%nat by lia. lia.
Qed.

(** The carving, for any invariant that holds at the start and that the
    steps and the forced openings keep. *)
Lemma carve_spec (I : maze → list pos → Prop) :
  (∀ m stack, I m stack → G m stack) →
  (∀ m, opens (replicate H (replicate W 1)) (1, 1) 1 m → I m [(1, 1)]) →
  (∀ m x y rest k st', I m ((x, y) :: rest) →
     carve_step rnd width height m x y rest k = Ret st' → I st'.1.1 st'.1.2) →
  ∃ m k m1 m2 a b,
    I m [] ∧ opens m (1, 1) a m1 ∧ opens m1 (width - 2, height - 2) b m2 ∧
    carve rnd width height = Ret (m2, k).
Proof.
  intros HIG Hinit Hstep. unfold carve.
  destruct carve_start as (m0 & -> & Ho & Hfuel). rewrite bind_Ret.
  destruct (carve_loop_spec I HIG Hstep (carve_fuel width height) m0 [(1, 1)] O)
    as (m & k & -> & HI); [by apply Hinit | done |]. rewrite bind_Ret.
  pose proof (HIG _ _ HI) as HG.
  assert (interior 1 1 = true) as Hint by (apply interior_spec; lia).
  assert (interior (width - 2) (height - 2) = true) as Hint' by (apply interior_spec; lia).
  destruct (interior_inside m 1 1 (G_shape _ _ _ _ HG) Hint) as [a Ha].
  destruct (set2_opens m (1, 1) a (G_shape _ _ _ _ HG) Ha) as (m1 & Hset1 & Ho1).
  simpl in Hset1. rewrite Hset1. cbn.
  destruct (interior_inside m1 _ _ (opens_shape _ _ _ _ _ _ Ho1) Hint') as [b Hb].
  destruct (set2_opens m1 (width - 2, height - 2) b (opens_shape _ _ _ _ _ _ Ho1) Hb)
    as (m2 & Hset2 & Ho2).
  simpl in Hset2. rewrite Hset2. cbn.
  by exists m, k, m1, m2, a, b.
Qed.

Lemma get2_inside (m : maze) x y :
  shape H W m → 0 ≤ x < width → 0 ≤ y < height →
  ∃ v, get2 m x y = Ret v.
Proof.
  intros Hsh Hx Hy.
  destruct (proj2 (at2_inside H W m (x, y) Hsh)) as [v Hv]; [simpl; lia |].
  exists v. rewrite get2_at2 by lia. by rewrite Hv.
Qed.

Lemma scan_cell_spec (m : maze) x y walls :
  shape H W m → 1 ≤ x < width - 1 → 1 ≤ y < height - 1 →
  ∃ walls', scan_cell m y walls x = Ret walls' ∧
            (walls' = walls ∨ walls' = walls ++ [(x, y)]).
Proof.
  intros Hsh Hx Hy. unfold scan_cell.
  destruct (get2_inside m x y Hsh) as [v ->]; [lia | lia |]. rewrite bind_Ret.
  destruct (v =? 1); [| by eauto].
  destruct (get2_inside m x (y - 1) Hsh) as [v1 ->]; [lia | lia |]. rewrite bind_Ret.
  destruct (get2_inside m x (y + 1) Hsh) as [v2 ->]; [lia | lia |]. rewrite bind_Ret.
  destruct (get2_inside m (x - 1) y Hsh) as [v3 ->]; [lia | lia |]. rewrite bind_Ret.
  destruct (get2_inside m (x + 1) y Hsh) as [v4 ->]; [lia | lia |]. rewrite bind_Ret.
  cbv zeta. destruct (2 <=? _); eauto.
Qed.

Lemma scan_spec (m : maze) :
  shape H W m →
  ∃ walls, scan width height m = Ret walls ∧
           ∀ p, p ∈ walls → interior p.1 p.2 = true.
Proof.
  intros Hsh. unfold scan.
  replace (height - 2) with (Z.of_nat (Z.to_nat (height - 2))) by lia.
  destruct (foldM_seqZ_inv
    (λ _ walls, ∀ p : pos, p ∈ walls → interior p.1 p.2 = true)
    (scan_row width m) (Z.to_nat (height - 2)) 1 []) as (walls & Hfold & Hwalls).
  - intros y walls Hy Hw. unfold scan_row.
    replace (width - 2) with (Z.of_nat (Z.to_nat (width - 2))) by lia.
    destruct (foldM_seqZ_inv
      (λ _ walls, ∀ p : pos, p ∈ walls → interior p.1 p.2 = true)
      (scan_cell m y) (Z.to_nat (width - 2)) 1 walls) as (walls' & Hfold' & Hwalls').
    + intros x walls0 Hx Hw0.
      destruct (scan_cell_spec m x y walls0 Hsh) as (walls1 & -> & [-> | ->]);
        [lia | lia | by eauto |].
      eexists. split; [done |].
      intros p [Hp | ->%list_elem_of_singleton]%elem_of_app; [by apply Hw0 |].
      apply interior_spec. simpl. lia.
    + done.
    + by exists walls'.
  - by intros p ?%elem_of_nil.
  - by exists walls.
Qed.

Lemma list_remove_subseteq (p : pos) (walls : list pos) :
  ∀ q, q ∈ list_remove p walls → q ∈ walls.
Proof.
  induction walls as [|r walls IH]; simpl; [done |].
  intros q. case_decide.
  - by right.
  - intros [-> | Hq]%elem_of_cons; [by left | right; by apply IH].
Qed.

Lemma remove_walls_spec (n : nat) : ∀ (m : maze) walls k,
  G m [] → (∀ p, p ∈ walls → interior p.1 p.2 = true) →
  ∃ m' k', remove_walls rnd n m walls k = Ret (m', k') ∧ G m' [].
Proof.
  induction n as [|n IH]; intros m walls k HG Hwalls; simpl; [by eauto |].
  destruct walls as [|w0 walls]; [by eauto |].
  destruct (choice_spec k (w0 :: walls)) as ([wx wy] & -> & Hw); [done |].
  rewrite bind_Ret.
  pose proof (Hwalls _ Hw) as Hint. simpl in Hint.
  destruct (interior_inside m wx wy (G_shape _ _ _ _ HG) Hint) as [a Ha].
  destruct (set2_opens m (wx, wy) a (G_shape _ _ _ _ HG) Ha) as (m1 & Hset & Ho).
  simpl in Hset. rewrite Hset, bind_Ret.
  apply IH.
  - eapply G_opens; [exact HG | | exact Ho]. done.
  - intros p Hp. apply Hwalls. by apply list_remove_subseteq in Hp.
Qed.

Lemma add_loops_spec (percentage : Q) (m : maze) k :
  G m [] →
  ∃ m' k', add_loops rnd width height percentage m k = Ret (m', k') ∧ G m' [].
Proof.
  intros HG. unfold add_loops.
  destruct (scan_spec m (G_shape _ _ _ _ HG)) as (walls & -> & Hwalls).
  rewrite bind_Ret. by apply remove_walls_spec.
Qed.

(** The generator returns a maze of the asked dimensions whose border
    cells are walls. *)
Lemma generate_returns_border :
  ∃ m, generate rnd width height = Ret m ∧
       shape H W m ∧
       ∀ p, on_border width height p → at2 m p = Some 1.
Proof.
  unfold generate.
  destruct (carve_spec G) as (m & k & m1 & m2 & a & b & HG & Ho1 & Ho2 & ->).
  - done.
  - apply G_start.
  - intros m x y rest k st' HG Hstep. by destruct (G_step m x y rest k st' HG Hstep).
  - rewrite bind_Ret.
    assert (G m2 []) as HG2.
    { eapply G_opens; [| | exact Ho2]; [| apply interior_spec; simpl; lia].
      eapply G_opens; [exact HG | | exact Ho1]. apply interior_spec; simpl; lia. }
    destruct (add_loops_spec (1 # 10) m2 k HG2) as (m' & k' & -> & HG').
    rewrite bind_Ret. exists m'. split; [done |].
    destruct HG' as [Hsh Hval Hfree _]. split; [done |].
    intros p (Hx & Hy & Hb).
    destruct (proj2 (at2_inside H W m' p Hsh)) as [v Hv]; [lia |].
    destruct (Hval p v Hv) as [-> | ->]; [| done].
    apply Hfree, interior_spec in Hv. lia.
Qed.

End GeneratorProofs.

(** ** Counting the connections of a maze *)

Lemma cells_elem (R C : Z) (p : pos) :
  0 < C → p ∈ SearchInv.cells R C ↔ 0 ≤ p.1 < C ∧ 0 ≤ p.2 < R.
Proof.
  intros HC. split.
  - unfold SearchInv.cells. intros (i & -> & Hi%elem_of_seqZ)%list_elem_of_fmap. simpl.
    pose proof (Z.mod_pos_bound i C HC).
    split; [done |]. split; [apply Z.div_pos; lia |].
    apply Z.div_lt_upper_bound; lia.
  - intros [Hx Hy]. rewrite (surjective_pairing p).
    apply in_bounds_cells. unfold in_bounds. lia.
Qed.

Lemma cells_NoDup (R C : Z) : 0 < C → NoDup (SearchInv.cells R C).
Proof.
  intros HC. unfold SearchInv.cells.
  apply NoDup_fmap_2_strong; [| apply NoDup_seqZ].
  intros i j _ _ [= Hmod Hdiv].
  rewrite (Z.div_mod i C), (Z.div_mod j C) by lia. congruence.
Qed.

Lemma sum_list_with_plus {A : Type} (f g : A → nat) (l : list A) :
  sum_list_with (λ a, f a + g a)%nat l
  = (sum_list_with f l + sum_list_with g l)%nat.
Proof. induction l as [|a l IH]; simpl; lia. Qed.

Lemma sum_list_with_ext {A : Type} (f g : A → nat) (l : list A) :
  (∀ a, a ∈ l → f a = g a) → sum_list_with f l = sum_list_with g l.
Proof.
  induction l as [|a l IH]; intros Hfg; simpl; [done |].
  rewrite (Hfg a) by by left. rewrite IH; [done |].
  intros b Hb. apply Hfg. by right.
Qed.

Lemma sum_list_with_point (l : list pos) (a : pos) (k : nat) :
  NoDup l →
  sum_list_with (λ p, if decide (p = a) then k else 0%nat) l
  = if decide (a ∈ l) then k else 0%nat.
Proof.
  induction 1 as [|b l Hb Hnd IH].
  - done.
  - cbn [sum_list_with]. rewrite IH.
    destruct (decide (b = a)) as [-> | Hne].
    + destruct (decide (a ∈ l)); [done |].
      destruct (decide (a ∈ a :: l)) as [? | Hn]; [lia |].
      destruct Hn. by left.
    + destruct (decide (a ∈ l)) as [Hin | Hin].
      * destruct (decide (a ∈ b :: l)) as [? | Hn]; [done |].
        destruct Hn. by right.
      * destruct (decide (a ∈ b :: l)) as [[-> | ?]%elem_of_cons | Hn]; done.
Qed.

Section Counting.
Import GenInv.
Variables (width height : Z).
Hypothesis width_min : 3 ≤ width.
Hypothesis height_min : 3 ≤ height.

Local Abbreviation W := (Z.to_nat width).
Local Abbreviation H := (Z.to_nat height).
Local Abbreviation opens := (opens width height).

Lemma positions_shape (m : maze) :
  shape H W m → positions m = SearchInv.cells height width.
Proof.
  intros [Hlen Hrows]. unfold positions.
  destruct m as [|row m]; [simpl in Hlen; lia |].
  apply Forall_cons in Hrows as [Hrow _]. simpl in *.
  rewrite Hlen, Hrow. f_equal; lia.
Qed.

Lemma free_at_outside (m : maze) (p : pos) :
  shape H W m → p ∉ SearchInv.cells height width → free_at m p = 0%nat.
Proof.
  intros Hsh Hp. unfold free_at.
  destruct (at2 m p) as [v|] eqn:Hv; [| done].
  destruct Hp. apply cells_elem; [lia |].
  assert (is_Some (at2 m p)) as Hin by by eexists.
  apply (at2_inside H W m p Hsh) in Hin. lia.
Qed.

Lemma free_at_opens (m m' : maze) (p : pos) (a : Z) :
  opens m p a m' →
  ∀ q, free_at m' q = if decide (q = p) then 1%nat else free_at m q.
Proof.
  intros Ho q. unfold free_at. rewrite (opens_new _ _ _ _ _ _ Ho).
  by case_decide.
Qed.

Lemma free_count_opens (m m' : maze) (p : pos) (a : Z) :
  opens m p a m' →
  free_count m' = (free_count m + if (a =? 0)%Z then 0 else 1)%nat.
Proof.
  intros Ho. unfold free_count.
  pose proof (opens_sum _ _ _ _ _ _ Ho (λ v, if v =? 0 then 1%nat else 0%nat)) as Hs.
  simpl in Hs. destruct (a =? 0); lia.
Qed.

(** Opening a wall adds one connection for each free neighbour. *)
Lemma edge_count_opens (m m' : maze) (p : pos) (a : Z) :
  shape H W m → opens m p a m' → a ≠ 0 →
  edge_count m' = (edge_count m + free_around m p)%nat.
Proof.
  intros Hsh Ho Ha.
  pose proof (free_at_opens m m' p a Ho) as Hfree.
  assert (free_at m p = 0%nat) as Hp0.
  { unfold free_at. rewrite (opens_old _ _ _ _ _ _ Ho). by destruct a. }
  assert (p ∈ SearchInv.cells height width) as Hpin.
  { apply cells_elem; [lia |].
    assert (is_Some (at2 m p)) as Hin by (rewrite (opens_old _ _ _ _ _ _ Ho); by eexists).
    apply (at2_inside H W m p Hsh) in Hin. lia. }
  unfold edge_count, free_around.
  rewrite (positions_shape m' (opens_shape _ _ _ _ _ _ Ho)), (positions_shape m Hsh).
  pose proof (cells_NoDup height width ltac:(lia)) as Hnd.
  set (L := SearchInv.cells height width) in *.
  rewrite (sum_list_with_ext _
    (λ q, (free_at m q * (free_at m (q.1 + 1, q.2)%Z + free_at m (q.1, q.2 + 1)%Z)
           + (if decide (q = p)
              then free_at m (p.1 + 1, p.2)%Z + free_at m (p.1, p.2 + 1)%Z else 0))
          + ((if decide (q = (p.1 - 1, p.2)%Z) then free_at m (p.1 - 1, p.2)%Z else 0)
             + (if decide (q = (p.1, p.2 - 1)%Z) then free_at m (p.1, p.2 - 1)%Z else 0)))%nat).
  - rewrite !sum_list_with_plus, !sum_list_with_point by done.
    rewrite (decide_True (P := p ∈ L)) by done.
    assert (∀ q, (if decide (q ∈ L) then free_at m q else 0%nat) = free_at m q) as Hout.
    { intros q. case_decide; [done |]. symmetry. by apply free_at_outside. }
    rewrite !Hout. lia.
  - intros [qx qy] _. destruct p as [px py]. cbn [fst snd] in *.
    rewrite !Hfree.
    assert (∀ (x y x' y' : Z) (u v : nat),
              x ≠ x' ∨ y ≠ y' →
              (if decide ((x, y) = (x', y')) then u else v) = v) as Hno.
    { intros x y x' y' u v Hxy. rewrite decide_False; [done |].
      intros [= ? ?]. lia. }
    assert (∀ (x y x' y' : Z) (u v : nat),
              x = x' → y = y' →
              (if decide ((x, y) = (x', y')) then u else v) = u) as Hyes.
    { intros x y x' y' u v -> ->. by rewrite decide_True. }
    destruct (decide (qx = px ∧ qy = py)) as [[-> ->] | Hq].
    { rewrite (Hyes px py px py) by done.
      rewrite (Hyes px py px py) by done.
      rewrite !Hno by lia. rewrite Hp0. lia. }
    rewrite (Hno qx qy px py) by lia.
    rewrite (Hno qx qy px py) by lia.
    destruct (decide (qx + 1 = px ∧ qy = py)) as [[<- <-] | Hq1].
    { rewrite (Hyes (qx + 1) qy (qx + 1) qy) by done.
      rewrite (Hyes qx qy (qx + 1 - 1) qy) by lia.
      rewrite !Hno by lia.
      replace (qx + 1 - 1) with qx by lia. rewrite Hp0. lia. }
    rewrite (Hno (qx + 1) qy px py) by lia.
    rewrite (Hno qx qy (px - 1) py) by lia.
    destruct (decide (qx = px ∧ qy + 1 = py)) as [[<- <-] | Hq2].
    { rewrite (Hyes qx (qy + 1) qx (qy + 1)) by done.
      rewrite (Hyes qx qy qx (qy + 1 - 1)) by lia.
      replace (qy + 1 - 1) with qy by lia. rewrite Hp0. lia. }
    rewrite (Hno qx (qy + 1) px py) by lia.
    rewrite (Hno qx qy px (py - 1)) by lia.
    lia.
Qed.

(** The number of connections depends on the cells only. *)
Lemma edge_count_same (m m' : maze) :
  shape H W m → shape H W m' → (∀ q, at2 m' q = at2 m q) →
  edge_count m' = edge_count m.
Proof.
  intros Hsh Hsh' Hat. unfold edge_count.
  rewrite (positions_shape m' Hsh'), (positions_shape m Hsh).
  apply sum_list_with_ext. intros q _. unfold free_at. by rewrite !Hat.
Qed.

Lemma linked_mono (m m' : maze) (s p : pos) :
  (∀ q, at2 m q = Some 0 → at2 m' q = Some 0) →
  linked m s p → linked m' s p.
Proof.
  intros Hmono. induction 1 as [Hs | p q Hl IH Hadj Hq].
  - apply linked_here. by apply Hmono.
  - eapply linked_step; [done | done | by apply Hmono].
Qed.

End Counting.

(** ** The carving yields a perfect maze *)

Lemma free_at_free (m : maze) (p : pos) : at2 m p = Some 0 → free_at m p = 1%nat.
Proof. unfold free_at. by intros ->. Qed.

Lemma free_at_wall (m : maze) (p : pos) : at2 m p ≠ Some 0 → free_at m p = 0%nat.
Proof. unfold free_at. destruct (at2 m p) as [[| |]|]; done. Qed.

(** A cell with exactly one free neighbour. *)
Lemma free_around_one (m : maze) (p : pos) (e0 : Z * Z) :
  e0 ∈ directions →
  at2 m (p.1 + e0.1, p.2 + e0.2) = Some 0 →
  (∀ e, e ∈ directions → e ≠ e0 → at2 m (p.1 + e.1, p.2 + e.2) ≠ Some 0) →
  GenInv.free_around m p = 1%nat.
Proof.
  intros He0 Hfree Hwalls. destruct p as [x y]. simpl in *.
  assert (∀ e, e ∈ directions → e ≠ e0 → free_at m (x + e.1, y + e.2) = 0%nat) as Hw
    by (intros e ? ?; by apply free_at_wall, Hwalls).
  apply free_at_free in Hfree.
  pose proof (Hw (0, 1)) as H1. pose proof (Hw (0, -1)) as H2.
  pose proof (Hw (1, 0)) as H3. pose proof (Hw (-1, 0)) as H4.
  unfold GenInv.free_around, directions in *. simpl in *.
  rewrite !elem_of_cons in He0.
  replace (x - 1) with (x + -1) by lia. replace (y - 1) with (y + -1) by lia.
  rewrite Z.add_0_r in *.
  assert ((0, 1) ∈ [(0, 1); (0, -1); (1, 0); (-1, 0)]) as I1 by set_solver.
  assert ((0, -1) ∈ [(0, 1); (0, -1); (1, 0); (-1, 0)]) as I2 by set_solver.
  assert ((1, 0) ∈ [(0, 1); (0, -1); (1, 0); (-1, 0)]) as I3 by set_solver.
  assert ((-1, 0) ∈ [(0, 1); (0, -1); (1, 0); (-1, 0)]) as I4 by set_solver.
  specialize (H1 I1). specialize (H2 I2). specialize (H3 I3). specialize (H4 I4).
  destruct He0 as [-> | [-> | [-> | [-> | []%elem_of_nil]]]]; simpl in *;
    rewrite ?Z.add_0_r in *;
    rewrite ?H1, ?H2, ?H3, ?H4, ?Hfree by done; lia.
Qed.

Lemma direction_unit (u : Z * Z) :
  u ∈ directions →
  (u.1 = 0 ∧ (u.2 = 1 ∨ u.2 = -1)) ∨ (u.2 = 0 ∧ (u.1 = 1 ∨ u.1 = -1)).
Proof.
  unfold directions. rewrite !elem_of_cons.
  intros [-> | [-> | [-> | [-> | []%elem_of_nil]]]]; simpl; lia.
Qed.

Lemma direction_opposite (u : Z * Z) :
  u ∈ directions → (- u.1, - u.2) ∈ directions.
Proof.
  unfold directions. rewrite !elem_of_cons.
  intros [-> | [-> | [-> | [-> | []%elem_of_nil]]]]; simpl; auto.
Qed.

Lemma carve_direction_unit (d : Z * Z) :
  d ∈ MapGenerator.carve_directions →
  ∃ u, u ∈ directions ∧ d.1 = 2 * u.1 ∧ d.2 = 2 * u.2 ∧
       d.1 `div` 2 = u.1 ∧ d.2 `div` 2 = u.2.
Proof.
  unfold MapGenerator.carve_directions, directions. rewrite !elem_of_cons.
  intros [-> | [-> | [-> | [-> | []%elem_of_nil]]]];
    [exists (0, -1) | exists (0, 1) | exists (-1, 0) | exists (1, 0)];
    (split; [set_solver | done]).
Qed.

Section Perfect.
Import MapGenerator GenInv.
Variable rnd : nat → nat.
Variables (width height : Z).
Hypothesis width_min : 3 ≤ width.
Hypothesis height_min : 3 ≤ height.

Local Abbreviation W := (Z.to_nat width).
Local Abbreviation H := (Z.to_nat height).
Local Abbreviation interior := (interior width height).
Local Abbreviation opens := (opens width height).
Local Abbreviation G := (G width height).
Local Abbreviation T := (T width height).

(** Opening the passage [w = c + u] and the lattice cell [n = c + 2 u]
    from the free lattice cell [c], when [n] is a wall. *)
Lemma T_carve (m m1 m2 : maze) (c : pos) (u : Z * Z) (a : Z) stack :
  G m stack → T m stack → c ∈ stack → u ∈ directions →
  interior (c.1 + 2 * u.1) (c.2 + 2 * u.2) = true →
  at2 m (c.1 + 2 * u.1, c.2 + 2 * u.2) = Some 1 →
  opens m (c.1 + u.1, c.2 + u.2) a m1 →
  opens m1 (c.1 + 2 * u.1, c.2 + 2 * u.2) 1 m2 →
  T m2 ((c.1 + 2 * u.1, c.2 + 2 * u.2) :: stack).
Proof.
  intros HG HT Hc Hu Hin Hn Ho1 Ho2.
  destruct HG as [Hsh Hval Hfree Hstack].
  destruct HT as [Hpar Hpx Hpy Hst Hcl Hroot [Hlink Hcount]].
  destruct (Hst c Hc) as (Hcfree & Hcx & Hcy).
  destruct c as [x y]. cbn [fst snd] in *.
  pose proof (direction_unit u Hu) as Hunit.
  set (w := (x + u.1, y + u.2)) in *. set (n := (x + 2 * u.1, y + 2 * u.2)) in *.
  assert (w ≠ n) as Hwn by (unfold w, n; intros [=]; lia).
  assert (w ≠ (x, y)) as Hwc by (unfold w; intros [=]; lia).
  assert (n ≠ (x, y)) as Hnc by (unfold n; intros [=]; lia).
  (* the passage was a wall *)
  assert (at2 m w ≠ Some 0) as Hw.
  { intros Hw. unfold w in Hw.
    destruct Hunit as [[Hu1 Hu2] | [Hu2 Hu1]].
    - destruct (Hpy _ Hw) as [Hlo Hhi]; [simpl; mod_lia |]. simpl in Hlo, Hhi.
      assert (at2 m n = Some 0); [| congruence].
      unfold n. destruct Hu2; [same_cell Hhi | same_cell Hlo].
    - destruct (Hpx _ Hw) as [Hlo Hhi]; [simpl; mod_lia |]. simpl in Hlo, Hhi.
      assert (at2 m n = Some 0); [| congruence].
      unfold n. destruct Hu1; [same_cell Hhi | same_cell Hlo]. }
  assert (a = 1) as ->.
  { destruct (Hval w a (opens_old _ _ _ _ _ _ Ho1)) as [-> | ->]; [| done].
    destruct Hw. apply (opens_old _ _ _ _ _ _ Ho1). }
  pose proof (opens_new _ _ _ _ _ _ Ho1) as Hat1.
  pose proof (opens_new _ _ _ _ _ _ Ho2) as Hat2.
  assert (∀ q, at2 m2 q = Some 0 ↔ q = n ∨ q = w ∨ at2 m q = Some 0) as Hfree2.
  { intros q. rewrite Hat2, Hat1. repeat case_decide; subst; naive_solver. }
  assert (∀ q, at2 m q = Some 0 → at2 m2 q = Some 0) as Hmono
    by (intros q ?; apply Hfree2; auto).
  assert (at2 m2 n = Some 0) as Hn2 by (apply Hfree2; auto).
  assert (at2 m2 w = Some 0) as Hw2 by (apply Hfree2; auto).
  assert (at2 m2 (x, y) = Some 0) as Hc2 by by apply Hmono.
  split.
  - (* parity *)
    intros q [-> | [-> | Hq]]%Hfree2; [| | by apply Hpar]; unfold n, w; simpl; mod_lia.
  - (* passages along x *)
    intros q [-> | [-> | Hq]]%Hfree2 Heven.
    + unfold n in Heven. simpl in Heven. mod_lia.
    + unfold w in Heven |- *. simpl in *.
      destruct Hunit as [[Hu1 Hu2] | [Hu2 Hu1]]; [mod_lia |].
      destruct Hu1; split; first [same_cell Hc2 | same_cell Hn2].
    + destruct (Hpx q Hq Heven). split; by apply Hmono.
  - (* passages along y *)
    intros q [-> | [-> | Hq]]%Hfree2 Heven.
    + unfold n in Heven. simpl in Heven. mod_lia.
    + unfold w in Heven |- *. simpl in *.
      destruct Hunit as [[Hu1 Hu2] | [Hu2 Hu1]]; [| mod_lia].
      destruct Hu2; split; first [same_cell Hc2 | same_cell Hn2].
    + destruct (Hpy q Hq Heven). split; by apply Hmono.
  - (* the stack *)
    intros q [-> | Hq]%elem_of_cons.
    + split; [done |]. unfold n. simpl. split; mod_lia.
    + destruct (Hst q Hq) as (? & ? & ?). split; [by apply Hmono | done].
  - (* closed cells *)
    intros q Hq Hqx Hqy Hnotin d Hd Hint.
    apply not_elem_of_cons in Hnotin as [Hqn Hnotin].
    apply Hfree2 in Hq as [-> | [-> | Hq]]; [done | |].
    + unfold w in Hqx, Hqy. simpl in *. exfalso. destruct Hunit; mod_lia.
    + apply Hmono. by apply Hcl.
  - by apply Hmono.
  - split.
    + (* connected *)
      assert (linked m2 (1, 1) (x, y)) as Hlc.
      { eapply linked_mono; [exact Hmono |]. by apply Hlink. }
      assert (linked m2 (1, 1) w) as Hlw.
      { eapply linked_step; [exact Hlc | | done]. by exists u. }
      intros q [-> | [-> | Hq]]%Hfree2.
      * eapply linked_step; [exact Hlw | | done].
        exists u. split; [done |]. unfold n, w. simpl. f_equal; lia.
      * done.
      * eapply linked_mono; [exact Hmono |]. by apply Hlink.
    + (* counted *)
      rewrite (edge_count_opens width height width_min height_min m1 m2 n 1
                 (opens_shape _ _ _ _ _ _ Ho1) Ho2) by done.
      rewrite (edge_count_opens width height width_min height_min m m1 w 1 Hsh Ho1)
        by done.
      rewrite (free_count_opens width height m1 m2 n 1 Ho2).
      rewrite (free_count_opens width height m m1 w 1 Ho1). simpl.
      assert (free_around m w = 1%nat) as ->.
      { apply (free_around_one m w (- u.1, - u.2)).
        - by apply direction_opposite.
        - unfold w. simpl. same_cell Hcfree.
        - intros e He Hne Hq.
          pose proof (direction_unit e He) as Hunit'.
          unfold w in Hq. simpl in Hq.
          destruct (decide (e = u)) as [-> | Hneu].
          + assert (at2 m n = Some 0); [| congruence]. unfold n. same_cell Hq.
          + destruct (Hpar _ Hq) as [Hodd | Hodd]; simpl in Hodd;
              destruct e as [e1 e2], u as [u1 u2]; simpl in *;
              assert (e1 ≠ u1 ∨ e2 ≠ u2) by (destruct (decide (e1 = u1)); [right; congruence | by left]);
              assert (e1 ≠ - u1 ∨ e2 ≠ - u2) by (destruct (decide (e1 = - u1)); [right; congruence | by left]);
              mod_lia. }
      assert (free_around m1 n = 1%nat) as ->.
      { apply (free_around_one m1 n (- u.1, - u.2)).
        - by apply direction_opposite.
        - rewrite Hat1, decide_True; [done |]. unfold n, w. simpl. f_equal; lia.
        - intros e He Hne. rewrite Hat1.
          pose proof (direction_unit e He) as Hunit'.
          case_decide as Hew.
          { exfalso. unfold n, w in Hew. simpl in Hew.
            destruct e as [e1 e2], u as [u1 u2]; simpl in *.
            injection Hew as ? ?. destruct Hne. f_equal; lia. }
          intros Hq. unfold n in Hq. simpl in Hq.
          assert (at2 m n = Some 0); [| congruence].
          destruct Hunit' as [[He1 He2] | [He2 He1]].
          * destruct (Hpy _ Hq) as [Hlo Hhi]; [simpl; mod_lia |]. simpl in Hlo, Hhi.
            unfold n. destruct He2; [same_cell Hlo | same_cell Hhi].
          * destruct (Hpx _ Hq) as [Hlo Hhi]; [simpl; mod_lia |]. simpl in Hlo, Hhi.
            unfold n. destruct He1; [same_cell Hlo | same_cell Hhi]. }
      lia.
Qed.

Lemma T_step (m : maze) x y rest k st' :
  G m ((x, y) :: rest) → T m ((x, y) :: rest) →
  carve_step rnd width height m x y rest k = Ret st' →
  T st'.1.1 st'.1.2.
Proof.
  intros HG HT Hstep.
  pose proof (G_shape _ _ _ _ HG) as Hsh.
  assert (interior x y = true) as Hxy by (apply (G_stack _ _ _ _ HG (x, y)); by left).
  destruct (carve_step_cases rnd width height width_min height_min m x y rest k Hsh Hxy)
    as (st & Hst & Hcases).
  rewrite Hstep in Hst. injection Hst as <-.
  destruct Hcases as [[-> Hnone] | (d & a & m1 & m2 & Hd & Hin & Hv & Ho1 & Ho2 & ->)];
    cbn [fst snd].
  - destruct HT as [Hpar Hpx Hpy Hst Hcl Hroot Hperf].
    split; try done.
    + intros p Hp. apply Hst. by right.
    + intros p Hp Hp1 Hp2 Hnotin d Hd Hint.
      destruct (decide (p = (x, y))) as [-> | Hne].
      * destruct (interior_inside width height width_min height_min m _ _ Hsh Hint)
          as [v Hv].
        destruct (G_values _ _ _ _ HG _ _ Hv) as [-> | ->]; [done |].
        by destruct (Hnone d Hd Hint).
      * apply Hcl; try done. by apply not_elem_of_cons.
  - destruct (carve_direction_unit d Hd) as (u & Hu & Hd1 & Hd2 & Hh1 & Hh2).
    rewrite Hh1, Hh2 in Ho1. rewrite Hd1, Hd2 in Hin, Hv, Ho2 |- *.
    apply (T_carve m m1 m2 (x, y) u a ((x, y) :: rest)); try done. by left.
Qed.

Lemma edge_count_walls :
  edge_count (replicate H (replicate W 1)) = 0%nat.
Proof.
  unfold edge_count.
  rewrite (sum_list_with_ext _ (λ _, 0%nat)).
  - induction (positions _) as [|? ? IH]; simpl; [done | by rewrite IH].
  - intros q _. unfold free_at at 1.
    destruct (at2 _ q) as [v|] eqn:Hq; [| done].
    by apply at2_replicate in Hq as ->.
Qed.

Lemma T_start (m : maze) :
  opens (replicate H (replicate W 1)) (1, 1) 1 m → T m [(1, 1)].
Proof.
  intros Ho. pose proof (opens_new _ _ _ _ _ _ Ho) as Hat.
  assert (∀ q, at2 m q = Some 0 → q = (1, 1)) as Honly.
  { intros q. rewrite Hat. case_decide; [done |]. by intros ?%at2_replicate. }
  assert (at2 m (1, 1) = Some 0) as Hroot by by rewrite Hat, decide_True.
  split; try done.
  - intros q ->%Honly. by left.
  - intros q ->%Honly. done.
  - intros q ->%Honly. done.
  - intros q ->%list_elem_of_singleton. done.
  - intros q ->%Honly _ _ Hnotin. destruct Hnotin. by left.
  - split.
    + intros q ->%Honly. by apply linked_here.
    + rewrite (edge_count_opens width height width_min height_min _ m (1, 1) 1
                 (shape_replicate H W 1) Ho) by done.
      rewrite (free_count_opens width height _ m (1, 1) 1 Ho). simpl.
      rewrite edge_count_walls. unfold free_count. rewrite sum2_replicate.
      unfold free_around, free_at. simpl.
      assert (∀ q, match at2 (replicate H (replicate W 1)) q with
                   | Some 0 => 1%nat
                   | _ => 0%nat
                   end = 0%nat) as Hz.
      { intros q. destruct (at2 _ q) as [v|] eqn:Hq; [| done].
        by apply at2_replicate in Hq as ->. }
      rewrite !Hz. lia.
Qed.

(** When the carving is over, every cell of the odd lattice is free. *)
Lemma lattice_free (m : maze) :
  T m [] → ∀ p, interior p.1 p.2 = true → p.1 `mod` 2 = 1 → p.2 `mod` 2 = 1 →
  at2 m p = Some 0.
Proof.
  intros HT.
  assert (∀ i : nat, interior (2 * Z.of_nat i + 1) 1 = true →
                     at2 m (2 * Z.of_nat i + 1, 1) = Some 0) as Hrow.
  { induction i as [|i IH]; intros Hint; [apply (T_root _ _ _ _ HT) |].
    assert (interior (2 * Z.of_nat i + 1) 1 = true) as Hint'.
    { apply interior_spec. apply interior_spec in Hint. lia. }
    pose proof (T_closed _ _ _ _ HT _ (IH Hint')) as Hcl. simpl in Hcl.
    assert (at2 m (2 * Z.of_nat i + 1 + 2, 1 + 0) = Some 0) as Hnext.
    { apply (Hcl ltac:(mod_lia) ltac:(done) (not_elem_of_nil _) (2, 0)).
      - unfold carve_directions. set_solver.
      - simpl. apply interior_spec. apply interior_spec in Hint. lia. }
    same_cell Hnext. }
  assert (∀ i j : nat, interior (2 * Z.of_nat i + 1) (2 * Z.of_nat j + 1) = true →
                       at2 m (2 * Z.of_nat i + 1, 2 * Z.of_nat j + 1) = Some 0) as Hall.
  { intros i. induction j as [|j IH]; intros Hint; [by apply Hrow |].
    assert (interior (2 * Z.of_nat i + 1) (2 * Z.of_nat j + 1) = true) as Hint'.
    { apply interior_spec. apply interior_spec in Hint. lia. }
    pose proof (T_closed _ _ _ _ HT _ (IH Hint')) as Hcl. simpl in Hcl.
    assert (at2 m (2 * Z.of_nat i + 1 + 0, 2 * Z.of_nat j + 1 + 2) = Some 0) as Hnext.
    { apply (Hcl ltac:(mod_lia) ltac:(mod_lia) (not_elem_of_nil _) (0, 2)).
      - unfold carve_directions. set_solver.
      - simpl. apply interior_spec. apply interior_spec in Hint. lia. }
    same_cell Hnext. }
  intros [px py] Hint Hx Hy. simpl in *.
  apply interior_spec in Hint as Hint'.
  specialize (Hall (Z.to_nat (px `div` 2)) (Z.to_nat (py `div` 2))).
  replace (2 * Z.of_nat (Z.to_nat (px `div` 2)) + 1) with px in Hall by mod_lia.
  replace (2 * Z.of_nat (Z.to_nat (py `div` 2)) + 1) with py in Hall by mod_lia.
  by apply Hall.
Qed.

(** The two forced openings keep the maze perfect, unless the width and
    the height are both even. *)
Lemma T_forced (m m1 m2 : maze) (a b : Z) :
  width `mod` 2 = 1 ∨ height `mod` 2 = 1 →
  G m [] → T m [] →
  opens m (1, 1) a m1 → opens m1 (width - 2, height - 2) b m2 →
  perfect m2.
Proof.
  intros Hodd HG HT Ho1 Ho2.
  pose proof (lattice_free m HT) as Hlattice.
  destruct HG as [Hsh Hval Hfree _].
  destruct HT as [Hpar Hpx Hpy _ _ Hroot [Hlink Hcount]].
  pose proof (opens_new _ _ _ _ _ _ Ho1) as Hat1.
  pose proof (opens_new _ _ _ _ _ _ Ho2) as Hat2.
  assert (a = 0) as -> by (pose proof (opens_old _ _ _ _ _ _ Ho1); congruence).
  assert (∀ q, at2 m1 q = at2 m q) as Hsame1.
  { intros q. rewrite Hat1. case_decide; [by subst | done]. }
  pose proof (edge_count_same width height width_min height_min m m1 Hsh
                (opens_shape _ _ _ _ _ _ Ho1) Hsame1) as He1.
  pose proof (free_count_opens width height m m1 (1, 1) 0 Ho1) as Hf1.
  pose proof (free_count_opens width height m1 m2 _ b Ho2) as Hf2.
  simpl in Hf1.
  set (e := (width - 2, height - 2)) in *.
  assert (at2 m e = Some b) as Hb.
  { rewrite <- Hsame1. apply (opens_old _ _ _ _ _ _ Ho2). }
  assert (∀ q, at2 m q = Some 0 → at2 m2 q = Some 0) as Hmono.
  { intros q Hq. rewrite Hat2, Hsame1. by case_decide. }
  destruct (Hval e b Hb) as [-> | ->].
  - (* the cell was free already *)
    assert (∀ q, at2 m2 q = at2 m q) as Hsame2.
    { intros q. rewrite Hat2, Hsame1. case_decide; [by subst | done]. }
    split.
    + intros q Hq. eapply linked_mono; [exact Hmono |].
      apply Hlink. by rewrite <- Hsame2.
    + rewrite (edge_count_same width height width_min height_min m m2 Hsh
                 (opens_shape _ _ _ _ _ _ Ho2) Hsame2).
      simpl in Hf2. lia.
  - (* the cell was a wall, next to the last cell of the lattice *)
    assert (∃ e0, e0 ∈ directions ∧ at2 m (e.1 + e0.1, e.2 + e0.2) = Some 0 ∧
                  ∀ e', e' ∈ directions → e' ≠ e0 →
                        at2 m (e.1 + e'.1, e.2 + e'.2) ≠ Some 0)
      as (e0 & He0 & Hfree0 & Hwalls).
    { assert (¬ (width `mod` 2 = 1 ∧ height `mod` 2 = 1)) as Hnot.
      { intros [Hw Hh].
        assert (at2 m e = Some 0); [| congruence].
        apply Hlattice; unfold e; simpl; [apply interior_spec; lia | mod_lia | mod_lia]. }
      assert (∀ q, at2 m q = Some 0 → 0 < q.1 < width - 1 ∧ 0 < q.2 < height - 1)
        as Hinside by (intros q Hq; by apply interior_spec, Hfree).
      destruct (decide (width `mod` 2 = 1)) as [Hw | Hw].
      - exists (0, -1). split; [unfold directions; set_solver |]. split.
        + apply Hlattice; unfold e; simpl; [apply interior_spec | |]; mod_lia.
        + intros e' He' Hne Hq. pose proof (direction_unit e' He') as Hunit.
          destruct (Hpar _ Hq) as [Hp | Hp]; pose proof (Hinside _ Hq) as Hin;
            unfold e in *; simpl in *;
            destruct e' as [e1 e2]; simpl in *;
            assert (e1 ≠ 0 ∨ e2 ≠ -1)
              by (destruct (decide (e1 = 0)); [right; congruence | by left]);
            mod_lia.
      - exists (-1, 0). split; [unfold directions; set_solver |]. split.
        + apply Hlattice; unfold e; simpl; [apply interior_spec | |]; mod_lia.
        + intros e' He' Hne Hq. pose proof (direction_unit e' He') as Hunit.
          destruct (Hpar _ Hq) as [Hp | Hp]; pose proof (Hinside _ Hq) as Hin;
            unfold e in *; simpl in *;
            destruct e' as [e1 e2]; simpl in *;
            assert (e1 ≠ -1 ∨ e2 ≠ 0)
              by (destruct (decide (e1 = -1)); [right; congruence | by left]);
            mod_lia. }
    split.
    + intros q. rewrite Hat2. case_decide as Hq.
      * intros _. subst q.
        eapply linked_step.
        -- eapply linked_mono; [exact Hmono |]. apply Hlink, Hfree0.
        -- exists (- e0.1, - e0.2). split; [by apply direction_opposite |].
           destruct e as [ex ey]. simpl. f_equal; lia.
        -- by rewrite Hat2, decide_True.
      * rewrite Hsame1. intros Hq'. eapply linked_mono; [exact Hmono |]. by apply Hlink.
    + rewrite (edge_count_opens width height width_min height_min m1 m2 e 1
                 (opens_shape _ _ _ _ _ _ Ho1) Ho2) by done.
      assert (free_around m1 e = 1%nat) as ->.
      { apply (free_around_one m1 e e0); [done | by rewrite Hsame1 |].
        intros e' He' Hne. rewrite Hsame1. by apply Hwalls. }
      simpl in Hf2. lia.
Qed.

(** The carving and the two forced openings leave a perfect maze,
    unless the width and the height are both even. *)
Lemma carve_perfect :
  width `mod` 2 = 1 ∨ height `mod` 2 = 1 →
  ∃ m k, carve rnd width height = Ret (m, k) ∧ shape H W m ∧ perfect m.
Proof.
  intros Hodd.
  destruct (carve_spec rnd width height width_min height_min
              (λ m stack, G m stack ∧ T m stack))
    as (m & k & m1 & m2 & a & b & [HG HT] & Ho1 & Ho2 & Hcarve).
  - by intros m stack [? ?].
  - intros m Ho. split; [by apply G_start | by apply T_start].
  - intros m x y rest k st' [HG HT] Hstep. split.
    + by destruct (G_step rnd width height width_min height_min m x y rest k st' HG Hstep).
    + by apply (T_step m x y rest k st').
  - exists m2, k. split; [done |].
    split; [apply (opens_shape _ _ _ _ _ _ Ho2) |].
    by apply (T_forced m m1 m2 a b).
Qed.

End Perfect.

(** * Further properties of the searches *)

(** [while open_heap], with an invariant that also speaks of the counter. *)
Lemma while_open_inv (body : Algorithm → sstate → entry → list entry → flow)
    (I : Algorithm → sstate → Prop) (Post : outcome sstate → Algorithm → Prop)
    (mu : sstate → nat) :
  (∀ self st e h, I self st → open_heap st = e :: h →
     match body self st e h with
     | Continue self' st' => I self' st' ∧ (mu st' < mu st)%nat
     | Stop r self' => Post r self'
     end) →
  (∀ self st, I self st → open_heap st = [] → Post (Ret st) self) →
  ∀ fuel self st, I self st → (mu st < fuel)%nat →
    Post (while_open body fuel self st).1 (while_open body fuel self st).2.
Proof.
  intros Hbody Hexit. induction fuel as [|fuel IH]; intros self st HI Hmu; [lia |].
  simpl. destruct (open_heap st) as [|e h] eqn:Hheap.
  - by apply Hexit.
  - specialize (Hbody self st e h HI Hheap).
    destruct (body self st e h) as [self' st' | r self']; [| done].
    destruct Hbody as [HI' Hlt]. apply IH; [done | lia].
Qed.

Lemma J_mono (g : grid) rows cols start (P Q : pos → Z → Prop) st :
  (∀ n c, P n c → Q n c) →
  SearchInv.J g rows cols start P st → SearchInv.J g rows cols start Q st.
Proof.
  intros HPQ [? ? ? ? Hcost ? ? ?]. split; try done.
  intros n gn Hn. destruct (Hcost n gn Hn). split; [done | by apply HPQ].
Qed.

Lemma matrix_get2 {A : Type} (R C : nat) (m : list (list A)) x y :
  shape R C m →
  in_bounds (Z.of_nat R) (Z.of_nat C) x y = true →
  ∃ v, get2 m x y = Ret v ∧ at2 m (x, y) = Some v.
Proof.
  unfold in_bounds. intros Hsh Hin.
  assert (0 ≤ x < Z.of_nat C ∧ 0 ≤ y < Z.of_nat R) as Hxy by lia.
  destruct (proj2 (at2_inside R C m (x, y) Hsh) Hxy) as [v Hv].
  exists v. split; [| done]. rewrite get2_at2 by lia. by rewrite Hv.
Qed.

(** ** Safe walks *)

Lemma safe_walk_safe g ft s n p :
  safe_walk g ft s n p → fire_safe ft p (Z.of_nat n).
Proof. by destruct 1. Qed.

Lemma safe_walk_start g ft s n p :
  safe_walk g ft s n p → fire_safe ft s 0.
Proof. by induction 1. Qed.

Lemma safe_walk_walk g ft s n p :
  safe_walk g ft s n p → walk g s n p.
Proof. induction 1; [constructor | by eapply walk_step]. Qed.

Lemma fire_safe_unsafe ft p t fv :
  get2 ft p.1 p.2 = Ret fv → ftime_le fv (Fin t) = true → ¬ fire_safe ft p t.
Proof.
  intros Hget Hle (v & Hv & Hgt). rewrite Hget in Hv. injection Hv as <-.
  rewrite ftime_le_gt, Hgt in Hle. done.
Qed.

Lemma fire_safe_intro ft p t fv :
  get2 ft p.1 p.2 = Ret fv → ftime_le fv (Fin t) = false → fire_safe ft p t.
Proof.
  intros Hget Hle. exists fv. split; [done |].
  rewrite ftime_le_gt in Hle. by destruct (ftime_gt fv (Fin t)).
Qed.

(** ** Optimality of the hazard-aware search *)

Section FireOptimal.
Import SearchInv.
Context `{Float64}.
Variables (g : grid) (R C : nat) (start end_ : pos).
Variables (ft : fire_map) (mode : string).
Hypothesis g_shape : shape R C g.
Hypothesis ft_shape : shape R C ft.

Local Abbreviation rows := (Z.of_nat R).
Local Abbreviation cols := (Z.of_nat C).

Hypothesis consistent : key_consistent rows cols start end_ mode.

Local Abbreviation J := (J g rows cols start (FireOpt.walked g ft start)).
Local Abbreviation K := (FireOpt.K g ft start end_ mode).

Lemma fire_frontier st :
  J st → K None st → start ∈ visited st →
  ∀ k p, safe_walk g ft start k p →
    (p ∈ visited st ∧ ∃ gp, g_cost st !! p = Some gp ∧ gp ≤ Z.of_nat k) ∨
    (∃ m gm, m ∉ visited st ∧ g_cost st !! m = Some gm ∧
             gm + manhattan m p ≤ Z.of_nat k).
Proof.
  intros HJ HK Hstart. induction 1 as [Hs0 | k p q Hwalk IH Hadj Hpass Hsafe].
  - left. split; [done |]. exists 0. split; [| lia].
    by destruct HJ.
  - destruct IH as [(Hp & gp & Hgp & Hle) | (m & gm & Hm & Hgm & Hle)].
    + destruct Hadj as (d & Hd & ->).
      destruct (FireOpt.K_closed _ _ _ _ _ _ _ HK p gp Hp) with (d := d)
        as (gq & Hgq & Hleq); [done | done | done | done | |].
      { eapply fire_safe_mono; [exact Hsafe | lia]. }
      destruct (decide ((p.1 + d.1, p.2 + d.2) ∈ visited st)) as [Hq | Hq].
      * left. split; [done |]. exists gq. split; [done | lia].
      * right. exists (p.1 + d.1, p.2 + d.2), gq.
        rewrite manhattan_self. split; [done |]. split; [done | lia].
    + right. exists m, gm. split; [done |]. split; [done |].
      pose proof (manhattan_adjacent m p q Hadj). lia.
Qed.

(** The position popped, when new, has its final cost. *)
Lemma fire_popped_optimal st e h k n h' :
  J st → K None st → open_heap st = e :: h →
  pop_min e h = ((k, n), h') → n ∉ visited st →
  ∀ gn len, g_cost st !! n = Some gn → safe_walk g ft start len n →
            gn ≤ Z.of_nat len.
Proof.
  intros HJ HK Hheap Hpop Hn gn len Hgn Hwalk.
  destruct (decide (start ∈ visited st)) as [Hstart | Hstart].
  - destruct (fire_frontier st HJ HK Hstart len n Hwalk)
      as [(Hn' & _) | (m & gm & Hm & Hgm & Hle)]; [done |].
    assert (n ≠ start) as Hns by (intros ->; done).
    assert (m ≠ start) as Hms by (intros ->; done).
    pose proof (FireOpt.K_fresh _ _ _ _ _ _ _ HK m gm Hgm Hm Hms) as Hentry.
    assert ((k, n) ∈ open_heap st) as Hkn.
    { rewrite Hheap. apply (pop_min_elem _ _ _ _ _ Hpop). by left. }
    destruct (FireOpt.K_keys _ _ _ _ _ _ _ HK k n Hkn Hns)
      as (c & gn' & Hgn' & Hlec & Hcb & ->).
    rewrite Hgn in Hgn'. injection Hgn' as <-.
    destruct (Z_le_gt_dec gn (Z.of_nat len)) as [? | Hgt]; [done |].
    exfalso.
    destruct (J_cost _ _ _ _ _ _ HJ _ _ Hgm) as [[Hgm0 _] _].
    pose proof (J_known _ _ _ _ _ _ HJ) as Hknown.
    pose proof (size_known rows cols start (g_cost st) ltac:(nia) Hknown) as Hsize.
    assert (Qlt (num_val (key end_ mode gm m)) (num_val (key end_ mode c n))) as Hlt.
    { apply consistent; [apply Hknown; by eexists | apply Hknown; by eexists | lia ..]. }
    apply (entry_ltb_of_Qlt (key end_ mode gm m, m) (key end_ mode c n, n)) in Hlt.
    apply pop_min_spec in Hpop as [_ Hmin].
    rewrite Hheap in Hentry. rewrite (Hmin _ Hentry) in Hlt. done.
  - pose proof (FireOpt.K_first _ _ _ _ _ _ _ HK Hstart) as Hinit.
    assert ((k, n) ∈ open_heap st) as Hkn.
    { rewrite Hheap. apply (pop_min_elem _ _ _ _ _ Hpop). by left. }
    rewrite Hinit in Hkn, Hgn. unfold initial_state, heappush in *. simpl in *.
    apply list_elem_of_singleton in Hkn. injection Hkn as -> ->.
    rewrite lookup_singleton_eq in Hgn. injection Hgn as <-. lia.
Qed.

Lemma fire_K_pop_visited st e h k n h' :
  K None st → open_heap st = e :: h →
  pop_min e h = ((k, n), h') → n ∈ visited st →
  K None (set_heap st h').
Proof.
  intros [Hlow Hcl Hfresh Hkeys Hfirst] Hheap Hpop Hn.
  split; simpl; try done.
  - intros n' gn' Hgn' Hn' Hns.
    pose proof (Hfresh n' gn' Hgn' Hn' Hns) as Hentry.
    rewrite Hheap in Hentry. apply (pop_min_elem _ _ _ _ _ Hpop) in Hentry.
    apply elem_of_cons in Hentry as [[= _ ->] | ?]; done.
  - intros k' n' Hk'. apply Hkeys. rewrite Hheap.
    apply (pop_min_elem _ _ _ _ _ Hpop). by right.
  - intros Hstart. rewrite (Hfirst Hstart) in Hn. simpl in Hn.
    by apply elem_of_empty in Hn.
Qed.

Lemma fire_K_pop_new st e h k n h' :
  J st → K None st → open_heap st = e :: h →
  pop_min e h = ((k, n), h') → n ∉ visited st →
  K (Some n) (add_visited (set_heap st h') n).
Proof.
  intros HJ HK Hheap Hpop Hn.
  pose proof (fire_popped_optimal st e h k n h' HJ HK Hheap Hpop Hn) as Hopt.
  destruct HK as [Hlow Hcl Hfresh Hkeys Hfirst].
  assert ((k, n) ∈ open_heap st) as Hkn.
  { rewrite Hheap. apply (pop_min_elem _ _ _ _ _ Hpop). by left. }
  split; simpl.
  - intros n' gn' len [Hn' | ->%elem_of_singleton]%elem_of_union;
      [by apply Hlow | by apply Hopt].
  - intros p gp [Hp | ->%elem_of_singleton]%elem_of_union Hpend; [| done].
    by apply Hcl.
  - intros n' gn' Hgn' Hn' Hns.
    apply not_elem_of_union in Hn' as [Hn' Hne%not_elem_of_singleton].
    pose proof (Hfresh n' gn' Hgn' Hn' Hns) as Hentry.
    rewrite Hheap in Hentry. apply (pop_min_elem _ _ _ _ _ Hpop) in Hentry.
    apply elem_of_cons in Hentry as [[= _ ->] | ?]; done.
  - intros k' n' Hk'. apply Hkeys. rewrite Hheap.
    apply (pop_min_elem _ _ _ _ _ Hpop). by right.
  - intros Hstart.
    apply not_elem_of_union in Hstart as [Hstart Hne%not_elem_of_singleton].
    rewrite (Hfirst Hstart) in Hkn. unfold initial_state, heappush in Hkn.
    simpl in Hkn. apply list_elem_of_singleton in Hkn. by injection Hkn as _ ->.
Qed.

Lemma fire_relax_K st current gc d pre :
  d ∈ directions → J st → K (Some current) st →
  current ∈ visited st → start ∈ visited st →
  g_cost st !! current = Some gc →
  (∀ d', d' ∈ pre → FireOpt.relaxed g ft st current gc d') →
  ∃ st', Fire.relax g rows cols end_ ft mode current gc st d = Ret st' ∧
         J st' ∧ K (Some current) st' ∧
         g_cost st' !! current = Some gc ∧
         visited st' = visited st ∧
         (∀ d', d' ∈ pre ++ [d] → FireOpt.relaxed g ft st' current gc d').
Proof.
  intros Hd HJ HK Hcv Hsv Hcur Hpre. unfold Fire.relax, FireOpt.relaxed in *.
  remember (current.1 + d.1, current.2 + d.2) as n eqn:Hndef.
  assert (current.1 + d.1 = n.1) as -> by by subst.
  assert (current.2 + d.2 = n.2) as -> by by subst.
  assert (∀ d', d' ∈ pre ++ [d] → d' ∈ pre ∨ d' = d) as Hsplit.
  { intros d'. rewrite elem_of_app, list_elem_of_singleton. tauto. }
  destruct (in_bounds rows cols n.1 n.2) eqn:Hin; cbn [negb].
  2:{ exists st. do 5 (split; [done |]).
      intros d' [? | ->]%Hsplit; [by apply Hpre |].
      rewrite <- Hndef. intros (c & Hc & _). exfalso.
      assert (is_Some (at2 g n)) as Hn by by eexists.
      apply (at2_inside R C g n g_shape) in Hn.
      unfold in_bounds in Hin. lia. }
  destruct (grid_get2 g R C g_shape n.1 n.2 Hin) as (c & Hget & Hc).
  rewrite Hget. cbn. rewrite <- surjective_pairing in Hc.
  destruct (is_wall c) eqn:Hwall.
  { exists st. do 5 (split; [done |]).
    intros d' [? | ->]%Hsplit; [by apply Hpre |].
    rewrite <- Hndef. intros (c' & Hc' & Hw). congruence. }
  destruct (matrix_get2 R C ft n.1 n.2 ft_shape Hin) as (fv & Hfget & _).
  rewrite Hfget. cbn.
  destruct (ftime_le fv (Fin (gc + 1))) eqn:Hfire.
  { exists st. do 5 (split; [done |]).
    intros d' [? | ->]%Hsplit; [by apply Hpre |].
    rewrite <- Hndef. intros _ Hsafe.
    by destruct (fire_safe_unsafe ft n (gc + 1) fv Hfget Hfire). }
  destruct (below (gc + 1) (g_cost st !! n)) eqn:Hbelow.
  2:{ exists st. do 5 (split; [done |]).
      intros d' [? | ->]%Hsplit; [by apply Hpre |].
      rewrite <- Hndef. intros _ _.
      destruct (g_cost st !! n) as [go|]; [| done].
      exists go. split; [done |]. simpl in Hbelow. lia. }
  assert (adjacent current n) as Hadj by (exists d; by subst).
  assert (passable g n) as Hpass by by exists c.
  destruct (J_cost _ _ _ _ _ _ HJ _ _ Hcur) as [[Hgc0 Hgcs] Hwalk].
  assert (size (g_cost st) ≤ size (<[n := (gc + 1)%Z]> (g_cost st)))%nat as Hgrow.
  { rewrite map_size_insert. destruct (g_cost st !! n); simpl; lia. }
  assert (safe_walk g ft start (S (Z.to_nat gc)) n) as Hwalkn.
  { eapply safe_step; [exact Hwalk | done | done |].
    replace (Z.of_nat (S (Z.to_nat gc))) with (gc + 1) by lia.
    by eapply fire_safe_intro. }
  destruct (J_improve g rows cols start end_ mode _ st current gc n HJ Hcur Hbelow)
    as (HJ' & Hns & Hnc); [done | done | done | |].
  { unfold FireOpt.walked.
    by replace (Z.to_nat (gc + 1)) with (S (Z.to_nat gc)) by lia. }
  destruct HK as [Hlow Hcl Hfresh Hkeys Hfirst].
  assert (n ∉ visited st) as Hnv.
  { intros Hnv. destruct (J_visited _ _ _ _ _ _ HJ n Hnv) as [[go Hgo] _].
    pose proof (Hlow n go _ Hnv Hgo Hwalkn). rewrite Hgo in Hbelow.
    simpl in Hbelow. lia. }
  assert (∀ x gx, g_cost st !! x = Some gx →
            ∃ gx', <[n := gc + 1]> (g_cost st) !! x = Some gx' ∧ gx' ≤ gx) as Hdec.
  { intros x gx Hx. destruct (decide (x = n)) as [-> | Hxn].
    - exists (gc + 1). rewrite lookup_insert_eq. split; [done |].
      rewrite Hx in Hbelow. simpl in Hbelow. lia.
    - exists gx. rewrite lookup_insert_ne by done. split; [done | lia]. }
  eexists. split; [done |]. split; [done |].
  unfold improve, heappush. split; [split; simpl |].
  - intros n' gn' len Hn' Hgn'. apply Hlow; [done |].
    rewrite lookup_insert_ne in Hgn'; [done |]. by intros ->.
  - intros p gp Hp Hpend Hgp d' Hd' Hpass' Hsafe'.
    rewrite lookup_insert_ne in Hgp by (by intros ->).
    destruct (Hcl p gp Hp Hpend Hgp d' Hd' Hpass' Hsafe') as (gq & Hgq & Hle).
    destruct (Hdec _ _ Hgq) as (gq' & Hgq' & Hle').
    exists gq'. split; [done | lia].
  - intros n' gn' Hgn' Hn' Hns'.
    destruct (decide (n' = n)) as [-> | Hne].
    + rewrite lookup_insert_eq in Hgn'. injection Hgn' as <-. by left.
    + rewrite lookup_insert_ne in Hgn' by done. right. by apply Hfresh.
  - intros k' n' [[= -> ->] | Hk']%elem_of_cons Hns'.
    + exists (gc + 1), (gc + 1). rewrite lookup_insert_eq.
      split; [done |]. split; [lia |]. split; [lia | done].
    + destruct (Hkeys k' n' Hk' Hns') as (c' & gn' & Hgn' & Hle & Hcb & ->).
      destruct (Hdec _ _ Hgn') as (gx' & Hgx' & Hle').
      exists c', gx'. split; [done |]. split; [lia |]. split; [lia | done].
  - done.
  - simpl. split; [by rewrite lookup_insert_ne |]. split; [done |].
    intros d' [Hd' | ->]%Hsplit.
    + intros Hpass' Hsafe'. destruct (Hpre d' Hd' Hpass' Hsafe') as (gq & Hgq & Hle).
      destruct (Hdec _ _ Hgq) as (gq' & Hgq' & Hle').
      exists gq'. split; [done | lia].
    + rewrite <- Hndef. intros _ _. exists (gc + 1).
      rewrite lookup_insert_eq. split; [done | lia].
Qed.

Lemma fire_body_K self st e h :
  J st → K None st → open_heap st = e :: h →
  match Fire.body g rows cols end_ ft mode self st e h with
  | Continue _ st' => J st' ∧ K None st'
  | Stop (Ret st') _ => J st' ∧ FireOpt.reaches_end g ft start end_ st'
  | Stop _ _ => False
  end.
Proof.
  intros HJ HK Hheap. unfold Fire.body.
  destruct (pop_min e h) as [[k current] h'] eqn:Hpop.
  assert ((k, current) ∈ open_heap st) as Hcur.
  { rewrite Hheap. apply (pop_min_elem _ _ _ _ _ Hpop). by left. }
  destruct (J_heap _ _ _ _ _ _ HJ _ Hcur) as [[t Ht] HU]. simpl in Ht, HU.
  assert (J (set_heap st h')) as HJ1.
  { apply J_set_heap; [done |]. intros x Hx. rewrite Hheap.
    apply (pop_min_elem _ _ _ _ _ Hpop). by right. }
  case_decide as Hvis; [split; [done | by eapply fire_K_pop_visited] |].
  simpl in Hvis.
  pose proof (fire_K_pop_new st e h k current h' HJ HK Hheap Hpop Hvis) as HK2.
  assert (J (add_visited (set_heap st h') current)) as HJ2.
  { apply J_add_visited; [done | by eexists | done]. }
  cbn [add_visited set_heap g_cost]. rewrite Ht.
  destruct (J_cost _ _ _ _ _ _ HJ _ _ Ht) as [[Ht0 _] Hwalk].
  apply safe_walk_safe in Hwalk as (fv & Hfv & Hgt).
  rewrite Z2Nat.id in Hgt by done.
  rewrite Hfv, ftime_le_gt, Hgt. cbn [negb].
  case_decide as Hend.
  { subst current. split; [done |]. intros len Hlen. exists t. split; [done |].
    apply (FireOpt.K_lower _ _ _ _ _ _ _ HK2 end_ t len); [| done | done].
    simpl. set_solver. }
  assert (start ∈ visited st ∪ {[current]}) as Hsv.
  { destruct (decide (start ∈ visited st)) as [? | Hns]; [set_solver |].
    pose proof (FireOpt.K_first _ _ _ _ _ _ _ HK Hns) as Hinit.
    rewrite Hinit in Hcur.
    unfold initial_state, heappush in Hcur. simpl in Hcur.
    apply list_elem_of_singleton in Hcur. injection Hcur as _ ->. set_solver. }
  pose proof (foldM_list_post
    (λ pre s, J s ∧ K (Some current) s ∧ g_cost s !! current = Some t ∧
              visited s = visited st ∪ {[current]} ∧
              (∀ d', d' ∈ pre → FireOpt.relaxed g ft s current t d'))
    (λ d, d ∈ directions) (λ _, False)
    (Fire.relax g rows cols end_ ft mode current t)) as Hfold.
  specialize (λ Hf, Hfold Hf directions []
    (add_visited (set_heap st h') current)) as Hfold.
  assert (match foldM (Fire.relax g rows cols end_ ft mode current t) directions
                  (add_visited (set_heap st h') current) with
          | Ret s' => J s' ∧ K (Some current) s' ∧ g_cost s' !! current = Some t ∧
                      visited s' = visited st ∪ {[current]} ∧
                      (∀ d', d' ∈ [] ++ directions →
                             FireOpt.relaxed g ft s' current t d')
          | Raise _ => False
          | OutOfFuel => False
          end) as Hres.
  { apply Hfold.
    - intros pre d s Hd (HJs & HKs & Hs & Hviss & Hpre).
      destruct (fire_relax_K s current t d pre Hd HJs HKs)
        as (s' & -> & HJs' & HKs' & Hs' & Hv' & Hpre');
        [rewrite Hviss; set_solver | by rewrite Hviss | done | done |].
      split; [done |]. split; [done |]. split; [done |].
      split; [congruence | done].
    - by apply Forall_forall.
    - split; [done |]. split; [done |]. split; [done |]. split; [done |].
      by intros d' ?%elem_of_nil. }
  destruct (foldM _ directions _) as [st3 | e' |]; [| done | done].
  destruct Hres as (HJ3 & [Hlow Hcl Hfresh Hkeys Hfirst] & Ht3 & Hvis3 & Hall).
  split; [done |]. split; try done.
  intros p gp Hp _ Hgp d Hd. destruct (decide (p = current)) as [-> | Hne].
  - rewrite Ht3 in Hgp. injection Hgp as <-. by apply Hall.
  - apply Hcl; [done | | done | done]. by intros [= ->].
Qed.

Lemma fire_K_initial : K None (initial_state start end_ mode).
Proof.
  split; simpl; try done.
  - intros n gn [<- _]%lookup_singleton_Some. done.
  - intros k n [= -> ->]%list_elem_of_singleton. done.
Qed.

Lemma fire_K_exit st :
  J st → K None st → open_heap st = [] → FireOpt.reaches_end g ft start end_ st.
Proof.
  intros HJ HK Hheap len Hwalk.
  assert (start ∈ visited st) as Hstart.
  { destruct (decide (start ∈ visited st)) as [? | Hns]; [done |].
    pose proof (FireOpt.K_first _ _ _ _ _ _ _ HK Hns) as Hinit.
    by rewrite Hinit in Hheap. }
  destruct (fire_frontier st HJ HK Hstart len end_ Hwalk)
    as [(_ & ge & Hge & Hle) | (m & gm & Hm & Hgm & _)]; [by exists ge |].
  assert (m ≠ start) as Hms by (intros ->; done).
  pose proof (FireOpt.K_fresh _ _ _ _ _ _ _ HK m gm Hgm Hm Hms) as Hentry.
  rewrite Hheap in Hentry. by apply elem_of_nil in Hentry.
Qed.

(** The loop of the hazard-aware search, when the start is safe at time
    0: it returns, in a state where the end, if it can be reached safely,
    has the length of a shortest safe walk as cost. *)
Lemma fire_loop_optimal self :
  fire_safe ft start 0 →
  match (while_open (Fire.body g rows cols end_ ft mode)
           (search_fuel rows cols) self (initial_state start end_ mode)).1 with
  | Ret st => J st ∧ FireOpt.reaches_end g ft start end_ st
  | _ => False
  end.
Proof.
  intros Hsafe.
  apply (while_open_spec (Fire.body g rows cols end_ ft mode)
           (λ st, J st ∧ K None st)
           (λ r, match r with
                 | Ret st => J st ∧ FireOpt.reaches_end g ft start end_ st
                 | _ => False
                 end)
           (measure rows cols start)).
  - intros self0 st e h [HJ HK] Hheap.
    assert (SearchInv.J g rows cols start (fire_safe ft) st) as HJs.
    { eapply J_mono; [| exact HJ]. intros n c Hw.
      unfold FireOpt.walked in Hw. apply safe_walk_safe in Hw.
      eapply fire_safe_mono; [exact Hw | lia]. }
    pose proof (fire_body_spec g rows cols start end_ ft mode self0 st e h HJs Hheap)
      as HbJ.
    pose proof (fire_body_K self0 st e h HJ HK Hheap) as HbK.
    destruct (Fire.body _ _ _ _ _ _ _ _ _ _) as [? ? | [? | ? |] ?]; [| done ..].
    destruct HbJ, HbK. done.
  - intros st [HJ HK] Hheap. split; [done |]. by apply fire_K_exit.
  - split; [| apply fire_K_initial]. apply J_initial. by constructor.
  - apply measure_initial.
Qed.

End FireOptimal.

(** ** Loops that agree, loops that return *)

Lemma foldM_ext {A St : Type} (f f' : St → A → outcome St) (l : list A) :
  (∀ s a, f s a = f' s a) → ∀ s, foldM f l s = foldM f' l s.
Proof.
  intros Hff. induction l as [|a l IH]; intros s; simpl; [done |].
  rewrite Hff. destruct (f' s a); simpl; [apply IH | done | done].
Qed.

Lemma foldM_total {A St : Type} (f : St → A → outcome St) (l : list A) :
  (∀ s a, ∃ s', f s a = Ret s') → ∀ s, ∃ s', foldM f l s = Ret s'.
Proof.
  intros Hf. induction l as [|a l IH]; intros s; simpl; [by eexists |].
  destruct (Hf s a) as [s' ->]. simpl. apply IH.
Qed.

(** ** Without fire, the hazard-aware search is the hazard-blind one *)

Section Fireless.
Import SearchInv.
Context `{Float64}.
Variables (g : grid) (R C : nat) (start end_ : pos).
Variables (ft : fire_map) (mode : string).
Hypothesis ft_shape : shape R C ft.
Hypothesis ft_fireless : fireless ft.
Hypothesis start_inside : in_bounds (Z.of_nat R) (Z.of_nat C) start.1 start.2 = true.

Local Abbreviation rows := (Z.of_nat R).
Local Abbreviation cols := (Z.of_nat C).
Local Abbreviation J := (J g rows cols start (walked g start)).

Lemma fireless_get2 x y :
  in_bounds rows cols x y = true → get2 ft x y = Ret INF.
Proof.
  intros Hin. destruct (matrix_get2 R C ft x y ft_shape Hin) as (v & -> & Hv).
  by rewrite (ft_fireless _ _ Hv).
Qed.

Lemma fireless_relax current t st d :
  Fire.relax g rows cols end_ ft mode current t st d
  = Plain.relax g rows cols end_ mode current t st d.
Proof.
  unfold Fire.relax, Plain.relax.
  destruct (in_bounds rows cols (current.1 + d.1) (current.2 + d.2)) eqn:Hin;
    cbn [negb]; [| done].
  destruct (get2 g _ _) as [c | e |]; simpl; [| done | done].
  destruct (is_wall c); [done |].
  by rewrite (fireless_get2 _ _ Hin).
Qed.

Lemma universe_in_bounds (p : pos) :
  p ∈ universe rows cols start → in_bounds rows cols p.1 p.2 = true.
Proof.
  intros [-> | Hp]%universe_inside; [done | | lia | lia].
  unfold in_bounds. lia.
Qed.

Lemma fireless_body self st e h :
  J st → open_heap st = e :: h →
  Fire.body g rows cols end_ ft mode self st e h
  = Plain.body g rows cols end_ mode self st e h.
Proof.
  intros HJ Hheap. unfold Fire.body, Plain.body.
  destruct (pop_min e h) as [[k current] h'] eqn:Hpop.
  assert ((k, current) ∈ open_heap st) as Hcur.
  { rewrite Hheap. apply (pop_min_elem _ _ _ _ _ Hpop). by left. }
  destruct (J_heap _ _ _ _ _ _ HJ _ Hcur) as [[t Ht] HU]. simpl in Ht, HU.
  case_decide; [done |].
  cbn [add_visited set_heap g_cost]. rewrite Ht.
  rewrite (fireless_get2 _ _ (universe_in_bounds _ HU)). cbn [ftime_le].
  case_decide; [done |].
  by rewrite (foldM_ext _ _ directions (fireless_relax current t)).
Qed.

Lemma fireless_loop fuel : ∀ self st,
  J st →
  while_open (Fire.body g rows cols end_ ft mode) fuel self st
  = while_open (Plain.body g rows cols end_ mode) fuel self st.
Proof.
  induction fuel as [|fuel IH]; intros self st HJ; [done |].
  simpl. destruct (open_heap st) as [|e h] eqn:Hheap; [done |].
  rewrite (fireless_body self st e h HJ Hheap).
  pose proof (plain_body_spec g rows cols start end_ mode self st e h HJ Hheap) as Hb.
  destruct (Plain.body _ _ _ _ _ _ _ _ _) as [self' st' | r self']; [| done].
  apply IH. by destruct Hb.
Qed.

End Fireless.

(** ** The searches on a rectangular grid *)

Section Returns.
Import SearchInv.
Context `{Float64}.
Variables (g : grid) (R C : nat) (start end_ : pos) (mode : string).
Hypothesis g_shape : shape R C g.

Local Abbreviation rows := (Z.of_nat R).
Local Abbreviation cols := (Z.of_nat C).

Lemma plain_relax_total current t st d :
  ∃ st', Plain.relax g rows cols end_ mode current t st d = Ret st'.
Proof.
  unfold Plain.relax.
  destruct (in_bounds rows cols _ _) eqn:Hin; cbn [negb]; [| by eexists].
  destruct (grid_get2 g R C g_shape _ _ Hin) as (c & -> & _). cbn.
  destruct (is_wall c); [by eexists |].
  destruct (below _ _); by eexists.
Qed.

Lemma plain_body_total (P : pos → Z → Prop) self st e h :
  J g rows cols start P st → open_heap st = e :: h →
  match Plain.body g rows cols end_ mode self st e h with
  | Stop (Raise _) _ => False
  | _ => True
  end.
Proof.
  intros HJ Hheap. unfold Plain.body.
  destruct (pop_min e h) as [[k current] h'] eqn:Hpop.
  assert ((k, current) ∈ open_heap st) as Hcur.
  { rewrite Hheap. apply (pop_min_elem _ _ _ _ _ Hpop). by left. }
  destruct (J_heap _ _ _ _ _ _ HJ _ Hcur) as [[t Ht] HU]. simpl in Ht.
  case_decide; [done |]. case_decide; [done |].
  cbn [add_visited set_heap g_cost]. rewrite Ht.
  by destruct (foldM_total _ directions (plain_relax_total current t)
                 (add_visited (set_heap st h') current)) as [st' ->].
Qed.

Variable ft : fire_map.
Hypothesis ft_shape : shape R C ft.

Lemma fire_relax_total current t st d :
  ∃ st', Fire.relax g rows cols end_ ft mode current t st d = Ret st'.
Proof.
  unfold Fire.relax.
  destruct (in_bounds rows cols _ _) eqn:Hin; cbn [negb]; [| by eexists].
  destruct (grid_get2 g R C g_shape _ _ Hin) as (c & -> & _). cbn.
  destruct (is_wall c); [by eexists |].
  destruct (matrix_get2 R C ft _ _ ft_shape Hin) as (fv & -> & _). cbn.
  destruct (ftime_le _ _); [by eexists |].
  destruct (below _ _); by eexists.
Qed.

Lemma fire_body_total self st e h :
  J g rows cols start (fire_safe ft) st → open_heap st = e :: h →
  match Fire.body g rows cols end_ ft mode self st e h with
  | Stop (Raise _) _ => False
  | _ => True
  end.
Proof.
  intros HJ Hheap. unfold Fire.body.
  destruct (pop_min e h) as [[k current] h'] eqn:Hpop.
  assert ((k, current) ∈ open_heap st) as Hcur.
  { rewrite Hheap. apply (pop_min_elem _ _ _ _ _ Hpop). by left. }
  destruct (J_heap _ _ _ _ _ _ HJ _ Hcur) as [[t Ht] HU]. simpl in Ht.
  case_decide; [done |].
  cbn [add_visited set_heap g_cost]. rewrite Ht.
  destruct (J_cost _ _ _ _ _ _ HJ _ _ Ht) as [_ (fv & -> & Hgt)].
  destruct (ftime_le fv (Fin t)); [done |].
  case_decide; [done |].
  by destruct (foldM_total _ directions (fire_relax_total current t)
                 (add_visited (set_heap st h') current)) as [st' ->].
Qed.

End Returns.

(** ** The counter of expanded positions *)

Section Counter.
Import SearchInv.
Context `{Float64}.
Variables (g : grid) (rows cols : Z) (start end_ : pos) (mode : string).

Lemma improve_previous st current n c x y :
  previous (improve end_ mode st current n c) !! x = Some (Some y) →
  previous st !! x = Some (Some y) ∨ y = current.
Proof.
  unfold improve. simpl. destruct (decide (x = n)) as [-> | Hne].
  - rewrite lookup_insert_eq. intros [= <-]. by right.
  - rewrite lookup_insert_ne by done. by left.
Qed.

Lemma plain_relax_previous current t st d :
  match Plain.relax g rows cols end_ mode current t st d with
  | Ret st' => visited st' = visited st ∧
               ∀ x y, previous st' !! x = Some (Some y) →
                      previous st !! x = Some (Some y) ∨ y = current
  | _ => True
  end.
Proof.
  unfold Plain.relax.
  destruct (negb _); [by auto |].
  destruct (get2 g _ _) as [c | |]; simpl; [| done | done].
  destruct (is_wall c); [by auto |].
  destruct (below _ _); [| by auto].
  split; [done |]. intros x y. apply improve_previous.
Qed.

Lemma fire_relax_previous ft current t st d :
  match Fire.relax g rows cols end_ ft mode current t st d with
  | Ret st' => visited st' = visited st ∧
               ∀ x y, previous st' !! x = Some (Some y) →
                      previous st !! x = Some (Some y) ∨ y = current
  | _ => True
  end.
Proof.
  unfold Fire.relax.
  destruct (negb _); [by auto |].
  destruct (get2 g _ _) as [c | |]; simpl; [| done | done].
  destruct (is_wall c); [by auto |].
  destruct (get2 ft _ _) as [fv | |]; simpl; [| done | done].
  destruct (ftime_le _ _); [by auto |].
  destruct (below _ _); [| by auto].
  split; [done |]. intros x y. apply improve_previous.
Qed.

(** The loop over the directions keeps the visited set and records the
    current position only as a predecessor. *)
Lemma relax_loop_previous (relax : sstate → Z * Z → outcome sstate) current :
  (∀ st d, match relax st d with
           | Ret st' => visited st' = visited st ∧
                        ∀ x y, previous st' !! x = Some (Some y) →
                               previous st !! x = Some (Some y) ∨ y = current
           | _ => True
           end) →
  ∀ l st, match foldM relax l st with
          | Ret st' => visited st' = visited st ∧
                       ∀ x y, previous st' !! x = Some (Some y) →
                              previous st !! x = Some (Some y) ∨ y = current
          | _ => True
          end.
Proof.
  intros Hrelax. induction l as [|d l IH]; intros st; simpl; [by auto |].
  specialize (Hrelax st d).
  destruct (relax st d) as [st1 | |]; simpl; [| done | done].
  destruct Hrelax as [Hv1 Hp1]. specialize (IH st1).
  destruct (foldM relax l st1) as [st2 | |]; [| done | done].
  destruct IH as [Hv2 Hp2]. split; [congruence |].
  intros x y Hxy. destruct (Hp2 x y Hxy) as [? | ?]; [by apply Hp1 | by right].
Qed.

Lemma counting_expand self st current st' :
  counting end_ self st → current ∉ visited st → current ≠ end_ →
  visited st' = visited st ∪ {[current]} →
  (∀ x y, previous st' !! x = Some (Some y) →
          previous st !! x = Some (Some y) ∨ y = current) →
  counting end_ {| expanded_nodes := expanded_nodes self + 1 |} st'.
Proof.
  intros [Hend Hnodes Hprev] Hcur Hne Hvis Hp. split.
  - rewrite Hvis. set_solver.
  - simpl. rewrite Hvis, size_union, size_singleton by set_solver. lia.
  - intros x y Hxy. rewrite Hvis.
    destruct (Hp x y Hxy) as [Hold | ->]; [| set_solver].
    destruct (Hprev x y Hold). set_solver.
Qed.

Lemma counting_break self st :
  counting end_ self st → counted end_ self (add_visited st end_).
Proof.
  intros [Hend Hnodes Hprev]. split; simpl.
  - rewrite Hnodes. do 2 f_equal. set_solver.
  - intros x y Hxy. destruct (Hprev x y Hxy). set_solver.
Qed.

Lemma counting_exit self st :
  counting end_ self st → counted end_ self st.
Proof.
  intros [Hend Hnodes Hprev]. split; [| done].
  rewrite Hnodes. do 2 f_equal. set_solver.
Qed.

Lemma counting_initial :
  counting end_ {| expanded_nodes := 0 |} (initial_state start end_ mode).
Proof.
  split.
  - simpl. set_solver.
  - unfold initial_state. cbn [visited expanded_nodes]. by rewrite size_empty.
  - simpl. intros n c [_ [=]]%lookup_singleton_Some.
Qed.

Lemma plain_body_counting self st e h :
  counting end_ self st → open_heap st = e :: h →
  match Plain.body g rows cols end_ mode self st e h with
  | Continue self' st' => counting end_ self' st'
  | Stop (Ret st') self' => counted end_ self' st'
  | Stop _ _ => True
  end.
Proof.
  intros Hc Hheap. unfold Plain.body.
  destruct (pop_min e h) as [[k current] h'] eqn:Hpop.
  case_decide as Hvis; [by destruct Hc |]. simpl in Hvis.
  case_decide as Hend.
  { subst current. apply (counting_break self (set_heap st h')). by destruct Hc. }
  cbn [add_visited set_heap g_cost].
  destruct (g_cost st !! current) as [t|]; [| done].
  pose proof (relax_loop_previous _ current (plain_relax_previous current t)
                directions (add_visited (set_heap st h') current)) as Hfold.
  destruct (foldM _ directions _) as [st3 | |]; [| done | done].
  destruct Hfold as [Hv3 Hp3]. by apply (counting_expand self st current).
Qed.

Lemma fire_body_counting ft self st e h :
  J g rows cols start (fire_safe ft) st →
  counting end_ self st → open_heap st = e :: h →
  match Fire.body g rows cols end_ ft mode self st e h with
  | Continue self' st' => counting end_ self' st'
  | Stop (Ret st') self' => counted end_ self' st'
  | Stop _ _ => True
  end.
Proof.
  intros HJ Hc Hheap. unfold Fire.body.
  destruct (pop_min e h) as [[k current] h'] eqn:Hpop.
  case_decide as Hvis; [by destruct Hc |]. simpl in Hvis.
  cbn [add_visited set_heap g_cost].
  destruct (g_cost st !! current) as [t|] eqn:Ht; [| done].
  destruct (J_cost _ _ _ _ _ _ HJ _ _ Ht) as [_ (fv & -> & Hgt)].
  rewrite ftime_le_gt, Hgt. cbn [negb].
  case_decide as Hend.
  { subst current. apply (counting_break self (set_heap st h')). by destruct Hc. }
  pose proof (relax_loop_previous _ current (fire_relax_previous ft current t)
                directions (add_visited (set_heap st h') current)) as Hfold.
  destruct (foldM _ directions _) as [st3 | |]; [| done | done].
  destruct Hfold as [Hv3 Hp3]. by apply (counting_expand self st current).
Qed.

End Counter.

(** ** The predecessor chain *)

Section Chain.
Import SearchInv.
Variables (g : grid) (rows cols : Z) (start end_ : pos).
Variable P : pos → Z → Prop.

Local Abbreviation J := (J g rows cols start P).

(** The chain of predecessors of a recorded position lists distinct
    positions, each the recorded predecessor of the next. *)
Lemma J_chain st : J st → ∀ (b : nat) n gn acc fuel,
  g_cost st !! n = Some gn → gn ≤ Z.of_nat b → (b < fuel)%nat →
  ∃ l, reconstruct fuel (previous st) (Some n) acc = Ret (acc ++ rev l) ∧
       NoDup l ∧ last l = Some n ∧ head l = Some start ∧
       (∀ x, x ∈ l → ∃ gx, g_cost st !! x = Some gx ∧ gx ≤ gn) ∧
       (∀ i x y, l !! i = Some x → l !! S i = Some y →
                 previous st !! y = Some (Some x)).
Proof.
  intros [Hsg Hsp Hdom Hprev Hcost Hknown Hheap Hvis].
  assert (∀ n gn acc fuel, g_cost st !! n = Some gn → n = start →
            (0 < fuel)%nat →
            ∃ l, reconstruct fuel (previous st) (Some n) acc = Ret (acc ++ rev l) ∧
                 NoDup l ∧ last l = Some n ∧ head l = Some start ∧
                 (∀ x, x ∈ l → ∃ gx, g_cost st !! x = Some gx ∧ gx ≤ gn) ∧
                 (∀ i x y, l !! i = Some x → l !! S i = Some y →
                           previous st !! y = Some (Some x))) as Hbase.
  { intros n gn acc fuel Hn -> Hfuel. exists [start].
    destruct fuel as [|fuel]; [lia |]. simpl.
    rewrite Hsp, reconstruct_None.
    split; [done |]. split; [apply NoDup_singleton |].
    split; [done |]. split; [done |]. split.
    - intros x ->%list_elem_of_singleton. exists gn. split; [done | lia].
    - intros [|i] x y; simpl; [| done]. done. }
  induction b as [|b IH]; intros n gn acc fuel Hn Hle Hfuel.
  - destruct (Hcost _ _ Hn) as [[Hgn0 _] _].
    destruct (decide (n = start)) as [-> | Hns]; [apply (Hbase _ gn); [done .. | lia] |].
    destruct (Hprev _ _ Hn Hns) as (c & gc & _ & Hgc & ? & _).
    destruct (Hcost _ _ Hgc) as [[? _] _]. lia.
  - destruct (decide (n = start)) as [-> | Hns]; [apply (Hbase _ gn); [done .. | lia] |].
    destruct (Hprev _ _ Hn Hns) as (c & gc & Hpc & Hgc & Hlec & Hadj & Hpass).
    destruct fuel as [|fuel]; [lia |]. simpl. rewrite Hpc.
    destruct (IH c gc (acc ++ [n]) fuel Hgc)
      as (l & -> & Hnd & Hlast & Hhead & Hcosts & Hchain); [lia | lia |].
    exists (l ++ [n]). split; [| split; [| split; [| split; [| split]]]].
    + by rewrite rev_app_distr, <- app_assoc.
    + apply NoDup_app. split; [done |]. split; [| apply NoDup_singleton].
      intros x Hx ->%list_elem_of_singleton.
      destruct (Hcosts _ Hx) as (gx & Hgx & Hlex).
      rewrite Hn in Hgx. injection Hgx as <-. lia.
    + by rewrite last_snoc.
    + destruct l; [done | done].
    + intros x [Hx | ->%list_elem_of_singleton]%elem_of_app.
      * destruct (Hcosts _ Hx) as (gx & Hgx & Hlex). exists gx. split; [done | lia].
      * exists gn. split; [done | lia].
    + intros i x y Hx Hy.
      apply lookup_app_Some in Hy as [Hy | [Hi Hy]].
      * apply (Hchain i x y); [| done].
        rewrite lookup_app_l in Hx; [done |].
        apply lookup_lt_Some in Hy. lia.
      * apply list_lookup_singleton_Some in Hy as [Hi' <-].
        assert (i = (length l - 1)%nat) as -> by lia.
        rewrite lookup_app_l in Hx by (destruct l; simpl in *; [done | lia]).
        replace (length l - 1)%nat with (pred (length l)) in Hx by lia.
        rewrite <- last_lookup in Hx. rewrite Hlast in Hx. by injection Hx as <-.
Qed.

(** What [finish] returns, in terms of the chain. *)
Lemma J_finish_chain st path :
  J st → finish st end_ = Ret path → path ≠ [] →
  NoDup path ∧ last path = Some end_ ∧ head path = Some start ∧
  (∀ i x y, path !! i = Some x → path !! S i = Some y →
            previous st !! y = Some (Some x)).
Proof.
  intros HJ Hfin Hne. unfold finish in Hfin.
  pose proof (J_dom _ _ _ _ _ _ HJ) as Hdom.
  destruct (previous st !! end_) as [o|] eqn:Hprev;
    [| injection Hfin as <-; done].
  assert (is_Some (g_cost st !! end_)) as [ge Hge].
  { apply elem_of_dom. rewrite <- Hdom. apply elem_of_dom. by eexists. }
  destruct (J_cost _ _ _ _ _ _ HJ _ _ Hge) as [[Hge0 Hges] _].
  destruct (J_chain st HJ (Z.to_nat ge) end_ ge [] (S (size (previous st))) Hge)
    as (l & Hrec & Hnd & Hlast & Hhead & _ & Hchain).
  - lia.
  - rewrite <- (size_dom (previous st)), Hdom, size_dom. lia.
  - rewrite Hrec in Hfin. simpl in Hfin. rewrite rev_involutive in Hfin.
    injection Hfin as <-. done.
Qed.

End Chain.

Lemma route_adjacent (g : grid) (s : pos) l t :
  route g s l t →
  ∀ i p q, l !! i = Some p → l !! S i = Some q → adjacent p q ∧ passable g q.
Proof.
  induction 1 as [| l p q Hroute IH Hadj Hpass]; intros i x y Hx Hy.
  - by destruct i.
  - pose proof (walk_route g s l p Hroute) as [_ Hne].
    assert (last l = Some p) as Hlast.
    { clear -Hroute. induction Hroute; [done | by rewrite last_snoc]. }
    apply lookup_app_Some in Hy as [Hy | [Hi Hy]].
    + apply (IH i x y); [| done].
      rewrite lookup_app_l in Hx; [done |]. apply lookup_lt_Some in Hy. lia.
    + apply list_lookup_singleton_Some in Hy as [Hi' <-].
      assert (i = (length l - 1)%nat) as -> by lia.
      rewrite lookup_app_l in Hx by (destruct l; simpl in *; [done | lia]).
      replace (length l - 1)%nat with (pred (length l)) in Hx by lia.
      rewrite <- last_lookup, Hlast in Hx. by injection Hx as <-.
Qed.

(** A list without repetition whose cells but the last lie in a set. *)
Lemma NoDup_size_bound (l : list pos) (X : gset pos) :
  NoDup l →
  (∀ i x y, l !! i = Some x → l !! S i = Some y → x ∈ X) →
  (length l ≤ S (size X))%nat.
Proof.
  intros Hnd Hin. destruct (decide (l = [])) as [-> | Hne]; [simpl; lia |].
  destruct (exists_last Hne) as (l0 & z & ->).
  apply NoDup_app in Hnd as (Hnd0 & _ & _).
  rewrite length_app. simpl.
  assert (list_to_set l0 ⊆ X) as Hsub.
  { intros x Hx%elem_of_list_to_set.
    apply list_elem_of_lookup in Hx as [i Hi].
    pose proof (lookup_lt_Some _ _ _ Hi) as Hlt.
    assert (is_Some ((l0 ++ [z]) !! S i)) as [y Hy].
    { apply lookup_lt_is_Some. rewrite length_app. simpl. lia. }
    apply (Hin i x y); [| done]. by rewrite lookup_app_l. }
  apply subseteq_size in Hsub. rewrite size_list_to_set in Hsub by done. lia.
Qed.

(** ** The state a search leaves behind *)

Section SearchState.
Import SearchInv.
Context `{Float64}.
Variables (g : grid) (rows cols : Z) (start end_ : pos) (mode : string).

(** The loop of the hazard-blind search, on any grid. *)
Lemma plain_loop_state :
  match while_open (Plain.body g rows cols end_ mode) (search_fuel rows cols)
          {| expanded_nodes := 0 |} (initial_state start end_ mode) with
  | (Ret st, self') => J g rows cols start (walked g start) st ∧
                       counted end_ self' st
  | (Raise _, _) => True
  | (OutOfFuel, _) => False
  end.
Proof.
  pose proof (while_open_inv (Plain.body g rows cols end_ mode)
    (λ self st, J g rows cols start (walked g start) st ∧ counting end_ self st)
    (λ r self', match r with
                | Ret st => J g rows cols start (walked g start) st ∧
                            counted end_ self' st
                | Raise _ => True
                | OutOfFuel => False
                end)
    (measure rows cols start)) as Hloop.
  specialize (λ Hb He, Hloop Hb He (search_fuel rows cols)
    {| expanded_nodes := 0 |} (initial_state start end_ mode)) as Hloop.
  destruct (while_open _ _ _ _) as [r self']. simpl in Hloop.
  destruct r as [st | e |]; [| done |]; apply Hloop.
  all: try (split; [apply J_initial; constructor | apply counting_initial]).
  all: try apply measure_initial.
  all: try (intros self0 st0 [HJ Hc] Hheap; split; [done | by apply counting_exit]).
  all: intros self0 st0 e0 h0 [HJ Hc] Hheap;
    pose proof (plain_body_spec g rows cols start end_ mode self0 st0 e0 h0 HJ Hheap) as Hb;
    pose proof (plain_body_counting g rows cols end_ mode self0 st0 e0 h0 Hc Hheap) as Hb';
    destruct (Plain.body _ _ _ _ _ _ _ _ _) as [? ? | [? | ? |] ?]; try done;
    destruct Hb; done.
Qed.

(** The loop of the hazard-aware search, on any grid and fire matrix. *)
Lemma fire_loop_state ft :
  fire_safe ft start 0 →
  match while_open (Fire.body g rows cols end_ ft mode) (search_fuel rows cols)
          {| expanded_nodes := 0 |} (initial_state start end_ mode) with
  | (Ret st, self') => J g rows cols start (fire_safe ft) st ∧
                       counted end_ self' st
  | (Raise _, _) => True
  | (OutOfFuel, _) => False
  end.
Proof.
  intros Hsafe.
  pose proof (while_open_inv (Fire.body g rows cols end_ ft mode)
    (λ self st, J g rows cols start (fire_safe ft) st ∧ counting end_ self st)
    (λ r self', match r with
                | Ret st => J g rows cols start (fire_safe ft) st ∧
                            counted end_ self' st
                | Raise _ => True
                | OutOfFuel => False
                end)
    (measure rows cols start)) as Hloop.
  specialize (λ Hb He, Hloop Hb He (search_fuel rows cols)
    {| expanded_nodes := 0 |} (initial_state start end_ mode)) as Hloop.
  destruct (while_open _ _ _ _) as [r self']. simpl in Hloop.
  destruct r as [st | e |]; [| done |]; apply Hloop.
  all: try (split; [by apply J_initial | apply counting_initial]).
  all: try apply measure_initial.
  all: try (intros self0 st0 [HJ Hc] Hheap; split; [done | by apply counting_exit]).
  all: intros self0 st0 e0 h0 [HJ Hc] Hheap;
    pose proof (fire_body_spec g rows cols start end_ ft mode self0 st0 e0 h0 HJ Hheap) as Hb;
    pose proof (fire_body_counting g rows cols start end_ mode ft self0 st0 e0 h0 HJ Hc Hheap) as Hb';
    destruct (Fire.body _ _ _ _ _ _ _ _ _ _) as [? ? | [? | ? |] ?]; try done;
    destruct Hb; done.
Qed.

End SearchState.

(** The two searches, in terms of the state their loop leaves behind. *)
Lemma a_star_no_fire_state `{Float64} self g start end_ mode path self' :
  a_star_no_fire self g start end_ mode = (Ret path, self') →
  ∃ rows cols st,
    grid_dims g = Ret (rows, cols) ∧
    SearchInv.J g rows cols start (SearchInv.walked g start) st ∧
    counted end_ self' st ∧ finish st end_ = Ret path.
Proof.
  unfold a_star_no_fire.
  destruct (grid_dims g) as [[rows cols] | |]; [| done | done].
  pose proof (plain_loop_state g rows cols start end_ mode) as Hloop.
  destruct (while_open _ _ _ _) as [r self1].
  destruct r as [st | |]; simpl; [| done | done].
  intros [= Hfin <-]. exists rows, cols, st. by destruct Hloop.
Qed.

Lemma a_star_with_fire_state `{Float64} self g start end_ ft mode path self' :
  a_star_with_fire self g start end_ ft mode = (Ret path, self') →
  (¬ fire_safe ft start 0 ∧ path = [] ∧ self' = self) ∨
  (fire_safe ft start 0 ∧
   ∃ rows cols st,
     grid_dims g = Ret (rows, cols) ∧
     SearchInv.J g rows cols start (fire_safe ft) st ∧
     counted end_ self' st ∧ finish st end_ = Ret path).
Proof.
  unfold a_star_with_fire.
  destruct (grid_dims g) as [[rows cols] | |]; [| done | done].
  destruct (get2 ft start.1 start.2) as [fv | |] eqn:Hfv; [| done | done].
  destruct (ftime_le fv (Fin 0)) eqn:Hle.
  { intros [= <- <-]. left. split; [| done]. by eapply fire_safe_unsafe. }
  assert (fire_safe ft start 0) as Hsafe by by eapply fire_safe_intro.
  pose proof (fire_loop_state g rows cols start end_ mode ft Hsafe) as Hloop.
  destruct (while_open _ _ _ _) as [r self1].
  destruct r as [st | |]; simpl; [| done | done].
  intros [= Hfin <-]. right. split; [done |].
  exists rows, cols, st. by destruct Hloop.
Qed.

Lemma size_universe_inside rows cols (start : pos) :
  in_bounds rows cols start.1 start.2 = true →
  Z.of_nat (size (SearchInv.universe rows cols start)) ≤ rows * cols.
Proof.
  intros Hin. unfold SearchInv.universe.
  assert (start ∈ SearchInv.cells rows cols) as Hs.
  { rewrite (surjective_pairing start). by apply in_bounds_cells. }
  assert ({[start]} ∪ list_to_set (SearchInv.cells rows cols)
          = (list_to_set (SearchInv.cells rows cols) : gset pos)) as ->
    by set_solver.
  pose proof (size_list_to_set_le (SearchInv.cells rows cols)) as Hle.
  unfold SearchInv.cells in Hle at 2. rewrite length_fmap, length_seqZ in Hle.
  unfold in_bounds in Hin. nia.
Qed.

Lemma walk_manhattan (g : grid) (s : pos) k p :
  walk g s k p → manhattan s p ≤ Z.of_nat k.
Proof.
  induction 1 as [| k p q Hwalk IH Hadj Hpass]; [rewrite manhattan_self; lia |].
  pose proof (manhattan_adjacent s p q Hadj). lia.
Qed.

Lemma route_passable (g : grid) (s : pos) l t :
  route g s l t → ∀ p, p ∈ l → p = s ∨ passable g p.
Proof.
  induction 1 as [| l p q Hroute IH Hadj Hpass]; intros x Hx.
  - left. by apply list_elem_of_singleton in Hx.
  - apply elem_of_app in Hx as [Hx | ->%list_elem_of_singleton]; [by apply IH |].
    by right.
Qed.

Lemma route_safe_walk (g : grid) (ft : fire_map) (s : pos) l t :
  route g s l t →
  (∀ i x, l !! i = Some x → fire_safe ft x (Z.of_nat i)) →
  safe_walk g ft s (length l - 1) t.
Proof.
  induction 1 as [| l p q Hroute IH Hadj Hpass]; intros Hsafe.
  - simpl. constructor. by apply (Hsafe 0%nat).
  - pose proof (walk_route g s l p Hroute) as [_ Hne].
    rewrite length_app. simpl.
    replace (length l + 1 - 1)%nat with (S (length l - 1))
      by (destruct l; [done | simpl; lia]).
    eapply safe_step; [| done | done |].
    + apply IH. intros i x Hx. apply Hsafe. by apply lookup_app_l_Some.
    + replace (S (length l - 1)) with (length l)
        by (destruct l; [done | simpl; lia]).
      apply Hsafe. by rewrite lookup_app_r, Nat.sub_diag.
Qed.

Lemma fire_search_optimal `{Float64} self g start end_ fire_time mode :
  rectangular g →
  shape (length g) (length (hd [] g)) fire_time →
  passable g start →
  SearchInv.key_consistent (Z.of_nat (length g)) (Z.of_nat (length (hd [] g)))
    start end_ mode →
  ∃ path self',
    a_star_with_fire self g start end_ fire_time mode = (Ret path, self') ∧
    ((∃ k, safe_walk g fire_time start k end_) →
       route g start path end_ ∧
       (∀ i x, path !! i = Some x → fire_safe fire_time x (Z.of_nat i)) ∧
       ∀ k, safe_walk g fire_time start k end_ → (length path - 1 ≤ k)%nat) ∧
    ((∀ k, ¬ safe_walk g fire_time start k end_) → path = []).
Proof.
  intros Hrect Hft Hstart Hcons. pose proof Hrect as [_ Hshape].
  pose proof (passable_in_bounds g start Hrect Hstart) as Hin.
  destruct (matrix_get2 _ _ fire_time _ _ Hft Hin) as (fv & Hfv & _).
  unfold a_star_with_fire. rewrite rectangular_dims by done. rewrite Hfv.
  destruct (ftime_le fv (Fin 0)) eqn:Hle.
  { exists [], self. split; [done |]. split; [| done].
    intros [k Hk%safe_walk_start].
    by destruct (fire_safe_unsafe fire_time start 0 fv Hfv Hle). }
  assert (fire_safe fire_time start 0) as Hsafe by by eapply fire_safe_intro.
  pose proof (fire_loop_optimal g (length g) (length (hd [] g)) start end_
                fire_time mode Hshape Hft Hcons {| expanded_nodes := 0 |} Hsafe)
    as Hloop.
  destruct (while_open _ _ _ _) as [r self'].
  simpl in Hloop. destruct r as [st | |]; [| done | done].
  destruct Hloop as [HJ Hreach].
  destruct (J_finish g _ _ start end_ _ st HJ) as (path & Hfin & Hfinished).
  exists path, self'. simpl. rewrite Hfin. split; [done |].
  destruct Hfinished as [[Hnone ->] | (ge & Hge & Hroute & Hlen & Hidx)].
  - split; [| done]. intros [k Hwalk].
    destruct (Hreach k Hwalk) as (ge & Hge & _). congruence.
  - split.
    + intros _. split; [done |]. split.
      * intros i x Hx. destruct (Hidx i x Hx) as (gx & _ & Hle' & Hwalk).
        apply safe_walk_safe in Hwalk.
        eapply fire_safe_mono; [exact Hwalk | lia].
      * intros k Hk. destruct (Hreach k Hk) as (ge' & Hge' & Hlek).
        rewrite Hge in Hge'. injection Hge' as <-. lia.
    + intros Hno.
      destruct (SearchInv.J_cost _ _ _ _ _ _ HJ _ _ Hge) as [_ Hwe].
      by destruct (Hno _ Hwe).
Qed.

(** * Further properties of the generator *)

Lemma list_remove_NoDup (w : pos) (walls : list pos) :
  NoDup walls →
  NoDup (MapGenerator.list_remove w walls) ∧
  ∀ q, q ∈ MapGenerator.list_remove w walls ↔ q ∈ walls ∧ q ≠ w.
Proof.
  induction 1 as [|r walls Hr Hnd [IHnd IH]]; simpl.
  - split; [constructor |]. set_solver.
  - case_decide as Hrw.
    + subst r. split; [done |]. intros q. split.
      * intros Hq. split; [by right |]. by intros ->.
      * intros [[-> | Hq]%elem_of_cons Hne]; done.
    + split.
      * constructor; [| done]. rewrite IH. tauto.
      * intros q. rewrite !elem_of_cons, IH. naive_solver.
Qed.

Lemma seqZ_empty (m n : Z) : n ≤ 0 → seqZ m n = [].
Proof. intros Hn. unfold seqZ. by replace (Z.to_nat n) with 0%nat by lia. Qed.

Lemma free_at_is_free (m : maze) (p : pos) (v : Z) :
  at2 m p = Some v → Z.of_nat (free_at m p) = MapGenerator.is_free v.
Proof. unfold free_at, MapGenerator.is_free. intros ->. by destruct v. Qed.

Lemma free_at_cases (m : maze) (p : pos) :
  (free_at m p = 1%nat ∧ at2 m p = Some 0) ∨ free_at m p = 0%nat.
Proof. unfold free_at. destruct (at2 m p) as [[| |]|]; auto. Qed.

(** A cell with two free neighbours has a free neighbour. *)
Lemma free_around_neighbour (m : maze) (p : pos) :
  (1 ≤ GenInv.free_around m p)%nat →
  ∃ q, adjacent q p ∧ at2 m q = Some 0.
Proof.
  unfold GenInv.free_around. intros Hsum.
  destruct (free_at_cases m (p.1 + 1, p.2)) as [[_ Hq] | H1].
  { exists (p.1 + 1, p.2). split; [| done].
    exists (-1, 0). split; [unfold directions; set_solver |].
    destruct p; simpl; f_equal; lia. }
  destruct (free_at_cases m (p.1, p.2 + 1)) as [[_ Hq] | H2].
  { exists (p.1, p.2 + 1). split; [| done].
    exists (0, -1). split; [unfold directions; set_solver |].
    destruct p; simpl; f_equal; lia. }
  destruct (free_at_cases m (p.1 - 1, p.2)) as [[_ Hq] | H3].
  { exists (p.1 - 1, p.2). split; [| done].
    exists (1, 0). split; [unfold directions; set_solver |].
    destruct p; simpl; f_equal; lia. }
  destruct (free_at_cases m (p.1, p.2 - 1)) as [[_ Hq] | H4].
  { exists (p.1, p.2 - 1). split; [| done].
    exists (0, 1). split; [unfold directions; set_solver |].
    destruct p; simpl; f_equal; lia. }
  rewrite H1, H2, H3, H4 in Hsum. simpl in Hsum. lia.
Qed.

Section Loops.
Import MapGenerator GenInv.
Variable rnd : nat → nat.
Variables (width height : Z).

Local Abbreviation W := (Z.to_nat width).
Local Abbreviation H := (Z.to_nat height).
Local Abbreviation interior := (interior width height).
Local Abbreviation opened := (loop_opened width height).

(** A wall that [add_loops] lists. *)
Local Abbreviation listed m p :=
  (interior p.1 p.2 = true ∧ at2 m p = Some 1 ∧ (2 ≤ free_around m p)%nat).

Lemma maze_get2 (m : maze) x y :
  shape H W m → 0 ≤ x < width → 0 ≤ y < height →
  ∃ v, get2 m x y = Ret v ∧ at2 m (x, y) = Some v.
Proof.
  intros Hsh Hx Hy. apply (matrix_get2 H W m x y Hsh).
  unfold in_bounds. rewrite !andb_true_iff, !Z.leb_le, !Z.ltb_lt. lia.
Qed.

Lemma scan_cell_walls (m : maze) x y walls :
  shape H W m → 1 ≤ x < width - 1 → 1 ≤ y < height - 1 →
  ∃ walls', scan_cell m y walls x = Ret walls' ∧
            (walls' = walls ∨ (walls' = walls ++ [(x, y)] ∧ listed m (x, y))).
Proof.
  intros Hsh Hx Hy. unfold scan_cell.
  destruct (maze_get2 m x y Hsh) as (v & -> & Hv); [lia | lia |]. rewrite bind_Ret.
  destruct (v =? 1) eqn:Hv1; [| by eauto]. apply Z.eqb_eq in Hv1 as ->.
  destruct (maze_get2 m x (y - 1) Hsh) as (v1 & -> & Hv1); [lia | lia |].
  rewrite bind_Ret.
  destruct (maze_get2 m x (y + 1) Hsh) as (v2 & -> & Hv2); [lia | lia |].
  rewrite bind_Ret.
  destruct (maze_get2 m (x - 1) y Hsh) as (v3 & -> & Hv3); [lia | lia |].
  rewrite bind_Ret.
  destruct (maze_get2 m (x + 1) y Hsh) as (v4 & -> & Hv4); [lia | lia |].
  rewrite bind_Ret. cbv zeta.
  destruct (2 <=? _) eqn:Hn; [| by eauto]. apply Z.leb_le in Hn.
  eexists. split; [done |]. right. split; [done |].
  split; [unfold MapGenerator.interior; simpl; lia |]. split; [done |].
  unfold free_around. simpl.
  apply free_at_is_free in Hv1, Hv2, Hv3, Hv4. lia.
Qed.

Lemma scan_walls (m : maze) :
  shape H W m →
  ∃ walls, scan width height m = Ret walls ∧ NoDup walls ∧
           ∀ p, p ∈ walls → listed m p.
Proof.
  intros Hsh. unfold scan.
  destruct (decide (height - 2 ≤ 0)) as [Hh | Hh].
  { rewrite seqZ_empty by done. exists []. split; [done |].
    split; [constructor | by intros p ?%elem_of_nil]. }
  replace (height - 2) with (Z.of_nat (Z.to_nat (height - 2))) by lia.
  destruct (foldM_seqZ_inv
    (λ y walls, NoDup walls ∧ ∀ p : pos, p ∈ walls → listed m p ∧ p.2 < y)
    (scan_row width m) (Z.to_nat (height - 2)) 1 []) as (walls & Hfold & Hnd & Hwalls).
  - intros y walls Hy [Hnd Hw]. unfold scan_row.
    destruct (decide (width - 2 ≤ 0)) as [Hwd | Hwd].
    { rewrite seqZ_empty by done. exists walls. split; [done |].
      split; [done |]. intros p Hp. destruct (Hw p Hp). split; [done | lia]. }
    replace (width - 2) with (Z.of_nat (Z.to_nat (width - 2))) by lia.
    destruct (foldM_seqZ_inv
      (λ x walls, NoDup walls ∧
                  ∀ p : pos, p ∈ walls →
                    listed m p ∧ (p.2 < y ∨ (p.2 = y ∧ p.1 < x)))
      (scan_cell m y) (Z.to_nat (width - 2)) 1 walls)
      as (walls' & Hfold' & Hnd' & Hwalls').
    + intros x walls0 Hx [Hnd0 Hw0].
      destruct (scan_cell_walls m x y walls0 Hsh) as (walls1 & -> & [-> | [-> Hl]]);
        [lia | lia | |].
      * eexists. split; [done |]. split; [done |].
        intros p Hp. destruct (Hw0 p Hp). split; [done | lia].
      * eexists. split; [done |]. split.
        -- apply NoDup_app. split; [done |]. split; [| apply NoDup_singleton].
           intros p Hp ->%list_elem_of_singleton.
           destruct (Hw0 _ Hp) as [_ Hpos]. simpl in Hpos. lia.
        -- intros p [Hp | ->%list_elem_of_singleton]%elem_of_app.
           ++ destruct (Hw0 p Hp). split; [done | lia].
           ++ split; [done |]. simpl. lia.
    + split; [done |]. intros p Hp. destruct (Hw p Hp). split; [done | lia].
    + exists walls'. split; [done |]. split; [done |].
      intros p Hp. destruct (Hwalls' p Hp). split; [done | lia].
  - split; [constructor | by intros p ?%elem_of_nil].
  - exists walls. split; [done |]. split; [done |].
    intros p Hp. by destruct (Hwalls p Hp).
Qed.

Lemma choice_elem {A : Type} (k : nat) (l : list A) :
  l ≠ [] → ∃ a, choice rnd k l = Ret a ∧ a ∈ l.
Proof.
  intros Hl. unfold choice.
  assert (rnd k `mod` length l < length l)%nat as Hlt.
  { apply Nat.mod_upper_bound. by destruct l. }
  apply lookup_lt_is_Some in Hlt as [a Ha]. rewrite Ha.
  exists a. split; [done |]. by eapply list_elem_of_lookup_2.
Qed.

Lemma maze_opens (m : maze) (p : pos) (a : Z) :
  shape H W m → at2 m p = Some a →
  ∃ m', set2 m p.1 p.2 0 = Ret m' ∧ GenInv.opens width height m p a m'.
Proof.
  intros Hsh Ha. destruct p as [x y].
  destruct (set2_spec H W m x y 0 a Hsh Ha) as (m' & Hset & Hsh' & Hat & Hsum).
  exists m'. split; [done |]. by split.
Qed.

Lemma remove_walls_frame (m0 : maze) (n : nat) : ∀ (m : maze) walls k,
  shape H W m → NoDup walls →
  (∀ p, p ∈ walls → at2 m p = Some 1 ∧ listed m0 p) →
  (∀ p, at2 m p = at2 m0 p ∨ opened m0 m p) →
  ∃ m' k', remove_walls rnd n m walls k = Ret (m', k') ∧ shape H W m' ∧
           (∀ p, at2 m' p = at2 m0 p ∨ opened m0 m' p) ∧
           (free_count m' + k = free_count m + k')%nat ∧
           (k ≤ k' ≤ k + n)%nat.
Proof.
  induction n as [|n IH]; intros m walls k Hsh Hnd Hwalls Hframe; simpl.
  { exists m, k. do 3 (split; [done |]). lia. }
  destruct walls as [|w0 walls].
  { exists m, k. do 3 (split; [done |]). lia. }
  destruct (choice_elem k (w0 :: walls)) as ([wx wy] & -> & Hw); [done |].
  rewrite bind_Ret.
  destruct (Hwalls _ Hw) as (Hwall & Hint & Hwall0 & Haround).
  destruct (maze_opens m (wx, wy) 1 Hsh Hwall) as (m1 & Hset & Ho).
  simpl in Hset. rewrite Hset, bind_Ret.
  pose proof (opens_new _ _ _ _ _ _ Ho) as Hat.
  destruct (list_remove_NoDup (wx, wy) (w0 :: walls) Hnd) as [Hnd' Hin'].
  destruct (IH m1 (list_remove (wx, wy) (w0 :: walls)) (S k))
    as (m' & k' & -> & Hsh' & Hframe' & Hcount & Hk).
  - apply (opens_shape _ _ _ _ _ _ Ho).
  - done.
  - intros p [Hp Hne]%Hin'. rewrite Hat, decide_False by done.
    by apply Hwalls.
  - intros p. rewrite Hat. case_decide as Hp.
    + subst p. right. split; [done |]. split; [by rewrite Hat, decide_True |].
      done.
    + destruct (Hframe p) as [? | (? & ? & ? & ?)]; [by left |].
      right. split; [done |]. split; [by rewrite Hat, decide_False | done].
  - exists m', k'. do 3 (split; [done |]).
    pose proof (free_count_opens width height m m1 (wx, wy) 1 Ho) as Hf.
    simpl in Hf. lia.
Qed.

(** [add_loops] on a maze of the dimensions of the generator. *)
Lemma add_loops_frame (percentage : Q) (m : maze) k :
  shape H W m →
  ∃ m' k', add_loops rnd width height percentage m k = Ret (m', k') ∧
           shape H W m' ∧
           (∀ p, at2 m' p = at2 m p ∨ opened m m' p) ∧
           (free_count m' + k = free_count m + k')%nat ∧ (k ≤ k')%nat.
Proof.
  intros Hsh. unfold add_loops.
  destruct (scan_walls m Hsh) as (walls & -> & Hnd & Hwalls). rewrite bind_Ret.
  destruct (remove_walls_frame m (num_to_remove walls percentage) m walls k)
    as (m' & k' & -> & Hsh' & Hframe & Hcount & Hk); try done.
  - intros p Hp. destruct (Hwalls p Hp) as (? & ? & ?). done.
  - by left.
  - exists m', k'. do 3 (split; [done |]). split; [done | lia].
Qed.

Lemma opened_mono (m m' : maze) :
  (∀ p, at2 m' p = at2 m p ∨ opened m m' p) →
  ∀ q, at2 m q = Some 0 → at2 m' q = Some 0.
Proof.
  intros Hframe q Hq. destruct (Hframe q) as [-> | (_ & ? & _)]; done.
Qed.

Lemma opened_connected (m m' : maze) :
  (∀ p, at2 m' p = at2 m p ∨ opened m m' p) →
  connected m → connected m'.
Proof.
  intros Hframe Hconn p Hp.
  pose proof (opened_mono m m' Hframe) as Hmono.
  destruct (Hframe p) as [Hsame | (_ & _ & _ & Haround)].
  - eapply linked_mono; [exact Hmono |]. apply Hconn. by rewrite <- Hsame.
  - destruct (free_around_neighbour m p) as (q & Hadj & Hq); [lia |].
    eapply linked_step; [| exact Hadj | done].
    eapply linked_mono; [exact Hmono |]. by apply Hconn.
Qed.

End Loops.

(** ** What the generator returns *)

Section Generated.
Import MapGenerator GenInv.
Variable rnd : nat → nat.
Variables (width height : Z).
Hypothesis width_min : 3 ≤ width.
Hypothesis height_min : 3 ≤ height.

Local Abbreviation W := (Z.to_nat width).
Local Abbreviation H := (Z.to_nat height).

(** What the generator returns. *)
Lemma generate_returns_cells :
  ∃ m, generate rnd width height = Ret m ∧
       shape H W m ∧
       (∀ p v, at2 m p = Some v → v = 0 ∨ v = 1) ∧
       at2 m (1, 1) = Some 0 ∧
       at2 m (width - 2, height - 2) = Some 0 ∧
       (∀ p, interior width height p.1 p.2 = true →
             p.1 `mod` 2 = 1 → p.2 `mod` 2 = 1 → at2 m p = Some 0) ∧
       (width `mod` 2 = 1 ∨ height `mod` 2 = 1 → connected m) ∧
       (∀ p, on_border width height p → at2 m p = Some 1).
Proof.
  unfold generate.
  destruct (carve_spec rnd width height width_min height_min
              (λ m stack, G width height m stack ∧ T width height m stack))
    as (m & k & m1 & m2 & a & b & [HG HT] & Ho1 & Ho2 & ->).
  - by intros m stack [? ?].
  - intros m Ho. split; [by apply G_start | by apply T_start].
  - intros m x y rest k st' [HG HT] Hstep. split.
    + by destruct (G_step rnd width height width_min height_min m x y rest k st' HG Hstep).
    + by apply (T_step rnd width height width_min height_min m x y rest k st').
  - rewrite bind_Ret.
    assert (G width height m2 []) as HG2.
    { eapply G_opens; [| | exact Ho2];
        [| apply interior_spec; simpl; lia].
      eapply G_opens; [exact HG | | exact Ho1]. apply interior_spec; simpl; lia. }
    pose proof (opens_new _ _ _ _ _ _ Ho1) as Hat1.
    pose proof (opens_new _ _ _ _ _ _ Ho2) as Hat2.
    assert (∀ q, at2 m q = Some 0 → at2 m2 q = Some 0) as Hmono2.
    { intros q Hq. rewrite Hat2, Hat1. by repeat case_decide. }
    destruct (add_loops_frame rnd width height (1 # 10) m2 k
                (G_shape _ _ _ _ HG2)) as (m' & k' & -> & Hsh & Hframe & _).
    rewrite bind_Ret. exists m'. split; [done |]. split; [done |].
    pose proof (opened_mono width height m2 m' Hframe) as Hmono.
    split; [| split; [| split; [| split; [| split]]]].
    + intros p v Hv. destruct (Hframe p) as [Hsame | (_ & Hfree & _)].
      * rewrite Hsame in Hv. by apply (G_values _ _ _ _ HG2 p).
      * rewrite Hfree in Hv. injection Hv as <-. by left.
    + apply Hmono. rewrite Hat2, Hat1. by repeat case_decide.
    + apply Hmono. by rewrite Hat2, decide_True.
    + intros p Hint Hx Hy. apply Hmono, Hmono2.
      by apply (lattice_free rnd width height width_min height_min m HT).
    + intros Hodd. apply (opened_connected width height m2 m' Hframe).
      by destruct (T_forced rnd width height width_min height_min m m1 m2 a b
                     Hodd HG HT Ho1 Ho2).
    + intros p (Hx & Hy & Hb).
      assert (interior width height p.1 p.2 ≠ true) as Hnot.
      { rewrite interior_spec by done. lia. }
      destruct (Hframe p) as [Hsame | (_ & _ & Hint & _)]; [| done].
      destruct (proj2 (at2_inside H W m2 p (G_shape _ _ _ _ HG2))) as [v Hv];
        [lia |].
      rewrite Hsame, Hv.
      destruct (G_values _ _ _ _ HG2 p v Hv) as [-> | ->]; [| done].
      by apply (G_free _ _ _ _ HG2) in Hv.
Qed.

End Generated.

(** ** The loops [generate] adds to the carved maze *)

Lemma list_remove_length (w : pos) (walls : list pos) :
  w ∈ walls → S (length (MapGenerator.list_remove w walls)) = length walls.
Proof.
  induction walls as [|r walls IH]; simpl; [by intros ?%elem_of_nil |].
  intros Hw. case_decide as Hr; [done |]. simpl. f_equal. apply IH.
  apply elem_of_cons in Hw as [-> | Hw]; done.
Qed.

Lemma free_around_mono (m m' : maze) (p : pos) :
  (∀ q, at2 m q = Some 0 → at2 m' q = Some 0) →
  (GenInv.free_around m p ≤ GenInv.free_around m' p)%nat.
Proof.
  intros Hmono.
  assert (∀ q, (free_at m q ≤ free_at m' q)%nat) as Hle.
  { intros q. unfold free_at at 1.
    destruct (at2 m q) as [[| |] |] eqn:Hq; try lia.
    rewrite (free_at_free m' q) by by apply Hmono. lia. }
  unfold GenInv.free_around.
  pose proof (Hle (p.1 + 1, p.2)). pose proof (Hle (p.1, p.2 + 1)).
  pose proof (Hle (p.1 - 1, p.2)). pose proof (Hle (p.1, p.2 - 1)). lia.
Qed.

Lemma num_to_remove_tenth (walls : list pos) :
  MapGenerator.num_to_remove walls (1 # 10) = (length walls / 10)%nat.
Proof.
  unfold MapGenerator.num_to_remove, Qmult, Qfloor. cbn [Qnum Qden inject_Z].
  rewrite Z.mul_1_r. change (Z.pos (1 * 10)) with (Z.of_nat 10).
  rewrite <- Nat2Z.inj_div. apply Nat2Z.id.
Qed.

Section LoopCount.
Import MapGenerator GenInv.
Variable rnd : nat → nat.
Variables (width height : Z).
Hypothesis width_min : 3 ≤ width.
Hypothesis height_min : 3 ≤ height.

Local Abbreviation W := (Z.to_nat width).
Local Abbreviation H := (Z.to_nat height).

(** Every iteration opens a listed wall: one more free cell and at least
    two more connections. *)
Lemma remove_walls_count (m0 : maze) (n : nat) : ∀ (m : maze) walls k,
  shape H W m → NoDup walls →
  (∀ p, p ∈ walls → at2 m p = Some 1 ∧ (2 ≤ free_around m0 p)%nat) →
  (∀ q, at2 m0 q = Some 0 → at2 m q = Some 0) →
  ∃ m' k', remove_walls rnd n m walls k = Ret (m', k') ∧
           free_count m' = (free_count m + n `min` length walls)%nat ∧
           (edge_count m + 2 * (n `min` length walls) ≤ edge_count m')%nat.
Proof.
  induction n as [|n IH]; intros m walls k Hsh Hnd Hwalls Hmono; simpl.
  { exists m, k. split; [done |]. lia. }
  destruct walls as [|w0 walls].
  { exists m, k. split; [done |]. simpl. lia. }
  destruct (choice_elem rnd k (w0 :: walls)) as ([wx wy] & -> & Hw); [done |].
  rewrite bind_Ret.
  destruct (Hwalls _ Hw) as [Hwall Haround].
  destruct (maze_opens width height m (wx, wy) 1 Hsh Hwall) as (m1 & Hset & Ho).
  simpl in Hset. rewrite Hset, bind_Ret.
  pose proof (opens_new _ _ _ _ _ _ Ho) as Hat.
  destruct (list_remove_NoDup (wx, wy) (w0 :: walls) Hnd) as [Hnd' Hin'].
  pose proof (list_remove_length (wx, wy) (w0 :: walls) Hw) as Hlen.
  destruct (IH m1 (list_remove (wx, wy) (w0 :: walls)) (S k))
    as (m' & k' & -> & Hfree & Hedge).
  - apply (opens_shape _ _ _ _ _ _ Ho).
  - done.
  - intros p [Hp Hne]%Hin'. rewrite Hat, decide_False by done.
    by apply Hwalls.
  - intros q Hq. rewrite Hat. case_decide; [done | by apply Hmono].
  - exists m', k'. split; [done |].
    pose proof (free_count_opens width height m m1 (wx, wy) 1 Ho) as Hf.
    pose proof (edge_count_opens width height width_min height_min m m1
                  (wx, wy) 1 Hsh Ho ltac:(done)) as He.
    pose proof (free_around_mono m0 m (wx, wy) Hmono) as Hmore.
    simpl in Hf. rewrite <- Hlen. cbn beta iota. lia.
Qed.

(** [add_loops(0.1)] opens a tenth of the walls it lists. *)
Lemma add_loops_count (m : maze) k :
  shape H W m →
  ∃ walls m' k',
    scan width height m = Ret walls ∧
    add_loops rnd width height (1 # 10) m k = Ret (m', k') ∧
    free_count m' = (free_count m + length walls / 10)%nat ∧
    (edge_count m + 2 * (length walls / 10) ≤ edge_count m')%nat ∧
    ((length walls < 10)%nat → m' = m).
Proof.
  intros Hsh. unfold add_loops.
  destruct (scan_walls width height m Hsh) as (walls & Hscan & Hnd & Hwalls).
  rewrite Hscan, bind_Ret, num_to_remove_tenth.
  pose proof (Nat.Div0.div_le_upper_bound (length walls) 10 (length walls)
                ltac:(lia)) as Hle.
  destruct (remove_walls_count m (length walls / 10) m walls k)
    as (m' & k' & Hrem & Hfree & Hedge); try done.
  { intros p Hp. destruct (Hwalls p Hp) as (? & ? & ?). done. }
  rewrite Nat.min_l in Hfree, Hedge by done.
  exists walls, m', k'. do 4 (split; [done |]).
  intros Hfew. rewrite Nat.div_small in Hrem by done. simpl in Hrem.
  by injection Hrem as <- _.
Qed.

(** [generate]: a perfect maze is carved, then a tenth of the walls with
    two free neighbours are opened. *)
Lemma generate_loops :
  width `mod` 2 = 1 ∨ height `mod` 2 = 1 →
  ∃ carved k walls m,
    carve rnd width height = Ret (carved, k) ∧
    scan width height carved = Ret walls ∧
    generate rnd width height = Ret m ∧
    shape H W carved ∧ perfect carved ∧
    shape H W m ∧ connected m ∧
    free_count m = (free_count carved + length walls / 10)%nat ∧
    (edge_count carved + 2 * (length walls / 10) ≤ edge_count m)%nat ∧
    (perfect m ↔ (length walls < 10)%nat).
Proof.
  intros Hodd.
  destruct (carve_perfect rnd width height width_min height_min Hodd)
    as (carved & k & Hcarve & Hsh & Hperfect).
  destruct (add_loops_count carved k Hsh)
    as (walls & m & k' & Hscan & Hloops & Hfree & Hedge & Hfew).
  destruct (add_loops_frame rnd width height (1 # 10) carved k Hsh)
    as (m1 & k1 & Hloops' & Hsh' & Hframe & _).
  rewrite Hloops in Hloops'. injection Hloops' as <- <-.
  assert (connected m) as Hconn
    by (apply (opened_connected width height carved m Hframe);
        by destruct Hperfect).
  exists carved, k, walls, m. do 2 (split; [done |]). split.
  { unfold generate. by rewrite Hcarve, bind_Ret, Hloops. }
  do 6 (split; [done |]). split.
  - intros [_ Hcount]. destruct Hperfect as [_ Hcount0].
    destruct (decide (length walls < 10)%nat) as [| Hmany]; [done |].
    assert (1 ≤ length walls / 10)%nat
      by (apply Nat.div_le_lower_bound; lia).
    lia.
  - intros Hlt. by rewrite (Hfew Hlt).
Qed.

End LoopCount.

(** ** The searches read the grid through its walls only *)

Lemma while_open_ext (body body' : Algorithm → sstate → entry → list entry → flow) :
  (∀ self st e h, body self st e h = body' self st e h) →
  ∀ fuel self st, while_open body fuel self st = while_open body' fuel self st.
Proof.
  intros Hbody. induction fuel as [|fuel IH]; intros self st; [done |].
  simpl. destruct (open_heap st) as [|e h]; [done |].
  rewrite Hbody. destruct (body' self st e h); [apply IH | done].
Qed.

Section SameWalls.
Context `{Float64}.
Variables (g g' : grid) (R C : nat) (end_ : pos) (mode : string).
Hypothesis g_shape : shape R C g.
Hypothesis g'_shape : shape R C g'.
Hypothesis same_walls :
  ∀ p c c', at2 g p = Some c → at2 g' p = Some c' → is_wall c = is_wall c'.

Local Abbreviation rows := (Z.of_nat R).
Local Abbreviation cols := (Z.of_nat C).

Lemma plain_relax_walls current current_g st d :
  Plain.relax g rows cols end_ mode current current_g st d
  = Plain.relax g' rows cols end_ mode current current_g st d.
Proof.
  unfold Plain.relax. cbv zeta.
  destruct (in_bounds rows cols _ _) eqn:Hin; [| done]. cbn [negb].
  destruct (matrix_get2 _ _ g _ _ g_shape Hin) as (c & -> & Hc).
  destruct (matrix_get2 _ _ g' _ _ g'_shape Hin) as (c' & -> & Hc').
  rewrite !bind_Ret. by rewrite (same_walls _ _ _ Hc Hc').
Qed.

Lemma plain_body_walls self st e h :
  Plain.body g rows cols end_ mode self st e h
  = Plain.body g' rows cols end_ mode self st e h.
Proof.
  unfold Plain.body. destruct (pop_min e h) as [[k current] h'].
  cbv zeta. case_decide; [done |]. case_decide; [done |].
  destruct (g_cost _ !! current) as [current_g |]; [| done].
  by rewrite (foldM_ext _ _ directions (plain_relax_walls current current_g)).
Qed.

Lemma fire_relax_walls ft current t st d :
  Fire.relax g rows cols end_ ft mode current t st d
  = Fire.relax g' rows cols end_ ft mode current t st d.
Proof.
  unfold Fire.relax. cbv zeta.
  destruct (in_bounds rows cols _ _) eqn:Hin; [| done]. cbn [negb].
  destruct (matrix_get2 _ _ g _ _ g_shape Hin) as (c & -> & Hc).
  destruct (matrix_get2 _ _ g' _ _ g'_shape Hin) as (c' & -> & Hc').
  rewrite !bind_Ret. by rewrite (same_walls _ _ _ Hc Hc').
Qed.

Lemma fire_body_walls ft self st e h :
  Fire.body g rows cols end_ ft mode self st e h
  = Fire.body g' rows cols end_ ft mode self st e h.
Proof.
  unfold Fire.body. destruct (pop_min e h) as [[k current] h'].
  cbv zeta. case_decide; [done |].
  destruct (g_cost _ !! current) as [t |]; [| done].
  destruct (get2 ft _ _) as [fv | |]; [| done | done].
  destruct (ftime_le fv (Fin t)); [done |]. case_decide; [done |].
  by rewrite (foldM_ext _ _ directions (fire_relax_walls ft current t)).
Qed.

End SameWalls.

Lemma shape_dims {A : Type} (R C : nat) (m : list (list A)) :
  (0 < R)%nat → shape R C m →
  length m = R ∧ length (hd [] m) = C ∧ m ≠ [].
Proof.
  intros HR [Hlen Hrows]. destruct m as [|row m]; [simpl in Hlen; lia |].
  apply Forall_cons in Hrows as [Hrow _]. done.
Qed.

Lemma search_same_walls `{Float64} (self : Algorithm) (g g' : grid)
    (start end_ : pos) (mode : string) :
  rectangular g →
  shape (length g) (length (hd [] g)) g' →
  (∀ p c c', at2 g p = Some c → at2 g' p = Some c' → is_wall c = is_wall c') →
  a_star_no_fire self g' start end_ mode = a_star_no_fire self g start end_ mode ∧
  ∀ fire_time,
    a_star_with_fire self g' start end_ fire_time mode
    = a_star_with_fire self g start end_ fire_time mode.
Proof.
  intros Hrect Hshape' Hwalls. pose proof Hrect as [Hne Hshape].
  assert (0 < length g)%nat as Hpos by (destruct g; [done | simpl; lia]).
  destruct (shape_dims _ _ g' Hpos Hshape') as (Hlen & Hhd & Hne').
  assert (rectangular g') as Hrect' by (split; [done |]; by rewrite Hlen, Hhd).
  unfold a_star_no_fire, a_star_with_fire.
  rewrite (rectangular_dims g Hrect), (rectangular_dims g' Hrect'), Hlen, Hhd.
  split.
  - by rewrite (while_open_ext _ _
                  (plain_body_walls g g' _ _ end_ mode Hshape Hshape' Hwalls)).
  - intros ft. destruct (get2 ft _ _) as [fv | |]; [| done | done].
    destruct (ftime_le fv (Fin 0)); [done |].
    by rewrite (while_open_ext _ _
                  (fire_body_walls g g' _ _ end_ mode Hshape Hshape' Hwalls ft)).
Qed.

(** * The grids of the application *)

(** ** Sums over matrices *)

Lemma sum_list_with_fmap {A B : Type} (f : B → nat) (h : A → B) (l : list A) :
  sum_list_with f (h <$> l) = sum_list_with (f ∘ h) l.
Proof. induction l as [|a l IH]; csimpl; [done | by rewrite IH]. Qed.

Lemma sum2_fmap {A B : Type} (f : B → nat) (h : A → B) (m : list (list A)) :
  sum2 f ((λ row : list A, h <$> row) <$> m) = sum2 (f ∘ h) m.
Proof.
  unfold sum2. rewrite sum_list_with_fmap.
  apply sum_list_with_ext. intros row _. simpl. apply sum_list_with_fmap.
Qed.

Lemma sum2_zero {A : Type} (f : A → nat) (m : list (list A)) :
  (∀ a, f a = 0%nat) → sum2 f m = 0%nat.
Proof.
  intros Hf. unfold sum2.
  induction m as [|row m IH]; simpl; [done |]. rewrite IH.
  induction row as [|a row IHr]; simpl; [done |]. rewrite Hf. apply IHr.
Qed.

Lemma at2_fmap {A B : Type} (h : A → B) (m : list (list A)) (p : pos) :
  at2 ((λ row : list A, h <$> row) <$> m) p = h <$> at2 m p.
Proof.
  unfold at2. case_decide; [| done].
  rewrite list_lookup_fmap. destruct (m !! Z.to_nat p.2) as [row|]; simpl; [| done].
  by rewrite list_lookup_fmap.
Qed.

Lemma shape_fmap {A B : Type} (h : A → B) R C (m : list (list A)) :
  shape R C m → shape R C ((λ row : list A, h <$> row) <$> m).
Proof.
  intros [HR HC]. split; [by rewrite length_fmap |].
  apply Forall_fmap. eapply Forall_impl; [exact HC |].
  intros row Hrow. simpl. by rewrite length_fmap.
Qed.

(** ** The conversion of a maze to characters *)

Section Convert.
Variables (R C : nat) (m : maze).
Hypothesis m_shape : shape R C m.

Lemma convert_row_spec (g : grid) (y : Z) (row : list Z) :
  0 ≤ y → m !! Z.to_nat y = Some row →
  Main.convert_row m (Z.of_nat C) g y = Ret (g ++ [Main.char_of <$> row]).
Proof.
  intros Hy Hrow. unfold Main.convert_row.
  assert (length row = C) as Hlen.
  { destruct m_shape as [_ HC]. rewrite Forall_forall in HC.
    apply HC. by eapply list_elem_of_lookup_2. }
  destruct (foldM_seqZ_inv
    (λ x s, s = Main.char_of <$> take (Z.to_nat x) row)
    (Main.convert_cell m y) C 0 []) as (s & -> & Hs).
  - intros x s Hx ->. unfold Main.convert_cell.
    assert (is_Some (row !! Z.to_nat x)) as [v Hv]
      by (apply lookup_lt_is_Some; lia).
    unfold get2. rewrite getitem_lookup, Hrow by done. rewrite bind_Ret.
    rewrite getitem_lookup, Hv by lia. rewrite bind_Ret.
    eexists. split; [done |].
    replace (Z.to_nat (x + 1)) with (S (Z.to_nat x)) by lia.
    by rewrite (take_S_r _ _ _ Hv), fmap_app.
  - done.
  - rewrite bind_Ret. rewrite Hs.
    replace (Z.to_nat (0 + Z.of_nat C)) with C by lia.
    by rewrite take_ge by lia.
Qed.

Lemma convert_spec :
  Main.convert m (Z.of_nat R) (Z.of_nat C) = Ret ((λ row : list Z, Main.char_of <$> row) <$> m).
Proof.
  unfold Main.convert. destruct m_shape as [HR _].
  destruct (foldM_seqZ_inv
    (λ y s, s = (λ row : list Z, Main.char_of <$> row) <$> take (Z.to_nat y) m)
    (Main.convert_row m (Z.of_nat C)) R 0 []) as (s & -> & Hs).
  - intros y s Hy ->.
    assert (is_Some (m !! Z.to_nat y)) as [row Hrow]
      by (apply lookup_lt_is_Some; lia).
    rewrite (convert_row_spec _ y row) by (done || lia).
    eexists. split; [done |].
    replace (Z.to_nat (y + 1)) with (S (Z.to_nat y)) by lia.
    by rewrite (take_S_r _ _ _ Hrow), fmap_app.
  - done.
  - rewrite Hs. replace (Z.to_nat (0 + Z.of_nat R)) with R by lia.
    by rewrite take_ge by lia.
Qed.

End Convert.

(** ** [add_random_fire_to_grid] *)

Lemma is_given_spec (o : option pos) (p : pos) :
  Main.is_given o p = true ↔ Some p = o.
Proof.
  destruct o as [q|]; simpl; [| done].
  rewrite bool_decide_eq_true. naive_solver.
Qed.

Lemma NoDup_lookup_take {A : Type} (l : list A) (i : nat) (a : A) :
  NoDup l → l !! i = Some a → a ∉ take i l.
Proof.
  intros Hnd Hi Hin. rewrite <- (take_drop i l) in Hnd.
  apply NoDup_app in Hnd as (_ & Hdisj & _).
  apply (Hdisj a Hin). rewrite (drop_S _ _ _ Hi). by left.
Qed.

Lemma seqZ_to_nat (m n : Z) : seqZ m n = seqZ m (Z.of_nat (Z.to_nat n)).
Proof. unfold seqZ. by rewrite Nat2Z.id. Qed.

Section RandomFire.
Import FireInv.
Variables (R C : nat) (g : grid) (start end_ : option pos).
Hypothesis g_shape : shape R C g.

Local Abbreviation spot := (fire_spot g start end_).
Local Abbreviation scanned y x cands :=
  (NoDup cands ∧ ∀ p : pos, p ∈ cands ↔ spot p ∧ processed y x p).

Lemma spot_inside (p : pos) :
  spot p → 0 ≤ p.1 < Z.of_nat C ∧ 0 ≤ p.2 < Z.of_nat R.
Proof.
  intros (Hp & _). apply (at2_inside R C g p g_shape). by eexists.
Qed.

Lemma candidate_cell_spec x y cands :
  0 ≤ x < Z.of_nat C → 0 ≤ y < Z.of_nat R →
  scanned y x cands →
  ∃ cands', Main.candidate_cell g start end_ y cands x = Ret cands' ∧
            scanned y (x + 1) cands'.
Proof.
  intros Hx Hy [Hnd Hc]. unfold Main.candidate_cell.
  destruct (matrix_get2 R C g x y g_shape) as (c & -> & Hcell).
  { unfold in_bounds. rewrite !andb_true_iff, !Z.leb_le, !Z.ltb_lt. lia. }
  rewrite bind_Ret.
  assert (∀ p : pos, processed y (x + 1) p ↔ processed y x p ∨ p = (x, y)) as Hnext.
  { intros [px py]. unfold processed. simpl. split.
    - intros [? | [? ?]]; [by auto |].
      destruct (decide (px = x)) as [-> | ?]; [right; by f_equal | left; lia].
    - intros [[? | [? ?]] | [= -> ->]]; lia. }
  assert (¬ processed y x (x, y)) as Hnot by (unfold processed; simpl; lia).
  assert (¬ spot (x, y) → scanned y (x + 1) cands) as Hskip.
  { intros Hno. split; [done |]. intros p. rewrite Hc, Hnext.
    split; [by intuition |]. intros [Hs [? | ->]]; [done | by destruct Hno]. }
  destruct (Ascii.eqb c ".") eqn:Hdot.
  2:{ exists cands. split; [done |]. apply Hskip. intros (Hs & _).
      rewrite Hcell in Hs. injection Hs as ->. done. }
  apply Ascii.eqb_eq in Hdot as ->.
  destruct (Main.is_given start (x, y)) eqn:Hstart.
  { exists cands. split; [done |]. apply Hskip. intros (_ & Hs & _).
    by apply is_given_spec in Hstart. }
  destruct (Main.is_given end_ (x, y)) eqn:Hend.
  { exists cands. split; [done |]. apply Hskip. intros (_ & _ & He).
    by apply is_given_spec in Hend. }
  assert (spot (x, y)) as Hspot.
  { split; [done |]. split; intros Heq%is_given_spec; congruence. }
  eexists. split; [done |]. split.
  - apply NoDup_app. split; [done |]. split; [| apply NoDup_singleton].
    intros p Hp ->%list_elem_of_singleton. apply Hc in Hp as [_ Hp]. done.
  - intros p. rewrite elem_of_app, list_elem_of_singleton, Hc, Hnext.
    split; [| by intuition]. intros [[? ?] | ->]; by auto.
Qed.

Lemma fire_candidates_spec :
  ∃ cands, Main.fire_candidates g (Z.of_nat R) (Z.of_nat C) start end_ = Ret cands ∧
           NoDup cands ∧ ∀ p, p ∈ cands ↔ spot p.
Proof.
  unfold Main.fire_candidates.
  destruct (foldM_seqZ_inv (λ y cands, scanned y 0 cands)
    (Main.candidate_row g start end_ (Z.of_nat C)) R 0 [])
    as (cands & -> & Hnd & Hc).
  - intros y cands Hy Hs. unfold Main.candidate_row.
    destruct (foldM_seqZ_inv (λ x cands, scanned y x cands)
      (Main.candidate_cell g start end_ y) C 0 cands)
      as (cands' & -> & Hnd' & Hc').
    + intros x cands0 Hx Hs0. apply candidate_cell_spec; [lia | lia | done].
    + done.
    + exists cands'. split; [done |]. split; [done |].
      intros p. rewrite Hc'. split.
      * intros [Hs' Hp]. split; [done |].
        apply spot_inside in Hs'. unfold processed in *. lia.
      * intros [Hs' Hp]. split; [done |].
        apply spot_inside in Hs'. unfold processed in *. lia.
  - split; [constructor |]. intros p. split; [by intros ?%elem_of_nil |].
    intros [Hs Hp]. apply spot_inside in Hs. unfold processed in Hp. lia.
  - exists cands. split; [done |]. split; [done |].
    intros p. rewrite Hc. split; [by intros [? _] |].
    intros Hs. split; [done |].
    apply spot_inside in Hs. unfold processed. lia.
Qed.

Lemma place_fire_spec (l : list pos) (n : nat) :
  NoDup l → (∀ p, p ∈ l → at2 g p = Some "."%char) → (n ≤ length l)%nat →
  ∃ g', foldM (Main.place_fire l) (seqZ 0 (Z.of_nat n)) g = Ret g' ∧
        shape R C g' ∧
        (∀ p, at2 g' p = if decide (p ∈ take n l) then Some "F"%char else at2 g p) ∧
        (∀ f : ascii → nat,
           sum2 f g' + n * f "."%char = sum2 f g + n * f "F"%char)%nat.
Proof.
  intros Hnd Hl Hn.
  destruct (foldM_seqZ_inv
    (λ i g', shape R C g' ∧
             (∀ p, at2 g' p = if decide (p ∈ take (Z.to_nat i) l)
                              then Some "F"%char else at2 g p) ∧
             (∀ f : ascii → nat,
                sum2 f g' + Z.to_nat i * f "."%char
                = sum2 f g + Z.to_nat i * f "F"%char)%nat)
    (Main.place_fire l) n 0 g) as (g' & -> & Hsh & Hat & Hsum).
  - intros i gi Hi (Hsh & Hat & Hsum). unfold Main.place_fire.
    assert (is_Some (l !! Z.to_nat i)) as [[x y] Hxy]
      by (apply lookup_lt_is_Some; lia).
    rewrite getitem_lookup, Hxy by lia. rewrite bind_Ret.
    assert (at2 gi (x, y) = Some "."%char) as Hdot.
    { rewrite Hat, decide_False by by apply NoDup_lookup_take.
      apply Hl. by eapply list_elem_of_lookup_2. }
    destruct (set2_spec R C gi x y "F"%char "."%char Hsh Hdot)
      as (g1 & -> & Hsh1 & Hat1 & Hsum1).
    exists g1. split; [done |]. split; [done |].
    replace (Z.to_nat (i + 1)) with (S (Z.to_nat i)) by lia.
    split.
    + intros p. rewrite Hat1, (take_S_r _ _ _ Hxy).
      destruct (decide (p = (x, y))) as [-> | Hne].
      * rewrite decide_True; [done |]. set_solver.
      * rewrite Hat. destruct (decide (p ∈ take (Z.to_nat i) l)).
        -- rewrite decide_True; [done |]. set_solver.
        -- rewrite decide_False; [done |]. set_solver.
    + intros f. specialize (Hsum f). specialize (Hsum1 f). lia.
  - split; [done |]. split; [| intros f; simpl; lia].
    intros p. change (Z.to_nat 0) with 0%nat. rewrite take_0.
    case_decide as Hp; [by apply elem_of_nil in Hp | done].
  - exists g'. split; [done |]. split; [done |].
    replace (Z.to_nat (0 + Z.of_nat n)) with n in * by lia. done.
Qed.

(** [add_random_fire_to_grid], when [shuffle] rearranges its list. *)
Lemma add_random_fire_spec (shuffle : list pos → list pos) (count : Z) :
  (∀ l, shuffle l ≡ₚ l) →
  ∃ g' spots,
    Main.add_random_fire_to_grid shuffle g (Z.of_nat R) (Z.of_nat C) count
      start end_ = Ret g' ∧
    shape R C g' ∧
    NoDup spots ∧ (∀ p, p ∈ spots ↔ spot p) ∧
    (∀ p, at2 g' p = at2 g p ∨ (spot p ∧ at2 g' p = Some "F"%char)) ∧
    (∀ f : ascii → nat,
       sum2 f g' + Z.to_nat (Z.min count (Z.of_nat (length spots))) * f "."%char
       = sum2 f g + Z.to_nat (Z.min count (Z.of_nat (length spots))) * f "F"%char)%nat.
Proof.
  intros Hshuffle. unfold Main.add_random_fire_to_grid.
  destruct fire_candidates_spec as (cands & -> & Hnd & Hc). rewrite bind_Ret.
  cbv zeta. pose proof (Hshuffle cands) as Hperm.
  assert (NoDup (shuffle cands)) as Hnd' by by rewrite Hperm.
  assert (∀ p, p ∈ shuffle cands ↔ spot p) as Hc'
    by (intros p; by rewrite Hperm).
  rewrite seqZ_to_nat.
  destruct (place_fire_spec (shuffle cands)
              (Z.to_nat (Z.min count (Z.of_nat (length (shuffle cands))))))
    as (g' & -> & Hsh & Hat & Hsum); [done | | lia |].
  { intros p Hp%Hc'. by destruct Hp. }
  exists g', (shuffle cands). do 4 (split; [done |]). split; [| done].
  intros p. rewrite Hat. case_decide as Hp; [| by left].
  right. split; [| done]. apply Hc'. by eapply subseteq_take.
Qed.

End RandomFire.

(** ** [prepare_grid_and_fire] *)

Section ReplaceFire.
Import FireInv.
Variables (R C : nat) (g : grid) (c : ascii).
Hypothesis g_shape : shape R C g.

Local Abbreviation replaced y x base :=
  (shape R C base ∧
   ∀ p : pos, at2 base p = if decide (at2 g p = Some "F"%char ∧ processed y x p)
                           then Some c else at2 g p).

Lemma replace_cell_spec x y base :
  0 ≤ x < Z.of_nat C → 0 ≤ y < Z.of_nat R →
  replaced y x base →
  ∃ base', Main.replace_cell c y base x = Ret base' ∧ replaced y (x + 1) base'.
Proof.
  intros Hx Hy [Hsh Hat]. unfold Main.replace_cell.
  destruct (matrix_get2 R C base x y Hsh) as (v & -> & Hv).
  { unfold in_bounds. rewrite !andb_true_iff, !Z.leb_le, !Z.ltb_lt. lia. }
  rewrite bind_Ret.
  assert (∀ p : pos, processed y (x + 1) p ↔ processed y x p ∨ p = (x, y)) as Hnext.
  { intros [px py]. unfold processed. simpl. split.
    - intros [? | [? ?]]; [by auto |].
      destruct (decide (px = x)) as [-> | ?]; [right; by f_equal | left; lia].
    - intros [[? | [? ?]] | [= -> ->]]; lia. }
  assert (at2 g (x, y) = Some v) as Hg.
  { rewrite Hat in Hv. rewrite decide_False in Hv; [done |].
    intros [_ Hp]. unfold processed in Hp. simpl in Hp. lia. }
  unfold is_fire. destruct (Ascii.eqb v "F") eqn:Hfire.
  - apply Ascii.eqb_eq in Hfire as ->.
    destruct (set2_spec R C base x y c "F"%char Hsh Hv)
      as (base' & -> & Hsh' & Hat' & _).
    exists base'. split; [done |]. split; [done |].
    intros p. rewrite Hat'. destruct (decide (p = (x, y))) as [-> | Hne].
    + rewrite decide_True; [done |]. split; [done |]. apply Hnext. by right.
    + rewrite Hat. apply decide_ext. rewrite Hnext. naive_solver.
  - apply Ascii.eqb_neq in Hfire.
    exists base. split; [done |]. split; [done |].
    intros p. rewrite Hat. apply decide_ext. rewrite Hnext.
    split; [by intuition |]. intros [HF [? | ->]]; [done |].
    rewrite Hg in HF. by injection HF as ->.
Qed.

Lemma replace_fire_spec :
  ∃ base, Main.replace_fire c (Z.of_nat R) (Z.of_nat C) g = Ret base ∧
          shape R C base ∧
          ∀ p, at2 base p = if decide (at2 g p = Some "F"%char)
                            then Some c else at2 g p.
Proof.
  unfold Main.replace_fire.
  assert (∀ p : pos, at2 g p = Some "F"%char →
            0 ≤ p.1 < Z.of_nat C ∧ 0 ≤ p.2 < Z.of_nat R) as Hin.
  { intros p Hp. apply (at2_inside R C g p g_shape). by eexists. }
  destruct (foldM_seqZ_inv (λ y base, replaced y 0 base)
    (Main.replace_row c (Z.of_nat C)) R 0 g) as (base & -> & Hsh & Hat).
  - intros y base Hy Hrep. unfold Main.replace_row.
    destruct (foldM_seqZ_inv (λ x base, replaced y x base)
      (Main.replace_cell c y) C 0 base) as (base' & -> & Hsh' & Hat').
    + intros x base0 Hx Hrep0. apply replace_cell_spec; [lia | lia | done].
    + done.
    + exists base'. split; [done |]. split; [done |].
      intros p. rewrite Hat'. apply decide_ext.
      split; intros [HF Hp]; (split; [done |]);
        apply Hin in HF; unfold processed in *; lia.
  - split; [done |]. intros p. rewrite decide_False; [done |].
    intros [HF Hp]. apply Hin in HF. unfold processed in Hp. lia.
  - exists base. split; [done |]. split; [done |].
    intros p. rewrite Hat. apply decide_ext.
    split; [by intros [? _] |]. intros HF. split; [done |].
    apply Hin in HF. unfold processed. lia.
Qed.

End ReplaceFire.

(** ** From the maze to the grid of a test *)

Lemma linked_walk (m : maze) (g : grid) (s p : pos) :
  (∀ q, at2 m q = Some 0 → passable g q) →
  linked m s p → ∃ k, walk g s k p.
Proof.
  intros Hpass. induction 1 as [Hs | p q Hl [k IH] Hadj Hq].
  - exists 0%nat. constructor.
  - exists (S k). eapply walk_step; [exact IH | done | by apply Hpass].
Qed.

Lemma NoDup_incl_length {A : Type} `{EqDecision A} (l k : list A) :
  NoDup l → (∀ x, x ∈ l → x ∈ k) → (length l ≤ length k)%nat.
Proof.
  intros Hnd Hin. apply submseteq_length. by apply NoDup_submseteq.
Qed.

(** ** [build_random_tests] *)

Lemma char_of_cases (v : Z) :
  Main.char_of v = "#"%char ∨ Main.char_of v = "."%char.
Proof. unfold Main.char_of. destruct (v =? 1); auto. Qed.

Lemma count_char_convert (c : ascii) (m : maze) :
  c ≠ "#"%char → c ≠ "."%char →
  count_char c ((λ row : list Z, Main.char_of <$> row) <$> m) = 0%nat.
Proof.
  intros H1 H2. unfold count_char. rewrite sum2_fmap. apply sum2_zero.
  intros v. simpl. destruct (Ascii.eqb_spec (Main.char_of v) c) as [Heq | ?]; [| done].
  destruct (char_of_cases v); congruence.
Qed.

Section RandomTest.
Variables (rnd : nat → nat) (shuffle : list pos → list pos) (fire_count : Z).
Hypothesis shuffle_permutes : ∀ l, shuffle l ≡ₚ l.
Hypothesis fire_count_range : 1 ≤ fire_count ≤ 3.

Lemma random_test_spec :
  ∃ t, Main.random_test rnd shuffle fire_count 31 51 = Ret t ∧ random_test_ok t.
Proof.
  unfold Main.random_test.
  destruct (generate_returns_cells rnd 51 31 ltac:(lia) ltac:(lia))
    as (m & Hgen & Hsh & Hval & Hin & Hout & Hlat & Hconn & Hborder).
  rewrite Hgen, bind_Ret.
  change (Z.to_nat 31) with 31%nat in Hsh. change (Z.to_nat 51) with 51%nat in Hsh.
  change (51 - 2) with 49 in *. change (31 - 2) with 29 in *.
  specialize (Hconn ltac:(by left)).
  assert (Main.convert m 31 51 = Ret ((λ row : list Z, Main.char_of <$> row) <$> m))
    as -> by apply (convert_spec 31 51 m Hsh).
  rewrite bind_Ret. cbv zeta. cbn [fst snd].
  set (g0 := (λ row : list Z, Main.char_of <$> row) <$> m).
  assert (shape 31 51 g0) as Hsh0 by by apply shape_fmap.
  assert (∀ p, at2 g0 p = Main.char_of <$> at2 m p) as Hat0
    by (intros p; apply at2_fmap).
  assert (∀ p, at2 m p = Some 0 → at2 g0 p = Some "."%char) as Hfree0
    by (intros p Hp; by rewrite Hat0, Hp).
  destruct (set2_spec 31 51 g0 1 1 "D"%char "."%char Hsh0 (Hfree0 _ Hin))
    as (g1 & -> & Hsh1 & Hat1 & Hsum1).
  rewrite bind_Ret.
  assert (at2 g1 (49, 29) = Some "."%char) as H1out.
  { rewrite Hat1, decide_False by done. by apply Hfree0. }
  destruct (set2_spec 31 51 g1 49 29 "S"%char "."%char Hsh1 H1out)
    as (g2 & -> & Hsh2 & Hat2 & Hsum2).
  rewrite bind_Ret.
  assert (∀ p, at2 g2 p = if decide (p = (49, 29)) then Some "S"%char
                          else if decide (p = (1, 1)) then Some "D"%char
                          else Main.char_of <$> at2 m p) as Hat2'.
  { intros p. rewrite Hat2. case_decide; [done |]. rewrite Hat1.
    case_decide; [done | apply Hat0]. }
  destruct (add_random_fire_spec 31 51 g2 (Some (1, 1)) (Some (49, 29)) Hsh2
              shuffle fire_count shuffle_permutes)
    as (g3 & spots & Hadd & Hsh3 & Hnd & Hspots & Hframe & Hsum3).
  change (Z.of_nat 31) with 31 in Hadd. change (Z.of_nat 51) with 51 in Hadd.
  rewrite Hadd, bind_Ret.
  eexists. split; [done |].
  assert (∀ p, ¬ fire_spot g2 (Some (1, 1)) (Some (49, 29)) p →
               at2 g3 p = at2 g2 p) as Hkeep.
  { intros p Hno. by destruct (Hframe p) as [? | [? _]]. }
  assert (3 ≤ length spots)%nat as Hmany.
  { apply (NoDup_incl_length [(3, 1); (5, 1); (7, 1)] spots).
    - repeat (constructor; [set_solver |]). constructor.
    - intros p Hp. apply Hspots.
      assert (at2 m p = Some 0) as Hp0.
      { apply Hlat; set_solver. }
      split; [| split; intros [= ->]; set_solver].
      rewrite Hat2'. rewrite !decide_False by set_solver. by rewrite Hp0. }
  assert (Z.to_nat (Z.min fire_count (Z.of_nat (length spots)))
          = Z.to_nat fire_count) as Hn by lia.
  rewrite Hn in Hsum3.
  assert (∀ c, c ≠ "."%char → c ≠ "F"%char →
            count_char c g3 = count_char c g2) as Hcount3.
  { intros c H1 H2. unfold count_char.
    specialize (Hsum3 (λ v, if Ascii.eqb v c then 1%nat else 0%nat)).
    cbv beta in Hsum3.
    rewrite (proj2 (Ascii.eqb_neq "." c)) in Hsum3 by done.
    rewrite (proj2 (Ascii.eqb_neq "F" c)) in Hsum3 by done. lia. }
  assert (∀ c, count_char c g2 + (if Ascii.eqb "." c then 2 else 0)
               = count_char c g0 + (if Ascii.eqb "D" c then 1 else 0)
                 + (if Ascii.eqb "S" c then 1 else 0))%nat as Hcount2.
  { intros c. unfold count_char.
    specialize (Hsum1 (λ v, if Ascii.eqb v c then 1%nat else 0%nat)).
    specialize (Hsum2 (λ v, if Ascii.eqb v c then 1%nat else 0%nat)).
    cbv beta in Hsum1, Hsum2.
    destruct (Ascii.eqb "." c), (Ascii.eqb "D" c), (Ascii.eqb "S" c); lia. }
  split; simpl; try done.
  - rewrite Hkeep; [by rewrite Hat2' |]. by intros (_ & ? & _).
  - rewrite Hkeep; [by rewrite Hat2' |]. by intros (_ & _ & ?).
  - intros p Hp. pose proof (Hborder p Hp) as Hwall.
    destruct Hp as (Hx & Hy & Hb).
    assert (at2 g2 p = Some "#"%char) as Hp2.
    { rewrite Hat2', Hwall.
      rewrite !decide_False; [done | |]; intros ->; simpl in Hb; lia. }
    rewrite Hkeep; [done |]. intros (Hdot & _). congruence.
  - unfold count_char in *.
    specialize (Hsum3 (λ v, if Ascii.eqb v "F" then 1%nat else 0%nat)).
    simpl in Hsum3.
    pose proof (Hcount2 "F"%char) as H2. simpl in H2.
    pose proof (count_char_convert "F" m) as H0. unfold count_char in H0.
    fold g0 in H0. rewrite H0 in H2 by done. lia.
  - split.
    + rewrite Hcount3 by done. pose proof (Hcount2 "D"%char) as H2. simpl in H2.
      pose proof (count_char_convert "D" m) as H0. fold g0 in H0.
      rewrite H0 in H2 by done. lia.
    + rewrite Hcount3 by done. pose proof (Hcount2 "S"%char) as H2. simpl in H2.
      pose proof (count_char_convert "S" m) as H0. fold g0 in H0.
      rewrite H0 in H2 by done. lia.
  - apply (linked_walk m g3); [| by apply Hconn].
    intros q Hq.
    destruct (Hframe q) as [Hsame | [_ HF]]; [| by exists "F"%char].
    rewrite Hat2', Hq in Hsame.
    repeat case_decide; eexists; (split; [exact Hsame | done]).
Qed.

End RandomTest.

Lemma build_random_tests_spec (rnd : nat → nat → nat)
    (shuffle : nat → list pos → list pos) (randint : nat → Z) (num_tests : Z) :
  (∀ i l, shuffle i l ≡ₚ l) → (∀ i, 1 ≤ randint i ≤ 3) →
  ∃ tests, Main.build_random_tests rnd shuffle randint num_tests = Ret tests ∧
           length tests = Z.to_nat num_tests ∧
           Forall random_test_ok tests.
Proof.
  intros Hshuffle Hrand. unfold Main.build_random_tests. cbv zeta.
  destruct (foldM_list_inv
    (λ pre tests, length tests = length pre ∧ Forall random_test_ok tests)
    (λ _, True)
    (λ tests i, t ← Main.random_test (rnd i) (shuffle i) (randint i) 31 51;
                Ret (tests ++ [t])))
    with (l := seq 0 (Z.to_nat num_tests)) (pre := @nil nat) (s := @nil Main.test)
    as (tests & -> & Hlen & Hok).
  - intros pre i tests _ [Hlen Hok].
    destruct (random_test_spec (rnd i) (shuffle i) (randint i) (Hshuffle i) (Hrand i))
      as (t & -> & Ht).
    rewrite bind_Ret. eexists. split; [done |]. split.
    + rewrite !length_app. simpl. lia.
    + apply Forall_app. split; [done |]. by constructor.
  - by apply Forall_forall.
  - done.
  - exists tests. split; [done |]. split; [| done].
    simpl in Hlen. by rewrite Hlen, length_seq.
Qed.

(** * The properties of the specification *)

Lemma rectangular_scenario : rectangular scenario_grid.
Proof. split; [done |]. split; [done |]. by repeat constructor. Qed.

Lemma rectangular_open : rectangular open_grid.
Proof. split; [done |]. split; [done |]. by repeat constructor. Qed.

Lemma adjacent_sym (p q : pos) : adjacent p q → adjacent q p.
Proof.
  intros (d & Hd & ->). exists (- d.1, - d.2). split.
  - unfold directions in *. rewrite !elem_of_cons in *.
    destruct Hd as [-> | [-> | [-> | [-> | []%elem_of_nil]]]]; simpl; auto.
  - destruct p; simpl. f_equal; lia.
Qed.

Lemma fire_reaches_source (g : grid) n p :
  fire_reaches g n p → ∃ s, at2 g s = Some "F"%char.
Proof. induction 1; eauto. Qed.

(** C2. On a rectangular grid [compute_fire_time] returns a matrix of the
    dimensions of the grid; an entry is the integer [d] exactly when [d] is
    the length of a shortest walk, not crossing walls, from some ['F'] cell
    to that cell (so every ['F'] cell holds 0); an entry is [INF] exactly
    when the cell is in the grid and no such walk reaches it, which is
    every cell of a grid without ['F'] cells. *)
Theorem compute_fire_time_shortest (g : grid) :
  rectangular g →
  ∃ ft, FireTime.compute_fire_time g = Ret ft ∧
    shape (length g) (length (hd [] g)) ft ∧
    (∀ p, at2 g p = Some "F"%char → at2 ft p = Some (Fin 0)) ∧
    (∀ p d, at2 ft p = Some (Fin d) ↔ 0 ≤ d ∧ fire_distance g p (Z.to_nat d)) ∧
    (∀ p, at2 ft p = Some INF ↔
          is_Some (at2 g p) ∧ ∀ n, ¬ fire_reaches g n p) ∧
    ((∀ p, at2 g p ≠ Some "F"%char) →
     ∀ p, is_Some (at2 g p) → at2 ft p = Some INF).
Proof.
  intros Hrect. destruct (compute_fire_time_final g Hrect) as (ft & Hft & Hfin).
  destruct Hfin as [Hshape Hsound Hcomplete Hclosed].
  pose proof Hrect as [_ Hgshape].
  assert (∀ p, is_Some (at2 g p) ↔ is_Some (at2 ft p)) as Hsame.
  { intros p. by rewrite (at2_inside _ _ g p Hgshape), (at2_inside _ _ ft p Hshape). }
  assert (∀ p, at2 ft p = Some INF ↔
               is_Some (at2 g p) ∧ ∀ n, ¬ fire_reaches g n p) as Hinf.
  { intros p. split.
    - intros Hp. split; [apply Hsame; by eexists |].
      intros n Hn. destruct (Hcomplete n p Hn) as (v & Hv & _). congruence.
    - intros [[v Hv]%Hsame Hno]. destruct v as [d|]; [| done].
      destruct (Hsound p d Hv) as [_ Hreach]. by destruct (Hno _ Hreach). }
  exists ft. split; [done |]. split; [done |]. split; [| split; [| split]].
  - intros p HF. destruct (Hcomplete 0%nat p (fire_source g p HF)) as (v & Hv & Hle).
    destruct (Hsound p v Hv) as [Hv0 _]. by replace v with 0 in Hv by lia.
  - intros p d. split.
    + intros Hd. destruct (Hsound p d Hd) as [Hd0 Hreach].
      split; [done |]. split; [done |].
      intros n Hn. destruct (Hcomplete n p Hn) as (v & Hv & Hle).
      rewrite Hd in Hv. injection Hv as <-. lia.
    + intros [Hd0 [Hreach Hmin]].
      destruct (Hcomplete _ p Hreach) as (v & Hv & Hle).
      destruct (Hsound p v Hv) as [Hv0 Hreachv].
      specialize (Hmin _ Hreachv). by replace d with v by lia.
  - done.
  - intros Hnone p Hp. apply Hinf. split; [done |].
    intros n Hn. destruct (fire_reaches_source g n p Hn) as [s Hs].
    by destruct (Hnone s).
Qed.

Lemma compute_fire_time_shortest_witness :
  ∃ ft, FireTime.compute_fire_time scenario_grid = Ret ft ∧
    shape 3 3 ft ∧
    (∀ p, at2 scenario_grid p = Some "F"%char → at2 ft p = Some (Fin 0)) ∧
    (∀ p d, at2 ft p = Some (Fin d) ↔
            0 ≤ d ∧ fire_distance scenario_grid p (Z.to_nat d)) ∧
    (∀ p, at2 ft p = Some INF ↔
          is_Some (at2 scenario_grid p) ∧ ∀ n, ¬ fire_reaches scenario_grid n p) ∧
    ((∀ p, at2 scenario_grid p ≠ Some "F"%char) →
     ∀ p, is_Some (at2 scenario_grid p) → at2 ft p = Some INF).
Proof. exact (compute_fire_time_shortest scenario_grid rectangular_scenario). Defined.

(** C7. On a rectangular grid the matrix returned by [compute_fire_time]
    gives times that differ by at most 1 to any two 4-adjacent cells that
    are not walls, when both times are integers (neither is [INF]). *)
Theorem compute_fire_time_propagation (g : grid) :
  rectangular g →
  ∃ ft, FireTime.compute_fire_time g = Ret ft ∧
    ∀ p q a b,
      passable g p → passable g q → adjacent p q →
      at2 ft p = Some (Fin a) → at2 ft q = Some (Fin b) →
      Z.abs (a - b) ≤ 1.
Proof.
  intros Hrect. destruct (compute_fire_time_final g Hrect) as (ft & Hft & Hfin).
  exists ft. split; [done |].
  intros p q a b Hp Hq Hadj Ha Hb.
  destruct (FireInv.final_closed _ _ Hfin p q a Ha Hadj Hq) as (b' & Hb' & Hle).
  destruct (FireInv.final_closed _ _ Hfin q p b Hb (adjacent_sym _ _ Hadj) Hp)
    as (a' & Ha' & Hle').
  rewrite Hb in Hb'. rewrite Ha in Ha'. injection Hb' as <-. injection Ha' as <-.
  lia.
Qed.

Lemma compute_fire_time_propagation_witness :
  ∃ ft, FireTime.compute_fire_time scenario_grid = Ret ft ∧
    ∀ p q a b,
      passable scenario_grid p → passable scenario_grid q → adjacent p q →
      at2 ft p = Some (Fin a) → at2 ft q = Some (Fin b) →
      Z.abs (a - b) ≤ 1.
Proof. exact (compute_fire_time_propagation scenario_grid rectangular_scenario). Defined.

(** C1. The hazard-aware search always comes to an end, and in every path
    it returns the cell at index [i] has a fire time strictly greater than
    [i]: [fire_time[y][x] > i].  This holds for every grid, start, end, fire
    matrix and heuristic kind. *)
Theorem a_star_with_fire_safe `{Float64} (self : Algorithm) (g : grid)
    (start end_ : pos) (fire_time : fire_map) (mode : string) :
  (a_star_with_fire self g start end_ fire_time mode).1 ≠ OutOfFuel ∧
  ∀ path, (a_star_with_fire self g start end_ fire_time mode).1 = Ret path →
    ∀ i p, path !! i = Some p → fire_safe fire_time p (Z.of_nat i).
Proof.
  pose proof (fire_search_spec self g start end_ fire_time mode) as Hspec.
  destruct (a_star_with_fire self g start end_ fire_time mode).1 as [path | e |];
    [| done | done].
  split; [done |]. intros ? [= <-] i p Hp.
  destruct Hspec as [-> | [_ Hsafe]]; [done | by apply Hsafe].
Qed.

Lemma a_star_with_fire_safe_witness :
  fire_safe scenario_fire (1, 2) 1.
Proof.
  apply (proj2 (@a_star_with_fire_safe Float64_half Algorithm_init scenario_grid
                  (0, 2) (2, 2) scenario_fire "manhattan")
           [(0, 2); (1, 2); (2, 2)] eq_refl 1%nat (1, 2) eq_refl).
Defined.

(** C3. On a rectangular grid whose start and end cells are not walls, for
    the heuristic kinds manhattan and zero, and for euclidean when the
    floating-point operations are accurate to one half on the costs and
    offsets that occur in a grid of this size, the hazard-blind
    search returns: when the end can be reached from the start, a route
    from the start to the end whose number of edges is the distance between
    them in the wall-only graph; and the empty list when it cannot. *)
Theorem a_star_no_fire_shortest `{Float64} (self : Algorithm) (g : grid)
    (start end_ : pos) (mode : string) :
  rectangular g → passable g start → passable g end_ →
  supported_mode g mode →
  ∃ path self',
    a_star_no_fire self g start end_ mode = (Ret path, self') ∧
    ((∃ k, walk g start k end_) →
       route g start path end_ ∧ shortest g start end_ (length path - 1)) ∧
    ((∀ k, ¬ walk g start k end_) → path = []).
Proof.
  intros Hrect Hstart Hend Hmode.
  apply plain_search_optimal; [done |]. by apply supported_mode_consistent.
Qed.

Lemma a_star_no_fire_shortest_witness :
  ∃ path self',
    @a_star_no_fire Float64_half Algorithm_init open_grid (0, 0) (4, 4) "euclidean"
    = (Ret path, self') ∧
    ((∃ k, walk open_grid (0, 0) k (4, 4)) →
       route open_grid (0, 0) path (4, 4) ∧
       shortest open_grid (0, 0) (4, 4) (length path - 1)) ∧
    ((∀ k, ¬ walk open_grid (0, 0) k (4, 4)) → path = []).
Proof.
  apply (@a_star_no_fire_shortest Float64_half).
  - split; [done |]. split; [reflexivity |]. by repeat constructor.
  - exists "."%char. split; reflexivity.
  - exists "."%char. split; reflexivity.
  - right; right. split; [reflexivity | apply Float64_half_accurate].
Defined.

(** C4, as the code has it.  A heuristic kind other than manhattan,
    euclidean and zero is not rejected: the call returns the Manhattan
    distance. *)
Theorem heuristic_fallback `{Float64} (node end_ : pos) (mode : string) :
  mode ≠ "manhattan"%string → mode ≠ "euclidean"%string → mode ≠ "zero"%string →
  heuristic node end_ mode = Int (manhattan node end_) ∧
  heuristic node end_ mode = heuristic node end_ "manhattan".
Proof.
  intros H1%String.eqb_neq H2%String.eqb_neq H3%String.eqb_neq.
  unfold heuristic, manhattan. destruct node, end_.
  rewrite H1, H2, H3. done.
Qed.

Lemma heuristic_fallback_witness :
  @heuristic Float64_half (0, 0) (3, 4) "chebyshev" = Int (manhattan (0, 0) (3, 4)) ∧
  @heuristic Float64_half (0, 0) (3, 4) "chebyshev"
  = @heuristic Float64_half (0, 0) (3, 4) "manhattan".
Proof. apply (@heuristic_fallback Float64_half); done. Defined.

(** C4 fails on the code: with the unknown kind ["chebyshev"] the call
    returns 7, the Manhattan distance from (0, 0) to (3, 4). *)
Lemma heuristic_unknown_kind_returns :
  @heuristic Float64_half (0, 0) (3, 4) "chebyshev" = Int 7.
Proof. reflexivity. Qed.

(** C5. When the fire time of the start cell is at most 0, the hazard-aware
    search returns the empty path at once, as a normal result, whatever the
    (non-empty) grid, the end and the heuristic kind. *)
Theorem a_star_with_fire_start_on_fire `{Float64} (self : Algorithm) (g : grid)
    (start end_ : pos) (fire_time : fire_map) (mode : string) (v : ftime) :
  g ≠ [] →
  get2 fire_time start.1 start.2 = Ret v →
  ftime_le v (Fin 0) = true →
  (a_star_with_fire self g start end_ fire_time mode).1 = Ret [].
Proof.
  intros Hg Hv Hle. unfold a_star_with_fire.
  destruct g as [|row0 g]; [done |]. simpl.
  unfold grid_dims. simpl. by rewrite Hv, Hle.
Qed.

Lemma a_star_with_fire_start_on_fire_witness :
  (@a_star_with_fire Float64_half Algorithm_init burning_grid (0, 2) (2, 2)
     burning_fire "manhattan").1 = Ret [].
Proof.
  apply (@a_star_with_fire_start_on_fire Float64_half) with (v := Fin 0); done.
Defined.

(** C6 fails on the code.  The hazard-blind search resets the counter, and
    so does the hazard-aware search when it enters its loop; but when the
    start cell is already on fire the hazard-aware search returns before the
    reset, and the counter keeps the value of the previous search. *)
Theorem expanded_nodes_kept_on_immediate_failure `{Float64} (self : Algorithm)
    (g : grid) (start end_ : pos) (fire_time : fire_map) (mode : string)
    (v : ftime) :
  g ≠ [] →
  get2 fire_time start.1 start.2 = Ret v →
  ftime_le v (Fin 0) = true →
  (a_star_with_fire self g start end_ fire_time mode).2 = self.
Proof.
  intros Hg Hv Hle. unfold a_star_with_fire.
  destruct g as [|row0 g]; [done |]. simpl.
  unfold grid_dims. simpl. by rewrite Hv, Hle.
Qed.

Lemma expanded_nodes_kept_on_immediate_failure_witness :
  (@a_star_with_fire Float64_half {| expanded_nodes := 7 |} burning_grid
     (0, 2) (2, 2) burning_fire "manhattan").2 = {| expanded_nodes := 7 |}.
Proof.
  apply (@expanded_nodes_kept_on_immediate_failure Float64_half)
    with (v := Fin 0); done.
Defined.

(** The counter after a search on the scenario grid, then a hazard-aware
    search from a burning start: it reads 2, not 0. *)
Lemma expanded_nodes_stale_example :
  let self1 := (@a_star_no_fire Float64_half Algorithm_init scenario_grid
                  (0, 2) (2, 2) "manhattan").2 in
  let self2 := (@a_star_with_fire Float64_half self1 burning_grid
                  (0, 2) (2, 2) burning_fire "manhattan").2 in
  expanded_nodes self1 = 2 ∧ expanded_nodes self2 = 2.
Proof. vm_compute. done. Qed.

(** The other calls do reset the counter: their result does not depend on
    the value it had. *)
Lemma a_star_no_fire_resets `{Float64} (self self' : Algorithm) (g : grid)
    (start end_ : pos) (mode : string) :
  g ≠ [] →
  a_star_no_fire self g start end_ mode = a_star_no_fire self' g start end_ mode.
Proof. intros Hg. by destruct g. Qed.

Lemma a_star_with_fire_resets `{Float64} (self self' : Algorithm) (g : grid)
    (start end_ : pos) (fire_time : fire_map) (mode : string) (v : ftime) :
  g ≠ [] →
  get2 fire_time start.1 start.2 = Ret v →
  ftime_le v (Fin 0) = false →
  a_star_with_fire self g start end_ fire_time mode
  = a_star_with_fire self' g start end_ fire_time mode.
Proof.
  intros Hg Hv Hle. unfold a_star_with_fire.
  destruct g as [|row0 g]; [done |]. unfold grid_dims. simpl.
  by rewrite Hv, Hle.
Qed.

Lemma route_cells (g : grid) (s : pos) l t :
  route g s l t → ∀ p, p ∈ l → p = s ∨ passable g p.
Proof.
  induction 1 as [| l p q Hroute IH Hadj Hpass]; intros x Hx.
  - apply list_elem_of_singleton in Hx. by left.
  - apply elem_of_app in Hx as [Hx | ->%list_elem_of_singleton]; [by apply IH | by right].
Qed.

(** C8, as the code has it.  In a path returned by either search every cell
    other than the start cell is a cell of the grid that is not a wall; so
    no wall appears in the path when the start cell is not a wall. *)
Theorem returned_path_avoids_walls `{Float64} (self : Algorithm) (g : grid)
    (start end_ : pos) (fire_time : fire_map) (mode : string) (path : list pos) :
  (a_star_no_fire self g start end_ mode).1 = Ret path ∨
  (a_star_with_fire self g start end_ fire_time mode).1 = Ret path →
  (∀ p, p ∈ path → p ≠ start → passable g p) ∧
  (passable g start → ∀ p, p ∈ path → passable g p).
Proof.
  intros Hret.
  assert (path = [] ∨ route g start path end_) as [-> | Hroute].
  { destruct Hret as [Hret | Hret].
    - pose proof (plain_search_spec self g start end_ mode) as Hspec.
      by rewrite Hret in Hspec.
    - pose proof (fire_search_spec self g start end_ fire_time mode) as Hspec.
      rewrite Hret in Hspec. destruct Hspec as [? | [? _]]; auto. }
  - split; [by intros p ?%elem_of_nil | by intros _ p ?%elem_of_nil].
  - pose proof (route_cells g start path end_ Hroute) as Hcells.
    split.
    + intros p Hp Hne. by destruct (Hcells p Hp).
    + intros Hstart p Hp. by destruct (Hcells p Hp) as [-> | ?].
Qed.

Lemma returned_path_avoids_walls_witness :
  (∀ p, p ∈ [(0, 2); (1, 2); (2, 2)] → p ≠ (0, 2) → passable scenario_grid p) ∧
  (passable scenario_grid (0, 2) →
   ∀ p, p ∈ [(0, 2); (1, 2); (2, 2)] → passable scenario_grid p).
Proof.
  apply (@returned_path_avoids_walls Float64_half Algorithm_init scenario_grid
           (0, 2) (2, 2) scenario_fire "manhattan").
  right. reflexivity.
Defined.

(** C8 fails on the code: from a start cell that is a wall, both searches
    return a path that begins with that wall. *)
Lemma wall_in_returned_path :
  (@a_star_no_fire Float64_half Algorithm_init walled_start_grid
     (0, 0) (1, 0) "manhattan").1 = Ret [(0, 0); (1, 0)] ∧
  (@a_star_with_fire Float64_half Algorithm_init walled_start_grid
     (0, 0) (1, 0) never_fire "manhattan").1 = Ret [(0, 0); (1, 0)] ∧
  at2 walled_start_grid (0, 0) = Some "#"%char.
Proof. vm_compute. done. Qed.

(** ** The scenarios of the specification, run on the model *)

Example scenario_1_fire_map :
  FireTime.compute_fire_time scenario_grid = Ret scenario_fire.
Proof. vm_compute. reflexivity. Qed.

Example scenario_2_path :
  Forall (λ mode,
    (@a_star_with_fire Float64_half Algorithm_init scenario_grid (0, 2) (2, 2)
       scenario_fire mode).1 = Ret [(0, 2); (1, 2); (2, 2)])
    ["manhattan"; "euclidean"; "zero"]%string.
Proof. repeat constructor. Qed.

Example scenario_3_fire_map :
  FireTime.compute_fire_time burning_grid = Ret burning_fire.
Proof. vm_compute. reflexivity. Qed.

Example scenario_3_no_path :
  (@a_star_with_fire Float64_half Algorithm_init burning_grid (0, 2) (2, 2)
     burning_fire "manhattan").1 = Ret [].
Proof. reflexivity. Qed.

Example scenario_4_length :
  Forall (λ mode,
    match (@a_star_no_fire Float64_half Algorithm_init open_grid (0, 0) (4, 4)
             mode).1 with
    | Ret path => length path = 9%nat
    | _ => False
    end)
    ["manhattan"; "euclidean"; "zero"]%string.
Proof. repeat (constructor; [vm_compute; reflexivity |]). constructor. Qed.

(** C9, as the code has it.  [generate] takes no loop fraction: it carves
    and then calls [add_loops(0.1)].  For every width and height of at
    least 3 that are not both even, and every sequence of random draws,
    the maze it has carved when it calls [add_loops] is perfect: its free
    cells are all linked to the cell (1, 1), with exactly one open
    connection less than there are free cells.  The maze it returns is the
    carved one with a tenth (rounded down) of the walls that [add_loops]
    lists opened; it stays connected, each opened wall adds one free cell
    and at least two connections, and so it is perfect exactly when fewer
    than ten walls are listed. *)
Theorem generate_perfect_up_to_loops (rnd : nat → nat) (width height : Z) :
  3 ≤ width → 3 ≤ height →
  Z.odd width = true ∨ Z.odd height = true →
  ∃ carved k walls m,
    MapGenerator.carve rnd width height = Ret (carved, k) ∧
    MapGenerator.scan width height carved = Ret walls ∧
    MapGenerator.generate rnd width height = Ret m ∧
    shape (Z.to_nat height) (Z.to_nat width) carved ∧ perfect carved ∧
    shape (Z.to_nat height) (Z.to_nat width) m ∧ connected m ∧
    free_count m = (free_count carved + length walls / 10)%nat ∧
    (edge_count carved + 2 * (length walls / 10) ≤ edge_count m)%nat ∧
    (perfect m ↔ (length walls < 10)%nat).
Proof.
  intros Hw Hh Hodd. apply generate_loops; [done | done |].
  rewrite !Zmod_odd. destruct Hodd as [-> | ->]; auto.
Qed.

Lemma generate_perfect_up_to_loops_witness :
  ∃ carved k walls m,
    MapGenerator.carve draws_9x9 9 9 = Ret (carved, k) ∧
    MapGenerator.scan 9 9 carved = Ret walls ∧
    MapGenerator.generate draws_9x9 9 9 = Ret m ∧
    shape (Z.to_nat 9) (Z.to_nat 9) carved ∧ perfect carved ∧
    shape (Z.to_nat 9) (Z.to_nat 9) m ∧ connected m ∧
    free_count m = (free_count carved + length walls / 10)%nat ∧
    (edge_count carved + 2 * (length walls / 10) ≤ edge_count m)%nat ∧
    (perfect m ↔ (length walls < 10)%nat).
Proof.
  apply (generate_perfect_up_to_loops draws_9x9 9 9); [lia | lia | by left].
Defined.

(** C9 fails on the code.  On a 4 x 4 maze the forced opening of the cell
    (2, 2) leaves two free cells and no connection between them.  On a
    9 x 9 maze with the draws 2, 9, 16, ... the carving leaves 31 free
    cells and 30 connections, and [add_loops(0.1)] opens one of the 17
    walls it lists: the maze returned has 32 free cells and 32
    connections, one cycle. *)
Lemma generate_not_perfect :
  (MapGenerator.generate no_random 4 4 = Ret maze_4x4 ∧
   free_count maze_4x4 = 2%nat ∧ edge_count maze_4x4 = 0%nat ∧
   ¬ perfect maze_4x4) ∧
  (MapGenerator.carve draws_9x9 9 9 = Ret (carved_9x9, 15%nat) ∧
   free_count carved_9x9 = 31%nat ∧ edge_count carved_9x9 = 30%nat ∧
   MapGenerator.generate draws_9x9 9 9 = Ret maze_9x9 ∧
   free_count maze_9x9 = 32%nat ∧ edge_count maze_9x9 = 32%nat ∧
   ¬ perfect maze_9x9).
Proof.
  split.
  - split; [reflexivity |]. split; [reflexivity |]. split; [reflexivity |].
    intros [_ Hcount]. vm_compute in Hcount. discriminate.
  - split; [by vm_compute |]. split; [by vm_compute |]. split; [by vm_compute |].
    split; [by vm_compute |]. split; [by vm_compute |]. split; [by vm_compute |].
    intros [_ Hcount]. vm_compute in Hcount. discriminate.
Qed.

(** C10. For every width and height of at least 3, and every sequence of
    random draws, [generate] returns a maze of these dimensions in which
    every cell of the outer border is a wall. *)
Theorem generate_border_walls (rnd : nat → nat) (width height : Z) :
  3 ≤ width → 3 ≤ height →
  ∃ m, MapGenerator.generate rnd width height = Ret m ∧
       shape (Z.to_nat height) (Z.to_nat width) m ∧
       ∀ p, on_border width height p → at2 m p = Some 1.
Proof. intros Hw Hh. by apply generate_returns_border. Qed.

Lemma generate_border_walls_witness :
  ∃ m, MapGenerator.generate (λ k, k) 7 5 = Ret m ∧
       shape 5 7 m ∧
       ∀ p, on_border 7 5 p → at2 m p = Some 1.
Proof. apply (generate_border_walls (λ k, k) 7 5); lia. Defined.

(** * Further properties of [Algorithm.py] *)

Lemma shape_scenario_fire : shape 3 3 scenario_fire.
Proof. split; [done |]. by repeat constructor. Qed.

Lemma rectangular_scenario_grid : rectangular scenario_grid.
Proof. split; [done |]. split; [done |]. by repeat constructor. Qed.

Lemma rectangular_open_grid : rectangular open_grid.
Proof. split; [done |]. split; [done |]. by repeat constructor. Qed.

(** X1. On a rectangular grid with a fire matrix of the same dimensions,
    start and end not walls, and a supported heuristic kind, the
    hazard-aware search returns: when the end can be reached by a walk
    whose [i]-th cell is safe at time [i], such a route of least length;
    and the empty list when there is no such walk. *)
Theorem a_star_with_fire_shortest_safe `{Float64} (self : Algorithm) (g : grid)
    (start end_ : pos) (fire_time : fire_map) (mode : string) :
  rectangular g →
  shape (length g) (length (hd [] g)) fire_time →
  passable g start → passable g end_ →
  supported_mode g mode →
  ∃ path self',
    a_star_with_fire self g start end_ fire_time mode = (Ret path, self') ∧
    ((∃ k, safe_walk g fire_time start k end_) →
       route g start path end_ ∧
       (∀ i x, path !! i = Some x → fire_safe fire_time x (Z.of_nat i)) ∧
       ∀ k, safe_walk g fire_time start k end_ → (length path - 1 ≤ k)%nat) ∧
    ((∀ k, ¬ safe_walk g fire_time start k end_) → path = []).
Proof.
  intros Hrect Hft Hstart Hend Hmode.
  apply fire_search_optimal; [done | done | done |].
  by apply supported_mode_consistent.
Qed.

Lemma a_star_with_fire_shortest_safe_witness :
  ∃ path self',
    @a_star_with_fire Float64_half Algorithm_init scenario_grid (0, 2) (2, 2)
      scenario_fire "manhattan" = (Ret path, self') ∧
    ((∃ k, safe_walk scenario_grid scenario_fire (0, 2) k (2, 2)) →
       route scenario_grid (0, 2) path (2, 2) ∧
       (∀ i x, path !! i = Some x → fire_safe scenario_fire x (Z.of_nat i)) ∧
       ∀ k, safe_walk scenario_grid scenario_fire (0, 2) k (2, 2) →
            (length path - 1 ≤ k)%nat) ∧
    ((∀ k, ¬ safe_walk scenario_grid scenario_fire (0, 2) k (2, 2)) → path = []).
Proof.
  apply (@a_star_with_fire_shortest_safe Float64_half).
  - apply rectangular_scenario_grid.
  - apply shape_scenario_fire.
  - exists "D"%char. split; reflexivity.
  - exists "S"%char. split; reflexivity.
  - left. reflexivity.
Defined.

(** X2. Where the fire never arrives (every entry of the fire matrix is
    [INF]), the hazard-aware search is the hazard-blind one: on a
    rectangular grid, with a fire matrix of the same dimensions and a start
    inside the grid, both calls give the same path and leave the same
    counter. *)
Theorem a_star_with_fire_without_fire `{Float64} (self : Algorithm) (g : grid)
    (start end_ : pos) (fire_time : fire_map) (mode : string) :
  rectangular g →
  shape (length g) (length (hd [] g)) fire_time →
  fireless fire_time →
  is_Some (at2 g start) →
  a_star_with_fire self g start end_ fire_time mode
  = a_star_no_fire self g start end_ mode.
Proof.
  intros Hrect Hft Hnofire Hstart. pose proof Hrect as [_ Hshape].
  apply (at2_inside _ _ g start Hshape) in Hstart.
  assert (in_bounds (Z.of_nat (length g)) (Z.of_nat (length (hd [] g)))
            start.1 start.2 = true) as Hin by (unfold in_bounds; lia).
  unfold a_star_with_fire, a_star_no_fire. rewrite rectangular_dims by done.
  rewrite (fireless_get2 _ _ fire_time Hft Hnofire _ _ Hin). cbn [ftime_le].
  rewrite (fireless_loop g _ _ start end_ fire_time mode Hft Hnofire Hin); [done |].
  apply J_initial. constructor.
Qed.

Lemma a_star_with_fire_without_fire_witness :
  @a_star_with_fire Float64_half Algorithm_init open_grid (0, 0) (4, 4)
    (replicate 5 (replicate 5 INF)) "zero"
  = @a_star_no_fire Float64_half Algorithm_init open_grid (0, 0) (4, 4) "zero".
Proof.
  apply (@a_star_with_fire_without_fire Float64_half).
  - apply rectangular_open_grid.
  - apply (shape_replicate 5 5).
  - intros p v Hv. by apply (at2_replicate 5 5) in Hv.
  - by eexists.
Defined.

(** X3. A non-empty path returned by either search begins at the start,
    ends at the end, visits no position twice, and moves between
    4-adjacent positions at every step. *)
Theorem returned_path_is_simple `{Float64} (self : Algorithm) (g : grid)
    (start end_ : pos) (fire_time : fire_map) (mode : string) (path : list pos) :
  (a_star_no_fire self g start end_ mode).1 = Ret path ∨
  (a_star_with_fire self g start end_ fire_time mode).1 = Ret path →
  path ≠ [] →
  head path = Some start ∧ last path = Some end_ ∧ NoDup path ∧
  ∀ i p q, path !! i = Some p → path !! S i = Some q → adjacent p q.
Proof.
  intros Hret Hne.
  assert (∃ rows cols P st,
            SearchInv.J g rows cols start P st ∧ finish st end_ = Ret path)
    as (rows & cols & P & st & HJ & Hfin).
  { destruct Hret as [Hret | Hret].
    - destruct (a_star_no_fire self g start end_ mode) as [r self'] eqn:Hcall.
      simpl in Hret. subst r.
      destruct (a_star_no_fire_state _ _ _ _ _ _ _ Hcall)
        as (rows & cols & st & _ & HJ & _ & Hfin). by eauto 6.
    - destruct (a_star_with_fire self g start end_ fire_time mode)
        as [r self'] eqn:Hcall.
      simpl in Hret. subst r.
      destruct (a_star_with_fire_state _ _ _ _ _ _ _ _ Hcall)
        as [(_ & -> & _) | (_ & rows & cols & st & _ & HJ & _ & Hfin)]; [done |].
      by eauto 6. }
  destruct (J_finish_chain g rows cols start end_ P st path HJ Hfin Hne)
    as (Hnd & Hlast & Hhead & _).
  do 3 (split; [done |]).
  destruct (J_finish g rows cols start end_ P st HJ) as (path' & Hfin' & Hfinished).
  rewrite Hfin in Hfin'. injection Hfin' as <-.
  destruct Hfinished as [[_ ->] | (ge & _ & Hroute & _)]; [done |].
  intros i p q Hp Hq. by destruct (route_adjacent g start path end_ Hroute i p q).
Qed.

Lemma returned_path_is_simple_witness :
  head [(0, 2); (1, 2); (2, 2)] = Some (0, 2) ∧
  last [(0, 2); (1, 2); (2, 2)] = Some (2, 2) ∧
  NoDup [(0, 2); (1, 2); (2, 2)] ∧
  ∀ i p q, [(0, 2); (1, 2); (2, 2)] !! i = Some p →
           [(0, 2); (1, 2); (2, 2)] !! S i = Some q → adjacent p q.
Proof.
  apply (@returned_path_is_simple Float64_half Algorithm_init scenario_grid
           (0, 2) (2, 2) scenario_fire "manhattan").
  - right. reflexivity.
  - done.
Defined.

(** X4. After a search that returns, the counter of expanded positions is
    at least the number of steps of the returned path, and at most the
    number of cells of the grid when the start is one of them.  For the
    hazard-aware search this holds when the start is safe at time 0 (the
    counter is left untouched otherwise). *)
Theorem expanded_nodes_bounds `{Float64} (self self' : Algorithm) (g : grid)
    (start end_ : pos) (fire_time : fire_map) (mode : string) (path : list pos) :
  a_star_no_fire self g start end_ mode = (Ret path, self') ∨
  (fire_safe fire_time start 0 ∧
   a_star_with_fire self g start end_ fire_time mode = (Ret path, self')) →
  Z.of_nat (length path) - 1 ≤ expanded_nodes self' ∧
  (is_Some (at2 g start) → rectangular g →
   expanded_nodes self' ≤ Z.of_nat (length g) * Z.of_nat (length (hd [] g))).
Proof.
  intros Hret.
  assert (∃ rows cols P st,
            grid_dims g = Ret (rows, cols) ∧
            SearchInv.J g rows cols start P st ∧ counted end_ self' st ∧
            finish st end_ = Ret path)
    as (rows & cols & P & st & Hdims & HJ & [Hnodes Hprev] & Hfin).
  { destruct Hret as [Hcall | [Hsafe Hcall]].
    - destruct (a_star_no_fire_state _ _ _ _ _ _ _ Hcall)
        as (rows & cols & st & ? & HJ & ? & Hfin). by eauto 8.
    - destruct (a_star_with_fire_state _ _ _ _ _ _ _ _ Hcall)
        as [(Hno & _) | (_ & rows & cols & st & ? & HJ & ? & Hfin)]; [done |].
      by eauto 8. }
  assert (visited st ∖ {[end_]} ⊆ SearchInv.universe rows cols start) as Hsub.
  { intros x [Hx _]%elem_of_difference.
    by destruct (SearchInv.J_visited _ _ _ _ _ _ HJ x Hx). }
  apply subseteq_size in Hsub.
  split.
  - destruct (decide (path = [])) as [-> | Hne]; [simpl; lia |].
    destruct (J_finish_chain g rows cols start end_ P st path HJ Hfin Hne)
      as (Hnd & _ & _ & Hchain).
    pose proof (NoDup_size_bound path (visited st ∖ {[end_]}) Hnd) as Hlen.
    rewrite Hnodes. enough (length path ≤ S (size (visited st ∖ {[end_]})))%nat by lia.
    apply Hlen. intros i x y Hx Hy.
    destruct (Hprev y x (Hchain i x y Hx Hy)). set_solver.
  - intros Hstart Hrect. pose proof Hrect as [_ Hshape].
    rewrite rectangular_dims in Hdims by done. injection Hdims as <- <-.
    apply (at2_inside _ _ g start Hshape) in Hstart.
    pose proof (size_universe_inside (Z.of_nat (length g))
                  (Z.of_nat (length (hd [] g))) start) as Hu.
    rewrite Hnodes. unfold in_bounds in Hu. lia.
Qed.

Lemma expanded_nodes_bounds_witness :
  Z.of_nat (length [(0, 2); (1, 2); (2, 2)]) - 1
  ≤ expanded_nodes {| expanded_nodes := 2 |} ∧
  (is_Some (at2 scenario_grid (0, 2)) → rectangular scenario_grid →
   expanded_nodes {| expanded_nodes := 2 |}
   ≤ Z.of_nat (length scenario_grid) * Z.of_nat (length (hd [] scenario_grid))).
Proof.
  apply (@expanded_nodes_bounds Float64_half Algorithm_init {| expanded_nodes := 2 |}
           scenario_grid (0, 2) (2, 2) scenario_fire "manhattan").
  left. reflexivity.
Defined.

Lemma finish_start `{Float64} (p : pos) (mode : string) h :
  finish (add_visited (set_heap (initial_state p p mode) h) p) p = Ret [p].
Proof.
  unfold finish. cbn [add_visited set_heap initial_state previous].
  rewrite lookup_singleton_eq. cbn [reconstruct].
  rewrite lookup_singleton_eq, reconstruct_None. done.
Qed.

Lemma grid_dims_cons (row0 : list ascii) (g : grid) :
  grid_dims (row0 :: g) = Ret (Z.of_nat (S (length g)), Z.of_nat (length row0)).
Proof. done. Qed.

Lemma plain_body_start `{Float64} g rows cols (p : pos) mode self k :
  Plain.body g rows cols p mode self (initial_state p p mode) (k, p) []
  = Stop (Ret (add_visited (set_heap (initial_state p p mode) []) p)) self.
Proof.
  unfold Plain.body. cbn [pop_min].
  rewrite decide_False by (simpl; set_solver).
  by rewrite decide_True.
Qed.

Lemma fire_body_start `{Float64} g rows cols (p : pos) ft mode self k :
  fire_safe ft p 0 →
  Fire.body g rows cols p ft mode self (initial_state p p mode) (k, p) []
  = Stop (Ret (add_visited (set_heap (initial_state p p mode) []) p)) self.
Proof.
  intros (fv & Hfv & Hgt). unfold Fire.body. cbn [pop_min].
  rewrite decide_False by (simpl; set_solver).
  cbn [add_visited set_heap initial_state g_cost].
  rewrite lookup_singleton_eq, Hfv, ftime_le_gt, Hgt. cbn [negb].
  by rewrite decide_True.
Qed.

(** X5. When the start is the end, the hazard-blind search on a non-empty
    grid returns the one-cell path and counts no expanded position,
    whatever the position is, a wall or a position outside the grid
    included; so does the hazard-aware search when the position is safe at
    time 0. *)
Theorem search_start_is_end `{Float64} (self : Algorithm) (g : grid) (p : pos)
    (fire_time : fire_map) (mode : string) :
  g ≠ [] →
  a_star_no_fire self g p p mode = (Ret [p], {| expanded_nodes := 0 |}) ∧
  (fire_safe fire_time p 0 →
   a_star_with_fire self g p p fire_time mode
   = (Ret [p], {| expanded_nodes := 0 |})).
Proof.
  intros Hg. destruct g as [|row0 g]; [done |].
  split.
  - unfold a_star_no_fire. rewrite grid_dims_cons.
    unfold search_fuel. cbn [while_open initial_state open_heap heappush].
    rewrite plain_body_start. cbn [mbind outcome_bind].
    by rewrite finish_start.
  - intros Hsafe. pose proof Hsafe as (fv & Hfv & Hgt).
    unfold a_star_with_fire. rewrite grid_dims_cons, Hfv, ftime_le_gt, Hgt.
    cbn [negb]. unfold search_fuel.
    cbn [while_open initial_state open_heap heappush].
    rewrite (fire_body_start _ _ _ _ _ _ _ _ Hsafe). cbn [mbind outcome_bind].
    by rewrite finish_start.
Qed.

Lemma search_start_is_end_witness :
  @a_star_no_fire Float64_half Algorithm_init walled_start_grid (0, 0) (0, 0) "zero"
  = (Ret [(0, 0)], {| expanded_nodes := 0 |}) ∧
  (fire_safe never_fire (0, 0) 0 →
   @a_star_with_fire Float64_half Algorithm_init walled_start_grid (0, 0) (0, 0)
     never_fire "zero" = (Ret [(0, 0)], {| expanded_nodes := 0 |})).
Proof. apply (@search_start_is_end Float64_half). done. Defined.

(** ** The searches on rectangular grids *)

Section Returning.
Import SearchInv.
Context `{Float64}.
Variables (g : grid) (start end_ : pos) (mode : string).
Hypothesis g_rect : rectangular g.

Local Abbreviation rows := (Z.of_nat (length g)).
Local Abbreviation cols := (Z.of_nat (length (hd [] g))).

Lemma finish_unreachable (P : pos → Z → Prop) st :
  J g rows cols start P st →
  ∃ path, finish st end_ = Ret path ∧
          (end_ ≠ start → ¬ passable g end_ → path = []).
Proof.
  intros HJ. destruct (J_finish g rows cols start end_ P st HJ)
    as (path & Hfin & Hfinished).
  exists path. split; [done |]. intros Hne Hwall.
  destruct Hfinished as [[_ ->] | (ge & Hge & _)]; [done |].
  destruct (J_prev _ _ _ _ _ _ HJ _ _ Hge Hne) as (? & ? & _ & _ & _ & _ & Hpass).
  by destruct Hwall.
Qed.

Lemma plain_loop_returns self :
  ∃ st self',
    while_open (Plain.body g rows cols end_ mode) (search_fuel rows cols) self
      (initial_state start end_ mode) = (Ret st, self') ∧
    J g rows cols start (walked g start) st.
Proof.
  destruct g_rect as [_ Hshape].
  pose proof (while_open_spec (Plain.body g rows cols end_ mode)
    (J g rows cols start (walked g start))
    (λ r, ∃ st, r = Ret st ∧ J g rows cols start (walked g start) st)
    (measure rows cols start)) as Hloop.
  specialize (λ Hb He, Hloop Hb He (search_fuel rows cols) self
    (initial_state start end_ mode)) as Hloop.
  destruct (while_open _ _ _ _) as [r self']. simpl in Hloop.
  destruct Hloop as (st & -> & HJ); [| by eauto | | | by eauto].
  - intros self0 st e h HJ Hheap.
    pose proof (plain_body_spec g rows cols start end_ mode self0 st e h HJ Hheap) as Hb.
    pose proof (plain_body_total g _ _ start end_ mode Hshape _ self0 st e h HJ Hheap)
      as Hb'.
    destruct (Plain.body _ _ _ _ _ _ _ _ _) as [? ? | [? | ? |] ?]; by eauto.
  - apply J_initial. constructor.
  - apply measure_initial.
Qed.

Variable ft : fire_map.
Hypothesis ft_shape : shape (length g) (length (hd [] g)) ft.

Lemma fire_loop_returns self :
  fire_safe ft start 0 →
  ∃ st self',
    while_open (Fire.body g rows cols end_ ft mode) (search_fuel rows cols) self
      (initial_state start end_ mode) = (Ret st, self') ∧
    J g rows cols start (fire_safe ft) st.
Proof.
  intros Hsafe. destruct g_rect as [_ Hshape].
  pose proof (while_open_spec (Fire.body g rows cols end_ ft mode)
    (J g rows cols start (fire_safe ft))
    (λ r, ∃ st, r = Ret st ∧ J g rows cols start (fire_safe ft) st)
    (measure rows cols start)) as Hloop.
  specialize (λ Hb He, Hloop Hb He (search_fuel rows cols) self
    (initial_state start end_ mode)) as Hloop.
  destruct (while_open _ _ _ _) as [r self']. simpl in Hloop.
  destruct Hloop as (st & -> & HJ); [| by eauto | | | by eauto].
  - intros self0 st e h HJ Hheap.
    pose proof (fire_body_spec g rows cols start end_ ft mode self0 st e h HJ Hheap) as Hb.
    pose proof (fire_body_total g _ _ start end_ mode Hshape ft ft_shape self0 st e h
                  HJ Hheap) as Hb'.
    destruct (Fire.body _ _ _ _ _ _ _ _ _ _) as [? ? | [? | ? |] ?]; by eauto.
  - by apply J_initial.
  - apply measure_initial.
Qed.

End Returning.

(** X6. On a rectangular grid the hazard-blind search returns, raising no
    exception: for every start and end, also outside the grid, when the
    heuristic kind is not euclidean; and for a start and an end inside the
    grid when it is ([math.hypot] then gets differences of coordinates of
    the grid).  When the end is a wall or lies outside the grid, and is not
    the start, the path returned is empty. *)
Theorem a_star_no_fire_returns `{Float64} (self : Algorithm) (g : grid)
    (start end_ : pos) (mode : string) :
  rectangular g →
  mode ≠ "euclidean"%string ∨ (is_Some (at2 g start) ∧ is_Some (at2 g end_)) →
  ∃ path self',
    a_star_no_fire self g start end_ mode = (Ret path, self') ∧
    (end_ ≠ start → ¬ passable g end_ → path = []).
Proof.
  intros Hrect _. unfold a_star_no_fire. rewrite rectangular_dims by done.
  destruct (plain_loop_returns g start end_ mode Hrect {| expanded_nodes := 0 |})
    as (st & self' & -> & HJ).
  destruct (finish_unreachable g start end_ _ st HJ) as (path & Hfin & Hempty).
  exists path, self'. simpl. by rewrite Hfin.
Qed.

Lemma a_star_no_fire_returns_witness :
  ∃ path self',
    @a_star_no_fire Float64_half Algorithm_init scenario_grid (0, 2) (7, 7) "manhattan"
    = (Ret path, self') ∧
    ((7, 7) ≠ (0, 2) → ¬ passable scenario_grid (7, 7) → path = []).
Proof.
  apply (@a_star_no_fire_returns Float64_half).
  - apply rectangular_scenario_grid.
  - by left.
Defined.

(** X7. On a rectangular grid, with a fire matrix of the same dimensions
    and a start inside the grid, the hazard-aware search returns, raising
    no exception: for every end when the heuristic kind is not euclidean,
    and for an end inside the grid when it is.  The path is empty when the
    end is a wall or lies outside the grid, and is not the start. *)
Theorem a_star_with_fire_returns `{Float64} (self : Algorithm) (g : grid)
    (start end_ : pos) (fire_time : fire_map) (mode : string) :
  rectangular g →
  shape (length g) (length (hd [] g)) fire_time →
  is_Some (at2 g start) →
  mode ≠ "euclidean"%string ∨ is_Some (at2 g end_) →
  ∃ path self',
    a_star_with_fire self g start end_ fire_time mode = (Ret path, self') ∧
    (end_ ≠ start → ¬ passable g end_ → path = []).
Proof.
  intros Hrect Hft Hstart _. pose proof Hrect as [_ Hshape].
  apply (at2_inside _ _ g start Hshape) in Hstart.
  assert (in_bounds (Z.of_nat (length g)) (Z.of_nat (length (hd [] g)))
            start.1 start.2 = true) as Hin by (unfold in_bounds; lia).
  destruct (matrix_get2 _ _ fire_time _ _ Hft Hin) as (fv & Hfv & _).
  unfold a_star_with_fire. rewrite rectangular_dims by done. rewrite Hfv.
  destruct (ftime_le fv (Fin 0)) eqn:Hle; [by exists [], self |].
  assert (fire_safe fire_time start 0) as Hsafe by by eapply fire_safe_intro.
  destruct (fire_loop_returns g start end_ mode Hrect fire_time Hft
              {| expanded_nodes := 0 |} Hsafe) as (st & self' & -> & HJ).
  destruct (finish_unreachable g start end_ _ st HJ) as (path & Hfin & Hempty).
  exists path, self'. simpl. by rewrite Hfin.
Qed.

Lemma a_star_with_fire_returns_witness :
  ∃ path self',
    @a_star_with_fire Float64_half Algorithm_init scenario_grid (0, 2) (1, 0)
      scenario_fire "euclidean" = (Ret path, self') ∧
    ((1, 0) ≠ (0, 2) → ¬ passable scenario_grid (1, 0) → path = []).
Proof.
  apply (@a_star_with_fire_returns Float64_half).
  - apply rectangular_scenario_grid.
  - apply shape_scenario_fire.
  - by eexists.
  - right. by eexists.
Defined.

(** X8. For every heuristic kind other than euclidean the heuristic is an
    integer that is not negative, never exceeds the number of steps of a
    walk from the node to the end in any grid (it is admissible), and
    changes by at most one between 4-adjacent nodes (it is consistent). *)
Theorem heuristic_admissible `{Float64} (g : grid) (node end_ : pos)
    (mode : string) :
  mode ≠ "euclidean"%string →
  ∃ h, heuristic node end_ mode = Int h ∧ 0 ≤ h ∧
       (∀ k, walk g node k end_ → h ≤ Z.of_nat k) ∧
       (∀ node', adjacent node node' →
                 ∃ h', heuristic node' end_ mode = Int h' ∧ h ≤ h' + 1).
Proof.
  intros Hmode%String.eqb_neq.
  assert (∃ f : pos → Z,
            (∀ n, heuristic n end_ mode = Int (f n)) ∧
            ((∀ n, f n = manhattan n end_) ∨ (∀ n, f n = 0)))
    as (f & Hf & Hcases).
  { destruct (String.eqb mode "manhattan") eqn:Hm;
      [| destruct (String.eqb mode "zero") eqn:Hz].
    - exists (λ n, manhattan n end_). split; [| by left].
      intros [x y]. unfold heuristic, manhattan. destruct end_. by rewrite Hm.
    - exists (λ _, 0). split; [| by right].
      intros [x y]. unfold heuristic. destruct end_. by rewrite Hm, Hmode, Hz.
    - exists (λ n, manhattan n end_). split; [| by left].
      intros [x y]. unfold heuristic, manhattan. destruct end_.
      by rewrite Hm, Hmode, Hz. }
  exists (f node). split; [done |].
  assert (0 ≤ f node ≤ manhattan node end_) as Hbound.
  { destruct Hcases as [Hc | Hc]; rewrite Hc; unfold manhattan; lia. }
  split; [lia |]. split.
  - intros k Hk%walk_manhattan. lia.
  - intros node' (d & Hd & ->). exists (f (node.1 + d.1, node.2 + d.2)).
    split; [done |].
    destruct Hcases as [Hc | Hc]; rewrite !Hc; [| lia].
    unfold manhattan, directions in *. rewrite !elem_of_cons in Hd. simpl.
    destruct Hd as [-> | [-> | [-> | [-> | []%elem_of_nil]]]]; simpl; lia.
Qed.

Lemma heuristic_admissible_witness :
  ∃ h, @heuristic Float64_half (0, 0) (4, 4) "manhattan" = Int h ∧ 0 ≤ h ∧
       (∀ k, walk open_grid (0, 0) k (4, 4) → h ≤ Z.of_nat k) ∧
       (∀ node', adjacent (0, 0) node' →
                 ∃ h', @heuristic Float64_half node' (4, 4) "manhattan" = Int h' ∧
                       h ≤ h' + 1).
Proof. apply (@heuristic_admissible Float64_half). done. Defined.

(** X9. The escape stays ahead of the fire: when the fire matrix is the one
    [compute_fire_time] returns for the grid, no cell of a path returned by
    the hazard-aware search can be reached by the fire, from any ['F'] cell
    along cells that are not walls, in as many steps as the path takes to
    reach it, or fewer. *)
Theorem escape_ahead_of_fire `{Float64} (self : Algorithm) (g : grid)
    (start end_ : pos) (mode : string) (fire_time : fire_map) (path : list pos) :
  rectangular g →
  FireTime.compute_fire_time g = Ret fire_time →
  (a_star_with_fire self g start end_ fire_time mode).1 = Ret path →
  ∀ i p n, path !! i = Some p → fire_reaches g n p → (i < n)%nat.
Proof.
  intros Hrect Hft Hpath i p n Hp Hreach.
  destruct (compute_fire_time_final g Hrect) as (ft & Hft' & Hfinal).
  rewrite Hft in Hft'. injection Hft' as <-.
  pose proof (fire_search_spec self g start end_ fire_time mode) as Hspec.
  rewrite Hpath in Hspec. destruct Hspec as [-> | [_ Hsafe]]; [done |].
  destruct (Hsafe i p Hp) as (v & Hv & Hgt).
  destruct (FireInv.final_complete _ _ Hfinal n p Hreach) as (v' & Hv' & Hle).
  assert (0 ≤ p.1 ∧ 0 ≤ p.2) as [Hx Hy].
  { unfold at2 in Hv'. by case_decide. }
  rewrite get2_at2 in Hv by done.
  rewrite <- surjective_pairing, Hv' in Hv. injection Hv as <-.
  simpl in Hgt. lia.
Qed.

Lemma escape_ahead_of_fire_witness :
  fire_reaches scenario_grid 2 (1, 2) ∧ (1 < 2)%nat.
Proof.
  assert (fire_reaches scenario_grid 2 (1, 2)) as Hreach.
  { apply (fire_spread _ 1 (1, 1)).
    - apply (fire_spread _ 0 (1, 0)).
      + by apply fire_source.
      + exists (0, 1). split; [unfold directions; set_solver | done].
      + exists "."%char. split; reflexivity.
    - exists (0, 1). split; [unfold directions; set_solver | done].
    - exists "."%char. split; reflexivity. }
  split; [done |].
  apply (@escape_ahead_of_fire Float64_half Algorithm_init scenario_grid
           (0, 2) (2, 2) "manhattan" scenario_fire [(0, 2); (1, 2); (2, 2)]
           rectangular_scenario_grid eq_refl eq_refl 1%nat (1, 2) 2%nat eq_refl Hreach).
Defined.

(** X10. An empty grid makes all three operations raise [IndexError], as
    does an empty fire matrix for the hazard-aware search; the counter of
    the object is left as it was. *)
Theorem empty_input_raises `{Float64} (self : Algorithm) (g : grid)
    (start end_ : pos) (fire_time : fire_map) (mode : string) :
  FireTime.compute_fire_time [] = Raise IndexError ∧
  a_star_no_fire self [] start end_ mode = (Raise IndexError, self) ∧
  a_star_with_fire self [] start end_ fire_time mode = (Raise IndexError, self) ∧
  (g ≠ [] → a_star_with_fire self g start end_ [] mode = (Raise IndexError, self)).
Proof.
  do 3 (split; [done |]). intros Hg. destruct g as [|row0 g]; [done |].
  unfold a_star_with_fire. rewrite grid_dims_cons.
  unfold get2, getitem. simpl length. rewrite Z.add_0_r.
  destruct (start.2 <? 0) eqn:Hneg; [by rewrite Hneg |].
  by rewrite Hneg.
Qed.

Lemma empty_input_raises_witness :
  @a_star_with_fire Float64_half Algorithm_init scenario_grid (0, 2) (2, 2) [] "zero"
  = (Raise IndexError, Algorithm_init).
Proof.
  apply (@empty_input_raises Float64_half Algorithm_init scenario_grid
           (0, 2) (2, 2) [] "zero").
  done.
Defined.

(** X16. The heuristic kinds change the work, not the answer: on a
    rectangular grid with start and end not walls, two calls of a search
    with supported heuristic kinds return paths of the same length, for the
    hazard-blind search and, with a fire matrix of the dimensions of the
    grid, for the hazard-aware one. *)
Theorem heuristic_kinds_agree `{Float64} (self1 self2 : Algorithm) (g : grid)
    (start end_ : pos) (mode1 mode2 : string) :
  rectangular g →
  passable g start → passable g end_ →
  supported_mode g mode1 → supported_mode g mode2 →
  (∃ path1 path2 self1' self2',
     a_star_no_fire self1 g start end_ mode1 = (Ret path1, self1') ∧
     a_star_no_fire self2 g start end_ mode2 = (Ret path2, self2') ∧
     length path1 = length path2) ∧
  (∀ fire_time, shape (length g) (length (hd [] g)) fire_time →
     ∃ path1 path2 self1' self2',
       a_star_with_fire self1 g start end_ fire_time mode1 = (Ret path1, self1') ∧
       a_star_with_fire self2 g start end_ fire_time mode2 = (Ret path2, self2') ∧
       length path1 = length path2).
Proof.
  intros Hrect Hstart Hend Hmode1 Hmode2.
  pose proof (supported_mode_consistent g start end_ mode1 Hrect Hstart Hend Hmode1)
    as Hcons1.
  pose proof (supported_mode_consistent g start end_ mode2 Hrect Hstart Hend Hmode2)
    as Hcons2.
  split.
  - destruct (plain_search_optimal self1 g start end_ mode1 Hrect Hcons1)
      as (path1 & self1' & Hcall1 & Hfound1 & Hnone1).
    destruct (plain_search_optimal self2 g start end_ mode2 Hrect Hcons2)
      as (path2 & self2' & Hcall2 & Hfound2 & Hnone2).
    exists path1, path2, self1', self2'. do 2 (split; [done |]).
    pose proof (plain_search_spec self1 g start end_ mode1) as Hspec.
    rewrite Hcall1 in Hspec. simpl in Hspec. destruct Hspec as [-> | Hroute1].
    + rewrite Hnone2; [done |]. intros k Hk.
      destruct (Hfound1 (ex_intro _ k Hk)) as [Hroute _].
      by destruct (walk_route _ _ _ _ Hroute).
    + destruct (walk_route _ _ _ _ Hroute1) as [Hwalk Hne1].
      destruct (Hfound1 (ex_intro _ _ Hwalk)) as [_ [Hw1 Hmin1]].
      destruct (Hfound2 (ex_intro _ _ Hwalk)) as [Hroute2 [Hw2 Hmin2]].
      destruct (walk_route _ _ _ _ Hroute2) as [_ Hne2].
      specialize (Hmin1 _ Hw2). specialize (Hmin2 _ Hw1).
      destruct path1; [done |]. destruct path2; [done |]. simpl in *. lia.
  - intros ft Hft.
    destruct (fire_search_optimal self1 g start end_ ft mode1 Hrect Hft Hstart Hcons1)
      as (path1 & self1' & Hcall1 & Hfound1 & Hnone1).
    destruct (fire_search_optimal self2 g start end_ ft mode2 Hrect Hft Hstart Hcons2)
      as (path2 & self2' & Hcall2 & Hfound2 & Hnone2).
    exists path1, path2, self1', self2'. do 2 (split; [done |]).
    pose proof (fire_search_spec self1 g start end_ ft mode1) as Hspec.
    rewrite Hcall1 in Hspec. simpl in Hspec.
    destruct Hspec as [-> | [Hroute1 Hsafe1]].
    + rewrite Hnone2; [done |]. intros k Hk.
      destruct (Hfound1 (ex_intro _ k Hk)) as [Hroute _].
      by destruct (walk_route _ _ _ _ Hroute).
    + destruct (walk_route _ _ _ _ Hroute1) as [_ Hne1].
      pose proof (route_safe_walk _ _ _ _ _ Hroute1 Hsafe1) as Hwalk1.
      destruct (Hfound1 (ex_intro _ _ Hwalk1)) as (_ & _ & Hmin1).
      destruct (Hfound2 (ex_intro _ _ Hwalk1)) as (Hroute2 & Hsafe2 & Hmin2).
      destruct (walk_route _ _ _ _ Hroute2) as [_ Hne2].
      pose proof (route_safe_walk _ _ _ _ _ Hroute2 Hsafe2) as Hwalk2.
      specialize (Hmin1 _ Hwalk2). specialize (Hmin2 _ Hwalk1).
      destruct path1; [done |]. destruct path2; [done |]. simpl in *. lia.
Qed.

Lemma heuristic_kinds_agree_witness :
  (∃ path1 path2 self1' self2',
     @a_star_no_fire Float64_half Algorithm_init scenario_grid (0, 2) (2, 2)
       "manhattan" = (Ret path1, self1') ∧
     @a_star_no_fire Float64_half Algorithm_init scenario_grid (0, 2) (2, 2)
       "zero" = (Ret path2, self2') ∧
     length path1 = length path2) ∧
  (∀ fire_time,
     shape (length scenario_grid) (length (hd [] scenario_grid)) fire_time →
     ∃ path1 path2 self1' self2',
       @a_star_with_fire Float64_half Algorithm_init scenario_grid (0, 2) (2, 2)
         fire_time "manhattan" = (Ret path1, self1') ∧
       @a_star_with_fire Float64_half Algorithm_init scenario_grid (0, 2) (2, 2)
         fire_time "zero" = (Ret path2, self2') ∧
       length path1 = length path2).
Proof.
  apply (@heuristic_kinds_agree Float64_half).
  - apply rectangular_scenario_grid.
  - exists "D"%char. split; reflexivity.
  - exists "S"%char. split; reflexivity.
  - left. reflexivity.
  - right. left. reflexivity.
Defined.

(** X17. Avoiding the fire never shortens the way: on a rectangular grid,
    with a supported heuristic kind, when the hazard-aware search returns a
    path that is not empty, the hazard-blind search returns one that is not
    empty either and not longer. *)
Theorem safe_route_not_shorter `{Float64} (self1 self2 : Algorithm) (g : grid)
    (start end_ : pos) (fire_time : fire_map) (mode1 mode2 : string)
    (safe_path : list pos) :
  rectangular g →
  passable g start → passable g end_ →
  supported_mode g mode2 →
  (a_star_with_fire self1 g start end_ fire_time mode1).1 = Ret safe_path →
  safe_path ≠ [] →
  ∃ path self2',
    a_star_no_fire self2 g start end_ mode2 = (Ret path, self2') ∧
    path ≠ [] ∧ (length path ≤ length safe_path)%nat.
Proof.
  intros Hrect Hstart Hend Hmode Hsafe Hne.
  pose proof (supported_mode_consistent g start end_ mode2 Hrect Hstart Hend Hmode)
    as Hcons.
  destruct (plain_search_optimal self2 g start end_ mode2 Hrect Hcons)
    as (path & self2' & Hcall & Hfound & _).
  exists path, self2'. split; [done |].
  pose proof (fire_search_spec self1 g start end_ fire_time mode1) as Hspec.
  rewrite Hsafe in Hspec. destruct Hspec as [-> | [Hroute _]]; [done |].
  destruct (walk_route _ _ _ _ Hroute) as [Hwalk _].
  destruct (Hfound (ex_intro _ _ Hwalk)) as [Hroute' [_ Hmin]].
  destruct (walk_route _ _ _ _ Hroute') as [_ Hne'].
  split; [done |]. specialize (Hmin _ Hwalk).
  destruct path; [done |]. destruct safe_path; [done |]. simpl in *. lia.
Qed.

Lemma safe_route_not_shorter_witness :
  ∃ path self2',
    @a_star_no_fire Float64_half Algorithm_init scenario_grid (0, 2) (2, 2)
      "zero" = (Ret path, self2') ∧
    path ≠ [] ∧ (length path ≤ length [(0, 2); (1, 2); (2, 2)]%Z)%nat.
Proof.
  apply (@safe_route_not_shorter Float64_half Algorithm_init Algorithm_init
           scenario_grid (0, 2) (2, 2) scenario_fire "manhattan" "zero").
  - apply rectangular_scenario_grid.
  - exists "D"%char. split; reflexivity.
  - exists "S"%char. split; reflexivity.
  - right. left. reflexivity.
  - vm_compute. reflexivity.
  - done.
Defined.

(** X18. The searches read the grid through its walls only: on two grids
    of the same dimensions whose walls are at the same places, either
    search returns the same path and leaves the same counter. *)
Theorem searches_read_walls_only `{Float64} (self : Algorithm) (g g' : grid)
    (start end_ : pos) (mode : string) :
  rectangular g →
  shape (length g) (length (hd [] g)) g' →
  (∀ p c c', at2 g p = Some c → at2 g' p = Some c' → is_wall c = is_wall c') →
  a_star_no_fire self g' start end_ mode = a_star_no_fire self g start end_ mode ∧
  ∀ fire_time,
    a_star_with_fire self g' start end_ fire_time mode
    = a_star_with_fire self g start end_ fire_time mode.
Proof. apply search_same_walls. Qed.

Lemma searches_read_walls_only_witness :
  @a_star_no_fire Float64_half Algorithm_init
    (row_of_string <$> ["..."; "..."; "..."]%string) (0, 2) (2, 2) "manhattan"
  = @a_star_no_fire Float64_half Algorithm_init scenario_grid (0, 2) (2, 2)
      "manhattan" ∧
  ∀ fire_time,
    @a_star_with_fire Float64_half Algorithm_init
      (row_of_string <$> ["..."; "..."; "..."]%string) (0, 2) (2, 2) fire_time
      "manhattan"
    = @a_star_with_fire Float64_half Algorithm_init scenario_grid (0, 2) (2, 2)
        fire_time "manhattan".
Proof.
  apply (@searches_read_walls_only Float64_half).
  - apply rectangular_scenario_grid.
  - split; [done |]. by repeat constructor.
  - intros [x y] c c' Hc Hc'.
    assert (0 ≤ x < 3 ∧ 0 ≤ y < 3) as Hxy.
    { apply (at2_inside 3 3 scenario_grid (x, y)); [| by eexists].
      split; [done |]. by repeat constructor. }
    assert (x = 0 ∨ x = 1 ∨ x = 2) as Hx by lia.
    assert (y = 0 ∨ y = 1 ∨ y = 2) as Hy by lia.
    destruct Hx as [-> | [-> | ->]], Hy as [-> | [-> | ->]];
      vm_compute in Hc, Hc'; by simplify_eq.
Defined.

(** * Further properties of [MapGenerator.py] *)

(** X11. For every width and height of at least 3 that are not both even,
    and for every sequence of random draws, [generate] returns a maze in
    which every free cell is reached from the entrance (1, 1) through
    4-adjacent free cells; so the exit (width - 2, height - 2) is reached
    from the entrance. *)
Theorem generate_connected (rnd : nat → nat) (width height : Z) :
  3 ≤ width → 3 ≤ height →
  width `mod` 2 = 1 ∨ height `mod` 2 = 1 →
  ∃ m, MapGenerator.generate rnd width height = Ret m ∧
       connected m ∧ linked m (1, 1) (width - 2, height - 2).
Proof.
  intros Hw Hh Hodd.
  destruct (generate_returns_cells rnd width height Hw Hh)
    as (m & Hgen & _ & _ & _ & Hexit & _ & Hconn & _).
  exists m. split; [done |]. split; [by apply Hconn |]. by apply Hconn.
Qed.

Lemma generate_connected_witness :
  ∃ m, MapGenerator.generate (λ k, k) 7 5 = Ret m ∧
       connected m ∧ linked m (1, 1) (7 - 2, 5 - 2).
Proof. apply generate_connected; [lia | lia | by left]. Defined.

(** X12. For every width and height of at least 3 and every sequence of
    random draws, [generate] returns a matrix of [height] rows of [width]
    cells that holds only 0 and 1, in which the entrance (1, 1), the exit
    (width - 2, height - 2) and every cell inside the border with two odd
    coordinates are free. *)
Theorem generate_cells (rnd : nat → nat) (width height : Z) :
  3 ≤ width → 3 ≤ height →
  ∃ m, MapGenerator.generate rnd width height = Ret m ∧
       shape (Z.to_nat height) (Z.to_nat width) m ∧
       (∀ p v, at2 m p = Some v → v = 0 ∨ v = 1) ∧
       at2 m (1, 1) = Some 0 ∧
       at2 m (width - 2, height - 2) = Some 0 ∧
       (∀ p, 0 < p.1 < width - 1 → 0 < p.2 < height - 1 →
             p.1 `mod` 2 = 1 → p.2 `mod` 2 = 1 → at2 m p = Some 0).
Proof.
  intros Hw Hh.
  destruct (generate_returns_cells rnd width height Hw Hh)
    as (m & Hgen & Hsh & Hval & Hin & Hout & Hlat & _ & _).
  exists m. do 5 (split; [done |]).
  intros p Hx Hy. apply Hlat.
  unfold MapGenerator.interior. rewrite !andb_true_iff, !Z.ltb_lt. lia.
Qed.

Lemma generate_cells_witness :
  ∃ m, MapGenerator.generate no_random 4 4 = Ret m ∧
       shape (Z.to_nat 4) (Z.to_nat 4) m ∧
       (∀ p v, at2 m p = Some v → v = 0 ∨ v = 1) ∧
       at2 m (1, 1) = Some 0 ∧
       at2 m (4 - 2, 4 - 2) = Some 0 ∧
       (∀ p, 0 < p.1 < 4 - 1 → 0 < p.2 < 4 - 1 →
             p.1 `mod` 2 = 1 → p.2 `mod` 2 = 1 → at2 m p = Some 0).
Proof. apply generate_cells; lia. Defined.

(** X13. On a matrix of [height] rows of [width] cells, [add_loops(0.1)],
    the call [generate] makes, returns for every sequence of random draws;
    it keeps the dimensions; a cell either keeps its value or was a wall
    inside the border with at least two free neighbours before the call
    and is free after it; and each random draw frees one more cell. *)
Theorem add_loops_opens_walls (rnd : nat → nat) (width height : Z)
    (m : maze) (k : nat) :
  shape (Z.to_nat height) (Z.to_nat width) m →
  ∃ m' k',
    MapGenerator.add_loops rnd width height (1 # 10) m k = Ret (m', k') ∧
    shape (Z.to_nat height) (Z.to_nat width) m' ∧
    (∀ p, at2 m' p = at2 m p ∨ loop_opened width height m m' p) ∧
    (k ≤ k')%nat ∧ free_count m' = (free_count m + (k' - k))%nat.
Proof.
  intros Hsh.
  destruct (add_loops_frame rnd width height (1 # 10) m k Hsh)
    as (m' & k' & Hloops & Hsh' & Hframe & Hcount & Hk).
  exists m', k'. do 4 (split; [done |]). lia.
Qed.

Lemma add_loops_opens_walls_witness :
  ∃ m' k',
    MapGenerator.add_loops draws_9x9 9 9 (1 # 10) carved_9x9 15 = Ret (m', k') ∧
    shape (Z.to_nat 9) (Z.to_nat 9) m' ∧
    (∀ p, at2 m' p = at2 carved_9x9 p ∨ loop_opened 9 9 carved_9x9 m' p) ∧
    (15 ≤ k')%nat ∧ free_count m' = (free_count carved_9x9 + (k' - 15))%nat.
Proof.
  apply add_loops_opens_walls. split; [done |]. by repeat constructor.
Defined.

(** X14. [add_loops(0.1)], the call [generate] makes, keeps a maze
    connected: when every free cell is reached from the entrance before
    the call, so it is after it. *)
Theorem add_loops_keeps_connected (rnd : nat → nat) (width height : Z)
    (m m' : maze) (k k' : nat) :
  shape (Z.to_nat height) (Z.to_nat width) m →
  MapGenerator.add_loops rnd width height (1 # 10) m k = Ret (m', k') →
  connected m → connected m'.
Proof.
  intros Hsh Hloops Hconn.
  destruct (add_loops_frame rnd width height (1 # 10) m k Hsh)
    as (m1 & k1 & Hloops' & _ & Hframe & _).
  rewrite Hloops in Hloops'. injection Hloops' as <- <-.
  by apply (opened_connected width height m m').
Qed.

Lemma carved_9x9_connected : connected carved_9x9.
Proof.
  destruct (carve_perfect draws_9x9 9 9 ltac:(lia) ltac:(lia) ltac:(by left))
    as (m & k & Hcarve & _ & Hconn & _).
  assert (MapGenerator.carve draws_9x9 9 9 = Ret (carved_9x9, 15%nat)) as Hrun
    by by vm_compute.
  rewrite Hrun in Hcarve. by injection Hcarve as <- _.
Qed.

(** On the carved 9 x 9 maze the call opens the wall (4, 3). *)
Lemma add_loops_keeps_connected_witness :
  connected maze_9x9.
Proof.
  apply (add_loops_keeps_connected draws_9x9 9 9 carved_9x9 maze_9x9 15 16).
  - split; [done |]. by repeat constructor.
  - by vm_compute.
  - apply carved_9x9_connected.
Defined.

Lemma getitem_out {A : Type} (l : list A) (i : Z) :
  Z.of_nat (length l) ≤ i → getitem l i = Raise IndexError.
Proof.
  intros Hi. rewrite getitem_lookup by lia.
  rewrite lookup_ge_None_2; [done | lia].
Qed.

Lemma setitem_out {A : Type} (l : list A) (i : Z) (v : A) :
  Z.of_nat (length l) ≤ i → setitem l i v = Raise IndexError.
Proof.
  intros Hi. unfold setitem. cbv zeta.
  destruct (Z.ltb_spec i 0); [lia |].
  destruct (Z.ltb_spec i 0); [lia |].
  destruct (Z.ltb_spec i (Z.of_nat (length l))); [lia | done].
Qed.

(** X15. With a width or a height below 2, [generate] raises
    [IndexError]: the entrance (1, 1) is not a cell of the matrix. *)
Theorem generate_too_small (rnd : nat → nat) (width height : Z) :
  width < 2 ∨ height < 2 →
  MapGenerator.generate rnd width height = Raise IndexError.
Proof.
  intros Hsmall.
  unfold MapGenerator.generate, MapGenerator.carve.
  assert (set2 (replicate (Z.to_nat height) (replicate (Z.to_nat width) 1)) 1 1 0
          = Raise IndexError) as ->; [| done].
  unfold set2.
  destruct (decide (height < 2)) as [Hh | Hh].
  { rewrite getitem_out; [done |]. rewrite length_replicate. lia. }
  rewrite getitem_lookup by lia.
  rewrite lookup_replicate_2 by lia. rewrite bind_Ret.
  rewrite setitem_out; [done |]. rewrite length_replicate. lia.
Qed.

Lemma generate_too_small_witness :
  MapGenerator.generate no_random 1 9 = Raise IndexError.
Proof. apply generate_too_small. left. lia. Defined.

(** * Properties of the grids [Main.py] builds and prepares *)

Lemma shape_rectangular (R C : nat) (g : grid) :
  (0 < R)%nat → shape R C g → rectangular g.
Proof.
  intros HR [Hlen Hrows]. destruct g as [|row g]; [simpl in Hlen; lia |].
  split; [done |]. split; [done |].
  apply Forall_cons in Hrows as [Hrow Hrows]. simpl. rewrite Hrow.
  by constructor.
Qed.

(** X19. On a rectangular grid, when [random.shuffle] rearranges its list,
    [add_random_fire_to_grid] returns; it keeps the dimensions; a cell
    either keeps its character or was a ['.'] cell other than the start and
    the end and now holds ['F']; and the number of ['F'] cells grows by the
    smaller of [count] and the number of such cells (by nothing when
    [count] is negative). *)
Theorem add_random_fire_places_fire (shuffle : list pos → list pos) (g : grid)
    (count : Z) (start end_ : option pos) :
  (∀ l, shuffle l ≡ₚ l) →
  rectangular g →
  ∃ g' spots,
    Main.add_random_fire_to_grid shuffle g (Z.of_nat (length g))
      (Z.of_nat (length (hd [] g))) count start end_ = Ret g' ∧
    shape (length g) (length (hd [] g)) g' ∧
    NoDup spots ∧ (∀ p, p ∈ spots ↔ fire_spot g start end_ p) ∧
    (∀ p, at2 g' p = at2 g p ∨
          (fire_spot g start end_ p ∧ at2 g' p = Some "F"%char)) ∧
    count_char "F" g'
    = (count_char "F" g + Z.to_nat (Z.min count (Z.of_nat (length spots))))%nat.
Proof.
  intros Hshuffle [_ Hshape].
  destruct (add_random_fire_spec _ _ g start end_ Hshape shuffle count Hshuffle)
    as (g' & spots & Hadd & Hsh & Hnd & Hspots & Hframe & Hsum).
  exists g', spots. do 5 (split; [done |]).
  specialize (Hsum (λ v, if Ascii.eqb v "F" then 1%nat else 0%nat)).
  unfold count_char. simpl in Hsum. lia.
Qed.

Lemma add_random_fire_places_fire_witness :
  ∃ g' spots,
    Main.add_random_fire_to_grid (λ l, l) scenario_grid
      (Z.of_nat (length scenario_grid)) (Z.of_nat (length (hd [] scenario_grid)))
      2 (Some (0, 2)) (Some (2, 2)) = Ret g' ∧
    shape (length scenario_grid) (length (hd [] scenario_grid)) g' ∧
    NoDup spots ∧
    (∀ p, p ∈ spots ↔ fire_spot scenario_grid (Some (0, 2)) (Some (2, 2)) p) ∧
    (∀ p, at2 g' p = at2 scenario_grid p ∨
          (fire_spot scenario_grid (Some (0, 2)) (Some (2, 2)) p ∧
           at2 g' p = Some "F"%char)) ∧
    count_char "F" g'
    = (count_char "F" scenario_grid
       + Z.to_nat (Z.min 2 (Z.of_nat (length spots))))%nat.
Proof.
  apply add_random_fire_places_fire; [done |].
  split; [done |]. split; [done |]. by repeat constructor.
Defined.

(** X20. When [random.shuffle] rearranges its list and [random.randint(1,
    3)] returns a number from 1 to 3, [build_random_tests] returns
    [num_tests] tests, each of them a grid of 31 rows of 51 cells with
    start (1, 1) holding the only ['D'], end (49, 29) holding the only
    ['S'], walls all along the border, from one to three ['F'] cells, and
    an end that can be reached from the start through cells that are not
    walls. *)
Theorem build_random_tests_well_formed (rnd : nat → nat → nat)
    (shuffle : nat → list pos → list pos) (randint : nat → Z) (num_tests : Z) :
  (∀ i l, shuffle i l ≡ₚ l) →
  (∀ i, 1 ≤ randint i ≤ 3) →
  ∃ tests,
    Main.build_random_tests rnd shuffle randint num_tests = Ret tests ∧
    length tests = Z.to_nat num_tests ∧
    Forall random_test_ok tests.
Proof. apply build_random_tests_spec. Qed.

Lemma build_random_tests_well_formed_witness :
  ∃ tests,
    Main.build_random_tests (λ _ k, k) (λ _ l, rev l) (λ _, 2) 3 = Ret tests ∧
    length tests = Z.to_nat 3 ∧
    Forall random_test_ok tests.
Proof.
  apply build_random_tests_well_formed.
  - intros _ l. symmetry. apply Permutation_rev.
  - intros _. lia.
Defined.

(** X21. Every test [build_random_tests] makes can be solved when the fire
    is ignored: for the heuristic kinds manhattan and zero the hazard-blind
    search on its grid returns a route of least length, not empty, from the
    start (1, 1) to the end (49, 29). *)
Theorem random_tests_have_routes `{Float64} (self : Algorithm)
    (rnd : nat → nat → nat) (shuffle : nat → list pos → list pos)
    (randint : nat → Z) (num_tests : Z) (mode : string) :
  (∀ i l, shuffle i l ≡ₚ l) →
  (∀ i, 1 ≤ randint i ≤ 3) →
  mode = "manhattan"%string ∨ mode = "zero"%string →
  ∃ tests,
    Main.build_random_tests rnd shuffle randint num_tests = Ret tests ∧
    Forall (λ t,
      ∃ path self',
        a_star_no_fire self (Main.test_grid t) (Main.test_start t)
          (Main.test_end t) mode = (Ret path, self') ∧
        path ≠ [] ∧
        route (Main.test_grid t) (1, 1) path (49, 29) ∧
        shortest (Main.test_grid t) (1, 1) (49, 29) (length path - 1)) tests.
Proof.
  intros Hshuffle Hrand Hmode.
  destruct (build_random_tests_spec rnd shuffle randint num_tests Hshuffle Hrand)
    as (tests & Hbuild & _ & Hok).
  exists tests. split; [done |].
  eapply Forall_impl; [exact Hok |]. intros t Ht.
  destruct Ht as [_ _ Hs He Hsh Hd Hx _ _ _ Hwalk]. rewrite Hs, He.
  assert (rectangular (Main.test_grid t)) as Hrect
    by (apply (shape_rectangular 31 51); [lia | done]).
  destruct (plain_search_optimal self (Main.test_grid t) (1, 1) (49, 29) mode Hrect)
    as (path & self' & Hcall & Hfound & _).
  { destruct Hmode as [-> | ->];
      [apply key_consistent_manhattan | apply key_consistent_zero]. }
  destruct (Hfound Hwalk) as [Hroute Hshort].
  exists path, self'. split; [done |]. split; [| done].
  by destruct (walk_route _ _ _ _ Hroute).
Qed.

Lemma random_tests_have_routes_witness :
  ∃ tests,
    Main.build_random_tests (λ _ k, k) (λ _ l, l) (λ _, 1) 2 = Ret tests ∧
    Forall (λ t,
      ∃ path self',
        @a_star_no_fire Float64_half Algorithm_init (Main.test_grid t)
          (Main.test_start t) (Main.test_end t) "zero" = (Ret path, self') ∧
        path ≠ [] ∧
        route (Main.test_grid t) (1, 1) path (49, 29) ∧
        shortest (Main.test_grid t) (1, 1) (49, 29) (length path - 1)) tests.
Proof.
  apply (@random_tests_have_routes Float64_half).
  - done.
  - intros _. lia.
  - by right.
Defined.

(** X22. On a rectangular grid [prepare_grid_and_fire] returns a grid of
    the same dimensions: in mode dynamic the grid itself with the fire
    matrix of [compute_fire_time]; in mode static the grid with every ['F']
    turned into ['#'] and no fire matrix; in every other mode the grid with
    every ['F'] turned into ['.'] and no fire matrix.  All other cells are
    kept. *)
Theorem prepare_grid_and_fire_modes (g : grid) (fire_mode : string) :
  rectangular g →
  ∃ base fire_time,
    Main.prepare_grid_and_fire g (Z.of_nat (length g))
      (Z.of_nat (length (hd [] g))) fire_mode = Ret (Some base, fire_time) ∧
    shape (length g) (length (hd [] g)) base ∧
    if String.eqb fire_mode "dynamic" then
      base = g ∧
      ∃ ft, fire_time = Some ft ∧ FireTime.compute_fire_time g = Ret ft
    else
      fire_time = None ∧
      ∀ p, at2 base p
           = if decide (at2 g p = Some "F"%char)
             then Some (if String.eqb fire_mode "static" then "#"%char else "."%char)
             else at2 g p.
Proof.
  intros Hrect. pose proof Hrect as [Hne Hshape].
  unfold Main.prepare_grid_and_fire. destruct g as [|row0 g0] eqn:Hg; [done |].
  rewrite <- Hg in *. clear Hg.
  destruct (String.eqb fire_mode "dynamic").
  - destruct (compute_fire_time_final g Hrect) as (ft & Hft & _).
    rewrite Hft, bind_Ret. exists g, (Some ft). split; [done |].
    split; [done |]. split; [done |]. by exists ft.
  - destruct (String.eqb fire_mode "static").
    + destruct (replace_fire_spec _ _ g "#" Hshape) as (base & -> & Hsh & Hat).
      rewrite bind_Ret. by exists base, None.
    + destruct (replace_fire_spec _ _ g "." Hshape) as (base & -> & Hsh & Hat).
      rewrite bind_Ret. by exists base, None.
Qed.

Lemma prepare_grid_and_fire_modes_witness :
  ∃ base fire_time,
    Main.prepare_grid_and_fire scenario_grid (Z.of_nat (length scenario_grid))
      (Z.of_nat (length (hd [] scenario_grid))) "static"
    = Ret (Some base, fire_time) ∧
    shape (length scenario_grid) (length (hd [] scenario_grid)) base ∧
    if String.eqb "static" "dynamic" then
      base = scenario_grid ∧
      ∃ ft, fire_time = Some ft ∧ FireTime.compute_fire_time scenario_grid = Ret ft
    else
      fire_time = None ∧
      ∀ p, at2 base p
           = if decide (at2 scenario_grid p = Some "F"%char)
             then Some (if String.eqb "static" "static" then "#"%char else "."%char)
             else at2 scenario_grid p.
Proof.
  apply prepare_grid_and_fire_modes.
  split; [done |]. split; [done |]. by repeat constructor.
Defined.

(** X23. In mode static the route avoids the fire: a path the hazard-blind
    search returns on the grid [prepare_grid_and_fire] made holds, apart
    from the start, no cell that is ['F'] or ['#'] in the grid of the
    test. *)
Theorem static_mode_avoids_fire `{Float64} (self : Algorithm) (g base : grid)
    (fire_time : option fire_map) (start end_ : pos) (mode : string)
    (path : list pos) :
  rectangular g →
  Main.prepare_grid_and_fire g (Z.of_nat (length g))
    (Z.of_nat (length (hd [] g))) "static" = Ret (Some base, fire_time) →
  (a_star_no_fire self base start end_ mode).1 = Ret path →
  ∀ p, p ∈ path → p ≠ start →
       is_Some (at2 g p) ∧ at2 g p ≠ Some "F"%char ∧ at2 g p ≠ Some "#"%char.
Proof.
  intros Hrect Hprep Hpath p Hp Hne. pose proof Hrect as [Hg Hshape].
  unfold Main.prepare_grid_and_fire in Hprep.
  destruct g as [|row0 g0] eqn:Heq; [done |]. rewrite <- Heq in *. clear Heq.
  change (String.eqb "static" "dynamic") with false in Hprep.
  change (String.eqb "static" "static") with true in Hprep. cbv iota in Hprep.
  destruct (replace_fire_spec _ _ g "#" Hshape) as (base' & Hrep & _ & Hat).
  rewrite Hrep, bind_Ret in Hprep. injection Hprep as <- _.
  pose proof (plain_search_spec self base' start end_ mode) as Hspec.
  rewrite Hpath in Hspec.
  destruct Hspec as [-> | Hroute]; [by apply elem_of_nil in Hp |].
  destruct (route_passable base' start path end_ Hroute p Hp)
    as [-> | (c & Hc & Hwall)]; [done |].
  rewrite Hat in Hc. case_decide as HF.
  - injection Hc as <-. done.
  - split; [by eexists |]. split; [done |]. intros Hw. rewrite Hw in Hc.
    injection Hc as <-. done.
Qed.

Lemma static_mode_avoids_fire_witness :
  is_Some (at2 scenario_grid (1, 2)) ∧
  at2 scenario_grid (1, 2) ≠ Some "F"%char ∧
  at2 scenario_grid (1, 2) ≠ Some "#"%char.
Proof.
  apply (@static_mode_avoids_fire Float64_half Algorithm_init scenario_grid
           (row_of_string <$> [".#."; "..."; "D.S"]%string) None
           (0, 2) (2, 2) "manhattan" [(0, 2); (1, 2); (2, 2)]).
  - split; [done |]. split; [done |]. by repeat constructor.
  - vm_compute. reflexivity.
  - vm_compute. reflexivity.
  - vm_compute. set_solver.
  - done.
Defined.

(** X24. Turning the ['F'] cells into ['.'] changes nothing for the
    hazard-blind search: on a rectangular grid, [prepare_grid_and_fire] in
    a mode other than dynamic and static and
    [prepare_grid_and_fire_for_plain] return the same grid, the second with
    the fire matrix it was given, and on that grid [a_star_no_fire] returns
    the path and leaves the counter it does on the grid itself. *)
Theorem ignoring_fire_keeps_search `{Float64} (self : Algorithm) (g : grid)
    (fire_mode : string) (fire_time : option fire_map) (start end_ : pos)
    (mode : string) :
  rectangular g →
  fire_mode ≠ "dynamic"%string → fire_mode ≠ "static"%string →
  ∃ base,
    Main.prepare_grid_and_fire g (Z.of_nat (length g))
      (Z.of_nat (length (hd [] g))) fire_mode = Ret (Some base, None) ∧
    Main.prepare_grid_and_fire_for_plain g (Z.of_nat (length g))
      (Z.of_nat (length (hd [] g))) fire_time = Ret (base, fire_time) ∧
    a_star_no_fire self base start end_ mode
    = a_star_no_fire self g start end_ mode.
Proof.
  intros Hrect Hdyn Hstat. pose proof Hrect as [Hne Hshape].
  destruct (replace_fire_spec _ _ g "." Hshape) as (base & Hrep & Hsh & Hat).
  exists base. split; [| split].
  - unfold Main.prepare_grid_and_fire. destruct g as [|row0 g0]; [done |].
    apply String.eqb_neq in Hdyn, Hstat. by rewrite Hdyn, Hstat, Hrep.
  - unfold Main.prepare_grid_and_fire_for_plain. by rewrite Hrep.
  - apply search_same_walls; [done | done |].
    intros p c c' Hc Hc'. rewrite Hat, Hc in Hc'. case_decide as HF.
    + injection HF as ->. by injection Hc' as <-.
    + by injection Hc' as <-.
Qed.

Lemma ignoring_fire_keeps_search_witness :
  ∃ base,
    Main.prepare_grid_and_fire scenario_grid (Z.of_nat (length scenario_grid))
      (Z.of_nat (length (hd [] scenario_grid))) "none" = Ret (Some base, None) ∧
    Main.prepare_grid_and_fire_for_plain scenario_grid
      (Z.of_nat (length scenario_grid))
      (Z.of_nat (length (hd [] scenario_grid))) (Some scenario_fire)
    = Ret (base, Some scenario_fire) ∧
    @a_star_no_fire Float64_half Algorithm_init base (0, 2) (2, 2) "manhattan"
    = @a_star_no_fire Float64_half Algorithm_init scenario_grid (0, 2) (2, 2)
        "manhattan".
Proof.
  apply (@ignoring_fire_keeps_search Float64_half).
  - split; [done |]. split; [done |]. by repeat constructor.
  - done.
  - done.
Defined.

